(** * Token-bucket rate limiters and the URL shortener: a shallow embedding

    The development follows three source files of the repository:
    - [TokenBucket]: the single-bucket class of
      deepseek-r1/rate-limiter/run-009 (token-bucket.ts);
    - [TokenBucketRateLimiter]: the keyed registry of
      deepseek-r1/rate-limiter/run-010 (token-bucket.ts);
    - [URLShortener]: the three-index store of url-shortener.ts.

    JavaScript numbers are modelled in two ways. The classes are embedded
    with exact rationals ([Q]): the arithmetic of these buckets is the ideal
    one, without rounding, NaN or infinities. The invariants, the counts of
    a burst and the structural properties are stated over this embedding;
    they are about finite numbers, and none of them hinges on how an
    operation rounds. What a single consume call answers does hinge on it,
    so the constructor and the consume path of both classes are embedded a
    second time with IEEE 754 doubles ([TokenBucket64],
    [TokenBucketRateLimiter64]), and the decision of a call and its
    [retryAfter] are stated there.

    Every reading of [Date.now()] is an explicit argument of the operation
    that performs it, so the clock is an input of the model. *)

From Stdlib Require Import QArith Qround Qminmax Lqa ZArith Lia Ascii String DecimalString.
From Stdlib Require Import Floats.
From stdpp Require Import gmap strings list fin_maps.

#[local] Set Warnings "-inexact-float".

(** ** Outcomes of calls that may throw *)

Inductive outcome (E A : Type) : Type :=
| Returns (a : A)
| Throws (e : E).
Arguments Returns {E A} a.
Arguments Throws {E A} e.

(** ** JavaScript number helpers over [Q] *)

Module JsNum.
Local Open Scope Q_scope.

(** [Number.MAX_SAFE_INTEGER]: up to it the integers are numbers, and the
    integer arithmetic of the code is exact. *)
Definition MAX_SAFE_INTEGER : Z := (2 ^ 53 - 1)%Z.

(** [a <= b] on numbers. *)
Definition leb (a b : Q) : bool := Qle_bool a b.

(** [a < b] on numbers. *)
Definition ltb (a b : Q) : bool := negb (Qle_bool b a).

(** [a >= b] and [a > b]. *)
Definition geb (a b : Q) : bool := leb b a.

Definition gtb (a b : Q) : bool := ltb b a.

(** [o ?? d]: only [undefined] falls through to the default. *)
Definition nullish (o : option Q) (d : Q) : Q :=
  match o with Some x => x | None => d end.

(** [o || d]: [undefined] and the falsy number [0] both fall through. *)
Definition or_else (o : option Q) (d : Q) : Q :=
  match o with
  | Some x => if Qeq_bool x 0 then d else x
  | None => d
  end.

End JsNum.

(** ** run-009: the [TokenBucket] class *)

Module TokenBucket.
Import JsNum.
Local Open Scope Q_scope.

Record TokenBucketConfig : Type := {
  cfg_capacity : Q;
  cfg_refillRate : Q;
  cfg_initialTokens : option Q;
  cfg_lastRefillTime : option Q
}.

Record RateLimitResult : Type := {
  allowed : bool;
  remainingTokens : Q;
  retryAfter : option Z;
  limit : Q;
  resetTime : Q
}.

(** The private fields of the class; [getState] returns exactly these. *)
Record TokenBucketState : Type := {
  tokens : Q;
  lastRefillTime : Q;
  capacity : Q;
  refillRate : Q
}.

(** One constructor per [throw new Error(...)] of the class. *)
Inductive Error : Type :=
| CapacityNotPositive          (* 'Capacity must be greater than 0' *)
| RefillRateNotPositive        (* 'Refill rate must be greater than 0' *)
| InitialTokensNegative        (* 'Initial tokens cannot be negative' *)
| InitialTokensExceedCapacity  (* 'Initial tokens cannot exceed capacity' *)
| LastRefillInFuture           (* 'Last refill time cannot be in the future' *)
| ConsumeNotPositive           (* 'Tokens to consume must be greater than 0' *)
| ConsumeExceedsCapacity       (* 'Cannot consume N tokens, exceeds capacity C' *)
| AddNotPositive.              (* 'Tokens to add must be greater than 0' *)

(** [validateConfig]: [None] when nothing is thrown. [now] is the
    [Date.now()] read by the last check. *)
Definition validateConfig (now : Q) (config : TokenBucketConfig) : option Error :=
  if leb (cfg_capacity config) 0 then Some CapacityNotPositive
  else if leb (cfg_refillRate config) 0 then Some RefillRateNotPositive
  else
    match
      match cfg_initialTokens config with
      | Some i =>
          if ltb i 0 then Some InitialTokensNegative
          else if gtb i (cfg_capacity config) then Some InitialTokensExceedCapacity
          else None
      | None => None
      end
    with
    | Some e => Some e
    | None =>
        match cfg_lastRefillTime config with
        | Some l => if gtb l now then Some LastRefillInFuture else None
        | None => None
        end
    end.

(** The constructor. [nowV] is the clock read inside [validateConfig],
    [nowC] the one read for the default of [lastRefillTime]. *)
Definition new (nowV nowC : Q) (config : TokenBucketConfig)
  : outcome Error TokenBucketState :=
  match validateConfig nowV config with
  | Some e => Throws e
  | None =>
      Returns {| tokens := nullish (cfg_initialTokens config) (cfg_capacity config);
                 lastRefillTime := nullish (cfg_lastRefillTime config) nowC;
                 capacity := cfg_capacity config;
                 refillRate := cfg_refillRate config |}
  end.

(** [refill], with [now] the value of [Date.now()]. *)
Definition refill (now : Q) (b : TokenBucketState) : TokenBucketState :=
  let timeElapsedMs := now - lastRefillTime b in
  if leb timeElapsedMs 0 then b
  else
    let tokensToAdd := (timeElapsedMs / 1000) * refillRate b in
    {| tokens := Qmin (capacity b) (tokens b + tokensToAdd);
       lastRefillTime := now;
       capacity := capacity b;
       refillRate := refillRate b |}.

(** The callback that [tryConsume] chains on [this.lock]: refill, decide and
    commit run to completion as one microtask. *)
Definition consumeStep (now : Q) (tokensToConsume : Q) (b : TokenBucketState)
  : RateLimitResult * TokenBucketState :=
  let b1 := refill now b in
  if geb (tokens b1) tokensToConsume then
    let b2 := {| tokens := tokens b1 - tokensToConsume;
                 lastRefillTime := lastRefillTime b1;
                 capacity := capacity b1;
                 refillRate := refillRate b1 |} in
    let remaining := tokens b2 in
    let nextRefillTime := lastRefillTime b2 + (1000 / refillRate b2) in
    ({| allowed := true;
        remainingTokens := remaining;
        retryAfter := None;
        limit := capacity b2;
        resetTime := nextRefillTime |}, b2)
  else
    let tokensNeeded := tokensToConsume - tokens b1 in
    let timeToWaitMs := (tokensNeeded / refillRate b1) * 1000 in
    ({| allowed := false;
        remainingTokens := tokens b1;
        retryAfter := Some (Qceiling (timeToWaitMs / 1000));
        limit := capacity b1;
        resetTime := lastRefillTime b1 + timeToWaitMs |}, b1).

(** [tryConsume]: the two argument checks run synchronously, then the
    callback. The bucket after the call is the second component; a throw
    happens before anything is written. *)
Definition tryConsume (now : Q) (tokensToConsume : Q) (b : TokenBucketState)
  : outcome Error RateLimitResult * TokenBucketState :=
  if leb tokensToConsume 0 then (Throws ConsumeNotPositive, b)
  else if gtb tokensToConsume (capacity b) then (Throws ConsumeExceedsCapacity, b)
  else let '(r, b') := consumeStep now tokensToConsume b in (Returns r, b').

(** [addTokens]. *)
Definition addTokens (tokensToAdd : Q) (b : TokenBucketState)
  : outcome Error Q * TokenBucketState :=
  if leb tokensToAdd 0 then (Throws AddNotPositive, b)
  else
    let b' := {| tokens := Qmin (capacity b) (tokens b + tokensToAdd);
                 lastRefillTime := lastRefillTime b;
                 capacity := capacity b;
                 refillRate := refillRate b |} in
    (Returns (tokens b'), b').

(** [getState]: a copy of the four fields. *)
Definition getState (b : TokenBucketState) : TokenBucketState := b.

(** [reset(initialTokens?)]. *)
Definition reset (now : Q) (initialTokens : option Q) (b : TokenBucketState)
  : TokenBucketState :=
  {| tokens := nullish initialTokens (capacity b);
     lastRefillTime := now;
     capacity := capacity b;
     refillRate := refillRate b |}.

(** The argument of [updateConfig]: a [Partial] of capacity and rate. *)
Record PartialConfig : Type := {
  new_capacity : option Q;
  new_refillRate : option Q
}.

(** The configuration that [updateConfig] validates: the requested fields
    over the current ones, with the current tokens as [initialTokens]. *)
Definition updateConfig_candidate (config : PartialConfig) (b : TokenBucketState)
  : TokenBucketConfig :=
  {| cfg_capacity := nullish (new_capacity config) (capacity b);
     cfg_refillRate := nullish (new_refillRate config) (refillRate b);
     cfg_initialTokens := Some (tokens b);
     cfg_lastRefillTime := Some (lastRefillTime b) |}.

(** The callback that [updateConfig] chains on [this.lock]. *)
Definition updateConfig_commit (config : PartialConfig) (b : TokenBucketState)
  : TokenBucketState :=
  let b1 :=
    match new_capacity config with
    | Some c => {| tokens := Qmin (tokens b) c;
                   lastRefillTime := lastRefillTime b;
                   capacity := c;
                   refillRate := refillRate b |}
    | None => b
    end in
  match new_refillRate config with
  | Some r => {| tokens := tokens b1;
                 lastRefillTime := lastRefillTime b1;
                 capacity := capacity b1;
                 refillRate := r |}
  | None => b1
  end.

(** [updateConfig] for a caller that awaits it: the validation, which reads
    the clock as [now], and then the callback, with no other callback of the
    bucket in between. *)
Definition updateConfig (now : Q) (config : PartialConfig) (b : TokenBucketState)
  : outcome Error unit * TokenBucketState :=
  match validateConfig now (updateConfig_candidate config b) with
  | Some e => (Throws e, b)
  | None => (Returns tt, updateConfig_commit config b)
  end.

(** Every method of the class that writes to the bucket, with the clock
    reading it sees. *)
Inductive Method : Type :=
| MethodTryConsume (now : Q) (tokensToConsume : Q)
| MethodAddTokens (tokensToAdd : Q)
| MethodReset (now : Q) (initialTokens : option Q)
| MethodUpdateConfig (now : Q) (config : PartialConfig).

Definition invoke (b : TokenBucketState) (m : Method) : TokenBucketState :=
  match m with
  | MethodTryConsume now n => snd (tryConsume now n b)
  | MethodAddTokens n => snd (addTokens n b)
  | MethodReset now initialTokens => reset now initialTokens b
  | MethodUpdateConfig now config => snd (updateConfig now config b)
  end.

(** Every [reset(x)] of the sequence is given an amount between 0 and the
    capacity that the bucket has when it runs. *)
Fixpoint resets_within_capacity (b : TokenBucketState) (ms : list Method) : Prop :=
  match ms with
  | [] => True
  | m :: rest =>
      match m with
      | MethodReset _ (Some x) => 0 <= x /\ x <= capacity b
      | _ => True
      end /\ resets_within_capacity (invoke b m) rest
  end.

(** The calls of a client, each with the clock reading its callback sees. *)
Inductive Call : Type :=
| CallTryConsume (now : Q) (tokensToConsume : Q)
| CallAddTokens (tokensToAdd : Q).

Definition step (b : TokenBucketState) (c : Call) : TokenBucketState :=
  match c with
  | CallTryConsume now n => snd (tryConsume now n b)
  | CallAddTokens n => snd (addTokens n b)
  end.

(** Every bucket on the way of a sequence of calls. *)
Fixpoint trace (b : TokenBucketState) (cs : list Call) : list TokenBucketState :=
  match cs with
  | [] => []
  | c :: cs' => step b c :: trace (step b c) cs'
  end.

(** A burst of [tryConsume(n)] calls whose callbacks run one after the
    other, the k-th seeing the k-th clock reading: the results in order. *)
Fixpoint burst (n : Q) (nows : list Q) (b : TokenBucketState)
  : list (outcome Error RateLimitResult) * TokenBucketState :=
  match nows with
  | [] => ([], b)
  | now :: rest =>
      let '(r, b1) := tryConsume now n b in
      let '(rs, b2) := burst n rest b1 in
      (r :: rs, b2)
  end.

(** Requests [(now, tokensToConsume)], each awaited before the next is
    made: the outcomes in order. *)
Fixpoint consume_all (requests : list (Q * Q)) (b : TokenBucketState)
  : list (outcome Error RateLimitResult) :=
  match requests with
  | [] => []
  | (now, n) :: rest =>
      fst (tryConsume now n b) :: consume_all rest (snd (tryConsume now n b))
  end.

Definition is_allowed (r : outcome Error RateLimitResult) : bool :=
  match r with Returns x => allowed x | Throws _ => false end.

Definition is_denied (r : outcome Error RateLimitResult) : bool :=
  match r with Returns x => negb (allowed x) | Throws _ => false end.

Definition count_allowed (rs : list (outcome Error RateLimitResult)) : nat :=
  length (List.filter is_allowed rs).

Definition count_denied (rs : list (outcome Error RateLimitResult)) : nat :=
  length (List.filter is_denied rs).

(** The capacity invariant, and what the constructor establishes and
    every call keeps. *)
Definition within_capacity (b : TokenBucketState) : Prop :=
  0 <= tokens b /\ tokens b <= capacity b.

Definition well_formed (b : TokenBucketState) : Prop :=
  0 < capacity b /\ 0 < refillRate b /\ within_capacity b.

End TokenBucket.

(** ** run-009: [InMemoryStorage], the storage adapter *)

Module InMemoryStorage.
Import TokenBucket.

(** The two private maps of one adapter. *)
Record InMemoryStorage : Type := {
  storage : gmap string TokenBucketState;
  locks : gmap string bool
}.

Definition new : InMemoryStorage := {| storage := ∅; locks := ∅ |}.

(** [getState]: [this.storage.get(key) || null]; a stored state is an
    object, which is truthy. *)
Definition getState (key : string) (st : InMemoryStorage) : option TokenBucketState :=
  storage st !! key.

Definition setState (key : string) (state : TokenBucketState) (st : InMemoryStorage)
  : InMemoryStorage :=
  {| storage := <[key := state]> (storage st); locks := locks st |}.

(** [this.locks.get(key)] as the condition of the spin loop. *)
Definition is_locked (key : string) (st : InMemoryStorage) : bool :=
  match locks st !! key with
  | Some held => held
  | None => false
  end.

(** [this.locks.set(key, true)], and the function that [lock] returns. *)
Definition acquire (key : string) (st : InMemoryStorage) : InMemoryStorage :=
  {| storage := storage st; locks := <[key := true]> (locks st) |}.

Definition release (key : string) (st : InMemoryStorage) : InMemoryStorage :=
  {| storage := storage st; locks := <[key := false]> (locks st) |}.

End InMemoryStorage.

(** ** run-009: [DistributedTokenBucket] over an [InMemoryStorage] *)

Module DistributedTokenBucket.
Import JsNum TokenBucket InMemoryStorage.
Local Open Scope Q_scope.

(** The fields [key] and [config] of an instance; the storage adapter is
    shared between instances and is passed to each call. *)
Record DistributedTokenBucket : Type := {
  key : string;
  config : TokenBucketConfig
}.

(** The body of [tryConsume] from the answer of [getState] to the [return]:
    the result, and the state handed to [setState] when there is one.
    [nowInit] is the clock read to initialise a missing state, [now] the one
    read for the refill. *)
Definition decision (nowInit now : Q) (self : DistributedTokenBucket)
    (tokensToConsume : Q) (state : option TokenBucketState)
  : RateLimitResult * option TokenBucketState :=
  let state :=
    match state with
    | Some s => s
    | None => {| tokens := nullish (cfg_initialTokens (config self))
                                   (cfg_capacity (config self));
                 lastRefillTime := nowInit;
                 capacity := cfg_capacity (config self);
                 refillRate := cfg_refillRate (config self) |}
    end in
  let timeElapsedMs := now - lastRefillTime state in
  let tokensToAdd := (timeElapsedMs / 1000) * refillRate state in
  let newTokens := Qmin (capacity state) (tokens state + tokensToAdd) in
  if geb newTokens tokensToConsume then
    let updatedState := {| tokens := newTokens - tokensToConsume;
                           lastRefillTime := now;
                           capacity := capacity state;
                           refillRate := refillRate state |} in
    ({| allowed := true;
        remainingTokens := tokens updatedState;
        retryAfter := None;
        limit := capacity state;
        resetTime := now + (1000 / refillRate state) |}, Some updatedState)
  else
    let tokensNeeded := tokensToConsume - newTokens in
    let timeToWaitMs := (tokensNeeded / refillRate state) * 1000 in
    ({| allowed := false;
        remainingTokens := newTokens;
        retryAfter := Some (Qceiling (timeToWaitMs / 1000));
        limit := capacity state;
        resetTime := now + timeToWaitMs |}, None).

(** [tryConsume] when no other call is in flight: [None] when the lock of
    the key is held, since the spin loop then never ends. *)
Definition tryConsume (nowInit now : Q) (self : DistributedTokenBucket)
    (tokensToConsume : Q) (st : InMemoryStorage)
  : option (RateLimitResult * InMemoryStorage) :=
  if is_locked (key self) st then None
  else
    let st := acquire (key self) st in
    let '(result, written) :=
      decision nowInit now self tokensToConsume (getState (key self) st) in
    let st :=
      match written with
      | Some updatedState => setState (key self) updatedState st
      | None => st
      end in
    Some (result, release (key self) st).

(** *** Calls in flight

    A call runs from one [await] to the next without interruption. The
    stages name the points where it can be suspended. *)
Inductive Stage : Type :=
| AtLock                                  (* inside [storage.lock], before the test *)
| AtGetState                              (* holds the lock, about to call [getState] *)
| AtDecide (state : option TokenBucketState)  (* resumed with the answer of [getState] *)
| AtUnlock (result : RateLimitResult)     (* resumed after [setState], about to return *)
| Settled (result : RateLimitResult).     (* returned: [finally] has run *)

Record Call : Type := {
  self : DistributedTokenBucket;
  tokensToConsume : Q;
  stage : Stage
}.

Definition at_stage (c : Call) (s : Stage) : Call :=
  {| self := self c; tokensToConsume := tokensToConsume c; stage := s |}.

(** A call between the acquisition of its lock and its release. *)
Definition holds_lock (c : Call) : bool :=
  match stage c with
  | AtGetState | AtDecide _ | AtUnlock _ => true
  | AtLock | Settled _ => false
  end.

(** One call runs up to its next [await] (or to its end). A call that finds
    its lock held stays in the spin loop. *)
Definition advance (nowInit now : Q) (c : Call) (st : InMemoryStorage)
  : Call * InMemoryStorage :=
  let k := key (self c) in
  match stage c with
  | AtLock =>
      if is_locked k st then (c, st)
      else (at_stage c AtGetState, acquire k st)
  | AtGetState => (at_stage c (AtDecide (getState k st)), st)
  | AtDecide state =>
      match decision nowInit now (self c) (tokensToConsume c) state with
      | (result, Some updatedState) =>
          (at_stage c (AtUnlock result), setState k updatedState st)
      | (result, None) => (at_stage c (Settled result), release k st)
      end
  | AtUnlock result => (at_stage c (Settled result), release k st)
  | Settled _ => (c, st)
  end.

(** The calls in flight and the storage they share. *)
Record System : Type := {
  calls : list Call;
  shared : InMemoryStorage
}.

(** The event loop resumes call [i], with the clock readings it will see. *)
Record Turn : Type := {
  turn_call : nat;
  turn_nowInit : Q;
  turn_now : Q
}.

Definition step (sys : System) (t : Turn) : System :=
  match calls sys !! turn_call t with
  | Some c =>
      let '(c', st') := advance (turn_nowInit t) (turn_now t) c (shared sys) in
      {| calls := <[turn_call t := c']> (calls sys); shared := st' |}
  | None => sys
  end.

(** An execution: any sequence of turns. *)
Definition run (sys : System) (schedule : list Turn) : System :=
  foldl step sys schedule.

(** Calls that have been made and have not tested their lock yet. *)
Definition start (requests : list (DistributedTokenBucket * Q)) (st : InMemoryStorage)
  : System :=
  {| calls := (fun r => {| self := fst r; tokensToConsume := snd r; stage := AtLock |})
                <$> requests;
     shared := st |}.

(** Requests [(now, tokensToConsume)] on one instance, each awaited before
    the next is made; [now] is what the clock shows during the call. The
    list ends with [None] at a call that never returns. *)
Fixpoint consume_all (self : DistributedTokenBucket) (requests : list (Q * Q))
    (st : InMemoryStorage) : list (option RateLimitResult) :=
  match requests with
  | [] => []
  | (now, n) :: rest =>
      match tryConsume now now self n st with
      | Some (result, st') => Some result :: consume_all self rest st'
      | None => [None]
      end
  end.

(** Every stored state is within its capacity. *)
Definition stored_within_capacity (st : InMemoryStorage) : Prop :=
  forall k s, getState k st = Some s -> within_capacity s.

(** What holds between two turns of the event loop: a lock has one holder
    at most, a call that has read the state of its key still sees what is
    stored, and a flag is set exactly while a call holds the lock. *)
Record lock_inv (sys : System) : Prop := {
  inv_exclusive : forall i j ci cj,
    calls sys !! i = Some ci -> calls sys !! j = Some cj ->
    holds_lock ci = true -> holds_lock cj = true ->
    key (self ci) = key (self cj) -> i = j;
  inv_read : forall i c state,
    calls sys !! i = Some c -> stage c = AtDecide state ->
    getState (key (self c)) (shared sys) = state;
  inv_flag : forall k,
    is_locked k (shared sys) = true <->
    exists i c, calls sys !! i = Some c /\ holds_lock c = true /\ key (self c) = k
}.

(** The tokens that a call has been granted, once its result is known. *)
Definition granted (c : Call) : Q :=
  match stage c with
  | AtUnlock result | Settled result =>
      if allowed result then tokensToConsume c else 0
  | _ => 0
  end.

Definition total_granted (cs : list Call) : Q :=
  foldr (fun c acc => granted c + acc) 0 cs.

Definition settled_allowed (c : Call) : bool :=
  match stage c with Settled result => allowed result | _ => false end.

Definition settled_denied (c : Call) : bool :=
  match stage c with Settled result => negb (allowed result) | _ => false end.

(** The tokens that the first call of an instance finds. *)
Definition initial_tokens (self : DistributedTokenBucket) : Q :=
  Qmin (cfg_capacity (config self))
       (nullish (cfg_initialTokens (config self)) (cfg_capacity (config self))).

(** The tokens of the key of [self] that the next decision will find when
    the clock stands still. *)
Definition available (self : DistributedTokenBucket) (st : InMemoryStorage) : Q :=
  match getState (key self) st with
  | Some s => tokens s
  | None => initial_tokens self
  end.

(** A burst of calls on one instance while the clock shows [t0]. *)
Record burst_inv (self0 : DistributedTokenBucket) (t0 : Q) (sys : System) : Prop := {
  burst_lock : lock_inv sys;
  burst_calls : Forall (fun c => self c = self0 /\ 0 <= tokensToConsume c) (calls sys);
  burst_state : forall s, getState (key self0) (shared sys) = Some s ->
    lastRefillTime s == t0 /\ capacity s = cfg_capacity (config self0);
  burst_bounds : 0 <= available self0 (shared sys) /\
    available self0 (shared sys) <= cfg_capacity (config self0);
  burst_sum : available self0 (shared sys) + total_granted (calls sys)
              == initial_tokens self0;
  burst_unlock : forall i c result, calls sys !! i = Some c ->
    stage c = AtUnlock result -> allowed result = true;
  burst_denied : forall i c result, calls sys !! i = Some c ->
    stage c = Settled result -> allowed result = false ->
    available self0 (shared sys) < tokensToConsume c
}.

Definition frozen_clock (t0 : Q) (schedule : list Turn) : Prop :=
  Forall (fun t => turn_nowInit t == t0 /\ turn_now t == t0) schedule.

End DistributedTokenBucket.

(** ** Numbers up to their representation

    A number of the model is a fraction, and [==] is the equality of
    numbers. Buckets and results are compared field by field. *)

Module Observation.
Local Open Scope Q_scope.

Definition same_state (a b : TokenBucket.TokenBucketState) : Prop :=
  TokenBucket.tokens a == TokenBucket.tokens b /\
  TokenBucket.lastRefillTime a == TokenBucket.lastRefillTime b /\
  TokenBucket.capacity a == TokenBucket.capacity b /\
  TokenBucket.refillRate a == TokenBucket.refillRate b.

Definition same_result (r r' : TokenBucket.RateLimitResult) : Prop :=
  TokenBucket.allowed r = TokenBucket.allowed r' /\
  TokenBucket.remainingTokens r == TokenBucket.remainingTokens r' /\
  TokenBucket.retryAfter r = TokenBucket.retryAfter r' /\
  TokenBucket.limit r == TokenBucket.limit r' /\
  TokenBucket.resetTime r == TokenBucket.resetTime r'.

Definition same_outcome (o o' : outcome TokenBucket.Error TokenBucket.RateLimitResult)
  : Prop :=
  match o, o' with
  | Returns r, Returns r' => same_result r r'
  | Throws e, Throws e' => e = e'
  | _, _ => False
  end.

(** The clock readings of the requests do not go back, from [t] on. *)
Fixpoint clock_from (t : Q) (requests : list (Q * Q)) : Prop :=
  match requests with
  | [] => True
  | (now, _) :: rest => t <= now /\ clock_from now rest
  end.

(** Buckets that no refill from [t] on tells apart. *)
Definition same_from (t : Q) (a b : TokenBucket.TokenBucketState) : Prop :=
  TokenBucket.capacity a == TokenBucket.capacity b /\
  forall now, t <= now -> same_state (TokenBucket.refill now a) (TokenBucket.refill now b).

End Observation.

(** ** run-009: usage-examples.ts

    The three classes that wrap a [TokenBucket]. Their methods are [async];
    each call is awaited before the next one is made. *)

Module UserRateLimiter.
Import JsNum.
Local Open Scope Q_scope.

Record UserRateLimiter : Type := {
  userBuckets : gmap string TokenBucket.TokenBucketState;
  defaultCapacity : Q;
  defaultRefillRate : Q
}.

Definition new (defaultCapacity defaultRefillRate : Q) : UserRateLimiter :=
  {| userBuckets := ∅;
     defaultCapacity := defaultCapacity;
     defaultRefillRate := defaultRefillRate |}.

Definition set_userBuckets (m : gmap string TokenBucket.TokenBucketState)
    (self : UserRateLimiter) : UserRateLimiter :=
  {| userBuckets := m;
     defaultCapacity := defaultCapacity self;
     defaultRefillRate := defaultRefillRate self |}.

(** The argument of [new TokenBucket] for a user without bucket. *)
Definition default_config (self : UserRateLimiter) : TokenBucket.TokenBucketConfig :=
  {| TokenBucket.cfg_capacity := defaultCapacity self;
     TokenBucket.cfg_refillRate := defaultRefillRate self;
     TokenBucket.cfg_initialTokens := None;
     TokenBucket.cfg_lastRefillTime := None |}.

(** The bucket that the constructor makes from a capacity and a rate when
    the clock reads [t]. *)
Definition fresh_bucket (cap rate t : Q) : TokenBucket.TokenBucketState :=
  {| TokenBucket.tokens := cap; TokenBucket.lastRefillTime := t;
     TokenBucket.capacity := cap; TokenBucket.refillRate := rate |}.

(** [result.allowed] of the awaited [tryConsume]. *)
Definition decision (r : outcome TokenBucket.Error TokenBucket.RateLimitResult)
  : outcome TokenBucket.Error bool :=
  match r with
  | Returns x => Returns (TokenBucket.allowed x)
  | Throws e => Throws e
  end.

(** [checkRateLimit(userId, cost)]. [nowCreate] is the clock that the
    constructor of a new bucket reads, [now] the one that the refill reads.
    A new bucket is stored before [tryConsume] is called on it, so it stays
    when [tryConsume] throws. *)
Definition checkRateLimit (nowCreate now : Q) (userId : string) (cost : Q)
    (self : UserRateLimiter) : outcome TokenBucket.Error bool * UserRateLimiter :=
  match
    match userBuckets self !! userId with
    | Some bucket => Returns (bucket, self)
    | None =>
        match TokenBucket.new nowCreate nowCreate (default_config self) with
        | Throws e => Throws e
        | Returns bucket =>
            Returns (bucket, set_userBuckets (<[userId := bucket]> (userBuckets self)) self)
        end
    end
  with
  | Throws e => (Throws e, self)
  | Returns (bucket, self1) =>
      (decision (fst (TokenBucket.tryConsume now cost bucket)),
       set_userBuckets
         (<[userId := snd (TokenBucket.tryConsume now cost bucket)]> (userBuckets self1))
         self1)
  end.

(** [cleanupInactiveUsers(maxAgeMs)], with [now] the clock it reads. *)
Definition cleanupInactiveUsers (now maxAgeMs : Q) (self : UserRateLimiter)
  : UserRateLimiter :=
  let inactive :=
    fst <$> List.filter
              (fun entry =>
                 gtb (now - TokenBucket.lastRefillTime (TokenBucket.getState (snd entry)))
                     maxAgeMs)
              (map_to_list (userBuckets self)) in
  set_userBuckets (foldl (fun remaining userId => delete userId remaining)
                         (userBuckets self) inactive) self.

(** One [checkRateLimit] call with the clock readings it sees. *)
Record Request : Type := {
  userId : string;
  cost : Q;
  nowCreate : Q;
  now : Q
}.

(** The answers to a sequence of calls, each with the user it is for. *)
Fixpoint check_all (requests : list Request) (self : UserRateLimiter)
  : list (string * outcome TokenBucket.Error bool) :=
  match requests with
  | [] => []
  | q :: rest =>
      (userId q, fst (checkRateLimit (nowCreate q) (now q) (userId q) (cost q) self))
      :: check_all rest (snd (checkRateLimit (nowCreate q) (now q) (userId q) (cost q) self))
  end.

Definition requests_of (u : string) (requests : list Request) : list Request :=
  List.filter (fun q => String.eqb (userId q) u) requests.

Definition answers_for (u : string)
    (answers : list (string * outcome TokenBucket.Error bool))
  : list (outcome TokenBucket.Error bool) :=
  snd <$> List.filter (fun a => String.eqb (fst a) u) answers.

(** The clock readings of the calls do not go back, from [t] on. *)
Fixpoint clock_from (t : Q) (requests : list Request) : Prop :=
  match requests with
  | [] => True
  | q :: rest => t <= nowCreate q /\ nowCreate q <= now q /\ clock_from (now q) rest
  end.

(** The calls of a client of one limiter. *)
Inductive Call : Type :=
| CallCheckRateLimit (q : Request)
| CallCleanupInactiveUsers (now maxAgeMs : Q).

Definition run_call (self : UserRateLimiter) (c : Call) : UserRateLimiter :=
  match c with
  | CallCheckRateLimit q =>
      snd (checkRateLimit (nowCreate q) (now q) (userId q) (cost q) self)
  | CallCleanupInactiveUsers now maxAgeMs => cleanupInactiveUsers now maxAgeMs self
  end.

Definition run_calls (calls : list Call) (self : UserRateLimiter) : UserRateLimiter :=
  foldl run_call self calls.

(** What [checkRateLimit] establishes for every bucket it stores. *)
Definition built_from_defaults (self : UserRateLimiter) : Prop :=
  forall u b,
    userBuckets self !! u = Some b ->
    TokenBucket.capacity b = defaultCapacity self /\
    TokenBucket.refillRate b = defaultRefillRate self /\
    TokenBucket.well_formed b.

(** Two limiters that no call from [t] on tells apart: the defaults are the
    same, and for every user either the two buckets refill alike from [t]
    on, or the second limiter has a bucket that refills to a full one from
    [t] on where the first has none. *)
Definition alike_from (t : Q) (x y : UserRateLimiter) : Prop :=
  defaultCapacity x = defaultCapacity y /\
  defaultRefillRate x = defaultRefillRate y /\
  forall u,
    match userBuckets x !! u, userBuckets y !! u with
    | Some a, Some b => Observation.same_from t a b
    | None, Some b =>
        TokenBucket.capacity b = defaultCapacity y /\
        forall now, t <= now ->
          Observation.same_state
            (TokenBucket.refill now b)
            (fresh_bucket (defaultCapacity y) (defaultRefillRate y) now)
    | None, None => True
    | Some _, None => False
    end.

End UserRateLimiter.

Module TieredRateLimiter.
Import JsNum.
Local Open Scope Q_scope.

Record RateLimitTier : Type := {
  name : string;
  capacity : Q;
  refillRate : Q
}.

Record TieredRateLimiter : Type := {
  tiers : gmap string RateLimitTier;
  userTiers : gmap string string
}.

Inductive Error : Type :=
| TierDoesNotExist (tierName : string)          (* 'Tier T does not exist' *)
| InvalidTier (userId tierName : string)        (* 'User U has invalid tier T' *)
| BucketError (e : TokenBucket.Error).

(** The constructor: [new Map(tiers.map(tier => [tier.name, tier]))], in
    which a later tier replaces an earlier one of the same name. *)
Definition new (tierList : list RateLimitTier) : TieredRateLimiter :=
  {| tiers := foldl (fun m tier => <[name tier := tier]> m) ∅ tierList;
     userTiers := ∅ |}.

Definition setUserTier (userId tierName : string) (self : TieredRateLimiter)
  : outcome Error unit * TieredRateLimiter :=
  match tiers self !! tierName with
  | None => (Throws (TierDoesNotExist tierName), self)
  | Some _ =>
      (Returns tt, {| tiers := tiers self;
                      userTiers := <[userId := tierName]> (userTiers self) |})
  end.

(** [this.userTiers.get(userId) || 'free']: the empty name is falsy. *)
Definition tier_name_of (userId : string) (self : TieredRateLimiter) : string :=
  match userTiers self !! userId with
  | Some tierName => if String.eqb tierName "" then "free"%string else tierName
  | None => "free"%string
  end.

Record CheckResult : Type := {
  allowed : bool;
  tier : string;
  remaining : Q
}.

(** [checkRateLimit(userId)]: a [TokenBucket] is made for the call and
    dropped after it; nothing of the limiter is written. *)
Definition checkRateLimit (nowCreate now : Q) (userId : string) (self : TieredRateLimiter)
  : outcome Error CheckResult :=
  let tierName := tier_name_of userId self in
  match tiers self !! tierName with
  | None => Throws (InvalidTier userId tierName)
  | Some tier =>
      match TokenBucket.new nowCreate nowCreate
              {| TokenBucket.cfg_capacity := capacity tier;
                 TokenBucket.cfg_refillRate := refillRate tier;
                 TokenBucket.cfg_initialTokens := None;
                 TokenBucket.cfg_lastRefillTime := None |} with
      | Throws e => Throws (BucketError e)
      | Returns bucket =>
          match fst (TokenBucket.tryConsume now 1 bucket) with
          | Throws e => Throws (BucketError e)
          | Returns result =>
              Returns {| allowed := TokenBucket.allowed result;
                         tier := tierName;
                         remaining := TokenBucket.remainingTokens result |}
          end
      end
  end.

End TieredRateLimiter.

Module BatchRateLimiter.
Import JsNum.
Local Open Scope Q_scope.

Record BatchRateLimiter : Type := {
  bucket : TokenBucket.TokenBucketState;
  maxBatchSize : Q
}.

(** What [processBatch] rejects with; [E] is the type of the errors of the
    processor. *)
Inductive Error (E : Type) : Type :=
| BatchTooLarge (size : nat)                  (* 'Batch size N exceeds maximum M' *)
| RateLimitExceeded (available : Q)           (* 'Rate limit exceeded. Available tokens: A' *)
| BucketError (e : TokenBucket.Error)
| ProcessorError (e : E).
Arguments BatchTooLarge {E} size.
Arguments RateLimitExceeded {E} available.
Arguments BucketError {E} e.
Arguments ProcessorError {E} e.

(** [items.length] as a number. *)
Definition size_of {T} (items : list T) : Q := inject_Z (Z.of_nat (length items)).

(** The loop [for (const item of items) await processor(item)]. The
    processor answers [Some e] when its promise rejects with [e]. The second
    component lists the items that the processor was called on. *)
Fixpoint process_items {T E} (processor : T -> option E) (items : list T)
  : outcome (Error E) unit * list T :=
  match items with
  | [] => (Returns tt, [])
  | item :: rest =>
      match processor item with
      | Some e => (Throws (ProcessorError e), [item])
      | None =>
          let '(r, called) := process_items processor rest in (r, item :: called)
      end
  end.

(** [processBatch(items, processor)], with [now] the clock that the refill
    reads: the outcome, the limiter afterwards, and the items that the
    processor was called on. *)
Definition processBatch {T E} (now : Q) (items : list T) (processor : T -> option E)
    (self : BatchRateLimiter)
  : outcome (Error E) unit * BatchRateLimiter * list T :=
  if gtb (size_of items) (maxBatchSize self)
  then (Throws (BatchTooLarge (length items)), self, [])
  else
    let self1 := {| bucket := snd (TokenBucket.tryConsume now (size_of items) (bucket self));
                    maxBatchSize := maxBatchSize self |} in
    match fst (TokenBucket.tryConsume now (size_of items) (bucket self)) with
    | Throws e => (Throws (BucketError e), self1, [])
    | Returns result =>
        if negb (TokenBucket.allowed result)
        then (Throws (RateLimitExceeded (TokenBucket.remainingTokens result)), self1, [])
        else
          let '(r, called) := process_items processor items in (r, self1, called)
    end.

End BatchRateLimiter.

(** ** Strings

    A JavaScript string is modelled by a Rocq [string] whose characters are
    its code units; only code units below 256 are represented. *)

Module JsStr.

(** The code units below 256 that [String.prototype.trim] strips:
    TAB, LF, VT, FF, CR, SPACE and NBSP. *)
Definition is_whitespace (c : ascii) : bool :=
  let n := nat_of_ascii c in
  ((9 <=? n)%nat && (n <=? 13)%nat) || (n =? 32)%nat || (n =? 160)%nat.

Fixpoint all_chars (p : ascii -> bool) (s : string) : bool :=
  match s with
  | EmptyString => true
  | String c s' => p c && all_chars p s'
  end.

(** [s.trim() === '']: every code unit is white space. *)
Definition trim_is_empty (s : string) : bool := all_chars is_whitespace s.

End JsStr.

(** ** run-010: the [TokenBucketRateLimiter] registry *)

Module TokenBucketRateLimiter.
Import JsNum.
Local Open Scope Q_scope.

Record TokenBucketConfig : Type := {
  capacity : Q;
  refillRate : Q;
  initialTokens : option Q
}.

Record BucketStats : Type := {
  tokens : Q;
  consumed : Q;
  blocked : Q;
  lastRefill : Q;
  createdAt : Q;
  config : TokenBucketConfig
}.

Record RateLimitResult : Type := {
  allowed : bool;
  remainingTokens : Q;
  retryAfter : option Z;
  bucketKey : string
}.

(** One constructor per [throw new Error(...)] of the class. *)
Inductive Error : Type :=
| BucketKeyEmpty               (* 'Bucket key must be a non-empty string' *)
| TokensRequiredNotPositive    (* 'Tokens required must be greater than 0' *)
| CapacityNotPositive          (* 'Capacity must be greater than 0' *)
| RefillRateNotPositive        (* 'Refill rate must be greater than 0' *)
| InitialTokensNegative        (* 'Initial tokens cannot be negative' *)
| InitialTokensExceedCapacity  (* 'Initial tokens cannot exceed capacity' *)
| NoBucketNoConfig             (* 'Bucket K does not exist and no configuration provided' *)
| TokensNotPositive            (* 'Tokens must be a positive number' *)
| BucketDoesNotExist.          (* 'Bucket K does not exist' *)

(** The private field [buckets : Map<string, BucketStats>]. *)
Abbreviation Buckets := (gmap string BucketStats).

Definition validateConfig (config : TokenBucketConfig) : option Error :=
  if leb (capacity config) 0 then Some CapacityNotPositive
  else if leb (refillRate config) 0 then Some RefillRateNotPositive
  else
    match initialTokens config with
    | Some i =>
        if ltb i 0 then Some InitialTokensNegative
        else if gtb i (capacity config) then Some InitialTokensExceedCapacity
        else None
    | None => None
    end.

Definition validateInput (bucketKey : string) (tokensRequired : Q)
    (config : option TokenBucketConfig) : option Error :=
  if JsStr.trim_is_empty bucketKey then Some BucketKeyEmpty
  else if leb tokensRequired 0 then Some TokensRequiredNotPositive
  else
    match config with
    | Some c => validateConfig c
    | None => None
    end.

(** [createBucket]; [now] is the [Date.now()] it reads. *)
Definition createBucket (now : Q) (bucketKey : string) (config : TokenBucketConfig)
    (buckets : Buckets) : outcome Error BucketStats * Buckets :=
  match validateConfig config with
  | Some e => (Throws e, buckets)
  | None =>
      let bucket := {| tokens := or_else (initialTokens config) (capacity config);
                       consumed := 0;
                       blocked := 0;
                       lastRefill := now;
                       createdAt := now;
                       config := config |} in
      (Returns bucket, <[bucketKey := bucket]> buckets)
  end.

Definition refillBucket (bucket : BucketStats) (now : Q) : BucketStats :=
  let elapsedSeconds := (now - lastRefill bucket) / 1000 in
  let tokensToAdd := elapsedSeconds * refillRate (config bucket) in
  if gtb tokensToAdd 0 then
    {| tokens := Qmin (tokens bucket + tokensToAdd) (capacity (config bucket));
       consumed := consumed bucket;
       blocked := blocked bucket;
       lastRefill := now;
       createdAt := createdAt bucket;
       config := config bucket |}
  else bucket.

Definition calculateRetryAfter (bucket : BucketStats) (tokensRequired : Q) : Z :=
  let tokensNeeded := tokensRequired - tokens bucket in
  let secondsNeeded := tokensNeeded / refillRate (config bucket) in
  Qceiling secondsNeeded.

(** The part of [check] after the bucket has been found or created:
    refill, decide, commit. *)
Definition decide_and_commit (now : Q) (tokensRequired : Q) (bucket : BucketStats)
  : bool * BucketStats :=
  let bucket := refillBucket bucket now in
  let allowed := geb (tokens bucket) tokensRequired in
  if allowed then
    (allowed, {| tokens := tokens bucket - tokensRequired;
                 consumed := consumed bucket + tokensRequired;
                 blocked := blocked bucket;
                 lastRefill := lastRefill bucket;
                 createdAt := createdAt bucket;
                 config := config bucket |})
  else
    (allowed, {| tokens := tokens bucket;
                 consumed := consumed bucket;
                 blocked := blocked bucket + 1;
                 lastRefill := lastRefill bucket;
                 createdAt := createdAt bucket;
                 config := config bucket |}).

(** [check]. [now] is the clock read by [check] itself, [nowCreate] the one
    read by [createBucket] when the bucket is created by this call. The
    second component is the registry when the call returns or throws. *)
Definition check (now nowCreate : Q) (bucketKey : string) (tokensRequired : Q)
    (config : option TokenBucketConfig) (buckets : Buckets)
  : outcome Error RateLimitResult * Buckets :=
  match validateInput bucketKey tokensRequired config with
  | Some e => (Throws e, buckets)
  | None =>
      let found :=
        match buckets !! bucketKey, config with
        | Some bucket, _ => (Returns bucket, buckets)
        | None, Some c => createBucket nowCreate bucketKey c buckets
        | None, None => (Throws NoBucketNoConfig, buckets)
        end in
      match found with
      | (Throws e, buckets1) => (Throws e, buckets1)
      | (Returns bucket, buckets1) =>
          let '(allowed, bucket) := decide_and_commit now tokensRequired bucket in
          (Returns {| allowed := allowed;
                      remainingTokens := tokens bucket;
                      retryAfter :=
                        if allowed then None
                        else Some (calculateRetryAfter bucket tokensRequired);
                      bucketKey := bucketKey |},
           <[bucketKey := bucket]> buckets1)
      end
  end.

Definition addTokens (bucketKey : string) (tokensToAdd : Q) (buckets : Buckets)
  : outcome Error Q * Buckets :=
  if leb tokensToAdd 0 then (Throws TokensNotPositive, buckets)
  else
    match buckets !! bucketKey with
    | None => (Throws BucketDoesNotExist, buckets)
    | Some bucket =>
        let newTokens := Qmin (tokens bucket + tokensToAdd) (capacity (config bucket)) in
        let bucket := {| tokens := newTokens;
                         consumed := consumed bucket;
                         blocked := blocked bucket;
                         lastRefill := lastRefill bucket;
                         createdAt := createdAt bucket;
                         config := config bucket |} in
        (Returns newTokens, <[bucketKey := bucket]> buckets)
    end.

(** [getStats]: refills the live bucket, stores it and returns a copy. *)
Definition getStats (now : Q) (bucketKey : string) (buckets : Buckets)
  : option BucketStats * Buckets :=
  match buckets !! bucketKey with
  | Some bucket =>
      let bucket := refillBucket bucket now in
      (Some bucket, <[bucketKey := bucket]> buckets)
  | None => (None, buckets)
  end.

Definition resetBucket (now : Q) (bucketKey : string) (buckets : Buckets)
  : outcome Error unit * Buckets :=
  match buckets !! bucketKey with
  | None => (Throws BucketDoesNotExist, buckets)
  | Some bucket =>
      let bucket := {| tokens := or_else (initialTokens (config bucket))
                                         (capacity (config bucket));
                       consumed := 0;
                       blocked := 0;
                       lastRefill := now;
                       createdAt := createdAt bucket;
                       config := config bucket |} in
      (Returns tt, <[bucketKey := bucket]> buckets)
  end.

Definition removeBucket (bucketKey : string) (buckets : Buckets) : bool * Buckets :=
  match buckets !! bucketKey with
  | Some _ => (true, delete bucketKey buckets)
  | None => (false, buckets)
  end.

(** The calls of a client of the registry. *)
Inductive Call : Type :=
| CallCheck (now nowCreate : Q) (bucketKey : string) (tokensRequired : Q)
    (config : option TokenBucketConfig)
| CallAddTokens (bucketKey : string) (tokensToAdd : Q).

Definition step (buckets : Buckets) (c : Call) : Buckets :=
  match c with
  | CallCheck now nowCreate k n cfg => snd (check now nowCreate k n cfg buckets)
  | CallAddTokens k n => snd (addTokens k n buckets)
  end.

(** Every registry on the way of a sequence of calls. *)
Fixpoint trace (buckets : Buckets) (cs : list Call) : list Buckets :=
  match cs with
  | [] => []
  | c :: cs' => step buckets c :: trace (step buckets c) cs'
  end.

(** A burst of [check(key, n)] calls on one key, run one after the other,
    the k-th with the k-th clock reading: the results in order. *)
Fixpoint burst (bucketKey : string) (n : Q) (nows : list Q) (buckets : Buckets)
  : list (outcome Error RateLimitResult) * Buckets :=
  match nows with
  | [] => ([], buckets)
  | now :: rest =>
      let '(r, buckets1) := check now now bucketKey n None buckets in
      let '(rs, buckets2) := burst bucketKey n rest buckets1 in
      (r :: rs, buckets2)
  end.

Definition is_allowed (r : outcome Error RateLimitResult) : bool :=
  match r with Returns x => allowed x | Throws _ => false end.

Definition is_denied (r : outcome Error RateLimitResult) : bool :=
  match r with Returns x => negb (allowed x) | Throws _ => false end.

Definition count_allowed (rs : list (outcome Error RateLimitResult)) : nat :=
  length (List.filter is_allowed rs).

Definition count_denied (rs : list (outcome Error RateLimitResult)) : nat :=
  length (List.filter is_denied rs).

(** The capacity invariant of one bucket, and of a whole registry. *)
Definition within_capacity (b : BucketStats) : Prop :=
  0 <= tokens b /\ tokens b <= capacity (config b).

Definition well_formed (b : BucketStats) : Prop :=
  0 < capacity (config b) /\ 0 < refillRate (config b) /\ within_capacity b.

Definition registry_ok (buckets : Buckets) : Prop :=
  forall k b, buckets !! k = Some b -> well_formed b.

(** [getAllStats]: every bucket is refilled at the one clock reading [now];
    the first component is the map of copies that is returned. *)
Definition getAllStats (now : Q) (buckets : Buckets) : Buckets * Buckets :=
  let refilled := (fun bucket => refillBucket bucket now) <$> buckets in
  (refilled, refilled).

Definition getBucketCount (buckets : Buckets) : nat := size buckets.

(** [cleanupStaleBuckets(maxAge)], with [now] the clock it reads: the keys
    of the stale buckets are collected first and deleted afterwards. *)
Definition cleanupStaleBuckets (now maxAge : Q) (buckets : Buckets) : Buckets :=
  let staleKeys :=
    fst <$> List.filter (fun entry => gtb (now - lastRefill (snd entry)) maxAge)
                        (map_to_list buckets) in
  foldl (fun remaining key => delete key remaining) buckets staleKeys.

(** The default [maxAge] of the cleanup that the constructor schedules. *)
Definition DEFAULT_MAX_AGE : Q := 3600000.

(** Everything that can happen to the registry: the public methods, and a
    run of the cleanup that the timer of the constructor triggers. *)
Inductive Op : Type :=
| OpCheck (now nowCreate : Q) (bucketKey : string) (tokensRequired : Q)
    (config : option TokenBucketConfig)
| OpAddTokens (bucketKey : string) (tokensToAdd : Q)
| OpGetStats (now : Q) (bucketKey : string)
| OpGetAllStats (now : Q)
| OpResetBucket (now : Q) (bucketKey : string)
| OpRemoveBucket (bucketKey : string)
| OpCleanup (now : Q).

Definition apply (buckets : Buckets) (op : Op) : Buckets :=
  match op with
  | OpCheck now nowCreate k n cfg => snd (check now nowCreate k n cfg buckets)
  | OpAddTokens k n => snd (addTokens k n buckets)
  | OpGetStats now k => snd (getStats now k buckets)
  | OpGetAllStats now => snd (getAllStats now buckets)
  | OpResetBucket now k => snd (resetBucket now k buckets)
  | OpRemoveBucket k => snd (removeBucket k buckets)
  | OpCleanup now => cleanupStaleBuckets now DEFAULT_MAX_AGE buckets
  end.

(** The key that an operation names, if it names one. *)
Definition target (op : Op) : option string :=
  match op with
  | OpCheck _ _ k _ _ | OpAddTokens k _ | OpGetStats _ k
  | OpResetBucket _ k | OpRemoveBucket k => Some k
  | OpGetAllStats _ | OpCleanup _ => None
  end.

(** Requests [(now, tokensRequired)] on one key, without configuration,
    one after the other: the outcomes in order. *)
Fixpoint check_all (bucketKey : string) (requests : list (Q * Q)) (buckets : Buckets)
  : list (outcome Error RateLimitResult) :=
  match requests with
  | [] => []
  | (now, n) :: rest =>
      fst (check now now bucketKey n None buckets)
      :: check_all bucketKey rest (snd (check now now bucketKey n None buckets))
  end.

(** The registry after the requests of [check_all]. *)
Definition after_all (bucketKey : string) (requests : list (Q * Q)) (buckets : Buckets)
  : Buckets :=
  foldl (fun buckets request =>
           snd (check (fst request) (fst request) bucketKey (snd request) None buckets))
        buckets requests.

(** The tokens that the allowed requests got, and the number of denials. *)
Definition tokens_granted (requests : list (Q * Q))
    (outcomes : list (outcome Error RateLimitResult)) : Q :=
  foldr (fun entry acc =>
           (if is_allowed (snd entry) then snd (fst entry) else 0) + acc)
        0 (zip requests outcomes).

(** The configuration of every bucket is one that [validateConfig] accepts,
    and the tokens are within the capacity. *)
Definition valid_bucket (b : BucketStats) : Prop :=
  validateConfig (config b) = None /\ within_capacity b.

Definition registry_valid (buckets : Buckets) : Prop :=
  forall k b, buckets !! k = Some b -> valid_bucket b.

End TokenBucketRateLimiter.

(** ** JavaScript numbers as IEEE 754 doubles

    The answer of a consume call depends on how each operation rounds. For
    it the two classes are embedded a second time, with every number a
    binary64 value ([PrimFloat.float]): [+], [-], [*] and [/] round to
    nearest, ties to even, and every comparison with NaN is false, as
    ECMAScript prescribes. *)

Module JsDouble.
Local Open Scope float_scope.

(** [a <= b], [a < b], [a >= b] and [a > b]. *)
Definition leb (a b : float) : bool := a <=? b.

Definition ltb (a b : float) : bool := a <? b.

Definition geb (a b : float) : bool := b <=? a.

Definition gtb (a b : float) : bool := b <? a.

(** [o ?? d]: only [undefined] falls through to the default. *)
Definition nullish (o : option float) (d : float) : float :=
  match o with Some x => x | None => d end.

(** [o || d]: [undefined] and the falsy numbers [0], [-0] and NaN fall
    through. *)
Definition or_else (o : option float) (d : float) : float :=
  match o with
  | Some x => if (x =? 0) || PrimFloat.is_nan x then d else x
  | None => d
  end.

(** [Math.min(a, b)]: NaN when either is NaN, and [-0] below [+0]. *)
Definition min (a b : float) : float :=
  if PrimFloat.is_nan a || PrimFloat.is_nan b then nan
  else if a <? b then a
  else if b <? a then b
  else if PrimFloat.get_sign a then a else b.

(** The integer [z] as a number; exact for [|z| <= 2^53]. *)
Definition of_Z (z : Z) : float :=
  match z with
  | Z0 => 0
  | Zpos _ => PrimFloat.of_uint63 (Uint63.of_Z z)
  | Zneg p => - PrimFloat.of_uint63 (Uint63.of_Z (Zpos p))
  end.

(** [Math.ceil(x)]: the least integer not below [x]. NaN, the infinities
    and the zeros are returned as they are, and so is a number
    [m * 2^e] with [0 <= e], an integer; a number in [(-1, 0)] gives [-0].
    With [e < 0] the integer part of [m * 2^e] is below [2^53]. *)
Definition ceil (x : float) : float :=
  match Prim2SF x with
  | S754_finite s m e =>
      if (0 <=? e)%Z then x
      else
        let d := (2 ^ (- e))%Z in
        let q := (Zpos m / d)%Z in
        if s then (if (q =? 0)%Z then -0 else of_Z (- q))
        else of_Z (if (Zpos m mod d =? 0)%Z then q else q + 1)
  | _ => x
  end.

(** The rational that a finite number stands for. *)
Definition exact (x : float) : Q :=
  match Prim2SF x with
  | S754_finite s m e =>
      let v := if (0 <=? e)%Z then inject_Z (Zpos m * 2 ^ e)
               else Zpos m # Z.to_pos (2 ^ (- e)) in
      if s then Qopp v else v
  | _ => 0%Q
  end.

End JsDouble.

(** ** run-009 in doubles: the constructor and [tryConsume] *)

Module TokenBucket64.
Import JsDouble.
Local Open Scope float_scope.

Record TokenBucketConfig : Type := {
  cfg_capacity : float;
  cfg_refillRate : float;
  cfg_initialTokens : option float;
  cfg_lastRefillTime : option float
}.

Record RateLimitResult : Type := {
  allowed : bool;
  remainingTokens : float;
  retryAfter : option float;
  limit : float;
  resetTime : float
}.

Record TokenBucketState : Type := {
  tokens : float;
  lastRefillTime : float;
  capacity : float;
  refillRate : float
}.

Definition validateConfig (now : float) (config : TokenBucketConfig)
  : option TokenBucket.Error :=
  if leb (cfg_capacity config) 0 then Some TokenBucket.CapacityNotPositive
  else if leb (cfg_refillRate config) 0 then Some TokenBucket.RefillRateNotPositive
  else
    match
      match cfg_initialTokens config with
      | Some i =>
          if ltb i 0 then Some TokenBucket.InitialTokensNegative
          else if gtb i (cfg_capacity config)
               then Some TokenBucket.InitialTokensExceedCapacity
          else None
      | None => None
      end
    with
    | Some e => Some e
    | None =>
        match cfg_lastRefillTime config with
        | Some l => if gtb l now then Some TokenBucket.LastRefillInFuture else None
        | None => None
        end
    end.

(** The constructor; [nowV] and [nowC] as in [TokenBucket.new]. *)
Definition new (nowV nowC : float) (config : TokenBucketConfig)
  : outcome TokenBucket.Error TokenBucketState :=
  match validateConfig nowV config with
  | Some e => Throws e
  | None =>
      Returns {| tokens := nullish (cfg_initialTokens config) (cfg_capacity config);
                 lastRefillTime := nullish (cfg_lastRefillTime config) nowC;
                 capacity := cfg_capacity config;
                 refillRate := cfg_refillRate config |}
  end.

Definition refill (now : float) (b : TokenBucketState) : TokenBucketState :=
  let timeElapsedMs := now - lastRefillTime b in
  if leb timeElapsedMs 0 then b
  else
    let tokensToAdd := (timeElapsedMs / 1000) * refillRate b in
    {| tokens := min (capacity b) (tokens b + tokensToAdd);
       lastRefillTime := now;
       capacity := capacity b;
       refillRate := refillRate b |}.

Definition consumeStep (now : float) (tokensToConsume : float) (b : TokenBucketState)
  : RateLimitResult * TokenBucketState :=
  let b1 := refill now b in
  if geb (tokens b1) tokensToConsume then
    let b2 := {| tokens := tokens b1 - tokensToConsume;
                 lastRefillTime := lastRefillTime b1;
                 capacity := capacity b1;
                 refillRate := refillRate b1 |} in
    let remaining := tokens b2 in
    let nextRefillTime := lastRefillTime b2 + (1000 / refillRate b2) in
    ({| allowed := true;
        remainingTokens := remaining;
        retryAfter := None;
        limit := capacity b2;
        resetTime := nextRefillTime |}, b2)
  else
    let tokensNeeded := tokensToConsume - tokens b1 in
    let timeToWaitMs := (tokensNeeded / refillRate b1) * 1000 in
    ({| allowed := false;
        remainingTokens := tokens b1;
        retryAfter := Some (ceil (timeToWaitMs / 1000));
        limit := capacity b1;
        resetTime := lastRefillTime b1 + timeToWaitMs |}, b1).

Definition tryConsume (now : float) (tokensToConsume : float) (b : TokenBucketState)
  : outcome TokenBucket.Error RateLimitResult * TokenBucketState :=
  if leb tokensToConsume 0 then (Throws TokenBucket.ConsumeNotPositive, b)
  else if gtb tokensToConsume (capacity b)
       then (Throws TokenBucket.ConsumeExceedsCapacity, b)
  else let '(r, b') := consumeStep now tokensToConsume b in (Returns r, b').

End TokenBucket64.

(** ** run-010 in doubles: [check] *)

Module TokenBucketRateLimiter64.
Import JsDouble.
Local Open Scope float_scope.

Record TokenBucketConfig : Type := {
  capacity : float;
  refillRate : float;
  initialTokens : option float
}.

Record BucketStats : Type := {
  tokens : float;
  consumed : float;
  blocked : float;
  lastRefill : float;
  createdAt : float;
  config : TokenBucketConfig
}.

Record RateLimitResult : Type := {
  allowed : bool;
  remainingTokens : float;
  retryAfter : option float;
  bucketKey : string
}.

Abbreviation Buckets := (gmap string BucketStats).

Definition validateConfig (config : TokenBucketConfig)
  : option TokenBucketRateLimiter.Error :=
  if leb (capacity config) 0 then Some TokenBucketRateLimiter.CapacityNotPositive
  else if leb (refillRate config) 0 then Some TokenBucketRateLimiter.RefillRateNotPositive
  else
    match initialTokens config with
    | Some i =>
        if ltb i 0 then Some TokenBucketRateLimiter.InitialTokensNegative
        else if gtb i (capacity config)
             then Some TokenBucketRateLimiter.InitialTokensExceedCapacity
        else None
    | None => None
    end.

Definition validateInput (bucketKey : string) (tokensRequired : float)
    (config : option TokenBucketConfig) : option TokenBucketRateLimiter.Error :=
  if JsStr.trim_is_empty bucketKey then Some TokenBucketRateLimiter.BucketKeyEmpty
  else if leb tokensRequired 0 then Some TokenBucketRateLimiter.TokensRequiredNotPositive
  else
    match config with
    | Some c => validateConfig c
    | None => None
    end.

Definition createBucket (now : float) (bucketKey : string) (config : TokenBucketConfig)
    (buckets : Buckets) : outcome TokenBucketRateLimiter.Error BucketStats * Buckets :=
  match validateConfig config with
  | Some e => (Throws e, buckets)
  | None =>
      let bucket := {| tokens := or_else (initialTokens config) (capacity config);
                       consumed := 0;
                       blocked := 0;
                       lastRefill := now;
                       createdAt := now;
                       config := config |} in
      (Returns bucket, <[bucketKey := bucket]> buckets)
  end.

Definition refillBucket (bucket : BucketStats) (now : float) : BucketStats :=
  let elapsedSeconds := (now - lastRefill bucket) / 1000 in
  let tokensToAdd := elapsedSeconds * refillRate (config bucket) in
  if gtb tokensToAdd 0 then
    {| tokens := min (tokens bucket + tokensToAdd) (capacity (config bucket));
       consumed := consumed bucket;
       blocked := blocked bucket;
       lastRefill := now;
       createdAt := createdAt bucket;
       config := config bucket |}
  else bucket.

Definition calculateRetryAfter (bucket : BucketStats) (tokensRequired : float) : float :=
  let tokensNeeded := tokensRequired - tokens bucket in
  let secondsNeeded := tokensNeeded / refillRate (config bucket) in
  ceil secondsNeeded.

Definition decide_and_commit (now : float) (tokensRequired : float) (bucket : BucketStats)
  : bool * BucketStats :=
  let bucket := refillBucket bucket now in
  let allowed := geb (tokens bucket) tokensRequired in
  if allowed then
    (allowed, {| tokens := tokens bucket - tokensRequired;
                 consumed := consumed bucket + tokensRequired;
                 blocked := blocked bucket;
                 lastRefill := lastRefill bucket;
                 createdAt := createdAt bucket;
                 config := config bucket |})
  else
    (allowed, {| tokens := tokens bucket;
                 consumed := consumed bucket;
                 blocked := blocked bucket + 1;
                 lastRefill := lastRefill bucket;
                 createdAt := createdAt bucket;
                 config := config bucket |}).

Definition check (now nowCreate : float) (bucketKey : string) (tokensRequired : float)
    (config : option TokenBucketConfig) (buckets : Buckets)
  : outcome TokenBucketRateLimiter.Error RateLimitResult * Buckets :=
  match validateInput bucketKey tokensRequired config with
  | Some e => (Throws e, buckets)
  | None =>
      let found :=
        match buckets !! bucketKey, config with
        | Some bucket, _ => (Returns bucket, buckets)
        | None, Some c => createBucket nowCreate bucketKey c buckets
        | None, None => (Throws TokenBucketRateLimiter.NoBucketNoConfig, buckets)
        end in
      match found with
      | (Throws e, buckets1) => (Throws e, buckets1)
      | (Returns bucket, buckets1) =>
          let '(allowed, bucket) := decide_and_commit now tokensRequired bucket in
          (Returns {| allowed := allowed;
                      remainingTokens := tokens bucket;
                      retryAfter :=
                        if allowed then None
                        else Some (calculateRetryAfter bucket tokensRequired);
                      bucketKey := bucketKey |},
           <[bucketKey := bucket]> buckets1)
      end
  end.

End TokenBucketRateLimiter64.

(** ** url-shortener.ts: the [URLShortener] class *)

Module URLShortener.
Local Open Scope string_scope.
Local Open Scope Z_scope.

Record ShortenedUrl : Type := {
  id : string;
  originalUrl : string;
  shortCode : string;
  createdAt : Q;
  clickCount : N
}.

Record ShortenOptions : Type := {
  customAlias : option string;
  expireAfterDays : option Q
}.

Record ShortenResult : Type := {
  sr_success : bool;
  sr_shortCode : string;
  sr_shortUrl : string;
  sr_originalUrl : string;
  sr_message : option string;
  sr_collisionResolved : option bool
}.

Record ExpandResult : Type := {
  er_success : bool;
  er_originalUrl : option string;
  er_message : option string
}.

(** The [code] of a [URLShortenerError]. An error is embedded as its code:
    its message and its [details] are left out. *)
Inductive ErrorCode : Type :=
| INVALID_BASE_DOMAIN
| ALIAS_COLLISION
| SHORTEN_FAILED
| NOT_FOUND
| DATA_CORRUPTED
| COLLISION_RESOLUTION_FAILED
| INVALID_ALIAS_LENGTH
| INVALID_URL_TYPE
| INVALID_URL_FORMAT
| URL_TOO_LONG
| INVALID_SHORT_CODE_TYPE
| SHORT_CODE_TOO_LONG
| INVALID_SHORT_CODE_CHARS.

(** The [message] each error is constructed with. *)
Definition error_message (e : ErrorCode) : string :=
  match e with
  | INVALID_BASE_DOMAIN => "Invalid base domain"
  | ALIAS_COLLISION => "Custom alias already in use"
  | SHORTEN_FAILED => "Failed to shorten URL"
  | NOT_FOUND => "Short URL not found"
  | DATA_CORRUPTED => "Short URL data corrupted"
  | COLLISION_RESOLUTION_FAILED => "Unable to resolve collision after maximum retries"
  | INVALID_ALIAS_LENGTH => "Custom alias must be at least 2 characters"
  | INVALID_URL_TYPE => "URL must be a non-empty string"
  | INVALID_URL_FORMAT => "Invalid URL format"
  | URL_TOO_LONG => "URL too long"
  | INVALID_SHORT_CODE_TYPE => "Short code must be a non-empty string"
  | SHORT_CODE_TOO_LONG => "Short code too long"
  | INVALID_SHORT_CODE_CHARS =>
      "Short code can only contain letters, numbers, dashes, and underscores"
  end.

(** The three private maps and the base domain of one instance. *)
Record Store : Type := {
  urlMap : gmap string ShortenedUrl;
  codeToIdMap : gmap string string;
  originalUrlToCodeMap : gmap string string;
  BASE_DOMAIN : string
}.

Definition BASE62_CHARS : string :=
  "0123456789ABCDEFGHIJKLMNOPQRSTUVWXYZabcdefghijklmnopqrstuvwxyz".
Definition DEFAULT_SHORT_CODE_LENGTH : nat := 6.
Definition MAX_COLLISION_RETRIES : nat := 5.
Definition MAX_CUSTOM_ALIAS_LENGTH : nat := 20.

(** *** String primitives *)

(** [s.substring(0, n)]. *)
Definition take (n : nat) (s : string) : string := substring 0 n s.

(** [s.slice(0, -n)]. *)
Definition drop_last (n : nat) (s : string) : string :=
  substring 0 (String.length s - n) s.

(** [s.slice(-n)]. *)
Definition take_last (n : nat) (s : string) : string :=
  substring (String.length s - n) n s.

(** [s.substring(i, j)] for [i <= j]. *)
Definition substring_between (i j : nat) (s : string) : string :=
  substring i (j - i) s.

Fixpoint replicate_char (n : nat) (c : ascii) : string :=
  match n with
  | O => EmptyString
  | S n' => String c (replicate_char n' c)
  end.

(** [s.padEnd(n, c)]. *)
Definition padEnd (n : nat) (c : ascii) (s : string) : string :=
  s ++ replicate_char (n - String.length s) c.

Fixpoint map_chars (f : ascii -> ascii) (s : string) : string :=
  match s with
  | EmptyString => EmptyString
  | String c s' => String (f c) (map_chars f s')
  end.

Fixpoint filter_chars (p : ascii -> bool) (s : string) : string :=
  match s with
  | EmptyString => EmptyString
  | String c s' => if p c then String c (filter_chars p s') else filter_chars p s'
  end.

Definition in_range (lo hi : nat) (c : ascii) : bool :=
  let n := nat_of_ascii c in ((lo <=? n) && (n <=? hi))%nat.

Definition is_lower (c : ascii) : bool := in_range 97 122 c.
Definition is_upper (c : ascii) : bool := in_range 65 90 c.
Definition is_digit (c : ascii) : bool := in_range 48 57 c.
Definition is_dash_or_underscore (c : ascii) : bool :=
  let n := nat_of_ascii c in ((n =? 45) || (n =? 95))%nat.

(** [toLowerCase] on code units below 256: A-Z, and the upper-case letters
    of the Latin-1 block (all of 192..222 but the multiplication sign). *)
Definition lower_char (c : ascii) : ascii :=
  let n := nat_of_ascii c in
  if (is_upper c || (in_range 192 222 c && negb (n =? 215)%nat))%bool
  then ascii_of_nat (n + 32) else c.

Definition toLowerCase (s : string) : string := map_chars lower_char s.

(** The class [[a-z0-9-_]] of [normalizeCustomAlias]. *)
Definition alias_char (c : ascii) : bool :=
  is_lower c || is_digit c || is_dash_or_underscore c.

(** The class [[a-zA-Z0-9-_]] of [validateShortCode]. *)
Definition short_code_char (c : ascii) : bool :=
  is_lower c || is_upper c || is_digit c || is_dash_or_underscore c.

(** *** Hashing and encoding *)

(** [ToInt32]: the signed 32-bit value of an integer. *)
Definition toInt32 (z : Z) : Z := (z + 2 ^ 31) mod 2 ^ 32 - 2 ^ 31.

Fixpoint generateHash_loop (input : string) (hash : Z) : Z :=
  match input with
  | EmptyString => hash
  | String c rest =>
      let char := Z.of_nat (nat_of_ascii c) in
      let hash := (toInt32 (Z.shiftl hash 5) - hash) + char in
      let hash := toInt32 hash in
      generateHash_loop rest hash
  end.

Definition generateHash (input : string) : Z := Z.abs (generateHash_loop input 0).

(** [BASE62_CHARS[i]]; the index is always below 62 where it is used. *)
Definition base62_digit (i : Z) : ascii :=
  match String.get (Z.to_nat i) BASE62_CHARS with
  | Some c => c
  | None => "0"%char
  end.

(** The loop of [encodeBase62]; [fuel] bounds the number of rounds. *)
Fixpoint encodeBase62_loop (fuel : nat) (n : Z) (result : string) : string :=
  match fuel with
  | O => result
  | S fuel' =>
      if n >? 0
      then encodeBase62_loop fuel' (n / 62) (String (base62_digit (n mod 62)) result)
      else result
  end.

(** One round per binary digit is more than the loop needs. *)
Definition encodeBase62 (num : Z) : string :=
  if num =? 0 then "0"
  else encodeBase62_loop (S (Z.to_nat (Z.log2 num))) num "".

(** *** What the class reads from its environment *)

(** The parts of a parsed URL that [isValidUrl] looks at. *)
Record URLParts : Type := {
  protocol : string;
  hostname : string
}.

(** The readings of the clock and of [Math.random] during one [shorten]. *)
Record Oracle : Type := {
  (** [Date.now().toString(36)] in round [k] of [resolveCollision] *)
  timestamp36 : nat -> string;
  (** [Math.random().toString(36)] in round [k] of [resolveCollision] *)
  random36 : nat -> string;
  (** [Date.now()] in decimal, in [generateId] *)
  id_now : string;
  (** [Math.random().toString(36)] in [generateId] *)
  id_random36 : string;
  (** [new Date()] *)
  created : Q
}.

Section WithURLParser.

(** [new URL(url)]: [None] when the constructor throws. *)
Variable parseURL : string -> option URLParts.

Definition allowedProtocols : list string := ["http:"; "https:"; "ftp:"; "mailto:"].

Definition isValidUrl (url : string) : bool :=
  match parseURL url with
  | None => false
  | Some urlObj =>
      let protocol := toLowerCase (protocol urlObj) in
      if negb (existsb (String.eqb protocol) allowedProtocols) then false
      else if negb (String.eqb protocol "mailto:") && String.eqb (hostname urlObj) ""
      then false
      else true
  end.

Definition validateUrl (url : string) : option ErrorCode :=
  if String.eqb url "" then Some INVALID_URL_TYPE
  else if negb (isValidUrl url) then Some INVALID_URL_FORMAT
  else if (2048 <? String.length url)%nat then Some URL_TOO_LONG
  else None.

Definition validateShortCode (shortCode : string) : option ErrorCode :=
  if String.eqb shortCode "" then Some INVALID_SHORT_CODE_TYPE
  else if (MAX_CUSTOM_ALIAS_LENGTH <? String.length shortCode)%nat
  then Some SHORT_CODE_TOO_LONG
  else if negb (JsStr.all_chars short_code_char shortCode)
  then Some INVALID_SHORT_CODE_CHARS
  else None.

Definition normalizeCustomAlias (alias : string) : outcome ErrorCode string :=
  let normalized :=
    take MAX_CUSTOM_ALIAS_LENGTH (filter_chars alias_char (toLowerCase alias)) in
  if (String.length normalized <? 2)%nat then Throws INVALID_ALIAS_LENGTH
  else Returns normalized.

Definition generateUniqueShortCode (originalUrl : string) : string :=
  let hash := generateHash originalUrl in
  let shortCode := take DEFAULT_SHORT_CODE_LENGTH (encodeBase62 hash) in
  if (String.length shortCode <? DEFAULT_SHORT_CODE_LENGTH)%nat
  then padEnd DEFAULT_SHORT_CODE_LENGTH "0"%char shortCode
  else shortCode.

(** [attempts.toString()]. *)
Definition attempt_string (attempts : nat) : string :=
  NilEmpty.string_of_uint (Nat.to_uint attempts).

(** The three candidates of round [attempts] of [resolveCollision]. *)
Definition candidates (o : Oracle) (existingCode originalUrl : string) (attempts : nat)
  : list string :=
  let timestampSuffix := take_last 2 (timestamp36 o attempts) in
  let randomSuffix := substring_between 2 4 (random36 o attempts) in
  [ drop_last 2 existingCode ++ timestampSuffix;
    take DEFAULT_SHORT_CODE_LENGTH
      (encodeBase62 (generateHash (originalUrl ++ attempt_string attempts)));
    drop_last 2 existingCode ++ randomSuffix ].

(** [this.codeToIdMap.has(code)]. *)
Definition has_code (s : Store) (code : string) : bool :=
  match codeToIdMap s !! code with Some _ => true | None => false end.

(** The [while (attempts < MAX_COLLISION_RETRIES)] loop, entered with
    [attempts] rounds done and [remaining = MAX_COLLISION_RETRIES - attempts]
    rounds left. The result carries the value of [attempts] at the exit. *)
Fixpoint resolveCollision_loop (o : Oracle) (s : Store)
    (existingCode originalUrl : string) (attempts remaining : nat)
  : outcome ErrorCode string * nat :=
  match remaining with
  | O => (Throws COLLISION_RESOLUTION_FAILED, attempts)
  | S remaining' =>
      let attempts := S attempts in
      match List.find (fun c => negb (has_code s c))
                      (candidates o existingCode originalUrl attempts) with
      | Some candidateCode => (Returns candidateCode, attempts)
      | None => resolveCollision_loop o s existingCode originalUrl attempts remaining'
      end
  end.

Definition resolveCollision (o : Oracle) (s : Store) (existingCode originalUrl : string)
  : outcome ErrorCode string * nat :=
  resolveCollision_loop o s existingCode originalUrl 0 MAX_COLLISION_RETRIES.

Definition generateId (o : Oracle) : string :=
  id_now o ++ "-" ++ substring_between 2 9 (id_random36 o).

(** A string used as a condition: [undefined] and [''] are falsy. *)
Definition truthy (o : option string) : option string :=
  match o with
  | Some x => if String.eqb x "" then None else Some x
  | None => None
  end.

(** The [else] branch of [shorten]: the hash-based code, and the collision
    ladder when that code is taken. *)
Definition hashShortCode (o : Oracle) (s : Store) (originalUrl : string)
  : outcome ErrorCode (string * bool) :=
  let shortCode := generateUniqueShortCode originalUrl in
  if has_code s shortCode then
    match fst (resolveCollision o s shortCode originalUrl) with
    | Returns c => Returns (c, true)
    | Throws e => Throws e
    end
  else Returns (shortCode, false).

(** The [if (options.customAlias)] branch. *)
Definition aliasShortCode (s : Store) (alias : string)
  : outcome ErrorCode (string * bool) :=
  match normalizeCustomAlias alias with
  | Throws e => Throws e
  | Returns shortCode =>
      if has_code s shortCode then Throws ALIAS_COLLISION
      else Returns (shortCode, false)
  end.

Definition chooseShortCode (o : Oracle) (s : Store) (originalUrl : string)
    (options : ShortenOptions) : outcome ErrorCode (string * bool) :=
  match truthy (customAlias options) with
  | Some alias => aliasShortCode s alias
  | None => hashShortCode o s originalUrl
  end.

(** The three [set] calls that store a new entry. *)
Definition store_entry (s : Store) (entry : ShortenedUrl) : Store :=
  {| urlMap := <[id entry := entry]> (urlMap s);
     codeToIdMap := <[shortCode entry := id entry]> (codeToIdMap s);
     originalUrlToCodeMap := <[originalUrl entry := shortCode entry]> (originalUrlToCodeMap s);
     BASE_DOMAIN := BASE_DOMAIN s |}.

(** [shorten], one call run to its end. Every error raised inside is a
    [URLShortenerError], which the [catch] rethrows as it is. *)
Definition shorten (o : Oracle) (originalUrl : string) (options : ShortenOptions)
    (s : Store) : outcome ErrorCode ShortenResult * Store :=
  match validateUrl originalUrl with
  | Some e => (Throws e, s)
  | None =>
      match truthy (originalUrlToCodeMap s !! originalUrl) with
      | Some existingCode =>
          (Returns {| sr_success := true;
                      sr_shortCode := existingCode;
                      sr_shortUrl := BASE_DOMAIN s ++ "/" ++ existingCode;
                      sr_originalUrl := originalUrl;
                      sr_message := Some "URL already shortened";
                      sr_collisionResolved := None |}, s)
      | None =>
          match chooseShortCode o s originalUrl options with
          | Throws e => (Throws e, s)
          | Returns (shortCode, collisionResolved) =>
              let id := generateId o in
              let shortenedUrl := {| id := id;
                                     originalUrl := originalUrl;
                                     shortCode := shortCode;
                                     createdAt := created o;
                                     clickCount := 0 |} in
              (Returns {| sr_success := true;
                          sr_shortCode := shortCode;
                          sr_shortUrl := BASE_DOMAIN s ++ "/" ++ shortCode;
                          sr_originalUrl := originalUrl;
                          sr_message := None;
                          sr_collisionResolved := Some collisionResolved |},
               store_entry s shortenedUrl)
          end
      end
  end.

(** [expand]: the [catch] turns every error into an unsuccessful result
    that carries the error's message. *)
Definition expand_failure (e : ErrorCode) : ExpandResult :=
  {| er_success := false; er_originalUrl := None; er_message := Some (error_message e) |}.

Definition expand (shortCode : string) (s : Store) : ExpandResult * Store :=
  match validateShortCode shortCode with
  | Some e => (expand_failure e, s)
  | None =>
      match truthy (codeToIdMap s !! shortCode) with
      | None => (expand_failure NOT_FOUND, s)
      | Some id =>
          match urlMap s !! id with
          | None => (expand_failure DATA_CORRUPTED, s)
          | Some shortenedUrl =>
              let shortenedUrl := {| id := URLShortener.id shortenedUrl;
                                     originalUrl := originalUrl shortenedUrl;
                                     shortCode := URLShortener.shortCode shortenedUrl;
                                     createdAt := createdAt shortenedUrl;
                                     clickCount := clickCount shortenedUrl + 1 |} in
              ({| er_success := true;
                  er_originalUrl := Some (originalUrl shortenedUrl);
                  er_message := None |},
               {| urlMap := <[id := shortenedUrl]> (urlMap s);
                  codeToIdMap := codeToIdMap s;
                  originalUrlToCodeMap := originalUrlToCodeMap s;
                  BASE_DOMAIN := BASE_DOMAIN s |})
          end
      end
  end.

Definition getStats (shortCode : string) (s : Store) : option ShortenedUrl :=
  match truthy (codeToIdMap s !! shortCode) with
  | None => None
  | Some id => urlMap s !! id
  end.

Definition getAllUrls (s : Store) : list ShortenedUrl :=
  snd <$> map_to_list (urlMap s).

(** The stored entries whose original URL is [u]. *)
Definition entries_for (u : string) (s : Store) : list ShortenedUrl :=
  List.filter (fun entry => String.eqb (originalUrl entry) u) (getAllUrls s).

Definition deleteUrl (shortCode : string) (s : Store) : bool * Store :=
  match truthy (codeToIdMap s !! shortCode) with
  | None => (false, s)
  | Some id =>
      match urlMap s !! id with
      | None => (false, s)
      | Some url =>
          (true,
           {| urlMap := delete id (urlMap s);
              codeToIdMap := delete shortCode (codeToIdMap s);
              originalUrlToCodeMap := delete (originalUrl url) (originalUrlToCodeMap s);
              BASE_DOMAIN := BASE_DOMAIN s |})
      end
  end.

(** The constructor; the three maps start empty. *)
Definition new (baseDomain : string) : outcome ErrorCode Store :=
  if negb (isValidUrl baseDomain) then Throws INVALID_BASE_DOMAIN
  else
    Returns {| urlMap := ∅;
               codeToIdMap := ∅;
               originalUrlToCodeMap := ∅;
               BASE_DOMAIN :=
                 if String.eqb (take_last 1 baseDomain) "/"
                 then drop_last 1 baseDomain else baseDomain |}.

(** The suffixes that [resolveCollision] takes from the clock and from
    [Math.random] are digits of base 36, as [toString(36)] prints them. *)
Definition oracle_ok (o : Oracle) : Prop :=
  forall k,
    JsStr.all_chars alias_char (take_last 2 (timestamp36 o k)) = true /\
    JsStr.all_chars alias_char (substring_between 2 4 (random36 o k)) = true.

(** The three indices agree: they describe the same set of entries. *)
Definition wf (s : Store) : Prop :=
  (forall u c, originalUrlToCodeMap s !! u = Some c ->
     exists i r, codeToIdMap s !! c = Some i /\ urlMap s !! i = Some r /\
                 originalUrl r = u /\ shortCode r = c) /\
  (forall c i, codeToIdMap s !! c = Some i ->
     validateShortCode c = None /\ i <> "" /\
     exists r, urlMap s !! i = Some r /\ shortCode r = c) /\
  (forall i r, urlMap s !! i = Some r ->
     id r = i /\ codeToIdMap s !! shortCode r = Some i /\
     originalUrlToCodeMap s !! originalUrl r = Some (shortCode r) /\
     validateUrl (originalUrl r) = None).

(** The stores that a client can build: calls are run one at a time, and
    [generateId] never returns the identifier of a stored entry. *)
Inductive reachable : Store -> Prop :=
| reach_new baseDomain s :
    new baseDomain = Returns s -> reachable s
| reach_shorten o originalUrl options s :
    reachable s -> oracle_ok o -> urlMap s !! generateId o = None ->
    reachable (snd (shorten o originalUrl options s))
| reach_expand shortCode s :
    reachable s -> reachable (snd (expand shortCode s))
| reach_delete shortCode s :
    reachable s -> reachable (snd (deleteUrl shortCode s)).

(** The calls of a client that write to the store, run one at a time. *)
Inductive Request : Type :=
| ReqShorten (o : Oracle) (originalUrl : string) (options : ShortenOptions)
| ReqExpand (shortCode : string)
| ReqDeleteUrl (shortCode : string).

Definition serve (q : Request) (s : Store) : Store :=
  match q with
  | ReqShorten o originalUrl options => snd (shorten o originalUrl options s)
  | ReqExpand shortCode => snd (expand shortCode s)
  | ReqDeleteUrl shortCode => snd (deleteUrl shortCode s)
  end.

Definition serve_all (qs : list Request) (s : Store) : Store :=
  foldl (fun s q => serve q s) s qs.

(** The readings of every [shorten] of the sequence are base-36 digits, and
    its [generateId] returns no identifier that is stored when it runs. *)
Fixpoint fresh_ids (qs : list Request) (s : Store) : Prop :=
  match qs with
  | [] => True
  | q :: rest =>
      match q with
      | ReqShorten o _ _ => oracle_ok o /\ urlMap s !! generateId o = None
      | _ => True
      end /\ fresh_ids rest (serve q s)
  end.

(** The number of [expand(c)] calls in a sequence. *)
Definition clicks (c : string) (qs : list Request) : nat :=
  length (List.filter (fun q => match q with
                                | ReqExpand c' => String.eqb c' c
                                | _ => false
                                end) qs).

(** An entry after [n] more clicks. *)
Definition clicked (n : N) (r : ShortenedUrl) : ShortenedUrl :=
  {| id := id r; originalUrl := originalUrl r; shortCode := shortCode r;
     createdAt := createdAt r; clickCount := clickCount r + n |}.

(** [BASE62_CHARS.indexOf(c)], and the number that a string of base-62
    digits denotes. *)
Definition base62_index (c : ascii) : Z :=
  match List.find (fun i => Ascii.eqb (base62_digit (Z.of_nat i)) c) (seq 0 62) with
  | Some i => Z.of_nat i
  | None => -1
  end.

Fixpoint base62_value_from (acc : Z) (s : string) : Z :=
  match s with
  | EmptyString => acc
  | String c rest => base62_value_from (acc * 62 + base62_index c) rest
  end.

Definition base62_value (s : string) : Z := base62_value_from 0 s.

End WithURLParser.

End URLShortener.

(** ** Bursts of requests for one token

    The invariant of a burst of [tryConsume(1)] or [check(key, 1)] calls on
    one bucket, between two calls. *)

Module Burst.
Local Open Scope Q_scope.

(** Tokens that a rate [r] yields in [e] milliseconds. *)
Definition accrued (r e : Q) : Q := (e / 1000) * r.

(** The state of a burst on a [TokenBucket]: [k] more requests of one token
    can be admitted, and the bucket holds these [k] tokens plus what has
    accrued since [L0], which is less than one token. *)
Definition bucket_inv (L0 r : Q) (k : nat) (b : TokenBucket.TokenBucketState) : Prop :=
  TokenBucket.refillRate b = r /\ 0 < r /\
  1 <= TokenBucket.capacity b /\
  inject_Z (Z.of_nat k) <= TokenBucket.capacity b /\
  L0 <= TokenBucket.lastRefillTime b /\
  accrued r (TokenBucket.lastRefillTime b - L0) < 1 /\
  inject_Z (Z.of_nat k) <= TokenBucket.tokens b /\
  TokenBucket.tokens b
    <= inject_Z (Z.of_nat k) + accrued r (TokenBucket.lastRefillTime b - L0).

(** The same state for a bucket of the registry. *)
Definition stats_inv (L0 r : Q) (k : nat) (b : TokenBucketRateLimiter.BucketStats) : Prop :=
  TokenBucketRateLimiter.refillRate (TokenBucketRateLimiter.config b) = r /\ 0 < r /\
  inject_Z (Z.of_nat k) <= TokenBucketRateLimiter.capacity (TokenBucketRateLimiter.config b) /\
  L0 <= TokenBucketRateLimiter.lastRefill b /\
  accrued r (TokenBucketRateLimiter.lastRefill b - L0) < 1 /\
  inject_Z (Z.of_nat k) <= TokenBucketRateLimiter.tokens b /\
  TokenBucketRateLimiter.tokens b
    <= inject_Z (Z.of_nat k) + accrued r (TokenBucketRateLimiter.lastRefill b - L0).

End Burst.

(** ** Example data

    What [new URL] answers on the URLs of the test-suite, and clock and
    [Math.random] readings for the examples. *)

Module Examples.
Import URLShortener.
Local Open Scope string_scope.

(** A full bucket of capacity 5, and a configuration of the registry. *)
Definition bucket5 : TokenBucket.TokenBucketState :=
  {| TokenBucket.tokens := 5%Q; TokenBucket.lastRefillTime := 0%Q;
     TokenBucket.capacity := 5%Q; TokenBucket.refillRate := 1%Q |}.

Definition config5 : TokenBucketRateLimiter.TokenBucketConfig :=
  {| TokenBucketRateLimiter.capacity := 5%Q;
     TokenBucketRateLimiter.refillRate := 2%Q;
     TokenBucketRateLimiter.initialTokens := None |}.


Definition parsed_urls : list (string * URLParts) :=
  [ ("https://short.test", {| protocol := "https:"; hostname := "short.test" |});
    ("https://example.com", {| protocol := "https:"; hostname := "example.com" |});
    ("https://example.com/about", {| protocol := "https:"; hostname := "example.com" |});
    ("https://example.com/page1", {| protocol := "https:"; hostname := "example.com" |});
    ("https://example.com/page2", {| protocol := "https:"; hostname := "example.com" |}) ].

Definition parseURL (url : string) : option URLParts :=
  match List.find (fun p => String.eqb (fst p) url) parsed_urls with
  | Some p => Some (snd p)
  | None => None
  end.

Definition oracle (now : string) (rnd : string) : Oracle :=
  {| timestamp36 := fun _ => "lq3x9k2f";
     random36 := fun _ => rnd;
     id_now := now;
     id_random36 := rnd;
     created := 0 |}.

Definition no_options : ShortenOptions :=
  {| customAlias := None; expireAfterDays := None |}.

Definition with_alias (alias : string) : ShortenOptions :=
  {| customAlias := Some alias; expireAfterDays := None |}.

(** A fresh shortener for the test domain. *)
Definition fresh_store : Store :=
  {| urlMap := ∅; codeToIdMap := ∅; originalUrlToCodeMap := ∅;
     BASE_DOMAIN := "https://short.test" |}.

(** A store in which the hash-based code of "https://example.com" and
    every candidate that [resolveCollision] derives from it, with the
    readings of [oracle now "0.4fzyo82mvyr"], are assigned. *)
Definition crowded_codes : list string :=
  [ "gpN5q0"; "gpN52f"; "gpN54f";
    "21dg2X"; "21dg2W"; "21dg2V"; "21dg2U"; "21dg2T" ].

Definition crowded_store : Store :=
  {| urlMap := ∅;
     codeToIdMap := list_to_map ((fun c => (c, "1700000000000-4fzyo82")) <$> crowded_codes);
     originalUrlToCodeMap := ∅;
     BASE_DOMAIN := "https://short.test" |}.

End Examples.

(** * Properties *)

(** ** Number helpers *)

Module JsNumFacts.
Import JsNum.
Local Open Scope Q_scope.

Lemma leb_le a b : leb a b = true <-> a <= b.
Proof. apply Qle_bool_iff. Qed.

Lemma leb_gt a b : leb a b = false <-> b < a.
Proof.
  unfold leb. split; intros H.
  - apply Qnot_le_lt. intros Hle. apply Qle_bool_iff in Hle. congruence.
  - destruct (Qle_bool a b) eqn:E; [|reflexivity].
    apply Qle_bool_iff in E. exfalso. apply (Qlt_not_le _ _ H E).
Qed.

Lemma ltb_lt a b : ltb a b = true <-> a < b.
Proof. unfold ltb. rewrite Bool.negb_true_iff. apply leb_gt. Qed.

Lemma ltb_ge a b : ltb a b = false <-> b <= a.
Proof. unfold ltb. rewrite Bool.negb_false_iff. apply leb_le. Qed.

Lemma geb_ge a b : geb a b = true <-> b <= a.
Proof. apply leb_le. Qed.

Lemma geb_lt a b : geb a b = false <-> a < b.
Proof. apply leb_gt. Qed.

Lemma gtb_gt a b : gtb a b = true <-> b < a.
Proof. apply ltb_lt. Qed.

Lemma gtb_le a b : gtb a b = false <-> a <= b.
Proof. apply ltb_ge. Qed.

(** Elapsed milliseconds times a rate: the sign of the refill. *)
Lemma refill_amount_pos e r : 0 < e -> 0 < r -> 0 < (e / 1000) * r.
Proof.
  intros He Hr. apply Qmult_lt_0_compat; [|assumption].
  apply Qlt_shift_div_l; lra.
Qed.

Lemma refill_amount_nonpos e r : e <= 0 -> 0 < r -> (e / 1000) * r <= 0.
Proof.
  intros He Hr.
  assert (H : 0 <= (- e / 1000) * r).
  { apply Qmult_le_0_compat; [|lra]. apply Qle_shift_div_l; lra. }
  assert (E : (- e / 1000) * r == - ((e / 1000) * r)) by (field).
  lra.
Qed.

End JsNumFacts.

(** Turn the boolean comparisons in the context into order facts. *)
Ltac jsnum_hyps :=
  repeat match goal with
  | H : JsNum.leb _ _ = true |- _ => apply JsNumFacts.leb_le in H
  | H : JsNum.leb _ _ = false |- _ => apply JsNumFacts.leb_gt in H
  | H : JsNum.ltb _ _ = true |- _ => apply JsNumFacts.ltb_lt in H
  | H : JsNum.ltb _ _ = false |- _ => apply JsNumFacts.ltb_ge in H
  | H : JsNum.geb _ _ = true |- _ => apply JsNumFacts.geb_ge in H
  | H : JsNum.geb _ _ = false |- _ => apply JsNumFacts.geb_lt in H
  | H : JsNum.gtb _ _ = true |- _ => apply JsNumFacts.gtb_gt in H
  | H : JsNum.gtb _ _ = false |- _ => apply JsNumFacts.gtb_le in H
  end.

(** ** Strings of the shortener *)

Module JsStrFacts.
Import JsStr URLShortener.
Local Open Scope string_scope.

Lemma length_append (a b : string) :
  String.length (a ++ b) = (String.length a + String.length b)%nat.
Proof. induction a as [|c a IH]; simpl; [reflexivity|]. rewrite IH. reflexivity. Qed.

Lemma length_substring (s : string) : forall i n,
  String.length (substring i n s) = Nat.min n (String.length s - i).
Proof.
  induction s as [|c s IH]; intros i n.
  - destruct i, n; reflexivity.
  - destruct i as [|i]; simpl.
    + destruct n as [|n]; simpl; [reflexivity|]. rewrite IH. f_equal. f_equal. lia.
    + apply IH.
Qed.

Lemma length_take n s : String.length (take n s) = Nat.min n (String.length s).
Proof. unfold take. rewrite length_substring. f_equal. lia. Qed.

Lemma length_drop_last n s :
  String.length (drop_last n s) = (String.length s - n)%nat.
Proof. unfold drop_last. rewrite length_substring. lia. Qed.

Lemma length_replicate_char n c : String.length (replicate_char n c) = n.
Proof. induction n as [|n IH]; simpl; [reflexivity|]. rewrite IH. reflexivity. Qed.

Lemma length_padEnd n c s :
  String.length (padEnd n c s) = Nat.max n (String.length s).
Proof. unfold padEnd. rewrite length_append, length_replicate_char. lia. Qed.

Lemma nonempty_length (s : string) : (0 < String.length s)%nat -> s <> "".
Proof. intros H ->. simpl in H. lia. Qed.

Lemma all_chars_append p (a b : string) :
  all_chars p (a ++ b) = all_chars p a && all_chars p b.
Proof.
  induction a as [|c a IH]; simpl; [reflexivity|].
  rewrite IH. apply andb_assoc.
Qed.

Lemma all_chars_substring p (s : string) : forall i n,
  all_chars p s = true -> all_chars p (substring i n s) = true.
Proof.
  induction s as [|c s IH]; intros i n H.
  - destruct i, n; reflexivity.
  - simpl in H. apply andb_true_iff in H as [Hc Hs].
    destruct i as [|i]; simpl.
    + destruct n as [|n]; simpl; [reflexivity|].
      rewrite Hc. simpl. apply IH, Hs.
    + apply IH, Hs.
Qed.

Lemma all_chars_filter p (s : string) : all_chars p (filter_chars p s) = true.
Proof.
  induction s as [|c s IH]; simpl; [reflexivity|].
  destruct (p c) eqn:E; simpl; [rewrite E|]; exact IH.
Qed.

Lemma all_chars_replicate p n c : p c = true -> all_chars p (replicate_char n c) = true.
Proof. intros H. induction n as [|n IH]; simpl; [reflexivity|]. rewrite H. exact IH. Qed.

Lemma all_chars_weaken (p q : ascii -> bool) (s : string) :
  (forall c, p c = true -> q c = true) ->
  all_chars p s = true -> all_chars q s = true.
Proof.
  intros Hpq. induction s as [|c s IH]; simpl; [reflexivity|].
  intros H. apply andb_true_iff in H as [Hc Hs].
  rewrite (Hpq c Hc). simpl. apply IH, Hs.
Qed.

Lemma alias_char_short_code_char c : alias_char c = true -> short_code_char c = true.
Proof.
  unfold alias_char, short_code_char. intros H.
  apply orb_true_iff in H as [H|H]; [|rewrite H; apply orb_true_r].
  apply orb_true_iff in H as [H|H]; rewrite H; simpl; [reflexivity|].
  rewrite !orb_true_r. reflexivity.
Qed.

Lemma truthy_Some o c : truthy o = Some c <-> o = Some c /\ c <> "".
Proof.
  unfold truthy. destruct o as [x|]; [|split; [discriminate|intros [? _]; discriminate]].
  destruct (String.eqb_spec x "") as [->|Hne]; split.
  - discriminate.
  - intros [[= <-] Hc]. contradiction.
  - intros [= <-]. split; [reflexivity|assumption].
  - intros [[= <-] _]. reflexivity.
Qed.

End JsStrFacts.

(** ** Short codes and their encoding *)

Module ShortCodeFacts.
Import JsStr JsStrFacts URLShortener.
Local Open Scope string_scope.
Local Open Scope Z_scope.

Lemma get_all_chars p (s : string) : forall n c,
  all_chars p s = true -> String.get n s = Some c -> p c = true.
Proof.
  induction s as [|a s IH]; intros n c H Hget; [discriminate|].
  simpl in H. apply andb_true_iff in H as [Ha Hs].
  destruct n as [|n]; simpl in Hget.
  - injection Hget as <-. exact Ha.
  - exact (IH n c Hs Hget).
Qed.

Lemma base62_digit_char i : short_code_char (base62_digit i) = true.
Proof.
  unfold base62_digit.
  destruct (String.get (Z.to_nat i) BASE62_CHARS) as [c|] eqn:E; [|reflexivity].
  apply (get_all_chars short_code_char BASE62_CHARS (Z.to_nat i) c); [reflexivity|exact E].
Qed.

Lemma encodeBase62_loop_chars fuel : forall n acc,
  all_chars short_code_char acc = true ->
  all_chars short_code_char (encodeBase62_loop fuel n acc) = true.
Proof.
  induction fuel as [|fuel IH]; intros n acc H; simpl; [exact H|].
  destruct (n >? 0); [|exact H].
  apply IH. simpl. rewrite base62_digit_char. exact H.
Qed.

Lemma encodeBase62_loop_nonempty fuel : forall n acc,
  acc <> "" -> encodeBase62_loop fuel n acc <> "".
Proof.
  induction fuel as [|fuel IH]; intros n acc H; simpl; [exact H|].
  destruct (n >? 0); [|exact H]. apply IH. discriminate.
Qed.

(** Enough fuel: with [n < 2 ^ fuel] the loop stops because [n] has
    reached 0, and more fuel changes nothing. *)
Lemma encodeBase62_loop_fuel fuel : forall n acc extra,
  n < 2 ^ Z.of_nat fuel ->
  encodeBase62_loop (fuel + extra) n acc = encodeBase62_loop fuel n acc.
Proof.
  induction fuel as [|fuel IH]; intros n acc extra Hn.
  - simpl in Hn. destruct extra as [|extra]; simpl; [reflexivity|].
    destruct (Z.gtb_spec n 0); [lia|reflexivity].
  - cbn [Nat.add encodeBase62_loop].
    destruct (Z.gtb_spec n 0) as [Hpos|Hle]; [|reflexivity].
    apply IH. rewrite Nat2Z.inj_succ, Z.pow_succ_r in Hn by lia.
    apply Z.div_lt_upper_bound; lia.
Qed.

Lemma encodeBase62_fuel_enough num extra :
  0 < num ->
  encodeBase62_loop (S (Z.to_nat (Z.log2 num)) + extra) num "" = encodeBase62 num.
Proof.
  intros Hpos. unfold encodeBase62.
  destruct (Z.eqb_spec num 0) as [->|_]; [lia|].
  apply encodeBase62_loop_fuel.
  rewrite Nat2Z.inj_succ, Z2Nat.id by apply Z.log2_nonneg.
  apply Z.log2_spec. exact Hpos.
Qed.

Lemma encodeBase62_chars num : all_chars short_code_char (encodeBase62 num) = true.
Proof.
  unfold encodeBase62. destruct (num =? 0); [reflexivity|].
  apply encodeBase62_loop_chars. reflexivity.
Qed.

Lemma encodeBase62_nonempty num : 0 <= num -> encodeBase62 num <> "".
Proof.
  intros H. unfold encodeBase62.
  destruct (Z.eqb_spec num 0) as [->|Hne]; [discriminate|].
  cbn [encodeBase62_loop]. destruct (Z.gtb_spec num 0); [|lia].
  apply encodeBase62_loop_nonempty. discriminate.
Qed.

Lemma generateHash_nonneg input : 0 <= generateHash input.
Proof. apply Z.abs_nonneg. Qed.

(** A short code that [validateShortCode] accepts. *)
Lemma validateShortCode_ok c :
  c <> "" -> (String.length c <= MAX_CUSTOM_ALIAS_LENGTH)%nat ->
  all_chars short_code_char c = true ->
  validateShortCode c = None.
Proof.
  intros Hne Hlen Hch. unfold validateShortCode.
  destruct (String.eqb_spec c "") as [->|_]; [contradiction|].
  destruct (Nat.ltb_spec MAX_CUSTOM_ALIAS_LENGTH (String.length c)); [lia|].
  rewrite Hch. reflexivity.
Qed.

Lemma validateShortCode_nonempty c : validateShortCode c = None -> c <> "".
Proof. intros H ->. discriminate. Qed.

Lemma generateUniqueShortCode_length u :
  String.length (generateUniqueShortCode u) = DEFAULT_SHORT_CODE_LENGTH.
Proof.
  unfold generateUniqueShortCode.
  destruct (Nat.ltb_spec (String.length (take DEFAULT_SHORT_CODE_LENGTH
                                           (encodeBase62 (generateHash u))))
                         DEFAULT_SHORT_CODE_LENGTH) as [Hlt|Hge].
  - rewrite length_padEnd. lia.
  - rewrite length_take in *. lia.
Qed.

Lemma generateUniqueShortCode_chars u :
  all_chars short_code_char (generateUniqueShortCode u) = true.
Proof.
  unfold generateUniqueShortCode.
  assert (H : all_chars short_code_char
                (take DEFAULT_SHORT_CODE_LENGTH (encodeBase62 (generateHash u))) = true).
  { apply all_chars_substring, encodeBase62_chars. }
  destruct (_ <? _)%nat; [|exact H].
  unfold padEnd. rewrite all_chars_append, H. simpl.
  apply all_chars_replicate. reflexivity.
Qed.

Lemma generateUniqueShortCode_valid u :
  validateShortCode (generateUniqueShortCode u) = None.
Proof.
  apply validateShortCode_ok.
  - apply nonempty_length. rewrite generateUniqueShortCode_length.
    unfold DEFAULT_SHORT_CODE_LENGTH. lia.
  - rewrite generateUniqueShortCode_length.
    unfold DEFAULT_SHORT_CODE_LENGTH, MAX_CUSTOM_ALIAS_LENGTH. lia.
  - apply generateUniqueShortCode_chars.
Qed.

Lemma normalizeCustomAlias_valid alias c :
  normalizeCustomAlias alias = Returns c ->
  validateShortCode c = None /\ all_chars alias_char c = true /\
  (2 <= String.length c <= MAX_CUSTOM_ALIAS_LENGTH)%nat.
Proof.
  unfold normalizeCustomAlias.
  set (n := take MAX_CUSTOM_ALIAS_LENGTH (filter_chars alias_char (toLowerCase alias))).
  destruct (Nat.ltb_spec (String.length n) 2) as [Hlt|Hge]; [discriminate|].
  intros [= <-].
  assert (Hch : all_chars alias_char n = true).
  { apply all_chars_substring, all_chars_filter. }
  assert (Hlen : (String.length n <= MAX_CUSTOM_ALIAS_LENGTH)%nat).
  { unfold n. rewrite length_take. lia. }
  split; [|split; [exact Hch | lia]].
  apply validateShortCode_ok.
  - apply nonempty_length. lia.
  - exact Hlen.
  - apply (all_chars_weaken alias_char); [apply alias_char_short_code_char | exact Hch].
Qed.

End ShortCodeFacts.

(** ** The collision ladder *)

Module CollisionFacts.
Import JsStr JsStrFacts URLShortener ShortCodeFacts.
Local Open Scope string_scope.

Lemma suffixed_code_valid code suffix :
  String.length code = DEFAULT_SHORT_CODE_LENGTH ->
  all_chars short_code_char code = true ->
  (String.length suffix <= 2)%nat ->
  all_chars alias_char suffix = true ->
  validateShortCode (drop_last 2 code ++ suffix) = None.
Proof.
  intros Hlen Hch Hslen Hsch. unfold DEFAULT_SHORT_CODE_LENGTH in Hlen.
  apply validateShortCode_ok.
  - apply nonempty_length. rewrite length_append, length_drop_last. lia.
  - rewrite length_append, length_drop_last. unfold MAX_CUSTOM_ALIAS_LENGTH. lia.
  - rewrite all_chars_append. apply andb_true_iff. split.
    + apply all_chars_substring, Hch.
    + apply (all_chars_weaken alias_char); [apply alias_char_short_code_char | exact Hsch].
Qed.

Lemma rehashed_code_valid input :
  validateShortCode (take DEFAULT_SHORT_CODE_LENGTH (encodeBase62 (generateHash input)))
  = None.
Proof.
  pose proof (encodeBase62_nonempty _ (generateHash_nonneg input)) as Hne.
  apply validateShortCode_ok.
  - apply nonempty_length. rewrite length_take.
    destruct (encodeBase62 (generateHash input)); [contradiction|].
    unfold DEFAULT_SHORT_CODE_LENGTH. simpl. lia.
  - rewrite length_take. unfold DEFAULT_SHORT_CODE_LENGTH, MAX_CUSTOM_ALIAS_LENGTH. lia.
  - apply all_chars_substring, encodeBase62_chars.
Qed.

Lemma candidates_valid o code u k c :
  oracle_ok o ->
  String.length code = DEFAULT_SHORT_CODE_LENGTH ->
  all_chars short_code_char code = true ->
  In c (candidates o code u k) ->
  validateShortCode c = None.
Proof.
  intros Ho Hlen Hch Hin. destruct (Ho k) as [Hts Hrnd].
  unfold candidates in Hin. simpl in Hin.
  destruct Hin as [<-|[<-|[<-|[]]]].
  - apply suffixed_code_valid; try assumption.
    unfold take_last. rewrite length_substring. lia.
  - apply rehashed_code_valid.
  - apply suffixed_code_valid; try assumption.
    unfold substring_between. rewrite length_substring. lia.
Qed.

(** What the loop returns, from [attempts] rounds done and [remaining]
    rounds left. *)
Lemma resolveCollision_loop_spec o s code u : forall remaining attempts res n,
  resolveCollision_loop o s code u attempts remaining = (res, n) ->
  (res = Throws COLLISION_RESOLUTION_FAILED /\ n = (attempts + remaining)%nat /\
   forall k c, (attempts < k <= attempts + remaining)%nat ->
               In c (candidates o code u k) -> has_code s c = true)
  \/
  (exists c, res = Returns c /\ (attempts < n <= attempts + remaining)%nat /\
             In c (candidates o code u n) /\ has_code s c = false /\
             forall k c', (attempts < k < n)%nat ->
                          In c' (candidates o code u k) -> has_code s c' = true).
Proof.
  induction remaining as [|remaining IH]; intros attempts res n H.
  - simpl in H. injection H as <- <-. left.
    split; [reflexivity|]. split; [lia|]. intros k c Hk. lia.
  - cbn [resolveCollision_loop] in H.
    destruct (List.find _ (candidates o code u (S attempts))) as [c|] eqn:Hfind.
    + injection H as <- <-. right. exists c.
      apply List.find_some in Hfind as [Hin Hfree].
      apply negb_true_iff in Hfree.
      split; [reflexivity|]. split; [lia|]. split; [exact Hin|]. split; [exact Hfree|].
      intros k c' Hk. lia.
    + assert (Hround : forall c', In c' (candidates o code u (S attempts)) ->
                                  has_code s c' = true).
      { intros c' Hin. pose proof (List.find_none _ _ Hfind c' Hin) as Hc.
        apply negb_false_iff in Hc. exact Hc. }
      destruct (IH (S attempts) res n H)
        as [(Hres & Hn & Hall)|(c & Hres & Hn & Hin & Hfree & Hall)].
      * left. split; [exact Hres|]. split; [lia|].
        intros k c Hk Hin. destruct (decide (k = S attempts)) as [->|Hne].
        -- apply Hround, Hin.
        -- apply (Hall k c); [lia | exact Hin].
      * right. exists c. split; [exact Hres|]. split; [lia|].
        split; [exact Hin|]. split; [exact Hfree|].
        intros k c' Hk Hin'. destruct (decide (k = S attempts)) as [->|Hne].
        -- apply Hround, Hin'.
        -- apply (Hall k c'); [lia | exact Hin'].
Qed.

Lemma resolveCollision_loop_exhausted o s code u : forall remaining attempts,
  (forall k c, (attempts < k <= attempts + remaining)%nat ->
               In c (candidates o code u k) -> has_code s c = true) ->
  resolveCollision_loop o s code u attempts remaining
  = (Throws COLLISION_RESOLUTION_FAILED, (attempts + remaining)%nat).
Proof.
  induction remaining as [|remaining IH]; intros attempts Hall.
  - simpl. f_equal. lia.
  - cbn [resolveCollision_loop].
    destruct (List.find _ (candidates o code u (S attempts))) as [c|] eqn:Hfind.
    + apply List.find_some in Hfind as [Hin Hfree].
      rewrite (Hall (S attempts) c) in Hfree by (lia || exact Hin). discriminate.
    + rewrite IH.
      * f_equal. lia.
      * intros k c Hk Hin. apply (Hall k c); [lia | exact Hin].
Qed.

Lemma resolveCollision_attempts_bound o s code u :
  (snd (resolveCollision o s code u) <= MAX_COLLISION_RETRIES)%nat /\
  (forall c, fst (resolveCollision o s code u) = Returns c ->
             (1 <= snd (resolveCollision o s code u))%nat).
Proof.
  unfold resolveCollision.
  destruct (resolveCollision_loop o s code u 0 MAX_COLLISION_RETRIES) as [res n] eqn:H.
  apply resolveCollision_loop_spec in H
    as [(Hres & Hn & _)|(c & Hres & Hn & _)]; simpl; split; try lia.
  - intros c Hc. congruence.
Qed.

Lemma hashShortCode_spec o s u c b :
  oracle_ok o ->
  hashShortCode o s u = Returns (c, b) ->
  validateShortCode c = None /\ has_code s c = false.
Proof.
  intros Ho. unfold hashShortCode.
  destruct (has_code s (generateUniqueShortCode u)) eqn:Hhas.
  - unfold resolveCollision.
    destruct (resolveCollision_loop o s (generateUniqueShortCode u) u 0
                MAX_COLLISION_RETRIES) as [res n] eqn:H.
    apply resolveCollision_loop_spec in H
      as [(-> & _)|(c' & -> & _ & Hin & Hfree & _)]; simpl; [discriminate|].
    intros [= <- <-]. split; [|exact Hfree].
    apply (candidates_valid o (generateUniqueShortCode u) u n c' Ho);
      [apply generateUniqueShortCode_length | apply generateUniqueShortCode_chars | exact Hin].
  - intros [= <- <-]. split; [apply generateUniqueShortCode_valid | exact Hhas].
Qed.

Lemma aliasShortCode_spec s alias c b :
  aliasShortCode s alias = Returns (c, b) ->
  normalizeCustomAlias alias = Returns c /\ b = false /\
  validateShortCode c = None /\ has_code s c = false.
Proof.
  unfold aliasShortCode.
  destruct (normalizeCustomAlias alias) as [c'|e] eqn:Hn; [|discriminate].
  destruct (has_code s c') eqn:Hhas; [discriminate|].
  intros [= <- <-]. split; [reflexivity|]. split; [reflexivity|].
  split; [apply (normalizeCustomAlias_valid alias c' Hn) | exact Hhas].
Qed.

Lemma chooseShortCode_spec o s u options c b :
  oracle_ok o ->
  chooseShortCode o s u options = Returns (c, b) ->
  validateShortCode c = None /\ has_code s c = false.
Proof.
  intros Ho. unfold chooseShortCode.
  destruct (truthy (customAlias options)) as [alias|].
  - intros H. apply aliasShortCode_spec in H as (_ & _ & Hv & Hf). split; assumption.
  - apply hashShortCode_spec, Ho.
Qed.

Lemma candidates_nonempty o code u k c :
  String.length code = DEFAULT_SHORT_CODE_LENGTH ->
  In c (candidates o code u k) -> c <> "".
Proof.
  intros Hlen Hin. unfold DEFAULT_SHORT_CODE_LENGTH in Hlen.
  unfold candidates in Hin. simpl in Hin.
  destruct Hin as [<-|[<-|[<-|[]]]].
  - apply nonempty_length. rewrite length_append, length_drop_last. lia.
  - apply validateShortCode_nonempty, rehashed_code_valid.
  - apply nonempty_length. rewrite length_append, length_drop_last. lia.
Qed.

(** Whatever the clock and [Math.random] give, a chosen code is free and
    not the empty string. *)
Lemma chooseShortCode_free o s u options c b :
  chooseShortCode o s u options = Returns (c, b) ->
  c <> "" /\ has_code s c = false.
Proof.
  unfold chooseShortCode.
  destruct (truthy (customAlias options)) as [alias|].
  - intros H. apply aliasShortCode_spec in H as (_ & _ & Hv & Hf).
    split; [apply validateShortCode_nonempty, Hv | exact Hf].
  - unfold hashShortCode.
    destruct (has_code s (generateUniqueShortCode u)) eqn:Hhas.
    + unfold resolveCollision.
      destruct (resolveCollision_loop o s (generateUniqueShortCode u) u 0
                  MAX_COLLISION_RETRIES) as [res n] eqn:H.
      apply resolveCollision_loop_spec in H
        as [(-> & _)|(c' & -> & _ & Hin & Hfree & _)]; simpl; [discriminate|].
      intros [= <- <-]. split; [|exact Hfree].
      apply (candidates_nonempty o (generateUniqueShortCode u) u n c');
        [apply generateUniqueShortCode_length | exact Hin].
    + intros [= <- <-].
      split; [apply validateShortCode_nonempty, generateUniqueShortCode_valid | exact Hhas].
Qed.

End CollisionFacts.

(** ** The three indices of the store *)

Module StoreFacts.
Import JsStr JsStrFacts URLShortener ShortCodeFacts CollisionFacts.
Local Open Scope string_scope.

Section WithURLParser.
Variable parseURL : string -> option URLParts.

Local Abbreviation wf := (wf parseURL).
Local Abbreviation shorten := (shorten parseURL).
Local Abbreviation validateUrl := (validateUrl parseURL).
Local Abbreviation reachable := (reachable parseURL).

Lemma has_code_false s c : has_code s c = false <-> codeToIdMap s !! c = None.
Proof.
  unfold has_code. destruct (codeToIdMap s !! c); split; intros H;
    try reflexivity; discriminate.
Qed.

Lemma generateId_nonempty o : generateId o <> "".
Proof.
  unfold generateId. apply nonempty_length.
  rewrite !length_append. simpl. lia.
Qed.

Lemma wf_new baseDomain s : new parseURL baseDomain = Returns s -> wf s.
Proof.
  unfold new. destruct (negb _); [discriminate|]. intros [= <-].
  split; [|split]; simpl; intros ? ? H; rewrite lookup_empty in H; discriminate.
Qed.

(** In a well-formed store the truthiness tests of the lookups never see
    an empty string. *)
Lemma wf_truthy_code s u :
  wf s -> truthy (originalUrlToCodeMap s !! u) = originalUrlToCodeMap s !! u.
Proof.
  intros (W1 & W2 & _). destruct (originalUrlToCodeMap s !! u) as [c|] eqn:E; [|reflexivity].
  apply truthy_Some. split; [reflexivity|].
  destruct (W1 u c E) as (i & r & Hc & _).
  apply validateShortCode_nonempty. apply (W2 c i Hc).
Qed.

Lemma wf_truthy_id s c :
  wf s -> truthy (codeToIdMap s !! c) = codeToIdMap s !! c.
Proof.
  intros (_ & W2 & _). destruct (codeToIdMap s !! c) as [i|] eqn:E; [|reflexivity].
  apply truthy_Some. split; [reflexivity|]. apply (W2 c i E).
Qed.

Lemma store_entry_wf s e :
  wf s ->
  urlMap s !! id e = None ->
  codeToIdMap s !! shortCode e = None ->
  originalUrlToCodeMap s !! originalUrl e = None ->
  validateShortCode (shortCode e) = None ->
  id e <> "" ->
  validateUrl (originalUrl e) = None ->
  wf (store_entry s e).
Proof.
  intros (W1 & W2 & W3) Hid Hcode Hurl Hvalid Hne Hvu.
  unfold store_entry. split; [|split]; simpl.
  - intros u c H. destruct (decide (originalUrl e = u)) as [<-|Hu].
    + rewrite lookup_insert_eq in H. injection H as <-.
      exists (id e), e. rewrite !lookup_insert_eq. repeat split; reflexivity.
    + rewrite lookup_insert_ne in H by exact Hu.
      destruct (W1 u c H) as (i & r & Hc & Hi & Hru & Hrc).
      exists i, r. rewrite !lookup_insert_ne by congruence.
      repeat split; assumption.
  - intros c i H. destruct (decide (shortCode e = c)) as [<-|Hc].
    + rewrite lookup_insert_eq in H. injection H as <-.
      split; [exact Hvalid|]. split; [exact Hne|].
      exists e. rewrite lookup_insert_eq. split; reflexivity.
    + rewrite lookup_insert_ne in H by exact Hc.
      destruct (W2 c i H) as (Hv & Hi & r & Hr & Hrc).
      split; [exact Hv|]. split; [exact Hi|].
      exists r. rewrite lookup_insert_ne by congruence. split; assumption.
  - intros i r H. destruct (decide (id e = i)) as [<-|Hi].
    + rewrite lookup_insert_eq in H. injection H as <-.
      rewrite !lookup_insert_eq. repeat split; try reflexivity. exact Hvu.
    + rewrite lookup_insert_ne in H by exact Hi.
      destruct (W3 i r H) as (Hri & Hrc & Hru & Hrv).
      rewrite !lookup_insert_ne by congruence.
      repeat split; assumption.
Qed.

Lemma shorten_wf o u options s :
  wf s -> oracle_ok o -> urlMap s !! generateId o = None ->
  wf (snd (shorten o u options s)).
Proof.
  intros Hwf Ho Hfresh. unfold URLShortener.shorten.
  destruct (validateUrl u) eqn:Hvu; [exact Hwf|].
  rewrite (wf_truthy_code s u Hwf).
  destruct (originalUrlToCodeMap s !! u) as [c|] eqn:Hu; [exact Hwf|].
  destruct (chooseShortCode o s u options) as [[c b]|e] eqn:Hch; [|exact Hwf].
  apply (chooseShortCode_spec o s u options c b Ho) in Hch as [Hvalid Hfree].
  apply has_code_false in Hfree. simpl.
  apply store_entry_wf; simpl; try assumption.
  apply generateId_nonempty.
Qed.

Lemma expand_wf c s : wf s -> wf (snd (expand c s)).
Proof.
  intros Hwf. unfold expand.
  destruct (validateShortCode c); [exact Hwf|].
  rewrite (wf_truthy_id s c Hwf).
  destruct (codeToIdMap s !! c) as [i|] eqn:Hc; [|exact Hwf].
  destruct (urlMap s !! i) as [r|] eqn:Hi; [|exact Hwf].
  destruct Hwf as (W1 & W2 & W3). simpl.
  split; [|split]; simpl.
  - intros u c' H. destruct (W1 u c' H) as (i' & r' & Hc' & Hi' & Hru & Hrc).
    destruct (decide (i = i')) as [<-|Hne].
    + eexists i, _. rewrite lookup_insert_eq. split; [exact Hc'|].
      split; [reflexivity|]. simpl. split; congruence.
    + exists i', r'. rewrite lookup_insert_ne by exact Hne. repeat split; assumption.
  - intros c' i' H. destruct (W2 c' i' H) as (Hv & Hne' & r' & Hr' & Hrc).
    split; [exact Hv|]. split; [exact Hne'|].
    destruct (decide (i = i')) as [<-|Hne].
    + eexists. rewrite lookup_insert_eq. split; [reflexivity|]. simpl. congruence.
    + exists r'. rewrite lookup_insert_ne by exact Hne. split; assumption.
  - intros i' r' H. destruct (decide (i = i')) as [<-|Hne].
    + rewrite lookup_insert_eq in H. injection H as <-. simpl. apply (W3 i r Hi).
    + rewrite lookup_insert_ne in H by exact Hne. apply (W3 i' r' H).
Qed.

Lemma deleteUrl_wf c s : wf s -> wf (snd (deleteUrl c s)).
Proof.
  intros Hwf. unfold deleteUrl.
  rewrite (wf_truthy_id s c Hwf).
  destruct (codeToIdMap s !! c) as [i|] eqn:Hc; [|exact Hwf].
  destruct (urlMap s !! i) as [r|] eqn:Hi; [|exact Hwf].
  destruct Hwf as (W1 & W2 & W3). simpl.
  destruct (W2 c i Hc) as (_ & _ & r0 & Hr0 & Hr0c).
  assert (r0 = r) as -> by congruence.
  destruct (W3 i r Hi) as (Hri & _ & Hru & _).
  split; [|split]; simpl.
  - intros u c' H. apply lookup_delete_Some in H as [Hu H].
    destruct (W1 u c' H) as (i' & r' & Hc' & Hi' & Hru' & Hrc').
    assert (i' <> i) by (intros ->; congruence).
    assert (c' <> c) by (intros ->; congruence).
    exists i', r'. rewrite !lookup_delete_ne by congruence. repeat split; assumption.
  - intros c' i' H. apply lookup_delete_Some in H as [Hc' H].
    destruct (W2 c' i' H) as (Hv & Hne & r' & Hr' & Hrc').
    assert (i' <> i) by (intros ->; congruence).
    split; [exact Hv|]. split; [exact Hne|].
    exists r'. rewrite lookup_delete_ne by congruence. split; assumption.
  - intros i' r' H. apply lookup_delete_Some in H as [Hi' H].
    destruct (W3 i' r' H) as (Hri' & Hrc' & Hru' & Hrv').
    assert (shortCode r' <> c) by (intros E; rewrite E in Hrc'; congruence).
    assert (originalUrl r' <> originalUrl r).
    { intros E. rewrite E in Hru'. congruence. }
    rewrite !lookup_delete_ne by congruence. repeat split; assumption.
Qed.

Theorem reachable_wf s : reachable s -> wf s.
Proof.
  induction 1 as [base s Hnew | o u options s _ IH Ho Hfresh | c s _ IH | c s _ IH].
  - exact (wf_new base s Hnew).
  - apply shorten_wf; assumption.
  - apply expand_wf, IH.
  - apply deleteUrl_wf, IH.
Qed.

End WithURLParser.

End StoreFacts.

(** ** run-009: the bucket stays within its capacity *)

Module TokenBucketFacts.
Import JsNum JsNumFacts TokenBucket.
Local Open Scope Q_scope.

Lemma validateConfig_ok now config :
  validateConfig now config = None ->
  0 < cfg_capacity config /\ 0 < cfg_refillRate config /\
  (forall i, cfg_initialTokens config = Some i -> 0 <= i /\ i <= cfg_capacity config).
Proof.
  unfold validateConfig. intros H.
  destruct (leb (cfg_capacity config) 0) eqn:Hc; [discriminate|].
  destruct (leb (cfg_refillRate config) 0) eqn:Hr; [discriminate|].
  jsnum_hyps. split; [assumption|]. split; [assumption|].
  intros i Hi. rewrite Hi in H.
  destruct (ltb i 0) eqn:Hlt; [discriminate|].
  destruct (gtb i (cfg_capacity config)) eqn:Hgt; [discriminate|].
  jsnum_hyps. split; assumption.
Qed.

Lemma new_well_formed nowV nowC config b :
  new nowV nowC config = Returns b -> well_formed b.
Proof.
  unfold new. destruct (validateConfig nowV config) eqn:Hv; [discriminate|].
  intros [= <-]. apply validateConfig_ok in Hv as (Hc & Hr & Hi).
  unfold well_formed, within_capacity; simpl. repeat split; try assumption.
  - destruct (cfg_initialTokens config) as [i|]; simpl; [apply (Hi i eq_refl)|lra].
  - destruct (cfg_initialTokens config) as [i|]; simpl; [apply (Hi i eq_refl)|lra].
Qed.

Lemma refill_well_formed now b : well_formed b -> well_formed (refill now b).
Proof.
  intros (Hc & Hr & H0 & Hcap). unfold refill.
  destruct (leb (now - lastRefillTime b) 0) eqn:He.
  - repeat split; assumption.
  - jsnum_hyps. pose proof (refill_amount_pos _ _ He Hr) as Hadd.
    unfold well_formed, within_capacity; simpl.
    repeat split; try assumption.
    + apply Q.min_glb; lra.
    + apply Q.le_min_l.
Qed.

Lemma consumeStep_well_formed now n b :
  0 < n -> well_formed b -> well_formed (snd (consumeStep now n b)).
Proof.
  intros Hn Hb. apply (refill_well_formed now) in Hb.
  unfold consumeStep. destruct Hb as (Hc & Hr & H0 & Hcap).
  destruct (geb (tokens (refill now b)) n) eqn:Hge; simpl.
  - jsnum_hyps. unfold well_formed, within_capacity; simpl.
    repeat split; try assumption; lra.
  - repeat split; assumption.
Qed.

Lemma tryConsume_well_formed now n b :
  well_formed b -> well_formed (snd (tryConsume now n b)).
Proof.
  intros Hb. unfold tryConsume.
  destruct (leb n 0) eqn:Hn; [exact Hb|].
  destruct (gtb n (capacity b)) eqn:Hg; [exact Hb|].
  jsnum_hyps. pose proof (consumeStep_well_formed now n b Hn Hb) as H.
  destruct (consumeStep now n b) as [r b']. exact H.
Qed.

Lemma addTokens_well_formed n b :
  well_formed b -> well_formed (snd (addTokens n b)).
Proof.
  intros Hb. unfold addTokens.
  destruct (leb n 0) eqn:Hn; [exact Hb|]. jsnum_hyps.
  destruct Hb as (Hc & Hr & H0 & Hcap).
  unfold well_formed, within_capacity; simpl. repeat split; try assumption.
  - apply Q.min_glb; lra.
  - apply Q.le_min_l.
Qed.

Lemma step_well_formed b c : well_formed b -> well_formed (step b c).
Proof.
  destruct c; simpl; [apply tryConsume_well_formed | apply addTokens_well_formed].
Qed.

Lemma trace_well_formed cs : forall b,
  well_formed b -> Forall well_formed (trace b cs).
Proof.
  induction cs as [|c cs IH]; intros b Hb; simpl; constructor.
  - apply step_well_formed, Hb.
  - apply IH, step_well_formed, Hb.
Qed.

End TokenBucketFacts.

(** ** run-010: every bucket of the registry stays within its capacity *)

Module TokenBucketRateLimiterFacts.
Import JsNum JsNumFacts TokenBucketRateLimiter.
Local Open Scope Q_scope.

Lemma validateConfig_valid c :
  validateConfig c = None ->
  0 < capacity c /\ 0 < refillRate c /\
  (forall i, initialTokens c = Some i -> 0 <= i /\ i <= capacity c).
Proof.
  unfold validateConfig. intros H.
  destruct (leb (capacity c) 0) eqn:Hc; [discriminate|].
  destruct (leb (refillRate c) 0) eqn:Hr; [discriminate|].
  jsnum_hyps. split; [assumption|]. split; [assumption|].
  intros i Hi. rewrite Hi in H.
  destruct (ltb i 0) eqn:Hlt; [discriminate|].
  destruct (gtb i (capacity c)) eqn:Hgt; [discriminate|].
  jsnum_hyps. split; assumption.
Qed.

Lemma or_else_bounds o d :
  0 < d -> (forall i, o = Some i -> 0 <= i /\ i <= d) ->
  0 <= or_else o d /\ or_else o d <= d.
Proof.
  intros Hd Ho. unfold or_else. destruct o as [i|]; [|lra].
  destruct (Qeq_bool i 0); [lra|]. apply Ho. reflexivity.
Qed.

Lemma registry_ok_empty : registry_ok ∅.
Proof. intros k b H. rewrite lookup_empty in H. discriminate. Qed.

Lemma registry_ok_insert k b (buckets : Buckets) :
  well_formed b -> registry_ok buckets -> registry_ok (<[k := b]> buckets).
Proof.
  intros Hb Hreg k' b' H. destruct (decide (k = k')) as [->|Hne].
  - rewrite lookup_insert_eq in H. injection H as <-. exact Hb.
  - rewrite lookup_insert_ne in H by exact Hne. exact (Hreg _ _ H).
Qed.

Lemma createBucket_spec now k c (buckets : Buckets) b buckets1 :
  createBucket now k c buckets = (Returns b, buckets1) ->
  well_formed b /\ buckets1 = <[k := b]> buckets.
Proof.
  unfold createBucket. destruct (validateConfig c) eqn:Hv; [discriminate|].
  intros [= <- <-]. split; [|reflexivity].
  apply validateConfig_valid in Hv as (Hc & Hr & Hi).
  unfold well_formed, within_capacity; simpl.
  split; [assumption|]. split; [assumption|]. apply or_else_bounds; assumption.
Qed.

Lemma createBucket_throws now k c (buckets : Buckets) e buckets1 :
  createBucket now k c buckets = (Throws e, buckets1) -> buckets1 = buckets.
Proof.
  unfold createBucket. destruct (validateConfig c); intros [= ]; congruence.
Qed.

Lemma refillBucket_well_formed b now :
  well_formed b -> well_formed (refillBucket b now).
Proof.
  intros (Hc & Hr & H0 & Hcap). unfold refillBucket.
  destruct (gtb _ 0) eqn:Hadd; [|repeat split; assumption].
  jsnum_hyps. unfold well_formed, within_capacity; simpl.
  split; [assumption|]. split; [assumption|]. split.
  - apply Q.min_glb; lra.
  - apply Q.le_min_r.
Qed.

Lemma decide_and_commit_well_formed now n b :
  0 < n -> well_formed b -> well_formed (snd (decide_and_commit now n b)).
Proof.
  intros Hn Hb. apply (refillBucket_well_formed b now) in Hb.
  destruct Hb as (Hc & Hr & H0 & Hcap). unfold decide_and_commit.
  destruct (geb (tokens (refillBucket b now)) n) eqn:Hge; simpl.
  - jsnum_hyps. unfold well_formed, within_capacity; simpl.
    repeat split; try assumption; lra.
  - repeat split; assumption.
Qed.

Lemma validateInput_positive k n cfg :
  validateInput k n cfg = None -> 0 < n.
Proof.
  unfold validateInput. destruct (JsStr.trim_is_empty k); [discriminate|].
  destruct (leb n 0) eqn:Hn; [discriminate|]. intros _. jsnum_hyps. exact Hn.
Qed.

Lemma check_registry_ok now nowCreate k n cfg (buckets : Buckets) :
  registry_ok buckets -> registry_ok (snd (check now nowCreate k n cfg buckets)).
Proof.
  intros Hreg. unfold check.
  destruct (validateInput k n cfg) eqn:Hv; [exact Hreg|].
  apply validateInput_positive in Hv.
  destruct (buckets !! k) as [b|] eqn:Hk.
  - pose proof (decide_and_commit_well_formed now n b Hv (Hreg _ _ Hk)) as Hb.
    destruct (decide_and_commit now n b) as [a b']. simpl in *.
    apply registry_ok_insert; assumption.
  - destruct cfg as [c|]; [|exact Hreg].
    destruct (createBucket nowCreate k c buckets) as [[b|e] buckets1] eqn:Hc.
    + apply createBucket_spec in Hc as [Hb ->].
      pose proof (decide_and_commit_well_formed now n b Hv Hb) as Hb'.
      destruct (decide_and_commit now n b) as [a b']. simpl in *.
      apply registry_ok_insert; [assumption|].
      apply registry_ok_insert; assumption.
    + apply createBucket_throws in Hc as ->. exact Hreg.
Qed.

Lemma addTokens_registry_ok k n (buckets : Buckets) :
  registry_ok buckets -> registry_ok (snd (addTokens k n buckets)).
Proof.
  intros Hreg. unfold addTokens.
  destruct (leb n 0) eqn:Hn; [exact Hreg|]. jsnum_hyps.
  destruct (buckets !! k) as [b|] eqn:Hk; [|exact Hreg]. simpl.
  apply registry_ok_insert; [|exact Hreg].
  destruct (Hreg _ _ Hk) as (Hc & Hr & H0 & Hcap).
  unfold well_formed, within_capacity; simpl.
  split; [assumption|]. split; [assumption|]. split.
  - apply Q.min_glb; lra.
  - apply Q.le_min_r.
Qed.

Lemma step_registry_ok (buckets : Buckets) c :
  registry_ok buckets -> registry_ok (step buckets c).
Proof.
  destruct c; simpl; [apply check_registry_ok | apply addTokens_registry_ok].
Qed.

Lemma trace_registry_ok cs : forall buckets : Buckets,
  registry_ok buckets -> Forall registry_ok (trace buckets cs).
Proof.
  induction cs as [|c cs IH]; intros buckets Hreg; simpl; constructor.
  - apply step_registry_ok, Hreg.
  - apply IH, step_registry_ok, Hreg.
Qed.

End TokenBucketRateLimiterFacts.

(** ** The test-suites of the sources, replayed on the model

    The clock does not advance within a test. *)

Module SourceTests.
Local Open Scope Q_scope.

(** run-009, 'should consume tokens successfully'. *)
Example consume_three_then_two :
  let '(r1, b1) := TokenBucket.tryConsume 0 3 Examples.bucket5 in
  let '(r2, b2) := TokenBucket.tryConsume 0 2 b1 in
  exists x1 x2, r1 = Returns x1 /\ r2 = Returns x2 /\
    TokenBucket.allowed x1 = true /\ TokenBucket.remainingTokens x1 == 2 /\
    TokenBucket.allowed x2 = true /\ TokenBucket.remainingTokens x2 == 0.
Proof. vm_compute. eexists _, _. repeat split; reflexivity. Qed.

(** run-009, 'should deny when insufficient tokens'. *)
Example deny_when_insufficient :
  let '(_, b1) := TokenBucket.tryConsume 0 3 Examples.bucket5 in
  let '(r2, _) := TokenBucket.tryConsume 0 3 b1 in
  exists x2, r2 = Returns x2 /\
    TokenBucket.allowed x2 = false /\ TokenBucket.remainingTokens x2 == 2 /\
    TokenBucket.retryAfter x2 = Some 1%Z.
Proof. vm_compute. eexists. repeat split; reflexivity. Qed.

(** run-009, 'should refill tokens over time': drained, then half a second
    at 2 tokens per second. *)
Example refill_after_half_a_second :
  let b := {| TokenBucket.tokens := 5; TokenBucket.lastRefillTime := 0;
              TokenBucket.capacity := 5; TokenBucket.refillRate := 2 |} in
  let '(_, b1) := TokenBucket.tryConsume 0 5 b in
  let '(r2, _) := TokenBucket.tryConsume 500 1 b1 in
  exists x2, r2 = Returns x2 /\
    TokenBucket.allowed x2 = true /\ TokenBucket.remainingTokens x2 == 0.
Proof. vm_compute. eexists. repeat split; reflexivity. Qed.

(** Drained, then one second and a half at 2 tokens per second: 3 tokens. *)
Example refill_after_one_second_and_a_half :
  let b := {| TokenBucket.tokens := 0; TokenBucket.lastRefillTime := 0;
              TokenBucket.capacity := 5; TokenBucket.refillRate := 2 |} in
  TokenBucket.tokens (TokenBucket.refill 1500 b) == 3.
Proof. reflexivity. Qed.

(** run-010, 'should calculate correct retry after time': five requests of
    one token, then a request of three. *)
Example retry_after_two_seconds :
  let buckets :=
    snd (TokenBucketRateLimiter.burst "test-bucket" 1 [0; 0; 0; 0]
           (snd (TokenBucketRateLimiter.check 0 0 "test-bucket" 1 (Some Examples.config5) ∅))) in
  exists x, fst (TokenBucketRateLimiter.check 0 0 "test-bucket" 3 None buckets) = Returns x /\
    TokenBucketRateLimiter.allowed x = false /\
    TokenBucketRateLimiter.retryAfter x = Some 2%Z.
Proof. vm_compute. eexists. repeat split; reflexivity. Qed.

(** run-010, 'should add tokens manually'. *)
Example add_tokens_manually :
  let config := {| TokenBucketRateLimiter.capacity := 10;
                   TokenBucketRateLimiter.refillRate := 1;
                   TokenBucketRateLimiter.initialTokens := None |} in
  let buckets := snd (TokenBucketRateLimiter.check 0 0 "test-bucket" 8 (Some config) ∅) in
  exists x, fst (TokenBucketRateLimiter.addTokens "test-bucket" 3 buckets) = Returns x /\
            x == 5.
Proof. vm_compute. eexists. split; reflexivity. Qed.

(** run-010, 'should track consumed and blocked requests'. *)
Example three_consumed_two_blocked :
  let config := {| TokenBucketRateLimiter.capacity := 3;
                   TokenBucketRateLimiter.refillRate := 1;
                   TokenBucketRateLimiter.initialTokens := None |} in
  let buckets :=
    snd (TokenBucketRateLimiter.burst "test-bucket" 1 [0; 0; 0; 0]
           (snd (TokenBucketRateLimiter.check 0 0 "test-bucket" 1 (Some config) ∅))) in
  exists b, fst (TokenBucketRateLimiter.getStats 0 "test-bucket" buckets) = Some b /\
    TokenBucketRateLimiter.consumed b == 3 /\ TokenBucketRateLimiter.blocked b == 2.
Proof. vm_compute. eexists. repeat split; reflexivity. Qed.

Local Open Scope string_scope.

(** url-shortener, 'should accept custom alias'. *)
Example accept_custom_alias :
  exists r, fst (URLShortener.shorten Examples.parseURL
                   (Examples.oracle "1700000000000" "0.4fzyo82mvyr")
                   "https://example.com/about" (Examples.with_alias "about-us")
                   Examples.fresh_store) = Returns r /\
    URLShortener.sr_shortCode r = "about-us" /\
    URLShortener.sr_shortUrl r = "https://short.test/about-us".
Proof. vm_compute. eexists. repeat split; reflexivity. Qed.

(** url-shortener, 'should increment click count'. *)
Example expand_counts_clicks :
  let s1 := snd (URLShortener.shorten Examples.parseURL
                   (Examples.oracle "1700000000000" "0.4fzyo82mvyr")
                   "https://example.com" Examples.no_options Examples.fresh_store) in
  let s2 := snd (URLShortener.expand "gpN5q0" s1) in
  let s3 := snd (URLShortener.expand "gpN5q0" s2) in
  exists entry, URLShortener.getStats "gpN5q0" s3 = Some entry /\
                URLShortener.clickCount entry = 2%N.
Proof. vm_compute. eexists. split; reflexivity. Qed.

(** url-shortener, 'should fail for non-existent code'. *)
Example expand_unknown_code :
  fst (URLShortener.expand "nonexistent" Examples.fresh_store)
  = URLShortener.expand_failure URLShortener.NOT_FOUND.
Proof. reflexivity. Qed.

(** url-shortener, 'should reject invalid URLs': the constructor of [URL]
    throws on 'not-a-url', and the empty string is refused before that. *)
Example reject_invalid_urls :
  fst (URLShortener.shorten Examples.parseURL
         (Examples.oracle "1700000000000" "0.4fzyo82mvyr")
         "not-a-url" Examples.no_options Examples.fresh_store)
    = Throws URLShortener.INVALID_URL_FORMAT /\
  fst (URLShortener.shorten Examples.parseURL
         (Examples.oracle "1700000000000" "0.4fzyo82mvyr")
         "" Examples.no_options Examples.fresh_store)
    = Throws URLShortener.INVALID_URL_TYPE.
Proof. split; reflexivity. Qed.

End SourceTests.

(** ** Bursts of single-token requests *)

Module BurstFacts.
Import JsNum JsNumFacts Burst.
Local Open Scope Q_scope.

Lemma accrued_split r a b c :
  accrued r (a - c) == accrued r (a - b) + accrued r (b - c).
Proof. unfold accrued. field. Qed.

Lemma accrued_pos r e : 0 < r -> 0 < e -> 0 < accrued r e.
Proof. intros. apply refill_amount_pos; assumption. Qed.

Lemma inject_succ (k : nat) :
  inject_Z (Z.of_nat (S k)) == inject_Z (Z.of_nat k) + 1.
Proof. rewrite Nat2Z.inj_succ. unfold Z.succ. rewrite inject_Z_plus. reflexivity. Qed.

Lemma refill_bucket_inv L0 r k now b :
  bucket_inv L0 r k b -> accrued r (now - L0) < 1 ->
  bucket_inv L0 r k (TokenBucket.refill now b).
Proof.
  intros (Hr & Hpos & Hc1 & Hck & HL & Hacc & Hlo & Hhi) Hnow.
  unfold TokenBucket.refill.
  destruct (leb (now - TokenBucket.lastRefillTime b) 0) eqn:E.
  - repeat split; assumption.
  - jsnum_hyps.
    pose proof (accrued_pos r _ Hpos E) as Hadd.
    pose proof (accrued_split r now (TokenBucket.lastRefillTime b) L0) as Hsplit.
    unfold bucket_inv; simpl. rewrite Hr. fold (accrued r (now - TokenBucket.lastRefillTime b)).
    repeat split; try assumption; try lra.
    + apply Q.min_glb; lra.
    + pose proof (Q.le_min_r (TokenBucket.capacity b)
                    (TokenBucket.tokens b + accrued r (now - TokenBucket.lastRefillTime b))).
      lra.
Qed.

Lemma tryConsume_bucket_inv L0 r k now b :
  bucket_inv L0 r k b -> accrued r (now - L0) < 1 ->
  exists res b',
    TokenBucket.tryConsume now 1 b = (Returns res, b') /\
    match k with
    | O => TokenBucket.allowed res = false /\ bucket_inv L0 r O b'
    | S k' => TokenBucket.allowed res = true /\ bucket_inv L0 r k' b'
    end.
Proof.
  intros Hinv Hnow.
  pose proof (refill_bucket_inv L0 r k now b Hinv Hnow)
    as (Hr & Hpos & Hc1 & Hck & HL & Hacc & Hlo & Hhi).
  destruct Hinv as (_ & _ & Hcap1 & _).
  unfold TokenBucket.tryConsume.
  destruct (leb 1 0) eqn:E0; [jsnum_hyps; lra|].
  destruct (gtb 1 (TokenBucket.capacity b)) eqn:E1; [jsnum_hyps; lra|].
  unfold TokenBucket.consumeStep.
  destruct (geb (TokenBucket.tokens (TokenBucket.refill now b)) 1) eqn:E2; jsnum_hyps.
  - eexists _, _. split; [reflexivity|]. destruct k as [|k'].
    + change (inject_Z (Z.of_nat 0)) with 0 in Hhi. lra.
    + split; [reflexivity|]. pose proof (inject_succ k') as Hs.
      unfold bucket_inv; simpl. repeat split; try assumption; lra.
  - eexists _, _. split; [reflexivity|]. destruct k as [|k'].
    + split; [reflexivity|]. repeat split; assumption.
    + pose proof (inject_succ k') as Hs.
      assert (0 <= inject_Z (Z.of_nat k')).
      { rewrite <- (Zle_Qle 0). lia. }
      lra.
Qed.

Lemma burst_counts L0 r nows : forall k b,
  bucket_inv L0 r k b ->
  (forall now, In now nows -> accrued r (now - L0) < 1) ->
  TokenBucket.count_allowed (fst (TokenBucket.burst 1 nows b))
    = Nat.min (length nows) k /\
  TokenBucket.count_denied (fst (TokenBucket.burst 1 nows b))
    = (length nows - Nat.min (length nows) k)%nat.
Proof.
  induction nows as [|now rest IH]; intros k b Hinv Hwin.
  - split; reflexivity.
  - destruct (tryConsume_bucket_inv L0 r k now b Hinv (Hwin now (or_introl eq_refl)))
      as (res & b' & Hrun & Hk).
    assert (Hrest : forall t, In t rest -> accrued r (t - L0) < 1).
    { intros t Ht. apply Hwin. right. exact Ht. }
    cbn [TokenBucket.burst]. rewrite Hrun.
    destruct (TokenBucket.burst 1 rest b') as [rs b2] eqn:Hb.
    unfold TokenBucket.count_allowed, TokenBucket.count_denied in *.
    cbn [fst List.filter TokenBucket.is_allowed TokenBucket.is_denied].
    destruct k as [|k']; destruct Hk as [Hal Hinv']; rewrite Hal; cbn [negb].
    + destruct (IH O b' Hinv' Hrest) as [IHa IHd]. rewrite Hb in IHa, IHd.
      cbn [fst] in IHa, IHd. cbn [length]. rewrite IHa, IHd. split; lia.
    + destruct (IH k' b' Hinv' Hrest) as [IHa IHd]. rewrite Hb in IHa, IHd.
      cbn [fst] in IHa, IHd. cbn [length]. rewrite IHa, IHd. split; lia.
Qed.

Lemma refillBucket_stats_inv L0 r k now b :
  stats_inv L0 r k b -> accrued r (now - L0) < 1 ->
  stats_inv L0 r k (TokenBucketRateLimiter.refillBucket b now).
Proof.
  intros (Hr & Hpos & Hck & HL & Hacc & Hlo & Hhi) Hnow.
  unfold TokenBucketRateLimiter.refillBucket. rewrite Hr.
  fold (accrued r (now - TokenBucketRateLimiter.lastRefill b)).
  destruct (gtb (accrued r (now - TokenBucketRateLimiter.lastRefill b)) 0) eqn:E.
  - jsnum_hyps.
    assert (Hlt : TokenBucketRateLimiter.lastRefill b < now).
    { destruct (Qlt_le_dec (TokenBucketRateLimiter.lastRefill b) now) as [Hl|Hg];
        [exact Hl|].
      pose proof (refill_amount_nonpos (now - TokenBucketRateLimiter.lastRefill b) r
                    ltac:(lra) Hpos) as Hn.
      unfold accrued in E. lra. }
    pose proof (accrued_split r now (TokenBucketRateLimiter.lastRefill b) L0) as Hsplit.
    unfold stats_inv; simpl.
    repeat split; try assumption; try lra.
    + apply Q.min_glb; lra.
    + pose proof (Q.le_min_l
                    (TokenBucketRateLimiter.tokens b
                     + accrued r (now - TokenBucketRateLimiter.lastRefill b))
                    (TokenBucketRateLimiter.capacity (TokenBucketRateLimiter.config b))).
      lra.
  - repeat split; assumption.
Qed.

Lemma check_stats_inv L0 r k now key (buckets : TokenBucketRateLimiter.Buckets) b :
  JsStr.trim_is_empty key = false ->
  buckets !! key = Some b ->
  stats_inv L0 r k b -> accrued r (now - L0) < 1 ->
  exists res b',
    TokenBucketRateLimiter.check now now key 1 None buckets
      = (Returns res, <[key := b']> buckets) /\
    match k with
    | O => TokenBucketRateLimiter.allowed res = false /\ stats_inv L0 r O b'
    | S k' => TokenBucketRateLimiter.allowed res = true /\ stats_inv L0 r k' b'
    end.
Proof.
  intros Hkey Hk Hinv Hnow.
  pose proof (refillBucket_stats_inv L0 r k now b Hinv Hnow)
    as (Hr & Hpos & Hck & HL & Hacc & Hlo & Hhi).
  unfold TokenBucketRateLimiter.check, TokenBucketRateLimiter.validateInput.
  rewrite Hkey.
  destruct (leb 1 0) eqn:E0; [jsnum_hyps; lra|]. rewrite Hk.
  unfold TokenBucketRateLimiter.decide_and_commit.
  destruct (geb (TokenBucketRateLimiter.tokens
                   (TokenBucketRateLimiter.refillBucket b now)) 1) eqn:E2; jsnum_hyps.
  - eexists _, _. split; [reflexivity|]. destruct k as [|k'].
    + change (inject_Z (Z.of_nat 0)) with 0 in Hhi. lra.
    + split; [reflexivity|]. pose proof (inject_succ k') as Hs.
      unfold stats_inv; simpl. repeat split; try assumption; lra.
  - eexists _, _. split; [reflexivity|]. destruct k as [|k'].
    + split; [reflexivity|]. repeat split; assumption.
    + pose proof (inject_succ k') as Hs.
      assert (0 <= inject_Z (Z.of_nat k')).
      { rewrite <- (Zle_Qle 0). lia. }
      lra.
Qed.

Lemma registry_burst_counts L0 r key nows :
  forall k (buckets : TokenBucketRateLimiter.Buckets) b,
  JsStr.trim_is_empty key = false ->
  buckets !! key = Some b ->
  stats_inv L0 r k b ->
  (forall now, In now nows -> accrued r (now - L0) < 1) ->
  TokenBucketRateLimiter.count_allowed
    (fst (TokenBucketRateLimiter.burst key 1 nows buckets))
    = Nat.min (length nows) k /\
  TokenBucketRateLimiter.count_denied
    (fst (TokenBucketRateLimiter.burst key 1 nows buckets))
    = (length nows - Nat.min (length nows) k)%nat.
Proof.
  induction nows as [|now rest IH]; intros k buckets b Hkey Hk Hinv Hwin.
  - split; reflexivity.
  - destruct (check_stats_inv L0 r k now key buckets b Hkey Hk Hinv
                (Hwin now (or_introl eq_refl))) as (res & b' & Hrun & Hk').
    assert (Hrest : forall t, In t rest -> accrued r (t - L0) < 1).
    { intros t Ht. apply Hwin. right. exact Ht. }
    cbn [TokenBucketRateLimiter.burst]. rewrite Hrun.
    destruct (TokenBucketRateLimiter.burst key 1 rest (<[key := b']> buckets))
      as [rs buckets2] eqn:Hb.
    unfold TokenBucketRateLimiter.count_allowed, TokenBucketRateLimiter.count_denied in *.
    cbn [fst List.filter TokenBucketRateLimiter.is_allowed TokenBucketRateLimiter.is_denied].
    destruct k as [|k']; destruct Hk' as [Hal Hinv']; rewrite Hal; cbn [negb].
    + destruct (IH O (<[key := b']> buckets) b' Hkey (lookup_insert_eq _ _ _) Hinv' Hrest)
        as [IHa IHd].
      rewrite Hb in IHa, IHd. cbn [fst] in IHa, IHd. cbn [length].
      rewrite IHa, IHd. split; lia.
    + destruct (IH k' (<[key := b']> buckets) b' Hkey (lookup_insert_eq _ _ _) Hinv' Hrest)
        as [IHa IHd].
      rewrite Hb in IHa, IHd. cbn [fst] in IHa, IHd. cbn [length].
      rewrite IHa, IHd. split; lia.
Qed.

(** After a refill at [now], a second call at the same instant finds
    nothing to add. *)
Lemma refill_catches_up now b :
  now - TokenBucket.lastRefillTime (TokenBucket.refill now b) <= 0.
Proof.
  unfold TokenBucket.refill.
  destruct (leb (now - TokenBucket.lastRefillTime b) 0) eqn:E; simpl.
  - jsnum_hyps. exact E.
  - lra.
Qed.

Lemma refillBucket_catches_up now b :
  0 < TokenBucketRateLimiter.refillRate (TokenBucketRateLimiter.config b) ->
  accrued (TokenBucketRateLimiter.refillRate (TokenBucketRateLimiter.config b))
          (now - TokenBucketRateLimiter.lastRefill
                   (TokenBucketRateLimiter.refillBucket b now)) <= 0.
Proof.
  intros Hr. unfold TokenBucketRateLimiter.refillBucket.
  fold (accrued (TokenBucketRateLimiter.refillRate (TokenBucketRateLimiter.config b))
                (now - TokenBucketRateLimiter.lastRefill b)).
  destruct (gtb _ 0) eqn:E; simpl.
  - unfold accrued. apply refill_amount_nonpos; [lra | exact Hr].
  - jsnum_hyps. exact E.
Qed.

(** Two [tryConsume] calls at one instant, in the order their callbacks
    run: when both are allowed, the bucket held both amounts after the one
    refill. *)
Lemma two_calls_share_one_refill now n1 n2 b r1 b1 r2 b2 :
  TokenBucket.well_formed b ->
  TokenBucket.tryConsume now n1 b = (Returns r1, b1) ->
  TokenBucket.tryConsume now n2 b1 = (Returns r2, b2) ->
  TokenBucket.allowed r1 = true -> TokenBucket.allowed r2 = true ->
  n1 + n2 <= TokenBucket.tokens (TokenBucket.refill now b) /\
  n1 + n2 <= TokenBucket.capacity b.
Proof.
  intros Hwf H1 H2 Ha1 Ha2.
  pose proof (TokenBucketFacts.refill_well_formed now b Hwf) as (_ & _ & _ & Hcap).
  assert (Hc : TokenBucket.capacity (TokenBucket.refill now b) = TokenBucket.capacity b).
  { unfold TokenBucket.refill. destruct (leb _ 0); reflexivity. }
  rewrite Hc in Hcap.
  pose proof (refill_catches_up now b) as Hup.
  unfold TokenBucket.tryConsume in H1.
  destruct (leb n1 0); [discriminate|].
  destruct (gtb n1 (TokenBucket.capacity b)); [discriminate|].
  unfold TokenBucket.consumeStep in H1.
  destruct (geb (TokenBucket.tokens (TokenBucket.refill now b)) n1) eqn:E1.
  2:{ injection H1 as <- <-. discriminate. }
  injection H1 as <- <-. clear Ha1.
  unfold TokenBucket.tryConsume in H2. cbn [TokenBucket.capacity] in H2.
  destruct (leb n2 0); [discriminate|].
  destruct (gtb n2 _); [discriminate|].
  unfold TokenBucket.consumeStep, TokenBucket.refill in H2.
  cbn [TokenBucket.lastRefillTime] in H2.
  apply leb_le in Hup. fold (TokenBucket.refill now b) in H2. rewrite Hup in H2.
  cbn [TokenBucket.tokens] in H2.
  destruct (geb (TokenBucket.tokens (TokenBucket.refill now b) - n1) n2) eqn:E2.
  2:{ injection H2 as <- <-. discriminate. }
  jsnum_hyps. split; lra.
Qed.

Lemma two_checks_share_one_refill now key n1 n2
    (buckets buckets1 buckets2 : TokenBucketRateLimiter.Buckets) b r1 r2 :
  buckets !! key = Some b ->
  TokenBucketRateLimiter.well_formed b ->
  TokenBucketRateLimiter.check now now key n1 None buckets = (Returns r1, buckets1) ->
  TokenBucketRateLimiter.check now now key n2 None buckets1 = (Returns r2, buckets2) ->
  TokenBucketRateLimiter.allowed r1 = true ->
  TokenBucketRateLimiter.allowed r2 = true ->
  n1 + n2 <= TokenBucketRateLimiter.tokens (TokenBucketRateLimiter.refillBucket b now) /\
  n1 + n2 <= TokenBucketRateLimiter.capacity (TokenBucketRateLimiter.config b).
Proof.
  intros Hk Hwf H1 H2 Ha1 Ha2.
  pose proof (TokenBucketRateLimiterFacts.refillBucket_well_formed b now Hwf)
    as (_ & _ & _ & Hcap).
  assert (Hc : TokenBucketRateLimiter.config (TokenBucketRateLimiter.refillBucket b now)
               = TokenBucketRateLimiter.config b).
  { unfold TokenBucketRateLimiter.refillBucket. destruct (gtb _ 0); reflexivity. }
  rewrite Hc in Hcap.
  pose proof (refillBucket_catches_up now b (proj1 (proj2 Hwf))) as Hup.
  unfold TokenBucketRateLimiter.check in H1.
  destruct (TokenBucketRateLimiter.validateInput key n1 None); [discriminate|].
  rewrite Hk in H1. unfold TokenBucketRateLimiter.decide_and_commit in H1.
  destruct (geb (TokenBucketRateLimiter.tokens
                   (TokenBucketRateLimiter.refillBucket b now)) n1) eqn:E1.
  2:{ injection H1 as <- <-. discriminate. }
  injection H1 as <- <-. clear Ha1.
  unfold TokenBucketRateLimiter.check in H2.
  destruct (TokenBucketRateLimiter.validateInput key n2 None); [discriminate|].
  rewrite lookup_insert_eq in H2.
  unfold TokenBucketRateLimiter.decide_and_commit in H2.
  match type of H2 with context [TokenBucketRateLimiter.refillBucket ?b' now] =>
    assert (Hsame : TokenBucketRateLimiter.refillBucket b' now = b')
  end.
  { unfold TokenBucketRateLimiter.refillBucket at 1.
    cbn [TokenBucketRateLimiter.lastRefill TokenBucketRateLimiter.config].
    rewrite Hc. unfold accrued in Hup. apply gtb_le in Hup. rewrite Hup. reflexivity. }
  rewrite Hsame in H2.
  cbn [TokenBucketRateLimiter.tokens] in H2.
  destruct (geb (TokenBucketRateLimiter.tokens
                   (TokenBucketRateLimiter.refillBucket b now) - n1) n2) eqn:E2.
  2:{ injection H2 as <- <-. discriminate. }
  jsnum_hyps. split; lra.
Qed.

End BurstFacts.

(** A burst whose calls all read one clock value. *)

Module InstantBurstFacts.
Import JsNum JsNumFacts Burst.
Local Open Scope Q_scope.

(** A second refill at the instant of the first finds nothing to add. *)
Lemma refill_idempotent now b :
  TokenBucket.refill now (TokenBucket.refill now b) = TokenBucket.refill now b.
Proof.
  destruct (leb (now - TokenBucket.lastRefillTime b) 0) eqn:E.
  - assert (H : TokenBucket.refill now b = b).
    { unfold TokenBucket.refill. rewrite E. reflexivity. }
    rewrite H. exact H.
  - assert (H0 : leb (now - now) 0 = true) by (apply leb_le; lra).
    unfold TokenBucket.refill. rewrite E. cbn [TokenBucket.lastRefillTime].
    rewrite H0. reflexivity.
Qed.

Lemma refill_keeps_capacity now b :
  TokenBucket.capacity (TokenBucket.refill now b) = TokenBucket.capacity b.
Proof. unfold TokenBucket.refill. destruct (leb _ 0); reflexivity. Qed.

Lemma tryConsume_after_refill now n b :
  leb n 0 = false -> gtb n (TokenBucket.capacity b) = false ->
  TokenBucket.tryConsume now n (TokenBucket.refill now b)
  = TokenBucket.tryConsume now n b.
Proof.
  intros Hn Hc. unfold TokenBucket.tryConsume.
  rewrite refill_keeps_capacity, Hn, Hc.
  unfold TokenBucket.consumeStep. rewrite refill_idempotent. reflexivity.
Qed.

(** A full bucket of capacity 10, refilled at [now], is at the start of a
    burst whose clock stays at [now]. *)
Lemma full_bucket_at_instant now b :
  TokenBucket.capacity b == 10 ->
  TokenBucket.tokens b == 10 ->
  0 < TokenBucket.refillRate b ->
  let b1 := TokenBucket.refill now b in
  bucket_inv (TokenBucket.lastRefillTime b1) (TokenBucket.refillRate b) 10 b1 /\
  accrued (TokenBucket.refillRate b) (now - TokenBucket.lastRefillTime b1) < 1.
Proof.
  intros Hcap Htok Hr b1.
  assert (Hz : forall x, accrued (TokenBucket.refillRate b) (x - x) == 0).
  { intros x. unfold accrued. field. }
  subst b1. unfold TokenBucket.refill.
  destruct (leb (now - TokenBucket.lastRefillTime b) 0) eqn:E; jsnum_hyps.
  - split.
    + unfold bucket_inv. change (inject_Z (Z.of_nat 10)) with 10.
      pose proof (Hz (TokenBucket.lastRefillTime b)).
      repeat split; try assumption; try reflexivity; lra.
    + pose proof (refill_amount_nonpos _ _ E Hr) as Hn. unfold accrued. lra.
  - pose proof (refill_amount_pos _ _ E Hr) as Hadd.
    cbn [TokenBucket.lastRefillTime]. split.
    + unfold bucket_inv. cbn [TokenBucket.lastRefillTime TokenBucket.tokens
        TokenBucket.capacity TokenBucket.refillRate].
      change (inject_Z (Z.of_nat 10)) with 10.
      pose proof (Hz now).
      repeat split; try assumption; try reflexivity; try lra.
      * apply Q.min_glb; lra.
      * pose proof (Q.le_min_l (TokenBucket.capacity b)
                      (TokenBucket.tokens b
                       + (now - TokenBucket.lastRefillTime b) / 1000
                         * TokenBucket.refillRate b)).
        lra.
    + rewrite (Hz now). reflexivity.
Qed.

Lemma accrued_same r a a' l : a' == a -> accrued r (a' - l) == accrued r (a - l).
Proof. intros H. unfold accrued. rewrite H. reflexivity. Qed.

Lemma burst_at_one_instant now b nows :
  TokenBucket.capacity b == 10 ->
  TokenBucket.tokens b == 10 ->
  0 < TokenBucket.refillRate b ->
  (forall n, In n nows -> n == now) ->
  TokenBucket.count_allowed (fst (TokenBucket.burst 1 nows b))
    = Nat.min (length nows) 10 /\
  TokenBucket.count_denied (fst (TokenBucket.burst 1 nows b))
    = (length nows - Nat.min (length nows) 10)%nat.
Proof.
  intros Hcap Htok Hr Hall.
  destruct nows as [|n0 rest]; [split; reflexivity|].
  assert (H0 : n0 == now) by (apply Hall; left; reflexivity).
  destruct (full_bucket_at_instant n0 b Hcap Htok Hr) as [Hinv Hwin].
  assert (Hsame : TokenBucket.burst 1 (n0 :: rest) (TokenBucket.refill n0 b)
                  = TokenBucket.burst 1 (n0 :: rest) b).
  { cbn [TokenBucket.burst]. rewrite tryConsume_after_refill; [reflexivity| |].
    - reflexivity.
    - apply gtb_le. lra. }
  rewrite <- Hsame.
  apply (BurstFacts.burst_counts _ _ (n0 :: rest) 10%nat _ Hinv).
  intros n Hn. rewrite (accrued_same _ n0 n); [exact Hwin|].
  rewrite (Hall n Hn). symmetry. exact H0.
Qed.

(** The same for a bucket of the registry. *)
Lemma refillBucket_idempotent b now :
  TokenBucketRateLimiter.refillBucket (TokenBucketRateLimiter.refillBucket b now) now
  = TokenBucketRateLimiter.refillBucket b now.
Proof.
  assert (H0 : gtb ((now - now) / 1000
                    * TokenBucketRateLimiter.refillRate (TokenBucketRateLimiter.config b)) 0
               = false).
  { apply gtb_le.
    assert (Hz : (now - now) / 1000
                 * TokenBucketRateLimiter.refillRate (TokenBucketRateLimiter.config b)
                 == 0) by field.
    lra. }
  destruct (gtb ((now - TokenBucketRateLimiter.lastRefill b) / 1000
                 * TokenBucketRateLimiter.refillRate (TokenBucketRateLimiter.config b)) 0)
    eqn:E.
  - unfold TokenBucketRateLimiter.refillBucket. rewrite E.
    cbn [TokenBucketRateLimiter.lastRefill TokenBucketRateLimiter.config].
    rewrite H0. reflexivity.
  - assert (H : TokenBucketRateLimiter.refillBucket b now = b).
    { unfold TokenBucketRateLimiter.refillBucket. rewrite E. reflexivity. }
    rewrite H. exact H.
Qed.

Lemma check_after_refillBucket now key n (buckets : TokenBucketRateLimiter.Buckets) b :
  TokenBucketRateLimiter.validateInput key n None = None ->
  buckets !! key = Some b ->
  TokenBucketRateLimiter.check now now key n None
    (<[key := TokenBucketRateLimiter.refillBucket b now]> buckets)
  = TokenBucketRateLimiter.check now now key n None buckets.
Proof.
  intros Hv Hk. unfold TokenBucketRateLimiter.check.
  rewrite Hv, Hk, lookup_insert_eq.
  unfold TokenBucketRateLimiter.decide_and_commit.
  rewrite refillBucket_idempotent.
  destruct (geb _ n); rewrite insert_insert_eq; reflexivity.
Qed.

Lemma full_stats_at_instant now b :
  TokenBucketRateLimiter.capacity (TokenBucketRateLimiter.config b) == 10 ->
  TokenBucketRateLimiter.tokens b == 10 ->
  0 < TokenBucketRateLimiter.refillRate (TokenBucketRateLimiter.config b) ->
  let b1 := TokenBucketRateLimiter.refillBucket b now in
  stats_inv (TokenBucketRateLimiter.lastRefill b1)
            (TokenBucketRateLimiter.refillRate (TokenBucketRateLimiter.config b)) 10 b1 /\
  accrued (TokenBucketRateLimiter.refillRate (TokenBucketRateLimiter.config b))
          (now - TokenBucketRateLimiter.lastRefill b1) < 1.
Proof.
  intros Hcap Htok Hr b1.
  assert (Hz : forall x,
             accrued (TokenBucketRateLimiter.refillRate (TokenBucketRateLimiter.config b))
                     (x - x) == 0).
  { intros x. unfold accrued. field. }
  subst b1. unfold TokenBucketRateLimiter.refillBucket.
  destruct (gtb _ 0) eqn:E; jsnum_hyps.
  - cbn [TokenBucketRateLimiter.lastRefill]. split.
    + unfold stats_inv. cbn [TokenBucketRateLimiter.lastRefill TokenBucketRateLimiter.tokens
        TokenBucketRateLimiter.config].
      change (inject_Z (Z.of_nat 10)) with 10.
      pose proof (Hz now).
      repeat split; try assumption; try reflexivity; try lra.
      * apply Q.min_glb; lra.
      * pose proof (Q.le_min_r
                      (TokenBucketRateLimiter.tokens b
                       + (now - TokenBucketRateLimiter.lastRefill b) / 1000
                         * TokenBucketRateLimiter.refillRate (TokenBucketRateLimiter.config b))
                      (TokenBucketRateLimiter.capacity (TokenBucketRateLimiter.config b))).
        lra.
    + rewrite (Hz now). reflexivity.
  - split.
    + unfold stats_inv. change (inject_Z (Z.of_nat 10)) with 10.
      pose proof (Hz (TokenBucketRateLimiter.lastRefill b)).
      repeat split; try assumption; try reflexivity; lra.
    + unfold accrued. lra.
Qed.

Lemma registry_burst_at_one_instant now key (buckets : TokenBucketRateLimiter.Buckets) b nows :
  JsStr.trim_is_empty key = false ->
  buckets !! key = Some b ->
  TokenBucketRateLimiter.capacity (TokenBucketRateLimiter.config b) == 10 ->
  TokenBucketRateLimiter.tokens b == 10 ->
  0 < TokenBucketRateLimiter.refillRate (TokenBucketRateLimiter.config b) ->
  (forall n, In n nows -> n == now) ->
  TokenBucketRateLimiter.count_allowed
    (fst (TokenBucketRateLimiter.burst key 1 nows buckets))
    = Nat.min (length nows) 10 /\
  TokenBucketRateLimiter.count_denied
    (fst (TokenBucketRateLimiter.burst key 1 nows buckets))
    = (length nows - Nat.min (length nows) 10)%nat.
Proof.
  intros Hkey Hk Hcap Htok Hr Hall.
  destruct nows as [|n0 rest]; [split; reflexivity|].
  assert (H0 : n0 == now) by (apply Hall; left; reflexivity).
  destruct (full_stats_at_instant n0 b Hcap Htok Hr) as [Hinv Hwin].
  assert (Hsame : TokenBucketRateLimiter.burst key 1 (n0 :: rest)
                    (<[key := TokenBucketRateLimiter.refillBucket b n0]> buckets)
                  = TokenBucketRateLimiter.burst key 1 (n0 :: rest) buckets).
  { cbn [TokenBucketRateLimiter.burst].
    rewrite check_after_refillBucket; [reflexivity| |exact Hk].
    unfold TokenBucketRateLimiter.validateInput. rewrite Hkey. reflexivity. }
  rewrite <- Hsame.
  apply (BurstFacts.registry_burst_counts _ _ key (n0 :: rest) 10%nat _ _ Hkey
           (lookup_insert_eq _ _ _) Hinv).
  intros n Hn. rewrite (accrued_same _ n0 n); [exact Hwin|].
  rewrite (Hall n Hn). symmetry. exact H0.
Qed.

End InstantBurstFacts.

(** ** The capacity invariant *)

Module RateLimiterClaims.
Import JsNum JsNumFacts.
Local Open Scope Q_scope.

(** C1. From a bucket that the constructor accepted, and from the registry
    with no bucket yet, every sequence of consume/check and addTokens calls
    (whatever their arguments and clock readings) leaves [0 <= tokens <=
    capacity] after each call; and at each of these points a lazy refill at
    any time keeps the bounds too. *)
Theorem capacity_invariant :
  (forall nowV nowC config b cs,
      TokenBucket.new nowV nowC config = Returns b ->
      Forall (fun b' => TokenBucket.within_capacity b' /\
                        forall now, TokenBucket.within_capacity (TokenBucket.refill now b'))
             (b :: TokenBucket.trace b cs))
  /\
  (forall cs,
      Forall (fun buckets : TokenBucketRateLimiter.Buckets =>
                forall k b, buckets !! k = Some b ->
                  TokenBucketRateLimiter.within_capacity b /\
                  forall now,
                    TokenBucketRateLimiter.within_capacity
                      (TokenBucketRateLimiter.refillBucket b now))
             (TokenBucketRateLimiter.trace ∅ cs)).
Proof.
  split.
  - intros nowV nowC config b cs Hnew.
    apply TokenBucketFacts.new_well_formed in Hnew.
    assert (H : Forall TokenBucket.well_formed (b :: TokenBucket.trace b cs)).
    { constructor; [assumption | apply TokenBucketFacts.trace_well_formed; assumption]. }
    eapply Forall_impl; [exact H|]. intros b' Hb'. split.
    + apply Hb'.
    + intros now. apply (TokenBucketFacts.refill_well_formed now b' Hb').
  - intros cs.
    pose proof (TokenBucketRateLimiterFacts.trace_registry_ok cs ∅
                  TokenBucketRateLimiterFacts.registry_ok_empty) as H.
    eapply Forall_impl; [exact H|]. intros buckets Hreg k b Hk. split.
    + apply (Hreg k b Hk).
    + intros now. apply (TokenBucketRateLimiterFacts.refillBucket_well_formed b now (Hreg k b Hk)).
Qed.

Lemma capacity_invariant_witness :
  let config := {| TokenBucket.cfg_capacity := 10;
                   TokenBucket.cfg_refillRate := 2;
                   TokenBucket.cfg_initialTokens := Some 4;
                   TokenBucket.cfg_lastRefillTime := None |} in
  let b := {| TokenBucket.tokens := 4;
              TokenBucket.lastRefillTime := 0;
              TokenBucket.capacity := 10;
              TokenBucket.refillRate := 2 |} in
  let cs := [TokenBucket.CallTryConsume 1000 5;
             TokenBucket.CallAddTokens 20;
             TokenBucket.CallTryConsume 500 11] in
  TokenBucket.new 0 0 config = Returns b /\
  Forall (fun b' => TokenBucket.within_capacity b' /\
                    forall now, TokenBucket.within_capacity (TokenBucket.refill now b'))
         (b :: TokenBucket.trace b cs).
Proof.
  intros config b cs. split; [reflexivity|].
  apply (proj1 capacity_invariant 0 0 config b cs). reflexivity.
Defined.

(** ** Concurrent consumption *)

(** C2, on the code. JavaScript runs the callback of each [tryConsume] (and
    each synchronous [check]) to completion before the next one starts, so
    an execution of concurrent calls on one bucket is the sequence of their
    callbacks, each with its own clock reading. On a full bucket of capacity
    10, however long it has been idle, 100 calls for one token that all
    read the same clock value yield exactly 10 allowed and 90 denied: the
    first callback clamps the refill to the capacity, and the token counts
    of the burst are the integers from 10 down to 0. And when two calls at
    one instant are both allowed, their amounts together were in the bucket
    after the one refill, within the capacity. *)
Theorem concurrent_burst_admits_capacity :
  (forall b now nows,
      TokenBucket.capacity b == 10 ->
      TokenBucket.tokens b == 10 ->
      0 < TokenBucket.refillRate b ->
      length nows = 100%nat ->
      (forall n, In n nows -> n == now) ->
      TokenBucket.count_allowed (fst (TokenBucket.burst 1 nows b)) = 10%nat /\
      TokenBucket.count_denied (fst (TokenBucket.burst 1 nows b)) = 90%nat)
  /\
  (forall key (buckets : TokenBucketRateLimiter.Buckets) b now nows,
      JsStr.trim_is_empty key = false ->
      buckets !! key = Some b ->
      TokenBucketRateLimiter.capacity (TokenBucketRateLimiter.config b) == 10 ->
      TokenBucketRateLimiter.tokens b == 10 ->
      0 < TokenBucketRateLimiter.refillRate (TokenBucketRateLimiter.config b) ->
      length nows = 100%nat ->
      (forall n, In n nows -> n == now) ->
      TokenBucketRateLimiter.count_allowed
        (fst (TokenBucketRateLimiter.burst key 1 nows buckets)) = 10%nat /\
      TokenBucketRateLimiter.count_denied
        (fst (TokenBucketRateLimiter.burst key 1 nows buckets)) = 90%nat)
  /\
  (forall now n1 n2 b r1 b1 r2 b2,
      TokenBucket.well_formed b ->
      TokenBucket.tryConsume now n1 b = (Returns r1, b1) ->
      TokenBucket.tryConsume now n2 b1 = (Returns r2, b2) ->
      TokenBucket.allowed r1 = true -> TokenBucket.allowed r2 = true ->
      n1 + n2 <= TokenBucket.tokens (TokenBucket.refill now b) /\
      n1 + n2 <= TokenBucket.capacity b)
  /\
  (forall now key n1 n2 (buckets buckets1 buckets2 : TokenBucketRateLimiter.Buckets)
          b r1 r2,
      buckets !! key = Some b ->
      TokenBucketRateLimiter.well_formed b ->
      TokenBucketRateLimiter.check now now key n1 None buckets = (Returns r1, buckets1) ->
      TokenBucketRateLimiter.check now now key n2 None buckets1 = (Returns r2, buckets2) ->
      TokenBucketRateLimiter.allowed r1 = true ->
      TokenBucketRateLimiter.allowed r2 = true ->
      n1 + n2 <= TokenBucketRateLimiter.tokens (TokenBucketRateLimiter.refillBucket b now) /\
      n1 + n2 <= TokenBucketRateLimiter.capacity (TokenBucketRateLimiter.config b)).
Proof.
  split; [|split; [|split]].
  - intros b now nows Hcap Htok Hr Hlen Hall.
    destruct (InstantBurstFacts.burst_at_one_instant now b nows Hcap Htok Hr Hall)
      as [Ha Hd].
    rewrite Ha, Hd, Hlen. split; reflexivity.
  - intros key buckets b now nows Hkey Hk Hcap Htok Hr Hlen Hall.
    destruct (InstantBurstFacts.registry_burst_at_one_instant now key buckets b nows
                Hkey Hk Hcap Htok Hr Hall) as [Ha Hd].
    rewrite Ha, Hd, Hlen. split; reflexivity.
  - apply BurstFacts.two_calls_share_one_refill.
  - apply BurstFacts.two_checks_share_one_refill.
Qed.

Lemma concurrent_burst_admits_capacity_witness :
  let b := {| TokenBucket.tokens := 10;
              TokenBucket.lastRefillTime := 0;
              TokenBucket.capacity := 10;
              TokenBucket.refillRate := 2 |} in
  let config := {| TokenBucketRateLimiter.capacity := 10;
                   TokenBucketRateLimiter.refillRate := 2;
                   TokenBucketRateLimiter.initialTokens := None |} in
  let bucket := {| TokenBucketRateLimiter.tokens := 10;
                   TokenBucketRateLimiter.consumed := 0;
                   TokenBucketRateLimiter.blocked := 0;
                   TokenBucketRateLimiter.lastRefill := 0;
                   TokenBucketRateLimiter.createdAt := 0;
                   TokenBucketRateLimiter.config := config |} in
  let nows := repeat 60000 100 in
  (TokenBucket.count_allowed (fst (TokenBucket.burst 1 nows b)) = 10%nat /\
   TokenBucket.count_denied (fst (TokenBucket.burst 1 nows b)) = 90%nat) /\
  (TokenBucketRateLimiter.count_allowed
     (fst (TokenBucketRateLimiter.burst "user-123" 1 nows {["user-123" := bucket]}))
     = 10%nat /\
   TokenBucketRateLimiter.count_denied
     (fst (TokenBucketRateLimiter.burst "user-123" 1 nows {["user-123" := bucket]}))
     = 90%nat).
Proof.
  intros b config bucket nows.
  assert (Hall : forall n, In n nows -> n == 60000).
  { intros n Hin. apply repeat_spec in Hin. subst n. reflexivity. }
  split.
  - apply (proj1 concurrent_burst_admits_capacity b 60000 nows);
      [reflexivity | reflexivity | reflexivity | reflexivity | exact Hall].
  - apply (proj1 (proj2 concurrent_burst_admits_capacity) "user-123"
             {["user-123" := bucket]} bucket 60000 nows);
      [reflexivity | apply lookup_singleton_eq | reflexivity | reflexivity
      | reflexivity | reflexivity | exact Hall].
Defined.

(** C2 as stated fails when the clock moves during the burst: on a full
    bucket of capacity 10 that refills 1000 tokens per second, 100
    concurrent calls of which the last 50 read the clock one millisecond
    later than the first 50 have 11 calls allowed and 89 denied. *)
Lemma burst_across_a_clock_tick :
  let b := {| TokenBucket.tokens := 10;
              TokenBucket.lastRefillTime := 0;
              TokenBucket.capacity := 10;
              TokenBucket.refillRate := 1000 |} in
  let nows := repeat 0 50 ++ repeat 1 50 in
  length nows = 100%nat /\
  TokenBucket.count_allowed (fst (TokenBucket.burst 1 nows b)) = 11%nat /\
  TokenBucket.count_denied (fst (TokenBucket.burst 1 nows b)) = 89%nat.
Proof. intros b nows. vm_compute. repeat split; reflexivity. Qed.

(** ** Clock regression *)

(** C4. When the clock reading of a call is earlier than the bucket's last
    refill time, the refill step leaves the bucket as it is (no token is
    added, the negative elapsed time is not applied), so the decision is
    taken on the stored token count. This holds of every [TokenBucket], and
    of every bucket of a registry after any sequence of calls. *)
Theorem no_refill_on_clock_regression :
  (forall now b tokensToConsume,
      now < TokenBucket.lastRefillTime b ->
      TokenBucket.refill now b = b /\
      TokenBucket.allowed (fst (TokenBucket.consumeStep now tokensToConsume b))
        = geb (TokenBucket.tokens b) tokensToConsume)
  /\
  (forall cs,
      Forall (fun buckets : TokenBucketRateLimiter.Buckets =>
                forall k b now tokensRequired,
                  buckets !! k = Some b ->
                  now < TokenBucketRateLimiter.lastRefill b ->
                  TokenBucketRateLimiter.refillBucket b now = b /\
                  fst (TokenBucketRateLimiter.decide_and_commit now tokensRequired b)
                    = geb (TokenBucketRateLimiter.tokens b) tokensRequired)
             (TokenBucketRateLimiter.trace ∅ cs)).
Proof.
  split.
  - intros now b n Hlt.
    assert (E : TokenBucket.refill now b = b).
    { unfold TokenBucket.refill.
      destruct (leb (now - TokenBucket.lastRefillTime b) 0) eqn:He; [reflexivity|].
      jsnum_hyps. lra. }
    split; [exact E|]. unfold TokenBucket.consumeStep. rewrite E.
    destruct (geb (TokenBucket.tokens b) n); reflexivity.
  - intros cs.
    pose proof (TokenBucketRateLimiterFacts.trace_registry_ok cs ∅
                  TokenBucketRateLimiterFacts.registry_ok_empty) as H.
    eapply Forall_impl; [exact H|].
    intros buckets Hreg k b now n Hk Hlt.
    destruct (Hreg k b Hk) as (_ & Hr & _).
    assert (E : TokenBucketRateLimiter.refillBucket b now = b).
    { unfold TokenBucketRateLimiter.refillBucket.
      destruct (gtb _ 0) eqn:He; [|reflexivity]. jsnum_hyps.
      pose proof (refill_amount_nonpos (now - TokenBucketRateLimiter.lastRefill b)
                    _ ltac:(lra) Hr). lra. }
    split; [exact E|]. unfold TokenBucketRateLimiter.decide_and_commit. rewrite E.
    destruct (geb (TokenBucketRateLimiter.tokens b) n); reflexivity.
Qed.

Lemma no_refill_on_clock_regression_witness :
  let b := {| TokenBucket.tokens := 3;
              TokenBucket.lastRefillTime := 5000;
              TokenBucket.capacity := 10;
              TokenBucket.refillRate := 2 |} in
  TokenBucket.refill 1000 b = b /\
  TokenBucket.allowed (fst (TokenBucket.consumeStep 1000 4 b)) = false.
Proof.
  intros b.
  apply (proj1 no_refill_on_clock_regression 1000 b 4). reflexivity.
Defined.

(** ** Zero initial tokens *)

(** C10. A configuration with [initialTokens = 0] (and positive capacity and
    refill rate) passes [validateConfig]; [createBucket] and [resetBucket]
    both take the zero for an absent value and give the bucket [capacity]
    tokens, which is not zero. *)
Theorem zero_initial_tokens_start_full :
  forall c : TokenBucketRateLimiter.TokenBucketConfig,
    0 < TokenBucketRateLimiter.capacity c ->
    0 < TokenBucketRateLimiter.refillRate c ->
    (exists i, TokenBucketRateLimiter.initialTokens c = Some i /\ i == 0) ->
    TokenBucketRateLimiter.validateConfig c = None /\
    (forall now k (buckets : TokenBucketRateLimiter.Buckets),
        exists b,
          TokenBucketRateLimiter.createBucket now k c buckets
            = (Returns b, <[k := b]> buckets) /\
          TokenBucketRateLimiter.tokens b = TokenBucketRateLimiter.capacity c /\
          ~ TokenBucketRateLimiter.tokens b == 0) /\
    (forall now k (buckets : TokenBucketRateLimiter.Buckets) b,
        buckets !! k = Some b ->
        TokenBucketRateLimiter.config b = c ->
        exists b',
          TokenBucketRateLimiter.resetBucket now k buckets
            = (Returns tt, <[k := b']> buckets) /\
          TokenBucketRateLimiter.tokens b' = TokenBucketRateLimiter.capacity c /\
          ~ TokenBucketRateLimiter.tokens b' == 0).
Proof.
  intros c Hc Hr (i & Hi & Hz).
  assert (Hor : forall d, or_else (Some i) d = d).
  { intros d. unfold or_else.
    destruct (Qeq_bool i 0) eqn:E; [reflexivity|].
    apply Qeq_bool_neq in E. contradiction. }
  assert (Hv : TokenBucketRateLimiter.validateConfig c = None).
  { unfold TokenBucketRateLimiter.validateConfig. rewrite Hi.
    destruct (leb (TokenBucketRateLimiter.capacity c) 0) eqn:E1; [jsnum_hyps; lra|].
    destruct (leb (TokenBucketRateLimiter.refillRate c) 0) eqn:E2; [jsnum_hyps; lra|].
    destruct (ltb i 0) eqn:E3; [jsnum_hyps; lra|].
    destruct (gtb i (TokenBucketRateLimiter.capacity c)) eqn:E4; [jsnum_hyps; lra|].
    reflexivity. }
  split; [exact Hv|]. split.
  - intros now k buckets. unfold TokenBucketRateLimiter.createBucket. rewrite Hv.
    eexists. split; [reflexivity|]. simpl. rewrite Hi, Hor.
    split; [reflexivity|]. lra.
  - intros now k buckets b Hk Hcfg. unfold TokenBucketRateLimiter.resetBucket.
    rewrite Hk. eexists. split; [reflexivity|]. simpl. rewrite Hcfg, Hi, Hor.
    split; [reflexivity|]. lra.
Qed.

Lemma zero_initial_tokens_start_full_witness :
  let c := {| TokenBucketRateLimiter.capacity := 10;
              TokenBucketRateLimiter.refillRate := 1;
              TokenBucketRateLimiter.initialTokens := Some 0 |} in
  TokenBucketRateLimiter.validateConfig c = None /\
  exists b,
    TokenBucketRateLimiter.createBucket 0 "test-bucket" c ∅
      = (Returns b, <["test-bucket" := b]> ∅) /\
    TokenBucketRateLimiter.tokens b = 10 /\
    ~ TokenBucketRateLimiter.tokens b == 0.
Proof.
  intros c.
  destruct (zero_initial_tokens_start_full c) as (Hv & Hcreate & _);
    [reflexivity | reflexivity | exists 0; split; reflexivity |].
  split; [exact Hv|]. exact (Hcreate 0 "test-bucket" ∅).
Defined.

(** ** Requests that can never be satisfied *)




End RateLimiterClaims.

(** ** Doubles *)

Module JsDoubleFacts.
Import JsDouble.

(** A finite number is a zero or has a mantissa and an exponent. *)
Lemma finite_cases x :
  PrimFloat.is_finite x = true ->
  (exists s, Prim2SF x = S754_zero s) \/ (exists s m e, Prim2SF x = S754_finite s m e).
Proof.
  intros H.
  unfold PrimFloat.is_finite, PrimFloat.is_nan, PrimFloat.is_infinity in H.
  rewrite !FloatAxioms.eqb_spec, FloatAxioms.abs_spec in H.
  destruct (Prim2SF x) as [s|s| |s m e] eqn:E.
  - left. exists s. reflexivity.
  - destruct s; vm_compute in H; discriminate.
  - vm_compute in H. discriminate.
  - right. exists s, m, e. reflexivity.
Qed.

(** A finite number minus itself is [+0]. *)
Lemma sub_diag t : PrimFloat.is_finite t = true -> (t - t = 0)%float.
Proof.
  intros H. apply Prim2SF_inj. rewrite FloatAxioms.sub_spec.
  destruct (finite_cases t H) as [[s Ht]|(s & m & e & Ht)]; rewrite Ht.
  - destruct s; reflexivity.
  - unfold SF64sub, SFsub. rewrite Z.sub_diag. reflexivity.
Qed.

(** *** Binary digits *)

Lemma digits2_pos_upper (p : positive) : (Zpos p < 2 ^ Zpos (digits2_pos p))%Z.
Proof.
  induction p as [p IH|p IH|]; cbn [digits2_pos].
  - rewrite Pos2Z.inj_succ, Z.pow_succ_r by lia. lia.
  - rewrite Pos2Z.inj_succ, Z.pow_succ_r by lia. lia.
  - reflexivity.
Qed.

Lemma digits2_pos_lower (p : positive) : (2 ^ (Zpos (digits2_pos p) - 1) <= Zpos p)%Z.
Proof.
  induction p as [p IH|p IH|]; cbn [digits2_pos].
  - rewrite Pos2Z.inj_succ.
    replace (Z.succ (Zpos (digits2_pos p)) - 1)%Z
      with (Z.succ (Zpos (digits2_pos p) - 1))%Z by lia.
    rewrite Z.pow_succ_r by lia. lia.
  - rewrite Pos2Z.inj_succ.
    replace (Z.succ (Zpos (digits2_pos p)) - 1)%Z
      with (Z.succ (Zpos (digits2_pos p) - 1))%Z by lia.
    rewrite Z.pow_succ_r by lia. lia.
  - reflexivity.
Qed.

Lemma digits2_pos_le (p : positive) (n : Z) :
  (0 <= n)%Z -> (Zpos p < 2 ^ n)%Z -> (Zpos (digits2_pos p) <= n)%Z.
Proof.
  intros Hn Hp.
  destruct (Z_le_gt_dec (Zpos (digits2_pos p)) n) as [H|H]; [exact H|].
  pose proof (digits2_pos_lower p) as Hl.
  assert (2 ^ n <= 2 ^ (Zpos (digits2_pos p) - 1))%Z.
  { apply Z.pow_le_mono_r; lia. }
  lia.
Qed.

Lemma iter_xO_value (p j : positive) :
  Zpos (Pos.iter xO p j) = (Zpos p * 2 ^ Zpos j)%Z.
Proof.
  induction j as [|j IH] using Pos.peano_ind.
  - cbn. lia.
  - rewrite Pos.iter_succ, Pos2Z.inj_xO, IH, Pos2Z.inj_succ, Z.pow_succ_r by lia. lia.
Qed.

Lemma iter_xO_digits (p j : positive) :
  digits2_pos (Pos.iter xO p j) = (digits2_pos p + j)%positive.
Proof.
  induction j as [|j IH] using Pos.peano_ind.
  - cbn. lia.
  - rewrite Pos.iter_succ. cbn [digits2_pos]. rewrite IH. lia.
Qed.

(** *** Integers as doubles *)

(** A positive integer with at most 53 binary digits is a double. *)
Lemma binary_normalize_small (p : positive) :
  (Zpos (digits2_pos p) <= 53)%Z ->
  exists m e,
    binary_normalize prec emax (Zpos p) 0 false = S754_finite false m e /\
    (e <= 0)%Z /\ (Zpos m = Zpos p * 2 ^ (- e))%Z.
Proof.
  intros Hd.
  assert (Hfexp : forall d, (1 <= d <= 53)%Z ->
            fexp prec emax d = (d - 53)%Z).
  { intros d Hd'. unfold fexp, emin, prec, emax. lia. }
  assert (Haux : forall m e,
            Zpos (digits2_pos m) = 53%Z -> (-52 <= e <= 0)%Z ->
            binary_round_aux prec emax false (Zpos m) e loc_Exact
            = S754_finite false m e).
  { intros m e Hm He. unfold binary_round_aux, shr_fexp.
    cbn [Zdigits2 shr_record_of_loc]. rewrite Hm.
    assert (Hf : fexp prec emax (53 + e) = e).
    { unfold fexp, emin, prec, emax. lia. }
    rewrite Hf, Z.sub_diag. cbn [shr shr_m loc_of_shr_record round_nearest_even].
    cbn [Zdigits2 shr_record_of_loc]. rewrite Hm, Hf, Z.sub_diag.
    cbn [shr shr_m].
    assert (Hle : (e <=? emax - prec)%Z = true).
    { apply Z.leb_le. unfold emax, prec. lia. }
    rewrite Hle. reflexivity. }
  pose proof (Pos2Z.is_pos (digits2_pos p)) as Hpos.
  cbn [binary_normalize]. unfold binary_round, shl_align.
  rewrite Z.add_0_r, Hfexp by lia. rewrite Z.sub_0_r.
  destruct (Zpos (digits2_pos p) - 53)%Z as [|q|q] eqn:Hq; [|lia|].
  - exists p, 0%Z. split; [apply Haux; lia|]. split; [lia|].
    cbn. lia.
  - exists (Pos.iter xO p q), (Zneg q). split.
    + rewrite <- Hq. apply Haux; [|lia].
      rewrite iter_xO_digits, Pos2Z.inj_add. lia.
    + split; [lia|]. rewrite iter_xO_value. reflexivity.
Qed.

(** The number that a double with a non-positive exponent stands for. *)
Lemma exact_of_finite y (s : bool) m e P :
  Prim2SF y = S754_finite s m e -> (e <= 0)%Z -> (Zpos m = P * 2 ^ (- e))%Z ->
  (exact y == inject_Z (if s then - P else P))%Q.
Proof.
  intros Hy He Hm. unfold exact. rewrite Hy.
  destruct (0 <=? e)%Z eqn:E.
  - apply Z.leb_le in E. assert (e = 0%Z) by lia. subst e.
    change (2 ^ (- 0))%Z with 1%Z in Hm. change (2 ^ 0)%Z with 1%Z.
    rewrite Hm, !Z.mul_1_r. destruct s; reflexivity.
  - assert (Hp : (0 < 2 ^ (- e))%Z) by (apply Z.pow_pos_nonneg; lia).
    destruct s; unfold Qeq; cbn [Qopp Qnum Qden inject_Z];
      rewrite Z2Pos.id by exact Hp; lia.
Qed.

Lemma exact_of_Z (k : Z) :
  (- 2 ^ 52 <= k <= 2 ^ 52)%Z -> (exact (of_Z k) == inject_Z k)%Q.
Proof.
  intros Hk.
  assert (Hpos : forall p, (Zpos p <= 2 ^ 52)%Z ->
            exists m e,
              Prim2SF (PrimFloat.of_uint63 (Uint63.of_Z (Zpos p))) = S754_finite false m e /\
              (e <= 0)%Z /\ (Zpos m = Zpos p * 2 ^ (- e))%Z).
  { intros p Hp. rewrite FloatAxioms.of_uint63_spec, Uint63.of_Z_spec.
    rewrite Z.mod_small.
    - apply binary_normalize_small. apply digits2_pos_le; lia.
    - split; [lia|]. change Uint63.wB with (2 ^ 63)%Z. lia. }
  destruct k as [|p|p]; cbn [of_Z].
  - reflexivity.
  - destruct (Hpos p ltac:(lia)) as (m & e & Hy & He & Hm).
    apply (exact_of_finite _ false m e (Zpos p) Hy He Hm).
  - destruct (Hpos p ltac:(lia)) as (m & e & Hy & He & Hm).
    apply (exact_of_finite _ true m e (Zpos p)); [|exact He|exact Hm].
    rewrite FloatAxioms.opp_spec, Hy. reflexivity.
Qed.

(** The mantissa of a double has at most 53 binary digits. *)
Lemma mantissa_bound x s m e :
  Prim2SF x = S754_finite s m e -> (Zpos m < 2 ^ 53)%Z.
Proof.
  intros Hx. pose proof (FloatAxioms.Prim2SF_valid x) as Hv. rewrite Hx in Hv.
  cbn [SpecFloat.valid_binary] in Hv. unfold bounded, canonical_mantissa in Hv.
  apply andb_prop in Hv as [Hc _]. apply Z.eqb_eq in Hc.
  unfold fexp, emin, prec, emax in Hc.
  pose proof (digits2_pos_upper m) as Hu.
  assert (Hd : (Zpos (digits2_pos m) <= 53)%Z) by lia.
  assert (2 ^ Zpos (digits2_pos m) <= 2 ^ 53)%Z by (apply Z.pow_le_mono_r; lia).
  lia.
Qed.

Lemma finite_of_finite y s m e :
  Prim2SF y = S754_finite s m e -> PrimFloat.is_finite y = true.
Proof.
  intros Hy. unfold PrimFloat.is_finite, PrimFloat.is_nan, PrimFloat.is_infinity.
  rewrite !FloatAxioms.eqb_spec, FloatAxioms.abs_spec, Hy.
  change (Prim2SF infinity) with (S754_infinity false).
  unfold SFeqb. cbn [SFabs SFcompare].
  rewrite Z.compare_refl, Pos.compare_cont_refl. destruct s; reflexivity.
Qed.

Lemma finite_of_Z (k : Z) :
  (- 2 ^ 52 <= k <= 2 ^ 52)%Z -> PrimFloat.is_finite (of_Z k) = true.
Proof.
  intros Hk.
  assert (Hpos : forall p, (Zpos p <= 2 ^ 52)%Z ->
            exists m e,
              Prim2SF (PrimFloat.of_uint63 (Uint63.of_Z (Zpos p))) = S754_finite false m e).
  { intros p Hp. rewrite FloatAxioms.of_uint63_spec, Uint63.of_Z_spec.
    rewrite Z.mod_small.
    - destruct (binary_normalize_small p) as (m & e & H & _).
      + apply digits2_pos_le; lia.
      + exists m, e. exact H.
    - split; [lia|]. change Uint63.wB with (2 ^ 63)%Z. lia. }
  destruct k as [|p|p]; cbn [of_Z].
  - reflexivity.
  - destruct (Hpos p ltac:(lia)) as (m & e & Hy).
    apply (finite_of_finite _ false m e Hy).
  - destruct (Hpos p ltac:(lia)) as (m & e & Hy).
    apply (finite_of_finite _ true m e).
    rewrite FloatAxioms.opp_spec, Hy. reflexivity.
Qed.

(** [Math.ceil] of the embedding is the ceiling: on a finite number it is
    the least integer not below it. *)
Lemma ceil_is_ceiling x :
  PrimFloat.is_finite x = true ->
  PrimFloat.is_finite (ceil x) = true /\
  (exact (ceil x) == inject_Z (Qceiling (exact x)))%Q.
Proof.
  intros Hfin. destruct (finite_cases x Hfin) as [[s Hx]|(s & m & e & Hx)].
  - unfold ceil. rewrite Hx. split; [exact Hfin|].
    unfold exact. rewrite Hx. reflexivity.
  - pose proof (mantissa_bound x s m e Hx) as Hm.
    unfold ceil. rewrite Hx. destruct (0 <=? e)%Z eqn:E.
    + split; [exact Hfin|]. unfold exact. rewrite Hx, E.
      destruct s; [change (- inject_Z (Zpos m * 2 ^ e))%Q
                     with (inject_Z (- (Zpos m * 2 ^ e)))|];
        rewrite Qceiling_Z; reflexivity.
    + apply Z.leb_gt in E.
      assert (Hd : (2 <= 2 ^ (- e))%Z).
      { change 2%Z with (2 ^ 1)%Z at 1. apply Z.pow_le_mono_r; lia. }
      set (d := (2 ^ (- e))%Z) in *.
      assert (Hq0 : (0 <= Zpos m / d)%Z) by (apply Z.div_pos; lia).
      assert (Hq1 : (Zpos m / d < 2 ^ 52)%Z).
      { apply Z.div_lt_upper_bound; [lia|]. change (2 ^ 53)%Z with (2 * 2 ^ 52)%Z in Hm.
        nia. }
      assert (Hex : exact x = if s then Qopp (Zpos m # Z.to_pos d) else Zpos m # Z.to_pos d).
      { unfold exact. rewrite Hx.
        destruct (0 <=? e)%Z eqn:E'; [apply Z.leb_le in E'; lia|]. reflexivity. }
      rewrite Hex. cbv zeta.
      destruct s.
      * assert (Hc : Qceiling (- (Zpos m # Z.to_pos d)) = (- (Zpos m / d))%Z).
        { unfold Qceiling. cbn [Qopp Qnum Qden Qfloor].
          rewrite Z2Pos.id by lia. reflexivity. }
        rewrite Hc.
        destruct (Zpos m / d =? 0)%Z eqn:Ez.
        -- apply Z.eqb_eq in Ez. rewrite Ez. split; reflexivity.
        -- split; [apply finite_of_Z; lia | apply exact_of_Z; lia].
      * assert (Hc : Qceiling (Zpos m # Z.to_pos d)
                     = if (Zpos m mod d =? 0)%Z then (Zpos m / d)%Z else (Zpos m / d + 1)%Z).
        { unfold Qceiling. cbn [Qopp Qnum Qden Qfloor].
          rewrite Z2Pos.id by lia.
          destruct (Zpos m mod d =? 0)%Z eqn:Er.
          - apply Z.eqb_eq in Er. rewrite Z.div_opp_l_z by (try exact Er; lia). lia.
          - apply Z.eqb_neq in Er. rewrite Z.div_opp_l_nz by (try exact Er; lia). lia. }
        rewrite Hc.
        split; [apply finite_of_Z | apply exact_of_Z];
          destruct (Zpos m mod d =? 0)%Z; lia.
Qed.

End JsDoubleFacts.

(** ** The decision of a consume call, in doubles *)

Module ConsumeDecision.
Import JsDouble JsDoubleFacts.
Local Open Scope float_scope.

(** [Math.ceil], [Math.min] and [||] of the embedding at the values that
    the statements below meet. *)
Lemma ceil_min_examples :
  ceil 0.5 = 1 /\ ceil 1.5 = 2 /\ ceil 7 = 7 /\ ceil 6.000000000000001 = 7 /\
  ceil (-0.5) = (-0) /\ ceil (-1.5) = (-1) /\ ceil 0 = 0 /\
  ceil infinity = infinity /\ ceil nan = nan /\
  min 10 10.5 = 10 /\ min 10.5 10 = 10 /\ min infinity 10 = 10 /\
  min nan 10 = nan /\ min 0 (-0) = (-0) /\
  or_else (Some 0) 10 = 10 /\ or_else (Some nan) 10 = 10 /\
  or_else (Some 3) 10 = 3 /\ or_else None 10 = 10.
Proof. vm_compute. repeat split; reflexivity. Qed.

(** C3, on the code. With [b1] the bucket after the lazy refill, all in
    double precision: a valid request of [n] tokens with [tokens b1 >= n]
    is allowed, reports and stores the rounded difference [tokens b1 - n];
    otherwise it is denied, reports [tokens b1] and a [retryAfter] that is
    [Math.ceil] of the rounded quotient [(n - tokens b1) / refillRate], which
    [TokenBucket.tryConsume] first takes to milliseconds and back. This
    holds of [TokenBucket.tryConsume] and of the registry's [check], on an
    existing bucket and on one that the call creates. A bucket of capacity
    10 and refill rate 2, in either implementation and at any finite clock
    reading, allows a consume of 10 with 0 remaining, and denies a consume
    of 1 at the same instant with [retryAfter = 1]. [Math.ceil] is the
    ceiling: on a finite quotient [q] it is finite and stands for the least
    integer not below the number that [q] stands for. *)
Theorem consume_decision :
  (forall now n b,
      leb n 0 = false -> gtb n (TokenBucket64.capacity b) = false ->
      let b1 := TokenBucket64.refill now b in
      exists r b',
        TokenBucket64.tryConsume now n b = (Returns r, b') /\
        (geb (TokenBucket64.tokens b1) n = true ->
           TokenBucket64.allowed r = true /\
           TokenBucket64.remainingTokens r = TokenBucket64.tokens b1 - n /\
           TokenBucket64.retryAfter r = None /\
           TokenBucket64.tokens b' = TokenBucket64.tokens b1 - n) /\
        (geb (TokenBucket64.tokens b1) n = false ->
           TokenBucket64.allowed r = false /\
           TokenBucket64.remainingTokens r = TokenBucket64.tokens b1 /\
           TokenBucket64.retryAfter r
             = Some (ceil ((n - TokenBucket64.tokens b1) / TokenBucket64.refillRate b1
                           * 1000 / 1000)) /\
           b' = b1))
  /\
  (forall now nowCreate k n config (buckets : TokenBucketRateLimiter64.Buckets) b,
      TokenBucketRateLimiter64.validateInput k n config = None ->
      buckets !! k = Some b ->
      let b1 := TokenBucketRateLimiter64.refillBucket b now in
      exists r b',
        TokenBucketRateLimiter64.check now nowCreate k n config buckets
          = (Returns r, <[k := b']> buckets) /\
        (geb (TokenBucketRateLimiter64.tokens b1) n = true ->
           TokenBucketRateLimiter64.allowed r = true /\
           TokenBucketRateLimiter64.remainingTokens r
             = TokenBucketRateLimiter64.tokens b1 - n /\
           TokenBucketRateLimiter64.retryAfter r = None /\
           TokenBucketRateLimiter64.tokens b' = TokenBucketRateLimiter64.tokens b1 - n) /\
        (geb (TokenBucketRateLimiter64.tokens b1) n = false ->
           TokenBucketRateLimiter64.allowed r = false /\
           TokenBucketRateLimiter64.remainingTokens r = TokenBucketRateLimiter64.tokens b1 /\
           TokenBucketRateLimiter64.retryAfter r
             = Some (ceil ((n - TokenBucketRateLimiter64.tokens b1)
                           / TokenBucketRateLimiter64.refillRate
                               (TokenBucketRateLimiter64.config b1))) /\
           TokenBucketRateLimiter64.tokens b' = TokenBucketRateLimiter64.tokens b1))
  /\
  (forall now nowCreate k n config (buckets : TokenBucketRateLimiter64.Buckets),
      TokenBucketRateLimiter64.validateInput k n (Some config) = None ->
      buckets !! k = None ->
      let b := {| TokenBucketRateLimiter64.tokens :=
                    or_else (TokenBucketRateLimiter64.initialTokens config)
                            (TokenBucketRateLimiter64.capacity config);
                  TokenBucketRateLimiter64.consumed := 0;
                  TokenBucketRateLimiter64.blocked := 0;
                  TokenBucketRateLimiter64.lastRefill := nowCreate;
                  TokenBucketRateLimiter64.createdAt := nowCreate;
                  TokenBucketRateLimiter64.config := config |} in
      let b1 := TokenBucketRateLimiter64.refillBucket b now in
      exists r b',
        TokenBucketRateLimiter64.check now nowCreate k n (Some config) buckets
          = (Returns r, <[k := b']> (<[k := b]> buckets)) /\
        (geb (TokenBucketRateLimiter64.tokens b1) n = true ->
           TokenBucketRateLimiter64.allowed r = true /\
           TokenBucketRateLimiter64.remainingTokens r
             = TokenBucketRateLimiter64.tokens b1 - n /\
           TokenBucketRateLimiter64.retryAfter r = None /\
           TokenBucketRateLimiter64.tokens b' = TokenBucketRateLimiter64.tokens b1 - n) /\
        (geb (TokenBucketRateLimiter64.tokens b1) n = false ->
           TokenBucketRateLimiter64.allowed r = false /\
           TokenBucketRateLimiter64.remainingTokens r = TokenBucketRateLimiter64.tokens b1 /\
           TokenBucketRateLimiter64.retryAfter r
             = Some (ceil ((n - TokenBucketRateLimiter64.tokens b1)
                           / TokenBucketRateLimiter64.refillRate
                               (TokenBucketRateLimiter64.config b1))) /\
           TokenBucketRateLimiter64.tokens b' = TokenBucketRateLimiter64.tokens b1))
  /\
  (forall t,
      PrimFloat.is_finite t = true ->
      let config := {| TokenBucket64.cfg_capacity := 10;
                       TokenBucket64.cfg_refillRate := 2;
                       TokenBucket64.cfg_initialTokens := None;
                       TokenBucket64.cfg_lastRefillTime := None |} in
      exists b0 r1 b1 r2 b2,
        TokenBucket64.new t t config = Returns b0 /\
        TokenBucket64.tryConsume t 10 b0 = (Returns r1, b1) /\
        TokenBucket64.allowed r1 = true /\
        TokenBucket64.remainingTokens r1 = 0 /\
        TokenBucket64.tryConsume t 1 b1 = (Returns r2, b2) /\
        TokenBucket64.allowed r2 = false /\
        TokenBucket64.retryAfter r2 = Some 1)
  /\
  (forall t k,
      PrimFloat.is_finite t = true ->
      JsStr.trim_is_empty k = false ->
      let config := {| TokenBucketRateLimiter64.capacity := 10;
                       TokenBucketRateLimiter64.refillRate := 2;
                       TokenBucketRateLimiter64.initialTokens := None |} in
      exists r1 buckets1 r2 buckets2,
        TokenBucketRateLimiter64.check t t k 10 (Some config) ∅ = (Returns r1, buckets1) /\
        TokenBucketRateLimiter64.allowed r1 = true /\
        TokenBucketRateLimiter64.remainingTokens r1 = 0 /\
        TokenBucketRateLimiter64.check t t k 1 None buckets1 = (Returns r2, buckets2) /\
        TokenBucketRateLimiter64.allowed r2 = false /\
        TokenBucketRateLimiter64.retryAfter r2 = Some 1)
  /\
  (forall q,
      PrimFloat.is_finite q = true ->
      PrimFloat.is_finite (ceil q) = true /\
      (exact (ceil q) == inject_Z (Qceiling (exact q)))%Q).
Proof.
  split; [|split; [|split; [|split; [|split]]]].
  - intros now n b Hn Hcap b1. unfold TokenBucket64.tryConsume.
    rewrite Hn, Hcap. unfold TokenBucket64.consumeStep. fold b1.
    destruct (geb (TokenBucket64.tokens b1) n) eqn:E3.
    + eexists _, _. split; [reflexivity|]. split; intros H; [|discriminate].
      simpl. repeat split; reflexivity.
    + eexists _, _. split; [reflexivity|]. split; intros H; [discriminate|].
      simpl. repeat split; reflexivity.
  - intros now nowCreate k n config buckets b Hv Hk b1.
    unfold TokenBucketRateLimiter64.check. rewrite Hv, Hk.
    unfold TokenBucketRateLimiter64.decide_and_commit. fold b1.
    destruct (geb (TokenBucketRateLimiter64.tokens b1) n) eqn:E3.
    + eexists _, _. split; [reflexivity|]. split; intros H; [|discriminate].
      simpl. repeat split; reflexivity.
    + eexists _, _. split; [reflexivity|]. split; intros H; [discriminate|].
      simpl. repeat split; reflexivity.
  - intros now nowCreate k n config buckets Hv Hk b b1.
    assert (Hvc : TokenBucketRateLimiter64.validateConfig config = None).
    { unfold TokenBucketRateLimiter64.validateInput in Hv.
      destruct (JsStr.trim_is_empty k); [discriminate|].
      destruct (leb n 0); [discriminate|]. exact Hv. }
    unfold TokenBucketRateLimiter64.check. rewrite Hv, Hk.
    unfold TokenBucketRateLimiter64.createBucket. rewrite Hvc. fold b.
    unfold TokenBucketRateLimiter64.decide_and_commit. fold b1.
    destruct (geb (TokenBucketRateLimiter64.tokens b1) n) eqn:E3.
    + eexists _, _. split; [reflexivity|]. split; intros H; [|discriminate].
      simpl. repeat split; reflexivity.
    + eexists _, _. split; [reflexivity|]. split; intros H; [discriminate|].
      simpl. repeat split; reflexivity.
  - intros t Ht config.
    assert (Hre : forall tk, TokenBucket64.refill t
              {| TokenBucket64.tokens := tk; TokenBucket64.lastRefillTime := t;
                 TokenBucket64.capacity := 10; TokenBucket64.refillRate := 2 |}
            = {| TokenBucket64.tokens := tk; TokenBucket64.lastRefillTime := t;
                 TokenBucket64.capacity := 10; TokenBucket64.refillRate := 2 |}).
    { intros tk. unfold TokenBucket64.refill. cbn [TokenBucket64.lastRefillTime].
      rewrite (sub_diag t Ht). reflexivity. }
    eexists _, _, _, _, _.
    split; [reflexivity|].
    split; [unfold TokenBucket64.tryConsume, TokenBucket64.consumeStep;
            cbn -[TokenBucket64.refill]; rewrite Hre; reflexivity|].
    split; [reflexivity|]. split; [reflexivity|].
    split; [unfold TokenBucket64.tryConsume, TokenBucket64.consumeStep;
            cbn -[TokenBucket64.refill]; rewrite Hre; reflexivity|].
    split; reflexivity.
  - intros t k Ht Hk config.
    assert (Hre : forall tk cs bl,
              TokenBucketRateLimiter64.refillBucket
                {| TokenBucketRateLimiter64.tokens := tk;
                   TokenBucketRateLimiter64.consumed := cs;
                   TokenBucketRateLimiter64.blocked := bl;
                   TokenBucketRateLimiter64.lastRefill := t;
                   TokenBucketRateLimiter64.createdAt := t;
                   TokenBucketRateLimiter64.config := config |} t
              = {| TokenBucketRateLimiter64.tokens := tk;
                   TokenBucketRateLimiter64.consumed := cs;
                   TokenBucketRateLimiter64.blocked := bl;
                   TokenBucketRateLimiter64.lastRefill := t;
                   TokenBucketRateLimiter64.createdAt := t;
                   TokenBucketRateLimiter64.config := config |}).
    { intros tk cs bl. unfold TokenBucketRateLimiter64.refillBucket.
      cbn [TokenBucketRateLimiter64.lastRefill].
      rewrite (sub_diag t Ht). reflexivity. }
    eexists _, _, _, _.
    split.
    { unfold TokenBucketRateLimiter64.check, TokenBucketRateLimiter64.validateInput.
      rewrite Hk, lookup_empty.
      cbn -[TokenBucketRateLimiter64.refillBucket insert].
      unfold TokenBucketRateLimiter64.decide_and_commit. rewrite Hre. reflexivity. }
    split; [reflexivity|]. split; [reflexivity|].
    split.
    { unfold TokenBucketRateLimiter64.check, TokenBucketRateLimiter64.validateInput.
      rewrite Hk, lookup_insert_eq.
      cbn -[TokenBucketRateLimiter64.refillBucket insert].
      unfold TokenBucketRateLimiter64.decide_and_commit. rewrite Hre. reflexivity. }
    split; reflexivity.
  - apply ceil_is_ceiling.
Qed.


Lemma consume_decision_witness :
  let b := {| TokenBucket64.tokens := 0;
              TokenBucket64.lastRefillTime := 0;
              TokenBucket64.capacity := 100;
              TokenBucket64.refillRate := 100 |} in
  let config := {| TokenBucketRateLimiter64.capacity := 10;
                   TokenBucketRateLimiter64.refillRate := 2;
                   TokenBucketRateLimiter64.initialTokens := None |} in
  let bucket := {| TokenBucketRateLimiter64.tokens := 0;
                   TokenBucketRateLimiter64.consumed := 10;
                   TokenBucketRateLimiter64.blocked := 0;
                   TokenBucketRateLimiter64.lastRefill := 0;
                   TokenBucketRateLimiter64.createdAt := 0;
                   TokenBucketRateLimiter64.config := config |} in
  (exists r b',
      TokenBucket64.tryConsume 570 57 b = (Returns r, b') /\
      TokenBucket64.allowed r = false /\
      TokenBucket64.remainingTokens r = 56.99999999999999 /\
      TokenBucket64.retryAfter r = Some 1) /\
  (exists r b',
      TokenBucketRateLimiter64.check 0 0 "test-bucket" 3 None {["test-bucket" := bucket]}
        = (Returns r, <["test-bucket" := b']> {["test-bucket" := bucket]}) /\
      TokenBucketRateLimiter64.allowed r = false /\
      TokenBucketRateLimiter64.retryAfter r = Some 2).
Proof.
  intros b config bucket. split.
  - destruct (proj1 consume_decision 570 57 b) as (r & b' & Hrun & _ & Hdeny);
      [reflexivity | reflexivity |].
    exists r, b'. split; [exact Hrun|].
    destruct Hdeny as (Ha & Hrem & Hretry & _); [reflexivity|].
    split; [exact Ha|]. split; [exact Hrem|]. exact Hretry.
  - destruct (proj1 (proj2 consume_decision) 0 0 "test-bucket" 3 None
                {["test-bucket" := bucket]} bucket)
      as (r & b' & Hrun & _ & Hdeny);
      [reflexivity | apply lookup_singleton_eq |].
    exists r, b'. split; [exact Hrun|].
    destruct Hdeny as (Ha & _ & Hretry & _); [reflexivity|].
    split; [exact Ha|]. exact Hretry.
Defined.

(** C3 as stated, with the ceiling of the quotient of the numbers, fails
    where an operation rounds. A bucket of capacity 10 and refill rate 1
    that holds 0.9999999999999999 tokens (the greatest number below 1)
    denies a request of 3 with [retryAfter = 2], in both implementations:
    the difference rounds to 2, while (3 - 0.9999999999999999) / 1 is above
    2 and its ceiling is 3. With 0.8 tokens and refill rate 0.7 a request of
    5 is denied with [retryAfter = 7], in both implementations: the
    quotient rounds to 6.000000000000001, while (5 - 0.8) / 0.7 is 6. And
    the milliseconds of [TokenBucket.tryConsume] overflow where the
    quotient does not: with refill rate 1 a request of 1e306 tokens on an
    empty bucket is denied with [retryAfter = Infinity]. *)
Lemma retry_after_is_not_the_exact_ceiling :
  let config tk rate :=
    {| TokenBucket64.cfg_capacity := 10;
       TokenBucket64.cfg_refillRate := rate;
       TokenBucket64.cfg_initialTokens := Some tk;
       TokenBucket64.cfg_lastRefillTime := None |} in
  let rconfig tk rate :=
    {| TokenBucketRateLimiter64.capacity := 10;
       TokenBucketRateLimiter64.refillRate := rate;
       TokenBucketRateLimiter64.initialTokens := Some tk |} in
  let huge :=
    {| TokenBucket64.tokens := 0;
       TokenBucket64.lastRefillTime := 0;
       TokenBucket64.capacity := 1e307;
       TokenBucket64.refillRate := 1 |} in
  (exists b r b',
      TokenBucket64.new 0 0 (config 0.9999999999999999 1) = Returns b /\
      TokenBucket64.tryConsume 0 3 b = (Returns r, b') /\
      TokenBucket64.allowed r = false /\
      TokenBucket64.remainingTokens r = 0.9999999999999999 /\
      TokenBucket64.retryAfter r = Some 2 /\
      Qceiling ((3 - exact (TokenBucket64.remainingTokens r))
                / exact (TokenBucket64.refillRate b))%Q = 3%Z) /\
  (exists r buckets',
      TokenBucketRateLimiter64.check 0 0 "user-123" 3
        (Some (rconfig 0.9999999999999999 1)) ∅ = (Returns r, buckets') /\
      TokenBucketRateLimiter64.allowed r = false /\
      TokenBucketRateLimiter64.remainingTokens r = 0.9999999999999999 /\
      TokenBucketRateLimiter64.retryAfter r = Some 2 /\
      Qceiling ((3 - exact (TokenBucketRateLimiter64.remainingTokens r)) / 1)%Q = 3%Z) /\
  (exists b r b',
      TokenBucket64.new 0 0 (config 0.8 0.7) = Returns b /\
      TokenBucket64.tryConsume 0 5 b = (Returns r, b') /\
      TokenBucket64.allowed r = false /\
      TokenBucket64.remainingTokens r = 0.8 /\
      TokenBucket64.retryAfter r = Some 7 /\
      Qceiling ((5 - (8 # 10)) / (7 # 10))%Q = 6%Z) /\
  (exists r buckets',
      TokenBucketRateLimiter64.check 0 0 "user-123" 5 (Some (rconfig 0.8 0.7)) ∅
        = (Returns r, buckets') /\
      TokenBucketRateLimiter64.allowed r = false /\
      TokenBucketRateLimiter64.remainingTokens r = 0.8 /\
      TokenBucketRateLimiter64.retryAfter r = Some 7) /\
  (exists r b',
      TokenBucket64.tryConsume 0 1e306 huge = (Returns r, b') /\
      TokenBucket64.allowed r = false /\
      TokenBucket64.retryAfter r = Some infinity /\
      ceil ((1e306 - TokenBucket64.tokens huge) / TokenBucket64.refillRate huge) = 1e306).
Proof.
  intros config rconfig huge.
  split; [|split; [|split; [|split]]].
  - eexists _, _, _. split; [vm_compute; reflexivity|].
    split; [vm_compute; reflexivity|]. repeat split; vm_compute; reflexivity.
  - eexists _, _. split; [vm_compute; reflexivity|]. repeat split; vm_compute; reflexivity.
  - eexists _, _, _. split; [vm_compute; reflexivity|].
    split; [vm_compute; reflexivity|]. repeat split; vm_compute; reflexivity.
  - eexists _, _. split; [vm_compute; reflexivity|]. repeat split; vm_compute; reflexivity.
  - eexists _, _. split; [vm_compute; reflexivity|]. repeat split; vm_compute; reflexivity.
Qed.

End ConsumeDecision.

(** ** The URL shortener *)

Module ShortenerClaims.
Import JsStr JsStrFacts URLShortener ShortCodeFacts CollisionFacts StoreFacts.
Local Open Scope string_scope.

Section WithURLParser.
Variable parseURL : string -> option URLParts.

Local Abbreviation wf := (wf parseURL).
Local Abbreviation shorten := (shorten parseURL).
Local Abbreviation validateUrl := (validateUrl parseURL).
Local Abbreviation reachable := (reachable parseURL).

(** The two ways in which [shorten] returns: the URL was already
    shortened and the store is untouched, or a new entry is stored. *)
Lemma shorten_returns_cases o u options s r s1 :
  wf s ->
  shorten o u options s = (Returns r, s1) ->
  validateUrl u = None /\ sr_shortCode r <> "" /\
  ((originalUrlToCodeMap s !! u = Some (sr_shortCode r) /\ s1 = s) \/
   (originalUrlToCodeMap s !! u = None /\
    s1 = store_entry s {| id := generateId o; originalUrl := u;
                          shortCode := sr_shortCode r; createdAt := created o;
                          clickCount := 0 |})).
Proof.
  intros Hwf. unfold URLShortener.shorten.
  destruct (validateUrl u) eqn:Hvu; [discriminate|].
  rewrite (wf_truthy_code parseURL s u Hwf).
  destruct (originalUrlToCodeMap s !! u) as [c|] eqn:Hu.
  - intros [= <- <-]. split; [reflexivity|]. simpl. split.
    + pose proof (wf_truthy_code parseURL s u Hwf) as Ht. rewrite Hu in Ht.
      apply truthy_Some in Ht. apply Ht.
    + left. split; reflexivity.
  - destruct (chooseShortCode o s u options) as [[c b]|e] eqn:Hch; [|discriminate].
    intros [= <- <-]. simpl.
    apply chooseShortCode_free in Hch as [Hne _].
    split; [reflexivity|]. split; [exact Hne|]. right. split; reflexivity.
Qed.

(** In a well-formed store a URL has at most one entry. *)
Lemma wf_one_entry_per_url s u i r i' r' :
  wf s ->
  urlMap s !! i = Some r -> originalUrl r = u ->
  urlMap s !! i' = Some r' -> originalUrl r' = u ->
  i' = i.
Proof.
  intros (_ & _ & W3) Hi Hu Hi' Hu'.
  destruct (W3 i r Hi) as (_ & Hc & Ho & _).
  destruct (W3 i' r' Hi') as (_ & Hc' & Ho' & _).
  rewrite Hu in Ho. rewrite Hu' in Ho'.
  assert (shortCode r' = shortCode r) as E by congruence.
  rewrite E in Hc'. congruence.
Qed.

Lemma filter_unique {A} (p : A -> bool) (l : list A) x :
  NoDup l -> x ∈ l -> p x = true ->
  (forall y, y ∈ l -> p y = true -> y = x) ->
  length (List.filter p l) = 1%nat.
Proof.
  intros Hnd. revert x. induction Hnd as [|a l Hnotin Hnd IH]; intros x Hin Hpx Huniq.
  - inversion Hin.
  - simpl. destruct (p a) eqn:Hpa.
    + assert (a = x) as -> by (apply Huniq; [left | exact Hpa]).
      simpl. f_equal.
      assert (Hnone : forall y, y ∈ l -> p y = false).
      { intros y Hy. destruct (p y) eqn:Hpy; [|reflexivity].
        assert (y = x) as -> by (apply Huniq; [right; exact Hy | exact Hpy]).
        contradiction. }
      clear -Hnone. induction l as [|b l IHl]; [reflexivity|].
      simpl. rewrite (Hnone b) by left. apply IHl.
      intros y Hy. apply Hnone. right. exact Hy.
    + apply elem_of_cons in Hin as [->|Hin]; [congruence|].
      apply (IH x Hin Hpx). intros y Hy. apply Huniq. right. exact Hy.
Qed.

Lemma filter_map_length {A B} (f : A -> B) (p : B -> bool) (l : list A) :
  length (List.filter p (List.map f l)) = length (List.filter (fun a => p (f a)) l).
Proof.
  induction l as [|a l IH]; simpl; [reflexivity|].
  destruct (p (f a)); simpl; rewrite IH; reflexivity.
Qed.

(** An entry that is the only one for its URL is the single element of
    [entries_for]. *)
Lemma entries_for_unique s u i r :
  urlMap s !! i = Some r -> originalUrl r = u ->
  (forall i' r', urlMap s !! i' = Some r' -> originalUrl r' = u -> i' = i) ->
  length (entries_for u s) = 1%nat.
Proof.
  intros Hi Hu Huniq. unfold entries_for, getAllUrls.
  change (snd <$> map_to_list (urlMap s)) with (List.map snd (map_to_list (urlMap s))).
  rewrite filter_map_length.
  apply (filter_unique _ _ (i, r)).
  - apply NoDup_map_to_list.
  - apply elem_of_map_to_list. exact Hi.
  - simpl. apply String.eqb_eq. exact Hu.
  - intros [i' r'] Hin Hp. apply elem_of_map_to_list in Hin.
    simpl in Hp. apply String.eqb_eq in Hp.
    assert (i' = i) as -> by (apply (Huniq i' r'); assumption).
    f_equal. congruence.
Qed.

(** C6. When [shorten u] returns, on a store that a client can build, a
    second [shorten u] (whatever its options and its readings of the clock
    and of [Math.random]) returns the same short code and leaves the store,
    all three maps, exactly as it was; that store holds exactly one entry
    whose original URL is [u]. *)
Theorem shorten_idempotent :
  forall o1 o2 u options1 options2 s r1 s1,
    reachable s ->
    shorten o1 u options1 s = (Returns r1, s1) ->
    (exists r2,
        shorten o2 u options2 s1 = (Returns r2, s1) /\
        sr_shortCode r2 = sr_shortCode r1) /\
    (exists i r,
        urlMap s1 !! i = Some r /\ originalUrl r = u /\
        shortCode r = sr_shortCode r1 /\
        forall i' r', urlMap s1 !! i' = Some r' -> originalUrl r' = u -> i' = i) /\
    length (entries_for u s1) = 1%nat.
Proof.
  intros o1 o2 u options1 options2 s r1 s1 Hreach Hrun.
  pose proof (reachable_wf parseURL s Hreach) as Hwf.
  destruct (shorten_returns_cases o1 u options1 s r1 s1 Hwf Hrun)
    as (Hvu & Hne & Hcases).
  assert (Ht : truthy (Some (sr_shortCode r1)) = Some (sr_shortCode r1)).
  { apply truthy_Some. split; [reflexivity | exact Hne]. }
  assert (Hidx : originalUrlToCodeMap s1 !! u = Some (sr_shortCode r1)).
  { destruct Hcases as [[Hu ->]|[_ ->]]; [exact Hu | apply lookup_insert_eq]. }
  split.
  { unfold URLShortener.shorten. rewrite Hvu, Hidx, Ht.
    eexists. split; reflexivity. }
  assert (Hone : exists i r,
            urlMap s1 !! i = Some r /\ originalUrl r = u /\
            shortCode r = sr_shortCode r1 /\
            forall i' r', urlMap s1 !! i' = Some r' -> originalUrl r' = u -> i' = i).
  { destruct Hcases as [[Hu ->]|[Hu ->]].
    - destruct (proj1 Hwf u _ Hu) as (i & r & Hc & Hi & Hru & Hrc).
      exists i, r. split; [exact Hi|]. split; [exact Hru|]. split; [exact Hrc|].
      intros i' r' Hi' Hru'.
      apply (wf_one_entry_per_url s u i r i' r'); assumption.
    - eexists (generateId o1), _. unfold store_entry; simpl.
      split; [apply lookup_insert_eq|]. split; [reflexivity|]. split; [reflexivity|].
      intros i' r' Hi' Hru'.
      destruct (decide (generateId o1 = i')) as [E|Hdiff]; [symmetry; exact E|].
      rewrite lookup_insert_ne in Hi' by exact Hdiff.
      destruct (proj2 (proj2 Hwf) i' r' Hi') as (_ & _ & Hidx' & _).
      rewrite Hru' in Hidx'. congruence. }
  split; [exact Hone|].
  destruct Hone as (i & r & Hi & Hru & _ & Huniq).
  apply (entries_for_unique s1 u i r); assumption.
Qed.

(** C7. [resolveCollision] is a bounded loop: it leaves with its round
    counter at most [MAX_COLLISION_RETRIES], which is 5; a code it returns is
    free; and when every candidate of rounds 1 to 5 is assigned it throws
    [COLLISION_RESOLUTION_FAILED] with the counter at exactly 5, and so does
    [shorten] for a valid, not yet shortened URL without custom alias whose
    hash-based code is taken, leaving the store untouched. *)
Theorem collision_resolution_terminates :
  forall o s existingCode u,
    MAX_COLLISION_RETRIES = 5%nat /\
    (snd (resolveCollision o s existingCode u) <= MAX_COLLISION_RETRIES)%nat /\
    (forall c, fst (resolveCollision o s existingCode u) = Returns c ->
               has_code s c = false) /\
    ((forall k c, (1 <= k <= MAX_COLLISION_RETRIES)%nat ->
                  In c (candidates o existingCode u k) -> has_code s c = true) ->
     resolveCollision o s existingCode u
       = (Throws COLLISION_RESOLUTION_FAILED, MAX_COLLISION_RETRIES)) /\
    (forall options,
        existingCode = generateUniqueShortCode u ->
        validateUrl u = None ->
        truthy (originalUrlToCodeMap s !! u) = None ->
        truthy (customAlias options) = None ->
        has_code s existingCode = true ->
        (forall k c, (1 <= k <= MAX_COLLISION_RETRIES)%nat ->
                     In c (candidates o existingCode u k) -> has_code s c = true) ->
        shorten o u options s = (Throws COLLISION_RESOLUTION_FAILED, s)).
Proof.
  intros o s code u.
  assert (Hex : (forall k c, (1 <= k <= MAX_COLLISION_RETRIES)%nat ->
                   In c (candidates o code u k) -> has_code s c = true) ->
                resolveCollision o s code u
                = (Throws COLLISION_RESOLUTION_FAILED, MAX_COLLISION_RETRIES)).
  { intros Hall. unfold resolveCollision.
    rewrite resolveCollision_loop_exhausted; [reflexivity|].
    intros k c Hk. apply Hall. lia. }
  split; [reflexivity|]. split; [apply resolveCollision_attempts_bound|].
  split; [|split; [exact Hex|]].
  - intros c Hc. unfold resolveCollision in Hc.
    destruct (resolveCollision_loop o s code u 0 MAX_COLLISION_RETRIES) as [res n] eqn:H.
    apply resolveCollision_loop_spec in H
      as [(Hres & _)|(c' & Hres & _ & _ & Hfree & _)]; simpl in Hc; congruence.
  - intros options -> Hvu Hu Halias Hhas Hall.
    unfold URLShortener.shorten. rewrite Hvu, Hu.
    unfold chooseShortCode. rewrite Halias.
    unfold hashShortCode. rewrite Hhas, (Hex Hall). reflexivity.
Qed.

Lemma normalizeCustomAlias_truthy alias c :
  normalizeCustomAlias alias = Returns c -> truthy (Some alias) = Some alias.
Proof.
  intros H. apply truthy_Some. split; [reflexivity|]. intros ->. discriminate.
Qed.

(** C8, on the code. Two [shorten] calls, for two different valid URLs that
    have not been shortened yet, give the same custom alias, which normalizes to a
    code [c] that is not assigned. The first returns [c]. The second throws
    [ALIAS_COLLISION] whatever its readings of the clock and of
    [Math.random] (the branch of the custom alias is taken, not the
    collision ladder) and leaves the store as the first call left it:
    [getStats c] is the entry of the first URL with no click, and
    [expand c] returns the first URL. *)
Theorem custom_alias_exclusive :
  forall o1 o2 u1 u2 alias options1 options2 s c,
    validateUrl u1 = None -> validateUrl u2 = None -> u1 <> u2 ->
    truthy (originalUrlToCodeMap s !! u1) = None ->
    truthy (originalUrlToCodeMap s !! u2) = None ->
    customAlias options1 = Some alias -> customAlias options2 = Some alias ->
    normalizeCustomAlias alias = Returns c ->
    codeToIdMap s !! c = None ->
    exists r1 s1,
      shorten o1 u1 options1 s = (Returns r1, s1) /\
      sr_shortCode r1 = c /\
      shorten o2 u2 options2 s1 = (Throws ALIAS_COLLISION, s1) /\
      chooseShortCode o2 s1 u2 options2 = aliasShortCode s1 alias /\
      getStats c s1 = Some {| id := generateId o1; originalUrl := u1; shortCode := c;
                              createdAt := created o1; clickCount := 0 |} /\
      fst (expand c s1) = {| er_success := true; er_originalUrl := Some u1;
                             er_message := None |}.
Proof.
  intros o1 o2 u1 u2 alias options1 options2 s c
         Hv1 Hv2 Hne Hu1 Hu2 Ha1 Ha2 Hnorm Hfree.
  pose proof (normalizeCustomAlias_truthy alias c Hnorm) as Htr.
  pose proof (normalizeCustomAlias_valid alias c Hnorm) as (Hvalid & _).
  assert (Hchoose1 : chooseShortCode o1 s u1 options1 = Returns (c, false)).
  { unfold chooseShortCode, aliasShortCode. rewrite Ha1, Htr, Hnorm.
    apply has_code_false in Hfree. rewrite Hfree. reflexivity. }
  eexists _, _. split.
  { unfold URLShortener.shorten. rewrite Hv1, Hu1, Hchoose1. reflexivity. }
  split; [reflexivity|].
  assert (Hchoose2 : forall o, chooseShortCode o
            (store_entry s {| id := generateId o1; originalUrl := u1; shortCode := c;
                              createdAt := created o1; clickCount := 0 |}) u2 options2
          = Throws ALIAS_COLLISION).
  { intros o. unfold chooseShortCode, aliasShortCode. rewrite Ha2, Htr, Hnorm.
    unfold has_code, store_entry; simpl. rewrite lookup_insert_eq. reflexivity. }
  split.
  { unfold URLShortener.shorten. rewrite Hv2.
    unfold store_entry at 1; simpl.
    rewrite lookup_insert_ne by exact Hne. rewrite Hu2, Hchoose2. reflexivity. }
  split.
  { unfold chooseShortCode. rewrite Ha2, Htr. reflexivity. }
  assert (Hid : truthy (Some (generateId o1)) = Some (generateId o1)).
  { apply truthy_Some. split; [reflexivity | apply generateId_nonempty]. }
  split.
  - unfold getStats, store_entry; simpl.
    rewrite lookup_insert_eq, Hid. apply lookup_insert_eq.
  - unfold expand. rewrite Hvalid. unfold store_entry; simpl.
    rewrite lookup_insert_eq, Hid, lookup_insert_eq. reflexivity.
Qed.

(** C9, on the code. For a code [c] stored with identifier [i] in a store
    that a client can build, with [u] the original URL of its entry:
    [deleteUrl c] returns [true]; afterwards [expand c] fails with the
    message of [NOT_FOUND] and [getStats c] is [null]; no index has [c],
    [i] or [u] as a key or in a value; and a following [shorten u] does not
    find [u] already shortened: it chooses a code as a first shortening
    does and stores a new entry under a newly generated identifier with a
    click count of 0. The code is not a different one in general: without
    custom alias it is the hash-based code of [u] when that is free, so it
    is [c] again when [c] was the hash-based code. *)
Theorem delete_then_reshorten :
  forall s c i,
    reachable s -> codeToIdMap s !! c = Some i ->
    exists r s1,
      urlMap s !! i = Some r /\ shortCode r = c /\
      deleteUrl c s = (true, s1) /\
      expand c s1 = (expand_failure NOT_FOUND, s1) /\
      getStats c s1 = None /\
      (codeToIdMap s1 !! c = None /\ forall c', codeToIdMap s1 !! c' <> Some i) /\
      (urlMap s1 !! i = None /\
       forall i' r', urlMap s1 !! i' = Some r' ->
                     shortCode r' <> c /\ originalUrl r' <> originalUrl r) /\
      (originalUrlToCodeMap s1 !! originalUrl r = None /\
       forall u', originalUrlToCodeMap s1 !! u' <> Some c) /\
      (forall o options,
          match chooseShortCode o s1 (originalUrl r) options with
          | Throws e => shorten o (originalUrl r) options s1 = (Throws e, s1)
          | Returns (c', b) =>
              shorten o (originalUrl r) options s1
              = (Returns {| sr_success := true;
                            sr_shortCode := c';
                            sr_shortUrl := BASE_DOMAIN s1 ++ "/" ++ c';
                            sr_originalUrl := originalUrl r;
                            sr_message := None;
                            sr_collisionResolved := Some b |},
                 store_entry s1 {| id := generateId o;
                                   originalUrl := originalUrl r;
                                   shortCode := c';
                                   createdAt := created o;
                                   clickCount := 0 |})
          end) /\
      (forall o options,
          truthy (customAlias options) = None ->
          (has_code s1 (generateUniqueShortCode (originalUrl r)) = false ->
           chooseShortCode o s1 (originalUrl r) options
           = Returns (generateUniqueShortCode (originalUrl r), false)) /\
          (c = generateUniqueShortCode (originalUrl r) ->
           chooseShortCode o s1 (originalUrl r) options = Returns (c, false))).
Proof.
  intros s c i Hreach Hc.
  pose proof (reachable_wf parseURL s Hreach) as Hwf.
  pose proof (deleteUrl_wf parseURL c s Hwf) as Hwf1.
  pose proof (wf_truthy_id parseURL s c Hwf) as Htr.
  destruct Hwf as (W1 & W2 & W3).
  destruct (W2 c i Hc) as (Hvalid & Hi & r & Hr & Hrc).
  destruct (W3 i r Hr) as (_ & _ & Hru & Hvu).
  set (s1 := {| urlMap := delete i (urlMap s);
                codeToIdMap := delete c (codeToIdMap s);
                originalUrlToCodeMap := delete (originalUrl r) (originalUrlToCodeMap s);
                BASE_DOMAIN := BASE_DOMAIN s |}).
  assert (Hdel : deleteUrl c s = (true, s1)).
  { unfold deleteUrl. rewrite Htr, Hc, Hr. reflexivity. }
  rewrite Hdel in Hwf1. cbn [snd] in Hwf1.
  destruct Hwf1 as (V1 & V2 & V3).
  assert (Hc1 : codeToIdMap s1 !! c = None) by apply lookup_delete_eq.
  assert (Hi1 : urlMap s1 !! i = None) by apply lookup_delete_eq.
  assert (Hu1 : originalUrlToCodeMap s1 !! originalUrl r = None) by apply lookup_delete_eq.
  exists r, s1. split; [exact Hr|]. split; [exact Hrc|]. split; [exact Hdel|].
  split. { unfold expand. rewrite Hvalid, Hc1. reflexivity. }
  split. { unfold getStats. rewrite Hc1. reflexivity. }
  split.
  { split; [exact Hc1|]. intros c' H.
    destruct (V2 c' i H) as (_ & _ & r' & Hr' & _). congruence. }
  split.
  { split; [exact Hi1|]. intros i' r' H.
    destruct (V3 i' r' H) as (_ & Hcode & Hurl & _).
    split; intros E; [rewrite E in Hcode | rewrite E in Hurl]; congruence. }
  split.
  { split; [exact Hu1|]. intros u' H.
    destruct (V1 u' c H) as (i' & r' & Hcode & _). congruence. }
  split.
  { intros o options. unfold URLShortener.shorten. rewrite Hvu, Hu1. simpl.
    destruct (chooseShortCode o s1 (originalUrl r) options) as [[c' b]|e]; reflexivity. }
  intros o options Halias.
  assert (Hfree : has_code s1 (generateUniqueShortCode (originalUrl r)) = false ->
                  chooseShortCode o s1 (originalUrl r) options
                  = Returns (generateUniqueShortCode (originalUrl r), false)).
  { intros H. unfold chooseShortCode, hashShortCode. rewrite Halias, H. reflexivity. }
  split; [exact Hfree|].
  intros E. rewrite <- E in Hfree. apply Hfree, has_code_false, Hc1.
Qed.

End WithURLParser.

Lemma fresh_store_reachable : reachable Examples.parseURL Examples.fresh_store.
Proof. apply (reach_new _ "https://short.test"). reflexivity. Qed.

Lemma example_oracle_ok now rnd :
  all_chars alias_char (substring_between 2 4 rnd) = true ->
  oracle_ok (Examples.oracle now rnd).
Proof. intros H k. split; [reflexivity | exact H]. Qed.

Lemma collision_resolution_terminates_witness :
  let o := Examples.oracle "1700000000001" "0.4fzyo82mvyr" in
  resolveCollision o Examples.crowded_store "gpN5q0" "https://example.com"
    = (Throws COLLISION_RESOLUTION_FAILED, 5%nat) /\
  shorten Examples.parseURL o "https://example.com" Examples.no_options
    Examples.crowded_store
    = (Throws COLLISION_RESOLUTION_FAILED, Examples.crowded_store).
Proof.
  intros o.
  assert (Hall : forall k c, (1 <= k <= MAX_COLLISION_RETRIES)%nat ->
            In c (candidates o "gpN5q0" "https://example.com" k) ->
            has_code Examples.crowded_store c = true).
  { intros k c Hk Hin. unfold MAX_COLLISION_RETRIES in Hk.
    assert (Hcases : k = 1%nat \/ k = 2%nat \/ k = 3%nat \/ k = 4%nat \/ k = 5%nat) by lia.
    destruct Hcases as [->|[->|[->|[->| ->]]]];
      vm_compute in Hin; destruct Hin as [<-|[<-|[<-|[]]]]; vm_compute; reflexivity. }
  destruct (collision_resolution_terminates Examples.parseURL o Examples.crowded_store
              "gpN5q0" "https://example.com") as (_ & _ & _ & Hres & Hshorten).
  split.
  - exact (Hres Hall).
  - apply Hshorten; try reflexivity. exact Hall.
Defined.

Lemma custom_alias_exclusive_witness :
  let o1 := Examples.oracle "1700000000000" "0.4fzyo82mvyr" in
  let o2 := Examples.oracle "1700000000005" "0.9k1x03b7zq" in
  exists r1 s1,
    shorten Examples.parseURL o1 "https://example.com/page1"
      (Examples.with_alias "mypage") Examples.fresh_store = (Returns r1, s1) /\
    sr_shortCode r1 = "mypage" /\
    shorten Examples.parseURL o2 "https://example.com/page2"
      (Examples.with_alias "mypage") s1 = (Throws ALIAS_COLLISION, s1) /\
    fst (expand "mypage" s1)
      = {| er_success := true; er_originalUrl := Some "https://example.com/page1";
           er_message := None |}.
Proof.
  intros o1 o2.
  destruct (custom_alias_exclusive Examples.parseURL o1 o2
              "https://example.com/page1" "https://example.com/page2" "mypage"
              (Examples.with_alias "mypage") (Examples.with_alias "mypage")
              Examples.fresh_store "mypage")
    as (r1 & s1 & H1 & Hc & H2 & _ & _ & He);
    [reflexivity | reflexivity | discriminate | reflexivity | reflexivity
    | reflexivity | reflexivity | reflexivity | reflexivity |].
  exists r1, s1. repeat split; assumption.
Defined.

(** C8 as stated fails when the URL of the second call is already
    shortened: [shorten] returns the existing code of that URL before it
    looks at the alias, and no [ALIAS_COLLISION] is raised. *)
Lemma alias_ignored_for_a_shortened_url :
  let o0 := Examples.oracle "1700000000000" "0.4fzyo82mvyr" in
  let o1 := Examples.oracle "1700000000005" "0.9k1x03b7zq" in
  let o2 := Examples.oracle "1700000000009" "0.c7t2m5p0x1" in
  let s0 := snd (shorten Examples.parseURL o0 "https://example.com/page2"
                   Examples.no_options Examples.fresh_store) in
  exists r1 s1 r2,
    shorten Examples.parseURL o1 "https://example.com/page1"
      (Examples.with_alias "mypage") s0 = (Returns r1, s1) /\
    sr_shortCode r1 = "mypage" /\
    shorten Examples.parseURL o2 "https://example.com/page2"
      (Examples.with_alias "mypage") s1 = (Returns r2, s1) /\
    sr_success r2 = true /\
    sr_shortCode r2 = "1riahq" /\
    sr_message r2 = Some "URL already shortened".
Proof.
  intros o0 o1 o2 s0. eexists _, _, _.
  split; [vm_compute; reflexivity|]. split; [reflexivity|].
  split; [vm_compute; reflexivity|]. repeat split; reflexivity.
Qed.

(** An entry of "https://example.com", made on a fresh store. *)
Lemma example_store_reachable :
  reachable Examples.parseURL
    (snd (shorten Examples.parseURL (Examples.oracle "1700000000000" "0.4fzyo82mvyr")
            "https://example.com" Examples.no_options Examples.fresh_store)).
Proof.
  apply reach_shorten.
  - exact fresh_store_reachable.
  - apply example_oracle_ok. reflexivity.
  - reflexivity.
Qed.

Lemma delete_then_reshorten_witness :
  let o := Examples.oracle "1700000000000" "0.4fzyo82mvyr" in
  let s := snd (shorten Examples.parseURL o "https://example.com"
                  Examples.no_options Examples.fresh_store) in
  exists s1,
    deleteUrl "gpN5q0" s = (true, s1) /\
    expand "gpN5q0" s1 = (expand_failure NOT_FOUND, s1) /\
    getStats "gpN5q0" s1 = None.
Proof.
  intros o s.
  destruct (delete_then_reshorten Examples.parseURL s "gpN5q0" "1700000000000-4fzyo82")
    as (r & s1 & _ & _ & Hdel & Hexp & Hstats & _).
  - exact example_store_reachable.
  - vm_compute. reflexivity.
  - exists s1. repeat split; assumption.
Defined.

(** C9 as stated fails: the code of the second shortening is not a new
    one. On a fresh store "https://example.com" gets the hash-based code
    "gpN5q0"; after [deleteUrl "gpN5q0"] it gets "gpN5q0" again. *)
Lemma reshorten_gives_the_same_code :
  let o1 := Examples.oracle "1700000000000" "0.4fzyo82mvyr" in
  let o2 := Examples.oracle "1700000009000" "0.9k1x03b7zq" in
  exists r1 s1 s2 r2 s3,
    shorten Examples.parseURL o1 "https://example.com" Examples.no_options
      Examples.fresh_store = (Returns r1, s1) /\
    deleteUrl (sr_shortCode r1) s1 = (true, s2) /\
    shorten Examples.parseURL o2 "https://example.com" Examples.no_options s2
      = (Returns r2, s3) /\
    sr_shortCode r1 = "gpN5q0" /\
    sr_shortCode r2 = "gpN5q0" /\
    getStats "gpN5q0" s3
      = Some {| id := "1700000009000-9k1x03b"; originalUrl := "https://example.com";
                shortCode := "gpN5q0"; createdAt := 0; clickCount := 0 |}.
Proof.
  intros o1 o2. eexists _, _, _, _, _.
  split; [vm_compute; reflexivity|].
  split; [vm_compute; reflexivity|].
  split; [vm_compute; reflexivity|].
  split; [reflexivity|]. split; [reflexivity|]. vm_compute. reflexivity.
Qed.

Lemma shorten_idempotent_witness :
  let o := Examples.oracle "1700000000000" "0.4fzyo82mvyr" in
  let s1 := snd (shorten Examples.parseURL o "https://example.com"
                   Examples.no_options Examples.fresh_store) in
  (exists r2,
      shorten Examples.parseURL o "https://example.com" Examples.no_options s1
        = (Returns r2, s1) /\
      sr_shortCode r2 = "gpN5q0") /\
  length (entries_for "https://example.com" s1) = 1%nat.
Proof.
  intros o s1.
  destruct (shorten_idempotent Examples.parseURL o o "https://example.com"
              Examples.no_options Examples.no_options Examples.fresh_store
              (match fst (shorten Examples.parseURL o "https://example.com"
                            Examples.no_options Examples.fresh_store) with
               | Returns r => r
               | Throws _ => {| sr_success := false; sr_shortCode := "";
                                sr_shortUrl := ""; sr_originalUrl := "";
                                sr_message := None; sr_collisionResolved := None |}
               end) s1)
    as ((r2 & Hrun & Hcode) & _ & Hone).
  - exact fresh_store_reachable.
  - vm_compute. reflexivity.
  - split; [|exact Hone].
    exists r2. split; [exact Hrun|]. rewrite Hcode. vm_compute. reflexivity.
Defined.

End ShortenerClaims.

(** * Further properties of the rate limiters *)

(** ** Comparisons and refills up to the representation of numbers *)

Module ObservationFacts.
Import JsNum JsNumFacts TokenBucket Observation.
Local Open Scope Q_scope.

Lemma leb_comp a a' b b' : a == a' -> b == b' -> leb a b = leb a' b'.
Proof. intros Ha Hb. unfold leb. rewrite Ha, Hb. reflexivity. Qed.

Lemma ltb_comp a a' b b' : a == a' -> b == b' -> ltb a b = ltb a' b'.
Proof. intros Ha Hb. unfold ltb. rewrite Ha, Hb. reflexivity. Qed.

Lemma geb_comp a a' b b' : a == a' -> b == b' -> geb a b = geb a' b'.
Proof. intros Ha Hb. apply leb_comp; assumption. Qed.

Lemma gtb_comp a a' b b' : a == a' -> b == b' -> gtb a b = gtb a' b'.
Proof. intros Ha Hb. apply ltb_comp; assumption. Qed.

Lemma same_state_refl b : same_state b b.
Proof. repeat split; reflexivity. Qed.

Lemma same_state_sym a b : same_state a b -> same_state b a.
Proof. intros (H1 & H2 & H3 & H4). repeat split; symmetry; assumption. Qed.

Lemma same_state_trans a b c : same_state a b -> same_state b c -> same_state a c.
Proof.
  intros (H1 & H2 & H3 & H4) (G1 & G2 & G3 & G4).
  repeat split; etransitivity; eassumption.
Qed.

Lemma refill_capacity now b : capacity (refill now b) = capacity b.
Proof. unfold refill. destruct (leb _ 0); reflexivity. Qed.

Lemma refill_refillRate now b : refillRate (refill now b) = refillRate b.
Proof. unfold refill. destruct (leb _ 0); reflexivity. Qed.

Lemma tryConsume_capacity now n b : capacity (snd (tryConsume now n b)) = capacity b.
Proof.
  unfold tryConsume. destruct (leb n 0); [reflexivity|].
  destruct (gtb n (capacity b)); [reflexivity|].
  unfold consumeStep. destruct (geb _ n); simpl; apply refill_capacity.
Qed.

Lemma refill_same now a b : same_state a b -> same_state (refill now a) (refill now b).
Proof.
  intros (H1 & H2 & H3 & H4). unfold refill.
  rewrite (leb_comp (now - lastRefillTime a) (now - lastRefillTime b) 0 0)
    by (rewrite ?H2; reflexivity).
  destruct (leb (now - lastRefillTime b) 0).
  - repeat split; assumption.
  - unfold same_state; simpl. rewrite H1, H2, H3, H4. repeat split; reflexivity.
Qed.

(** The decision of [consumeStep] depends on the refilled bucket only. *)
Lemma consumeStep_after_refill now n a b :
  same_state (refill now a) (refill now b) ->
  same_result (fst (consumeStep now n a)) (fst (consumeStep now n b)) /\
  same_state (snd (consumeStep now n a)) (snd (consumeStep now n b)).
Proof.
  intros (H1 & H2 & H3 & H4). unfold consumeStep.
  rewrite (geb_comp (tokens (refill now a)) (tokens (refill now b)) n n)
    by (assumption || reflexivity).
  destruct (geb (tokens (refill now b)) n); simpl.
  - unfold same_result, same_state; simpl. rewrite H1, H2, H3, H4.
    repeat split; reflexivity.
  - unfold same_result, same_state; simpl.
    repeat split; try assumption.
    + f_equal. apply Qceiling_comp. rewrite H1, H4. reflexivity.
    + rewrite H1, H2, H4. reflexivity.
Qed.

Lemma same_from_of_same_state t a b : same_state a b -> same_from t a b.
Proof.
  intros Hs. split; [apply Hs|]. intros now _. apply refill_same, Hs.
Qed.

Lemma tryConsume_same_from t now n a b :
  same_from t a b -> t <= now ->
  same_outcome (fst (tryConsume now n a)) (fst (tryConsume now n b)) /\
  same_from now (snd (tryConsume now n a)) (snd (tryConsume now n b)).
Proof.
  intros [Hc Hs] Hle. unfold tryConsume.
  destruct (leb n 0).
  { simpl. split; [reflexivity|]. split; [exact Hc|].
    intros now' Hn. apply Hs. lra. }
  rewrite (gtb_comp n n (capacity a) (capacity b)) by (assumption || reflexivity).
  destruct (gtb n (capacity b)).
  { simpl. split; [reflexivity|]. split; [exact Hc|].
    intros now' Hn. apply Hs. lra. }
  destruct (consumeStep_after_refill now n a b (Hs now Hle)) as [Hr Hst].
  destruct (consumeStep now n a) as [ra a'], (consumeStep now n b) as [rb b'].
  simpl in *. split; [exact Hr|]. split; [apply Hst|].
  intros now' _. apply refill_same, Hst.
Qed.

End ObservationFacts.

(** ** run-009: [updateConfig] *)

Module TokenBucketLaws.
Import JsNum JsNumFacts TokenBucket Observation ObservationFacts.
Local Open Scope Q_scope.

Lemma updateConfig_commit_capacity config b :
  capacity (updateConfig_commit config b) = nullish (new_capacity config) (capacity b).
Proof.
  unfold updateConfig_commit.
  destruct (new_capacity config), (new_refillRate config); reflexivity.
Qed.

Lemma updateConfig_commit_refillRate config b :
  refillRate (updateConfig_commit config b)
  = nullish (new_refillRate config) (refillRate b).
Proof.
  unfold updateConfig_commit.
  destruct (new_capacity config), (new_refillRate config); reflexivity.
Qed.

Lemma updateConfig_commit_lastRefillTime config b :
  lastRefillTime (updateConfig_commit config b) = lastRefillTime b.
Proof.
  unfold updateConfig_commit.
  destruct (new_capacity config), (new_refillRate config); reflexivity.
Qed.

Lemma updateConfig_commit_tokens config b :
  tokens (updateConfig_commit config b)
  == Qmin (tokens b) (nullish (new_capacity config) (capacity b)) \/
  (new_capacity config = None /\ tokens (updateConfig_commit config b) = tokens b).
Proof.
  unfold updateConfig_commit.
  destruct (new_capacity config), (new_refillRate config); simpl;
    try (left; reflexivity); right; split; reflexivity.
Qed.

(** X1. [updateConfig] on a well-formed bucket, awaited. When it returns,
    the token count and the last refill time are what they were, capacity
    and rate are the requested ones (the old ones where none is given), and
    the bucket is well formed. A requested capacity below the current token
    count is always rejected with the bucket unchanged, and with 'Initial
    tokens cannot exceed capacity' when that capacity and the rate are
    positive: the tokens are never cut down to a smaller capacity. *)
Theorem updateConfig_never_drops_tokens now config b :
  well_formed b ->
  (forall b', updateConfig now config b = (Returns tt, b') ->
     tokens b' == tokens b /\
     lastRefillTime b' = lastRefillTime b /\
     capacity b' = nullish (new_capacity config) (capacity b) /\
     refillRate b' = nullish (new_refillRate config) (refillRate b) /\
     well_formed b') /\
  (forall c, new_capacity config = Some c -> c < tokens b ->
     exists e, updateConfig now config b = (Throws e, b) /\
       (0 < c -> 0 < nullish (new_refillRate config) (refillRate b) ->
        e = InitialTokensExceedCapacity)).
Proof.
  intros (Hc & Hr & H0 & Hcap). split.
  - intros b' H. unfold updateConfig in H.
    destruct (validateConfig now (updateConfig_candidate config b)) eqn:Hv;
      [discriminate|].
    injection H as <-.
    apply TokenBucketFacts.validateConfig_ok in Hv as (Hc' & Hr' & Hi).
    destruct (Hi (tokens b) eq_refl) as [_ Hle]. simpl in Hc', Hr', Hle.
    assert (Ht : tokens (updateConfig_commit config b) == tokens b).
    { destruct (updateConfig_commit_tokens config b) as [Ht|[_ Ht]].
      - rewrite Ht. apply Q.min_l. exact Hle.
      - rewrite Ht. reflexivity. }
    split; [exact Ht|].
    split; [apply updateConfig_commit_lastRefillTime|].
    split; [apply updateConfig_commit_capacity|].
    split; [apply updateConfig_commit_refillRate|].
    unfold well_formed, within_capacity.
    rewrite updateConfig_commit_capacity, updateConfig_commit_refillRate, Ht.
    repeat split; assumption.
  - intros c Hnc Hlt. unfold updateConfig, validateConfig, updateConfig_candidate.
    rewrite Hnc.
    cbn [cfg_capacity cfg_refillRate cfg_initialTokens cfg_lastRefillTime nullish].
    destruct (leb c 0) eqn:E1.
    { eexists. split; [reflexivity|]. jsnum_hyps. intros. lra. }
    destruct (leb (nullish (new_refillRate config) (refillRate b)) 0) eqn:E2.
    { eexists. split; [reflexivity|]. jsnum_hyps. intros. lra. }
    destruct (ltb (tokens b) 0) eqn:E3; [jsnum_hyps; lra|].
    destruct (gtb (tokens b) c) eqn:E4; [|jsnum_hyps; lra].
    eexists. split; reflexivity.
Qed.

(** The scenario of the test 'should update configuration' of run-009: a
    full bucket of capacity 10 asked to shrink to capacity 5. *)
Lemma updateConfig_never_drops_tokens_witness :
  let b := {| tokens := 10; lastRefillTime := 0; capacity := 10; refillRate := 1 |} in
  let config := {| new_capacity := Some 5; new_refillRate := None |} in
  well_formed b /\
  updateConfig 0 config b = (Throws InitialTokensExceedCapacity, b).
Proof.
  intros b config.
  assert (Hwf : well_formed b).
  { unfold well_formed, within_capacity; simpl. repeat split; lra. }
  split; [exact Hwf|].
  destruct (proj2 (updateConfig_never_drops_tokens 0 config b Hwf) 5 eq_refl)
    as (e & He & Hcode).
  - simpl. lra.
  - rewrite He. f_equal. f_equal. apply Hcode; simpl; lra.
Defined.

End TokenBucketLaws.

(** ** run-009: the lock of [InMemoryStorage] under interleaved calls *)

Module LockFacts.
Import TokenBucket InMemoryStorage DistributedTokenBucket.

Lemma is_locked_acquire k k' st :
  is_locked k' (acquire k st) = if decide (k = k') then true else is_locked k' st.
Proof.
  unfold is_locked, acquire; simpl. destruct (decide (k = k')) as [->|Hne].
  - rewrite lookup_insert_eq. reflexivity.
  - rewrite lookup_insert_ne by exact Hne. reflexivity.
Qed.

Lemma is_locked_release k k' st :
  is_locked k' (release k st) = if decide (k = k') then false else is_locked k' st.
Proof.
  unfold is_locked, release; simpl. destruct (decide (k = k')) as [->|Hne].
  - rewrite lookup_insert_eq. reflexivity.
  - rewrite lookup_insert_ne by exact Hne. reflexivity.
Qed.

Lemma start_inv requests st :
  (forall k, is_locked k st = false) -> lock_inv (start requests st).
Proof.
  intros Hfree.
  assert (Hstage : forall i c, calls (start requests st) !! i = Some c -> stage c = AtLock).
  { intros i c H. unfold start in H; simpl in H.
    rewrite list_lookup_fmap in H. destruct (requests !! i); [|discriminate].
    injection H as <-. reflexivity. }
  split.
  - intros i j ci cj Hi _ Hh. apply Hstage in Hi. unfold holds_lock in Hh.
    rewrite Hi in Hh. discriminate.
  - intros i c state Hi Hs. apply Hstage in Hi. congruence.
  - intros k. simpl. rewrite Hfree. split; [discriminate|].
    intros (i & c & Hi & Hh & _). apply Hstage in Hi. unfold holds_lock in Hh.
    rewrite Hi in Hh. discriminate.
Qed.

(** A turn that changes neither who holds a lock nor the flags. *)
Lemma inv_same_holder sys i c c' st' :
  lock_inv sys -> calls sys !! i = Some c ->
  key (self c') = key (self c) -> holds_lock c' = holds_lock c ->
  locks st' = locks (shared sys) ->
  (forall j cj state, j <> i -> calls sys !! j = Some cj -> stage cj = AtDecide state ->
     getState (key (self cj)) st' = getState (key (self cj)) (shared sys)) ->
  (forall state, stage c' = AtDecide state -> getState (key (self c')) st' = state) ->
  lock_inv {| calls := <[i := c']> (calls sys); shared := st' |}.
Proof.
  intros [Hex Hrd Hfl] Hi Hkey Hholds Hlocks Hothers Hmine.
  assert (Hlt : (i < length (calls sys))%nat) by (eapply lookup_lt_Some; exact Hi).
  assert (Hold : forall j cj, <[i := c']> (calls sys) !! j = Some cj ->
            exists cj0, calls sys !! j = Some cj0 /\ key (self cj) = key (self cj0) /\
                        holds_lock cj = holds_lock cj0 /\ (j <> i -> cj = cj0)).
  { intros j cj H. apply list_lookup_insert_Some in H as [(-> & <- & _)|[Hne H]].
    - exists c. repeat split; try assumption. intros Hn. contradiction.
    - exists cj. repeat split; try assumption. }
  split; simpl.
  - intros j1 j2 c1 c2 H1 H2 Hh1 Hh2 Hk.
    apply Hold in H1 as (d1 & G1 & K1 & L1 & _).
    apply Hold in H2 as (d2 & G2 & K2 & L2 & _).
    apply (Hex j1 j2 d1 d2 G1 G2); congruence.
  - intros j cj state Hj Hs. destruct (decide (j = i)) as [->|Hne].
    + rewrite list_lookup_insert_eq in Hj by exact Hlt. injection Hj as <-.
      apply Hmine, Hs.
    + rewrite list_lookup_insert_ne in Hj by congruence.
      rewrite (Hothers j cj state Hne Hj Hs). apply (Hrd j cj state Hj Hs).
  - intros k. unfold is_locked. rewrite Hlocks. fold (is_locked k (shared sys)).
    rewrite Hfl. split.
    + intros (j & cj & Hj & Hh & Hk). destruct (decide (j = i)) as [->|Hne].
      * exists i, c'. rewrite list_lookup_insert_eq by exact Hlt.
        rewrite Hi in Hj. injection Hj as <-. repeat split; congruence.
      * exists j, cj. rewrite list_lookup_insert_ne by congruence. repeat split; assumption.
    + intros (j & cj & Hj & Hh & Hk).
      apply Hold in Hj as (d & G & K & L & _). exists j, d. repeat split; congruence.
Qed.

Lemma inv_acquire sys i c :
  lock_inv sys -> calls sys !! i = Some c -> stage c = AtLock ->
  is_locked (key (self c)) (shared sys) = false ->
  lock_inv {| calls := <[i := at_stage c AtGetState]> (calls sys);
              shared := acquire (key (self c)) (shared sys) |}.
Proof.
  intros [Hex Hrd Hfl] Hi Hstage Hfree.
  assert (Hlt : (i < length (calls sys))%nat) by (eapply lookup_lt_Some; exact Hi).
  assert (Hnone : forall j cj, calls sys !! j = Some cj -> holds_lock cj = true ->
                    key (self cj) <> key (self c)).
  { intros j cj Hj Hh Hk.
    assert (Hl : is_locked (key (self c)) (shared sys) = true).
    { apply Hfl. exists j, cj. repeat split; assumption. }
    congruence. }
  split; simpl.
  - intros j1 j2 c1 c2 H1 H2 Hh1 Hh2 Hk.
    apply list_lookup_insert_Some in H1 as [(-> & <- & _)|[Hn1 H1]];
    apply list_lookup_insert_Some in H2 as [(-> & <- & _)|[Hn2 H2]].
    + reflexivity.
    + exfalso. apply (Hnone j2 c2 H2 Hh2). simpl in Hk. congruence.
    + exfalso. apply (Hnone j1 c1 H1 Hh1). simpl in Hk. congruence.
    + apply (Hex j1 j2 c1 c2); assumption.
  - intros j cj state Hj Hs.
    apply list_lookup_insert_Some in Hj as [(-> & <- & _)|[Hn Hj]].
    + discriminate.
    + apply (Hrd j cj state Hj Hs).
  - intros k. rewrite is_locked_acquire. destruct (decide (key (self c) = k)) as [<-|Hne].
    + split; [|reflexivity]. intros _. exists i, (at_stage c AtGetState).
      rewrite list_lookup_insert_eq by exact Hlt. repeat split.
    + rewrite Hfl. split.
      * intros (j & cj & Hj & Hh & Hk). exists j, cj.
        assert (j <> i).
        { intros ->. rewrite Hi in Hj. injection Hj as <-.
          unfold holds_lock in Hh. rewrite Hstage in Hh. discriminate. }
        rewrite list_lookup_insert_ne by congruence. repeat split; assumption.
      * intros (j & cj & Hj & Hh & Hk).
        apply list_lookup_insert_Some in Hj as [(-> & <- & _)|[Hn Hj]].
        -- simpl in Hk. contradiction.
        -- exists j, cj. repeat split; assumption.
Qed.

Lemma inv_release sys i c result :
  lock_inv sys -> calls sys !! i = Some c -> holds_lock c = true ->
  lock_inv {| calls := <[i := at_stage c (Settled result)]> (calls sys);
              shared := release (key (self c)) (shared sys) |}.
Proof.
  intros [Hex Hrd Hfl] Hi Hholds.
  assert (Hlt : (i < length (calls sys))%nat) by (eapply lookup_lt_Some; exact Hi).
  split; simpl.
  - intros j1 j2 c1 c2 H1 H2 Hh1 Hh2 Hk.
    apply list_lookup_insert_Some in H1 as [(-> & <- & _)|[Hn1 H1]]; [discriminate|].
    apply list_lookup_insert_Some in H2 as [(-> & <- & _)|[Hn2 H2]]; [discriminate|].
    apply (Hex j1 j2 c1 c2); assumption.
  - intros j cj state Hj Hs.
    apply list_lookup_insert_Some in Hj as [(-> & <- & _)|[Hn Hj]]; [discriminate|].
    apply (Hrd j cj state Hj Hs).
  - intros k. rewrite is_locked_release. destruct (decide (key (self c) = k)) as [<-|Hne].
    + split; [discriminate|]. intros (j & cj & Hj & Hh & Hk). exfalso.
      apply list_lookup_insert_Some in Hj as [(-> & <- & _)|[Hn Hj]]; [discriminate|].
      apply Hn. apply (Hex i j c cj); congruence.
    + rewrite Hfl. split.
      * intros (j & cj & Hj & Hh & Hk). exists j, cj.
        assert (j <> i).
        { intros ->. rewrite Hi in Hj. injection Hj as <-. contradiction. }
        rewrite list_lookup_insert_ne by congruence. repeat split; assumption.
      * intros (j & cj & Hj & Hh & Hk).
        apply list_lookup_insert_Some in Hj as [(-> & <- & _)|[Hn Hj]]; [discriminate|].
        exists j, cj. repeat split; assumption.
Qed.

Lemma step_inv sys t : lock_inv sys -> lock_inv (step sys t).
Proof.
  intros Hinv. unfold step.
  destruct (calls sys !! turn_call t) as [c|] eqn:Hi; [|exact Hinv].
  unfold advance. destruct (stage c) eqn:Hstage.
  - destruct (is_locked (key (self c)) (shared sys)) eqn:Hl.
    + destruct sys as [cs st]. simpl in *. rewrite list_insert_id by exact Hi. exact Hinv.
    + apply inv_acquire; assumption.
  - apply (inv_same_holder sys _ c); try assumption; try reflexivity.
    + unfold holds_lock. simpl. rewrite Hstage. reflexivity.
    + simpl. intros state [= <-]. reflexivity.
  - destruct (decision (turn_nowInit t) (turn_now t) (self c) (tokensToConsume c) state)
      as [result [updatedState|]].
    + apply (inv_same_holder sys _ c); try assumption; try reflexivity.
      * unfold holds_lock. simpl. rewrite Hstage. reflexivity.
      * intros j cj sj Hne Hj Hs. unfold getState, setState; simpl.
        apply lookup_insert_ne. intros Hk. apply Hne.
        apply (inv_exclusive sys Hinv j (turn_call t) cj c Hj Hi).
        -- unfold holds_lock. rewrite Hs. reflexivity.
        -- unfold holds_lock. rewrite Hstage. reflexivity.
        -- congruence.
      * simpl. discriminate.
    + apply inv_release; [assumption..|].
      unfold holds_lock. rewrite Hstage. reflexivity.
  - apply inv_release; [assumption..|].
    unfold holds_lock. rewrite Hstage. reflexivity.
  - destruct sys as [cs st]. simpl in *. rewrite list_insert_id by exact Hi. exact Hinv.
Qed.

Lemma run_inv schedule : forall sys, lock_inv sys -> lock_inv (run sys schedule).
Proof.
  induction schedule as [|t rest IH]; intros sys Hinv; [exact Hinv|].
  apply IH, step_inv, Hinv.
Qed.

Lemma new_is_unlocked k : is_locked k InMemoryStorage.new = false.
Proof. unfold is_locked, InMemoryStorage.new; simpl. rewrite lookup_empty. reflexivity. Qed.

End LockFacts.

(** ** run-009: what [DistributedTokenBucket] stores and answers *)

Module DistributedFacts.
Import JsNum JsNumFacts TokenBucket InMemoryStorage DistributedTokenBucket.
Import Observation ObservationFacts LockFacts.
Local Open Scope Q_scope.

Lemma decision_written nowInit now self n state r w :
  decision nowInit now self n state = (r, Some w) ->
  0 <= n -> within_capacity w.
Proof.
  unfold decision. intros H Hn.
  match type of H with context [geb ?x n] => destruct (geb x n) eqn:E end;
    [|discriminate].
  injection H as _ <-. jsnum_hyps. unfold within_capacity; simpl. split; [lra|].
  match goal with |- Qmin ?c ?y - n <= _ => pose proof (Q.le_min_l c y) end.
  lra.
Qed.

Lemma advance_within_capacity nowInit now c st :
  0 <= tokensToConsume c -> stored_within_capacity st ->
  stored_within_capacity (snd (advance nowInit now c st)) /\
  tokensToConsume (fst (advance nowInit now c st)) = tokensToConsume c.
Proof.
  intros Hn Hst. unfold advance. destruct (stage c) eqn:Hs.
  - destruct (is_locked _ st); split; try reflexivity; exact Hst.
  - split; [exact Hst|reflexivity].
  - destruct (decision nowInit now (self c) (tokensToConsume c) state)
      as [r [w|]] eqn:Hd; simpl; (split; [|reflexivity]).
    + intros k s. unfold getState, setState; simpl.
      destruct (decide (key (self c) = k)) as [<-|Hne].
      * rewrite lookup_insert_eq. intros [= <-].
        apply (decision_written _ _ _ _ _ _ _ Hd Hn).
      * rewrite lookup_insert_ne by exact Hne. apply Hst.
    + exact Hst.
  - split; [exact Hst|reflexivity].
  - split; [exact Hst|reflexivity].
Qed.

Lemma step_within_capacity sys t :
  Forall (fun c => 0 <= tokensToConsume c) (calls sys) ->
  stored_within_capacity (shared sys) ->
  Forall (fun c => 0 <= tokensToConsume c) (calls (step sys t)) /\
  stored_within_capacity (shared (step sys t)).
Proof.
  intros Hcalls Hst. unfold step.
  destruct (calls sys !! turn_call t) as [c|] eqn:Hi; [|split; assumption].
  assert (Hn : 0 <= tokensToConsume c).
  { rewrite Forall_lookup in Hcalls. apply (Hcalls _ _ Hi). }
  destruct (advance_within_capacity (turn_nowInit t) (turn_now t) c (shared sys) Hn Hst)
    as [Hst' Hn'].
  destruct (advance (turn_nowInit t) (turn_now t) c (shared sys)) as [c' st'].
  simpl in *. split; [|exact Hst'].
  apply Forall_insert; [exact Hcalls|]. rewrite Hn'. exact Hn.
Qed.

Lemma total_granted_insert cs : forall i c c',
  cs !! i = Some c ->
  total_granted (<[i := c']> cs) == total_granted cs - granted c + granted c'.
Proof.
  induction cs as [|x cs IH]; intros i c c' Hi; [discriminate|].
  destruct i as [|i]; simpl in *.
  - injection Hi as ->. unfold total_granted; simpl. lra.
  - unfold total_granted in *; simpl. rewrite (IH i c c' Hi). lra.
Qed.

Lemma available_acquire self k st : available self (acquire k st) = available self st.
Proof. reflexivity. Qed.

Lemma available_release self k st : available self (release k st) = available self st.
Proof. reflexivity. Qed.

(** At a standstill of the clock the decision finds the available tokens. *)
Lemma decision_frozen self0 t0 nowInit now n st :
  nowInit == t0 -> now == t0 ->
  (forall s, getState (key self0) st = Some s ->
     lastRefillTime s == t0 /\ capacity s = cfg_capacity (config self0)) ->
  available self0 st <= cfg_capacity (config self0) ->
  let d := decision nowInit now self0 n (getState (key self0) st) in
  (available self0 st < n -> allowed (fst d) = false /\ snd d = None) /\
  (n <= available self0 st -> allowed (fst d) = true /\
     exists w, snd d = Some w /\ tokens w == available self0 st - n /\
       lastRefillTime w == t0 /\ capacity w = cfg_capacity (config self0)).
Proof.
  intros Hi Hn Hstate Hcap. unfold available in *.
  unfold decision.
  destruct (getState (key self0) st) as [s|] eqn:Hs.
  - destruct (Hstate s eq_refl) as [Hl Hc].
    assert (Hz : (now - lastRefillTime s) / 1000 * refillRate s == 0).
    { rewrite Hl, Hn. field. }
    assert (Hmin : Qmin (capacity s) (tokens s + (now - lastRefillTime s) / 1000 * refillRate s)
                   == tokens s).
    { rewrite Hz. rewrite Hc. rewrite Q.min_r by lra. lra. }
    cbv zeta. split; intros Hcmp.
    + rewrite (proj2 (geb_lt _ n)) by (rewrite Hmin; exact Hcmp). split; reflexivity.
    + rewrite (proj2 (geb_ge _ n)) by (rewrite Hmin; exact Hcmp). split; [reflexivity|].
      eexists. split; [reflexivity|]. simpl. rewrite Hmin.
      repeat split; try assumption; try reflexivity.
  - cbv zeta. cbn [tokens lastRefillTime capacity refillRate].
    assert (Hz : (now - nowInit) / 1000 * cfg_refillRate (config self0) == 0).
    { rewrite Hi, Hn. field. }
    assert (Hmin : Qmin (cfg_capacity (config self0))
                     (nullish (cfg_initialTokens (config self0)) (cfg_capacity (config self0))
                      + (now - nowInit) / 1000 * cfg_refillRate (config self0))
                   == initial_tokens self0).
    { unfold initial_tokens. rewrite Hz. rewrite Qplus_0_r. reflexivity. }
    split; intros Hcmp.
    + rewrite (proj2 (geb_lt _ n)) by (rewrite Hmin; exact Hcmp). split; reflexivity.
    + rewrite (proj2 (geb_ge _ n)) by (rewrite Hmin; exact Hcmp). split; [reflexivity|].
      eexists. split; [reflexivity|]. simpl. rewrite Hmin.
      repeat split; try assumption; try reflexivity.
Qed.

Lemma available_same_storage self st st' :
  storage st' = storage st -> available self st' = available self st.
Proof. intros H. unfold available, getState. rewrite H. reflexivity. Qed.

(** A turn that writes no state and grants nothing. *)
Lemma burst_inv_quiet self0 t0 sys i c c' st' :
  burst_inv self0 t0 sys -> calls sys !! i = Some c ->
  self c' = self c -> tokensToConsume c' = tokensToConsume c ->
  granted c' == granted c -> storage st' = storage (shared sys) ->
  (forall result, stage c' = AtUnlock result -> allowed result = true) ->
  (forall result, stage c' = Settled result -> allowed result = false ->
     available self0 (shared sys) < tokensToConsume c) ->
  lock_inv {| calls := <[i := c']> (calls sys); shared := st' |} ->
  burst_inv self0 t0 {| calls := <[i := c']> (calls sys); shared := st' |}.
Proof.
  intros [Hlock Hcalls Hstate Hbounds Hsum Hunlock Hdenied] Hi Hself Hn Hg Hst Hu Hd Hlock'.
  pose proof (available_same_storage self0 (shared sys) st' Hst) as Hav.
  assert (Hc : self c = self0 /\ 0 <= tokensToConsume c).
  { rewrite Forall_lookup in Hcalls. apply (Hcalls _ _ Hi). }
  split; simpl.
  - exact Hlock'.
  - apply Forall_insert; [exact Hcalls|]. rewrite Hself, Hn. exact Hc.
  - intros s Hs. apply Hstate. unfold getState in *. rewrite <- Hst. exact Hs.
  - rewrite Hav. exact Hbounds.
  - rewrite Hav, (total_granted_insert _ i c c' Hi), Hg. rewrite <- Hsum. lra.
  - intros j cj result Hj Hs.
    apply list_lookup_insert_Some in Hj as [(-> & <- & _)|[Hne Hj]].
    + apply (Hu result Hs).
    + apply (Hunlock j cj result Hj Hs).
  - intros j cj result Hj Hs Hal. rewrite Hav.
    apply list_lookup_insert_Some in Hj as [(-> & <- & _)|[Hne Hj]].
    + rewrite Hn. apply (Hd result Hs Hal).
    + apply (Hdenied j cj result Hj Hs Hal).
Qed.

Lemma step_burst_inv self0 t0 sys t :
  burst_inv self0 t0 sys -> turn_nowInit t == t0 -> turn_now t == t0 ->
  burst_inv self0 t0 (step sys t).
Proof.
  intros Hinv Hti Htn.
  pose proof (step_inv sys t (burst_lock _ _ _ Hinv)) as Hlock'.
  unfold step in *.
  destruct (calls sys !! turn_call t) as [c|] eqn:Hi; [|exact Hinv].
  assert (Hc : self c = self0 /\ 0 <= tokensToConsume c).
  { pose proof (burst_calls _ _ _ Hinv) as Hcalls.
    rewrite Forall_lookup in Hcalls. apply (Hcalls _ _ Hi). }
  destruct Hc as [Hself Hn0].
  unfold advance in *. destruct (stage c) eqn:Hstage.
  - destruct (is_locked (key (self c)) (shared sys)) eqn:Hl.
    + destruct sys as [cs st]. simpl in *. rewrite list_insert_id by exact Hi. exact Hinv.
    + apply (burst_inv_quiet self0 t0 sys _ c); try assumption; try reflexivity.
      * unfold granted; simpl. rewrite Hstage. reflexivity.
      * simpl. discriminate.
      * simpl. discriminate.
  - apply (burst_inv_quiet self0 t0 sys _ c); try assumption; try reflexivity.
    + unfold granted; simpl. rewrite Hstage. reflexivity.
    + simpl. discriminate.
    + simpl. discriminate.
  - assert (Hread : state = getState (key self0) (shared sys)).
    { rewrite <- Hself. symmetry.
      apply (inv_read sys (burst_lock _ _ _ Hinv) (turn_call t) c state Hi Hstage). }
    subst state.
    destruct (decision_frozen self0 t0 (turn_nowInit t) (turn_now t) (tokensToConsume c)
                (shared sys) Hti Htn (burst_state _ _ _ Hinv)
                (proj2 (burst_bounds _ _ _ Hinv))) as [Hdeny Hallow].
    rewrite Hself in *.
    destruct (Qlt_le_dec (available self0 (shared sys)) (tokensToConsume c)) as [Hlt|Hge].
    + destruct (Hdeny Hlt) as [Hal Hw].
      destruct (decision (turn_nowInit t) (turn_now t) self0 (tokensToConsume c)
                  (getState (key self0) (shared sys))) as [result written].
      simpl in Hal, Hw. subst written.
      apply (burst_inv_quiet self0 t0 sys _ c); try assumption; try reflexivity.
      * unfold granted; simpl. rewrite Hstage, Hal. reflexivity.
      * simpl. discriminate.
      * intros; assumption.
    + destruct (Hallow Hge) as [Hal (w & Hw & Htw & Hlw & Hcw)].
      destruct (decision (turn_nowInit t) (turn_now t) self0 (tokensToConsume c)
                  (getState (key self0) (shared sys))) as [result written].
      simpl in Hal, Hw. subst written.
      destruct Hinv as [Hlock Hcalls Hstate Hbounds Hsum Hunlock Hdenied].
      assert (Hav : available self0 (setState (key self0) w (shared sys)) = tokens w).
      { unfold available, getState, setState; simpl. rewrite lookup_insert_eq. reflexivity. }
      split; simpl.
      * exact Hlock'.
      * apply Forall_insert; [exact Hcalls|]. simpl. split; assumption.
      * intros s. unfold getState, setState; simpl. rewrite lookup_insert_eq.
        intros [= <-]. split; assumption.
      * rewrite Hav, Htw. split; lra.
      * rewrite Hav, Htw.
        rewrite (total_granted_insert (calls sys) (turn_call t) c
                   (at_stage c (AtUnlock result)) Hi).
        unfold granted at 1 2; simpl. rewrite Hstage, Hal. rewrite <- Hsum. lra.
      * intros j cj r Hj Hs.
        apply list_lookup_insert_Some in Hj as [(<- & <- & _)|[Hne Hj]].
        -- simpl in Hs. injection Hs as <-. exact Hal.
        -- apply (Hunlock j cj r Hj Hs).
      * intros j cj r Hj Hs Hden. rewrite Hav, Htw.
        apply list_lookup_insert_Some in Hj as [(<- & <- & _)|[Hne Hj]].
        -- simpl in Hs. discriminate.
        -- pose proof (Hdenied j cj r Hj Hs Hden). lra.
  - pose proof (burst_unlock _ _ _ Hinv _ c result Hi Hstage) as Hal.
    apply (burst_inv_quiet self0 t0 sys _ c); try assumption; try reflexivity.
    + unfold granted; simpl. rewrite Hstage. reflexivity.
    + simpl. discriminate.
    + simpl. intros r [= <-]. congruence.
  - destruct sys as [cs st]. simpl in *. rewrite list_insert_id by exact Hi. exact Hinv.
Qed.

Lemma run_burst_inv self0 t0 schedule : forall sys,
  burst_inv self0 t0 sys -> frozen_clock t0 schedule ->
  burst_inv self0 t0 (run sys schedule).
Proof.
  induction schedule as [|t rest IH]; intros sys Hinv Hclock; [exact Hinv|].
  apply Forall_cons in Hclock as [[Hti Htn] Hrest].
  apply IH; [|exact Hrest]. apply step_burst_inv; assumption.
Qed.

Lemma total_granted_start self0 amounts st :
  total_granted (calls (start ((fun n => (self0, n)) <$> amounts) st)) = 0.
Proof.
  unfold start; simpl. induction amounts as [|n rest IH]; [reflexivity|].
  unfold total_granted in *. rewrite !fmap_cons. cbn [foldr]. rewrite IH. reflexivity.
Qed.

Lemma start_burst_inv self0 t0 amounts st :
  0 <= cfg_capacity (config self0) ->
  (forall i, cfg_initialTokens (config self0) = Some i -> 0 <= i) ->
  (forall k, is_locked k st = false) -> getState (key self0) st = None ->
  Forall (fun n => 0 <= n) amounts ->
  burst_inv self0 t0 (start ((fun n => (self0, n)) <$> amounts) st).
Proof.
  intros Hcap Hinit Hfree Hnone Hamounts.
  set (sys := start ((fun n => (self0, n)) <$> amounts) st).
  assert (Hstage : forall i c, calls sys !! i = Some c -> stage c = AtLock).
  { intros i c H. unfold sys, start in H; simpl in H.
    rewrite list_lookup_fmap in H.
    destruct (((λ n : Q, (self0, n)) <$> amounts) !! i); [|discriminate].
    injection H as <-. reflexivity. }
  assert (Hav : available self0 (shared sys) = initial_tokens self0).
  { unfold available, sys; simpl. rewrite Hnone. reflexivity. }
  split.
  - apply start_inv, Hfree.
  - unfold sys, start; simpl. rewrite <- list_fmap_compose.
    apply Forall_fmap. eapply Forall_impl; [exact Hamounts|].
    intros n Hn. simpl. split; [reflexivity|exact Hn].
  - intros s Hs. unfold sys in Hs; simpl in Hs. congruence.
  - rewrite Hav. unfold initial_tokens. split; [|apply Q.le_min_l].
    apply Q.min_glb; [exact Hcap|].
    destruct (cfg_initialTokens (config self0)) as [i|]; simpl;
      [apply Hinit; reflexivity|exact Hcap].
  - rewrite Hav. unfold sys. rewrite total_granted_start. lra.
  - intros i c r Hi Hs. apply Hstage in Hi. congruence.
  - intros i c r Hi Hs. apply Hstage in Hi. congruence.
Qed.

(** The requests of the calls do not change while they run. *)
Lemma advance_request nowInit now c st :
  self (fst (advance nowInit now c st)) = self c /\
  tokensToConsume (fst (advance nowInit now c st)) = tokensToConsume c.
Proof.
  unfold advance. destruct (stage c).
  - destruct (is_locked _ st); split; reflexivity.
  - split; reflexivity.
  - destruct (decision _ _ _ _ _) as [r [w|]]; split; reflexivity.
  - split; reflexivity.
  - split; reflexivity.
Qed.

Lemma run_requests schedule : forall sys,
  (fun c => (self c, tokensToConsume c)) <$> calls (run sys schedule)
  = (fun c => (self c, tokensToConsume c)) <$> calls sys.
Proof.
  induction schedule as [|t rest IH]; intros sys; [reflexivity|].
  simpl. rewrite IH. unfold step.
  destruct (calls sys !! turn_call t) as [c|] eqn:Hi; [|reflexivity].
  destruct (advance_request (turn_nowInit t) (turn_now t) c (shared sys)) as [Hs Hn].
  destruct (advance (turn_nowInit t) (turn_now t) c (shared sys)) as [c' st'].
  simpl in *. rewrite list_fmap_insert. apply list_insert_id.
  rewrite list_lookup_fmap, Hi. simpl. congruence.
Qed.

Lemma settled_counts cs :
  Forall (fun c => exists result, stage c = Settled result) cs ->
  (length (List.filter settled_allowed cs) + length (List.filter settled_denied cs)
   = length cs)%nat.
Proof.
  induction 1 as [|c cs [r Hr] _ IH]; [reflexivity|].
  assert (Ha : settled_allowed c = allowed r).
  { unfold settled_allowed. rewrite Hr. reflexivity. }
  assert (Hd : settled_denied c = negb (allowed r)).
  { unfold settled_denied. rewrite Hr. reflexivity. }
  simpl. rewrite Ha, Hd. destruct (allowed r); simpl; lia.
Qed.

Lemma total_granted_units cs :
  Forall (fun c => exists result, stage c = Settled result) cs ->
  Forall (fun c => tokensToConsume c = 1) cs ->
  total_granted cs == inject_Z (Z.of_nat (length (List.filter settled_allowed cs))).
Proof.
  induction 1 as [|c cs [r Hr] _ IH]; intros Hone; [reflexivity|].
  apply Forall_cons in Hone as [H1 Hone].
  assert (Ha : settled_allowed c = allowed r).
  { unfold settled_allowed. rewrite Hr. reflexivity. }
  assert (Hg : granted c = if allowed r then 1 else 0).
  { unfold granted. rewrite Hr, H1. reflexivity. }
  unfold total_granted in *; simpl. rewrite (IH Hone), Ha, Hg.
  destruct (allowed r); simpl length.
  - rewrite Nat2Z.inj_succ. unfold Z.succ. rewrite inject_Z_plus.
    change (inject_Z 1) with 1. lra.
  - lra.
Qed.

Lemma filter_exists {A} (p : A -> bool) (l : list A) :
  (0 < length (List.filter p l))%nat -> exists i x, l !! i = Some x /\ p x = true.
Proof.
  induction l as [|y l IH]; simpl; [lia|].
  destruct (p y) eqn:E.
  - intros _. exists O, y. split; [reflexivity|exact E].
  - intros H. destruct (IH H) as (i & x & Hi & Hx). exists (S i), x. split; assumption.
Qed.

End DistributedFacts.

Module DistributedLaws.
Import JsNum JsNumFacts TokenBucket InMemoryStorage DistributedTokenBucket.
Import Observation ObservationFacts LockFacts DistributedFacts.
Local Open Scope Q_scope.

(** X4. Whatever the interleaving of the calls in flight and whatever the
    clock shows, when no call asks for a negative amount every state that
    [DistributedTokenBucket.tryConsume] stores has [0 <= tokens <= capacity]:
    the stored states stay within their capacity. No configuration is
    validated by this class, and none needs to be for this. *)
Theorem distributed_storage_within_capacity schedule : forall sys,
  Forall (fun c => 0 <= tokensToConsume c) (calls sys) ->
  stored_within_capacity (shared sys) ->
  stored_within_capacity (shared (run sys schedule)).
Proof.
  induction schedule as [|t rest IH]; intros sys Hcalls Hst; [exact Hst|].
  destruct (step_within_capacity sys t Hcalls Hst) as [Hcalls' Hst'].
  exact (IH (step sys t) Hcalls' Hst').
Qed.

Lemma distributed_storage_within_capacity_witness :
  let self0 := {| key := "user:123";
                  config := {| cfg_capacity := 5; cfg_refillRate := 1;
                               cfg_initialTokens := None;
                               cfg_lastRefillTime := None |} |} in
  let schedule := [ {| turn_call := 0; turn_nowInit := 0; turn_now := 0 |};
                    {| turn_call := 1; turn_nowInit := 0; turn_now := 0 |};
                    {| turn_call := 0; turn_nowInit := 0; turn_now := 0 |};
                    {| turn_call := 0; turn_nowInit := 7000; turn_now := 9000 |} ] in
  let sys := run (start [(self0, 3); (self0, 4)] InMemoryStorage.new) schedule in
  exists s, getState "user:123" (shared sys) = Some s /\ within_capacity s.
Proof.
  intros self0 schedule sys. eexists. split; [reflexivity|].
  apply (distributed_storage_within_capacity schedule
           (start [(self0, 3); (self0, 4)] InMemoryStorage.new)) with (k := "user:123").
  - repeat constructor; simpl; lra.
  - intros k s H. unfold getState in H. simpl in H. rewrite lookup_empty in H.
    discriminate.
  - reflexivity.
Defined.

(** X6. The lock of [InMemoryStorage] under every interleaving of
    [DistributedTokenBucket.tryConsume] calls, started on a storage with no
    lock held: two calls on one key are never both between the acquisition
    and the release of the lock; a call that has read the state of its key
    decides on what the storage still holds; and the flag of a key is set
    exactly while one call holds its lock, so that no lock stays held once
    every call has returned. *)
Theorem lock_is_exclusive requests st schedule :
  (forall k, is_locked k st = false) ->
  let sys := run (start requests st) schedule in
  (forall i j ci cj,
     calls sys !! i = Some ci -> calls sys !! j = Some cj ->
     holds_lock ci = true -> holds_lock cj = true ->
     key (self ci) = key (self cj) -> i = j) /\
  (forall i c state,
     calls sys !! i = Some c -> stage c = AtDecide state ->
     getState (key (self c)) (shared sys) = state) /\
  (forall k, is_locked k (shared sys) = true <->
     exists i c, calls sys !! i = Some c /\ holds_lock c = true /\ key (self c) = k).
Proof.
  intros Hfree sys.
  destruct (run_inv schedule _ (start_inv requests st Hfree)) as [H1 H2 H3].
  split; [exact H1|]. split; [exact H2|exact H3].
Qed.

Lemma lock_is_exclusive_witness :
  let self0 := {| key := "test-key";
                  config := {| cfg_capacity := 5; cfg_refillRate := 1;
                               cfg_initialTokens := None;
                               cfg_lastRefillTime := None |} |} in
  let turn := fun i => {| turn_call := i; turn_nowInit := 0; turn_now := 0 |} in
  let sys := run (start [(self0, 3); (self0, 3)] InMemoryStorage.new)
                 (turn <$> [0; 1; 0; 1; 0]%nat) in
  is_locked "test-key" (shared sys) = true /\
  exists c0 c1,
    calls sys !! 0%nat = Some c0 /\ calls sys !! 1%nat = Some c1 /\
    holds_lock c0 = true /\ holds_lock c1 = false.
Proof.
  intros self0 turn sys.
  destruct (lock_is_exclusive [(self0, 3); (self0, 3)] InMemoryStorage.new
              (turn <$> [0; 1; 0; 1; 0]%nat) new_is_unlocked) as (Hex & _ & Hflag).
  fold sys in Hex, Hflag. split.
  - apply Hflag. eexists 0%nat, _. split; [reflexivity|]. split; reflexivity.
  - eexists _, _. split; [reflexivity|]. split; [reflexivity|]. split; [reflexivity|].
    match goal with |- holds_lock ?c = false => destruct (holds_lock c) eqn:E end;
      [|reflexivity].
    discriminate (Hex 0%nat 1%nat _ _ eq_refl eq_refl eq_refl E eq_refl).
Defined.

(** X7. A burst on one instance while the clock stands still, on a key
    with no stored state and no lock held, with amounts that are not
    negative: under every interleaving, and at every moment of it, the
    amounts of the calls already answered with [allowed] add up to the
    capacity at most. *)
Theorem burst_never_over_admits self0 amounts st t0 schedule :
  0 <= cfg_capacity (config self0) ->
  (forall i, cfg_initialTokens (config self0) = Some i -> 0 <= i) ->
  (forall k, is_locked k st = false) -> getState (key self0) st = None ->
  Forall (fun n => 0 <= n) amounts ->
  frozen_clock t0 schedule ->
  total_granted (calls (run (start ((fun n => (self0, n)) <$> amounts) st) schedule))
    <= cfg_capacity (config self0).
Proof.
  intros Hcap Hinit Hfree Hnone Hamounts Hclock.
  pose proof (run_burst_inv self0 t0 schedule _
                (start_burst_inv self0 t0 amounts st Hcap Hinit Hfree Hnone Hamounts)
                Hclock) as [_ _ _ [H0 _] Hsum _ _].
  assert (initial_tokens self0 <= cfg_capacity (config self0)) by apply Q.le_min_l.
  lra.
Qed.

Lemma burst_never_over_admits_witness :
  let self0 := {| key := "global:api";
                  config := {| cfg_capacity := 2; cfg_refillRate := 1;
                               cfg_initialTokens := None;
                               cfg_lastRefillTime := None |} |} in
  let turn := fun i => {| turn_call := i; turn_nowInit := 0; turn_now := 0 |} in
  let schedule := turn <$> [0; 1; 2; 0; 1; 0; 2; 1; 1]%nat in
  total_granted (calls (run (start ((fun n => (self0, n)) <$> [1; 2; 1])
                                   InMemoryStorage.new) schedule)) <= 2.
Proof.
  intros self0 turn schedule.
  apply (burst_never_over_admits self0 [1; 2; 1] InMemoryStorage.new 0 schedule).
  - simpl. lra.
  - intros i Hi. discriminate.
  - apply new_is_unlocked.
  - reflexivity.
  - repeat constructor; lra.
  - repeat constructor.
Defined.

(** X8. The same burst with [m] calls for one token each, a capacity that
    is a whole number and no [initialTokens]: once every call has returned,
    exactly [min m capacity] were allowed and the others denied, whatever
    the interleaving was. *)
Theorem burst_admits_exactly_capacity self0 (capacity0 m : nat) st t0 schedule :
  cfg_capacity (config self0) == inject_Z (Z.of_nat capacity0) ->
  cfg_initialTokens (config self0) = None ->
  (forall k, is_locked k st = false) -> getState (key self0) st = None ->
  frozen_clock t0 schedule ->
  let sys := run (start (replicate m (self0, 1)) st) schedule in
  Forall (fun c => exists result, stage c = Settled result) (calls sys) ->
  length (List.filter settled_allowed (calls sys)) = Nat.min m capacity0 /\
  length (List.filter settled_denied (calls sys)) = (m - Nat.min m capacity0)%nat.
Proof.
  intros Hcap Hinit Hfree Hnone Hclock sys Hsettled.
  assert (Hrep : replicate m (self0, 1) = (fun n => (self0, n)) <$> replicate m 1).
  { rewrite fmap_replicate. reflexivity. }
  assert (Hcap0 : 0 <= cfg_capacity (config self0)).
  { rewrite Hcap. change 0 with (inject_Z 0). rewrite <- Zle_Qle. lia. }
  assert (Hinv : burst_inv self0 t0 sys).
  { unfold sys. rewrite Hrep. apply run_burst_inv; [|exact Hclock].
    apply start_burst_inv; try assumption.
    - intros i Hi. congruence.
    - apply Forall_replicate. lra. }
  pose proof (run_requests schedule (start (replicate m (self0, 1)) st)) as Hreq.
  fold sys in Hreq.
  assert (Hstart : (fun c => (self c, tokensToConsume c))
                     <$> calls (start (replicate m (self0, 1)) st)
                   = replicate m (self0, 1)).
  { unfold start; simpl. rewrite !fmap_replicate. reflexivity. }
  rewrite Hstart in Hreq.
  assert (Hlen : length (calls sys) = m).
  { rewrite <- (length_fmap (fun c => (self c, tokensToConsume c))), Hreq.
    apply length_replicate. }
  assert (Hone : Forall (fun c => tokensToConsume c = 1) (calls sys)).
  { apply Forall_lookup. intros i c Hi.
    assert (H : ((fun c => (self c, tokensToConsume c)) <$> calls sys) !! i
                = Some (self c, tokensToConsume c)).
    { rewrite list_lookup_fmap, Hi. reflexivity. }
    rewrite Hreq in H. apply lookup_replicate in H as [H _]. congruence. }
  pose proof (settled_counts _ Hsettled) as Hcount.
  pose proof (total_granted_units _ Hsettled Hone) as Hunits.
  destruct Hinv as [_ _ _ [Hav0 _] Hsum _ Hdenied].
  assert (Hinit0 : initial_tokens self0 == inject_Z (Z.of_nat capacity0)).
  { unfold initial_tokens. rewrite Hinit. simpl. rewrite Q.min_l by lra. exact Hcap. }
  set (a := length (List.filter settled_allowed (calls sys))) in *.
  set (d := length (List.filter settled_denied (calls sys))) in *.
  assert (Hle : (a <= capacity0)%nat).
  { assert (H : inject_Z (Z.of_nat a) <= inject_Z (Z.of_nat capacity0)) by lra.
    rewrite <- Zle_Qle in H. lia. }
  destruct (Nat.eq_dec d 0%nat) as [Hd0|Hd0].
  - split; lia.
  - destruct (filter_exists settled_denied (calls sys) ltac:(fold d; lia))
      as (i & x & Hi & Hx).
    unfold settled_denied in Hx. destruct (stage x) as [| | | |r] eqn:Hs; try discriminate.
    apply Bool.negb_true_iff in Hx.
    pose proof (Hdenied i x r Hi Hs Hx) as Hlt.
    rewrite Forall_lookup in Hone. rewrite (Hone i x Hi) in Hlt.
    assert (H : inject_Z (Z.of_nat capacity0) < inject_Z (Z.of_nat a + 1)).
    { rewrite inject_Z_plus. change (inject_Z 1) with 1. lra. }
    rewrite <- Zlt_Qlt in H. split; lia.
Qed.

Lemma burst_admits_exactly_capacity_witness :
  let self0 := {| key := "global:api";
                  config := {| cfg_capacity := 2; cfg_refillRate := 1;
                               cfg_initialTokens := None;
                               cfg_lastRefillTime := None |} |} in
  let turn := fun i => {| turn_call := i; turn_nowInit := 0; turn_now := 0 |} in
  let schedule := turn <$> [0; 1; 2; 0; 1; 0; 2; 0; 1; 1; 2; 1; 1; 2; 2; 2]%nat in
  let sys := run (start (replicate 3 (self0, 1)) InMemoryStorage.new) schedule in
  length (List.filter settled_allowed (calls sys)) = 2%nat /\
  length (List.filter settled_denied (calls sys)) = 1%nat.
Proof.
  intros self0 turn schedule sys.
  apply (burst_admits_exactly_capacity self0 2 3 InMemoryStorage.new 0 schedule).
  - reflexivity.
  - reflexivity.
  - apply new_is_unlocked.
  - reflexivity.
  - repeat constructor.
  - vm_compute. repeat constructor; eexists; reflexivity.
Defined.

End DistributedLaws.

(** * Further properties of the registry of run-010 *)

Module RegistryFacts.
Import JsNum JsNumFacts TokenBucketRateLimiter TokenBucketRateLimiterFacts.
Import Observation ObservationFacts.
Import Burst BurstFacts.
Local Open Scope Q_scope.

Lemma valid_bucket_well_formed b : valid_bucket b -> well_formed b.
Proof.
  intros [Hv Hw]. apply validateConfig_valid in Hv as (Hc & Hr & _).
  split; [exact Hc|]. split; [exact Hr|exact Hw].
Qed.

Lemma refillBucket_config b now : config (refillBucket b now) = config b.
Proof. unfold refillBucket. destruct (gtb _ 0); reflexivity. Qed.

Lemma refillBucket_createdAt b now : createdAt (refillBucket b now) = createdAt b.
Proof. unfold refillBucket. destruct (gtb _ 0); reflexivity. Qed.

Lemma refillBucket_valid b now : valid_bucket b -> valid_bucket (refillBucket b now).
Proof.
  intros Hb. pose proof (refillBucket_well_formed b now (valid_bucket_well_formed b Hb))
    as (_ & _ & Hw).
  split; [rewrite refillBucket_config; apply Hb|exact Hw].
Qed.

Lemma decide_and_commit_config now n b :
  config (snd (decide_and_commit now n b)) = config b /\
  createdAt (snd (decide_and_commit now n b)) = createdAt b.
Proof.
  unfold decide_and_commit. destruct (geb _ n); simpl;
    rewrite refillBucket_config, refillBucket_createdAt; split; reflexivity.
Qed.

Lemma decide_and_commit_valid now n b :
  0 < n -> valid_bucket b -> valid_bucket (snd (decide_and_commit now n b)).
Proof.
  intros Hn Hb.
  pose proof (decide_and_commit_well_formed now n b Hn (valid_bucket_well_formed b Hb))
    as (_ & _ & Hw).
  split; [|exact Hw]. rewrite (proj1 (decide_and_commit_config now n b)). apply Hb.
Qed.

Lemma registry_valid_insert k b (buckets : Buckets) :
  valid_bucket b -> registry_valid buckets -> registry_valid (<[k := b]> buckets).
Proof.
  intros Hb Hreg k' b' H. destruct (decide (k = k')) as [->|Hne].
  - rewrite lookup_insert_eq in H. injection H as <-. exact Hb.
  - rewrite lookup_insert_ne in H by exact Hne. exact (Hreg _ _ H).
Qed.

Lemma initial_tokens_valid c :
  validateConfig c = None ->
  0 <= or_else (initialTokens c) (capacity c) /\
  or_else (initialTokens c) (capacity c) <= capacity c.
Proof.
  intros Hv. apply validateConfig_valid in Hv as (Hc & _ & Hi).
  apply or_else_bounds; assumption.
Qed.

Lemma validateInput_config k n c : validateInput k n (Some c) = None -> validateConfig c = None.
Proof.
  unfold validateInput. destruct (JsStr.trim_is_empty k); [discriminate|].
  destruct (leb n 0); [discriminate|]. intros H; exact H.
Qed.

(** Inside [check] the configuration has been validated before
    [createBucket] validates it again. *)
Lemma createBucket_returns now k c (buckets : Buckets) :
  validateConfig c = None ->
  createBucket now k c buckets
  = (Returns {| tokens := or_else (initialTokens c) (capacity c);
                consumed := 0; blocked := 0; lastRefill := now; createdAt := now;
                config := c |},
     <[k := {| tokens := or_else (initialTokens c) (capacity c);
               consumed := 0; blocked := 0; lastRefill := now; createdAt := now;
               config := c |}]> buckets).
Proof. intros Hv. unfold createBucket. rewrite Hv. reflexivity. Qed.

Lemma check_valid now nowCreate k n cfg (buckets : Buckets) :
  registry_valid buckets -> registry_valid (snd (check now nowCreate k n cfg buckets)).
Proof.
  intros Hreg. unfold check.
  destruct (validateInput k n cfg) eqn:Hv; [exact Hreg|].
  pose proof (validateInput_positive _ _ _ Hv) as Hn.
  destruct (buckets !! k) as [b|] eqn:Hk.
  - pose proof (decide_and_commit_valid now n b Hn (Hreg _ _ Hk)) as Hb.
    destruct (decide_and_commit now n b) as [a b']. simpl in *.
    apply registry_valid_insert; assumption.
  - destruct cfg as [c|]; [|exact Hreg].
    pose proof (validateInput_config _ _ _ Hv) as Hc.
    rewrite (createBucket_returns nowCreate k c buckets Hc).
    match goal with |- context [decide_and_commit now n ?b0] =>
      assert (Hb0 : valid_bucket b0) by (split; [exact Hc|apply initial_tokens_valid, Hc]);
      pose proof (decide_and_commit_valid now n b0 Hn Hb0) as Hb;
      destruct (decide_and_commit now n b0) as [a b']
    end.
    simpl in *. apply registry_valid_insert; [assumption|].
    apply registry_valid_insert; assumption.
Qed.

Lemma addTokens_valid k n (buckets : Buckets) :
  registry_valid buckets -> registry_valid (snd (addTokens k n buckets)).
Proof.
  intros Hreg. unfold addTokens.
  destruct (leb n 0) eqn:Hn; [exact Hreg|]. jsnum_hyps.
  destruct (buckets !! k) as [b|] eqn:Hk; [|exact Hreg]. simpl.
  apply registry_valid_insert; [|exact Hreg].
  destruct (Hreg _ _ Hk) as [Hv [H0 Hcap]].
  split; [exact Hv|]. unfold within_capacity; simpl. split.
  - apply Q.min_glb; [lra|].
    apply validateConfig_valid in Hv as (Hc & _). lra.
  - apply Q.le_min_r.
Qed.

Lemma getStats_valid now k (buckets : Buckets) :
  registry_valid buckets -> registry_valid (snd (getStats now k buckets)).
Proof.
  intros Hreg. unfold getStats. destruct (buckets !! k) as [b|] eqn:Hk; [|exact Hreg].
  simpl. apply registry_valid_insert; [|exact Hreg].
  apply refillBucket_valid, (Hreg _ _ Hk).
Qed.

Lemma getAllStats_valid now (buckets : Buckets) :
  registry_valid buckets -> registry_valid (snd (getAllStats now buckets)).
Proof.
  intros Hreg k b. unfold getAllStats; simpl. rewrite lookup_fmap.
  destruct (buckets !! k) as [b0|] eqn:Hk; [|discriminate].
  intros [= <-]. apply refillBucket_valid, (Hreg _ _ Hk).
Qed.

Lemma resetBucket_valid now k (buckets : Buckets) :
  registry_valid buckets -> registry_valid (snd (resetBucket now k buckets)).
Proof.
  intros Hreg. unfold resetBucket. destruct (buckets !! k) as [b|] eqn:Hk; [|exact Hreg].
  simpl. apply registry_valid_insert; [|exact Hreg].
  destruct (Hreg _ _ Hk) as [Hv _].
  split; [exact Hv|]. apply initial_tokens_valid, Hv.
Qed.

Lemma removeBucket_valid k (buckets : Buckets) :
  registry_valid buckets -> registry_valid (snd (removeBucket k buckets)).
Proof.
  intros Hreg. unfold removeBucket. destruct (buckets !! k) as [b|] eqn:Hk; [|exact Hreg].
  simpl. intros k' b' H. apply lookup_delete_Some in H as [_ H]. exact (Hreg _ _ H).
Qed.

(** What a sequence of deletions leaves of a map. *)
Lemma lookup_foldl_delete {V} (keys : list string) : forall (m : gmap string V) k,
  foldl (fun remaining key => delete key remaining) m keys !! k
  = if bool_decide (k ∈ keys) then None else m !! k.
Proof.
  induction keys as [|x keys IH]; intros m k; cbn [foldl].
  - case_bool_decide as H; [|reflexivity]. apply elem_of_nil in H. contradiction.
  - rewrite IH. destruct (decide (k = x)) as [->|Hne].
    + rewrite lookup_delete_eq. case_bool_decide as H1; case_bool_decide as H2;
        try reflexivity; exfalso; apply H2, elem_of_cons; left; reflexivity.
    + rewrite lookup_delete_ne by congruence.
      case_bool_decide as H1; case_bool_decide as H2; try reflexivity; exfalso.
      * apply H2, elem_of_cons. right. exact H1.
      * apply elem_of_cons in H2 as [H2|H2]; [congruence|contradiction].
Qed.

(** [cleanupStaleBuckets] keeps a bucket exactly when it is not stale. *)
Lemma cleanupStaleBuckets_lookup now maxAge (buckets : Buckets) k :
  cleanupStaleBuckets now maxAge buckets !! k
  = match buckets !! k with
    | Some b => if gtb (now - lastRefill b) maxAge then None else Some b
    | None => None
    end.
Proof.
  unfold cleanupStaleBuckets. rewrite lookup_foldl_delete.
  destruct (buckets !! k) as [b|] eqn:Hk.
  - destruct (gtb (now - lastRefill b) maxAge) eqn:Hs.
    + rewrite bool_decide_eq_true_2; [reflexivity|].
      apply list_elem_of_fmap. exists (k, b). split; [reflexivity|].
      apply list_elem_of_In, filter_In. split.
      * apply list_elem_of_In, elem_of_map_to_list, Hk.
      * exact Hs.
    + rewrite bool_decide_eq_false_2; [reflexivity|].
      intros H. apply list_elem_of_fmap in H as ([k' b'] & Hk' & Hin).
      simpl in Hk'. subst k'.
      apply list_elem_of_In, filter_In in Hin as [Hin Hst].
      apply list_elem_of_In, elem_of_map_to_list in Hin. simpl in Hst. congruence.
  - destruct (bool_decide _); reflexivity.
Qed.

Lemma cleanupStaleBuckets_valid now maxAge (buckets : Buckets) :
  registry_valid buckets -> registry_valid (cleanupStaleBuckets now maxAge buckets).
Proof.
  intros Hreg k b. rewrite cleanupStaleBuckets_lookup.
  destruct (buckets !! k) as [b0|] eqn:Hk; [|discriminate].
  destruct (gtb _ maxAge); [discriminate|]. intros [= <-]. exact (Hreg _ _ Hk).
Qed.

Lemma apply_valid (buckets : Buckets) op :
  registry_valid buckets -> registry_valid (apply buckets op).
Proof.
  destruct op; simpl.
  - apply check_valid.
  - apply addTokens_valid.
  - apply getStats_valid.
  - apply getAllStats_valid.
  - apply resetBucket_valid.
  - apply removeBucket_valid.
  - apply cleanupStaleBuckets_valid.
Qed.

Lemma run_valid ops : forall buckets : Buckets,
  registry_valid buckets -> registry_valid (foldl apply buckets ops).
Proof.
  induction ops as [|op ops IH]; intros buckets Hreg; [exact Hreg|].
  apply IH, apply_valid, Hreg.
Qed.

Lemma check_lookup_other now nowCreate k' n cfg (buckets : Buckets) k :
  k' <> k -> snd (check now nowCreate k' n cfg buckets) !! k = buckets !! k.
Proof.
  intros Hne. unfold check.
  destruct (validateInput k' n cfg) eqn:Hv; [reflexivity|].
  destruct (buckets !! k') as [b|] eqn:Hk.
  - destruct (decide_and_commit now n b) as [a b']. simpl.
    apply lookup_insert_ne, Hne.
  - destruct cfg as [c|]; [|reflexivity].
    rewrite (createBucket_returns nowCreate k' c buckets (validateInput_config _ _ _ Hv)).
    match goal with |- context [decide_and_commit now n ?b0] =>
      destruct (decide_and_commit now n b0) as [a b'] end.
    simpl. rewrite !lookup_insert_ne by exact Hne. reflexivity.
Qed.

Lemma check_lookup_same now nowCreate k n cfg (buckets : Buckets) b b' :
  buckets !! k = Some b ->
  snd (check now nowCreate k n cfg buckets) !! k = Some b' ->
  config b' = config b /\ createdAt b' = createdAt b.
Proof.
  intros Hk. unfold check.
  destruct (validateInput k n cfg) eqn:Hv.
  { simpl. rewrite Hk. intros [= <-]. split; reflexivity. }
  rewrite Hk. pose proof (decide_and_commit_config now n b) as Hcfg.
  destruct (decide_and_commit now n b) as [a b1]. simpl in *.
  rewrite lookup_insert_eq. intros [= <-]. exact Hcfg.
Qed.

Lemma validateConfig_None c :
  validateConfig c = None <->
  0 < capacity c /\ 0 < refillRate c /\
  (forall i, initialTokens c = Some i -> 0 <= i /\ i <= capacity c).
Proof.
  split; [apply validateConfig_valid|].
  intros (Hc & Hr & Hi). unfold validateConfig.
  rewrite (proj2 (leb_gt (capacity c) 0) Hc), (proj2 (leb_gt (refillRate c) 0) Hr).
  destruct (initialTokens c) as [i|]; [|reflexivity].
  destruct (Hi i eq_refl) as [H0 H1].
  rewrite (proj2 (ltb_ge i 0) H0), (proj2 (gtb_le i (capacity c)) H1). reflexivity.
Qed.





(** One [check] on an existing bucket: what it adds to the counters. *)
Lemma check_counters now nowCreate k n cfg (buckets : Buckets) b :
  buckets !! k = Some b ->
  exists b', snd (check now nowCreate k n cfg buckets) !! k = Some b' /\
    consumed b' == consumed b
      + (if is_allowed (fst (check now nowCreate k n cfg buckets)) then n else 0) /\
    blocked b' == blocked b
      + (if is_denied (fst (check now nowCreate k n cfg buckets)) then 1 else 0).
Proof.
  intros Hk. unfold check.
  destruct (validateInput k n cfg).
  { simpl. exists b. split; [exact Hk|]. split; lra. }
  rewrite Hk. unfold decide_and_commit.
  destruct (geb (tokens (refillBucket b now)) n); simpl;
    rewrite lookup_insert_eq; eexists; (split; [reflexivity|]); simpl;
    unfold refillBucket; destruct (gtb _ 0); simpl; split; lra.
Qed.

Lemma inject_nat_succ (k : nat) :
  inject_Z (Z.of_nat (S k)) == inject_Z (Z.of_nat k) + 1.
Proof.
  rewrite Nat2Z.inj_succ. unfold Z.succ. rewrite inject_Z_plus. reflexivity.
Qed.

End RegistryFacts.

Module RegistryLaws.
Import JsNum JsNumFacts TokenBucketRateLimiter TokenBucketRateLimiterFacts.
Import Observation ObservationFacts.
Import Burst BurstFacts RegistryFacts.
Local Open Scope Q_scope.

(** X9. The capacity invariant over the whole interface. Whatever sequence
    of [check], [addTokens], [getStats], [getAllStats], [resetBucket],
    [removeBucket] calls and runs of the scheduled cleanup is applied to a
    new registry, with whatever keys and whatever finite numbers as amounts,
    configurations and clock readings, every bucket it holds has a
    configuration that [validateConfig] accepts and
    [0 <= tokens <= capacity], and a refill at any time keeps that. NaN and
    the infinities are not among the numbers of this embedding: the guards
    of the code let NaN through, and nothing is said of such arguments. *)
Theorem every_operation_keeps_capacity ops k b :
  foldl apply ∅ ops !! k = Some b ->
  validateConfig (config b) = None /\
  0 <= tokens b /\ tokens b <= capacity (config b) /\
  forall now, within_capacity (refillBucket b now).
Proof.
  intros Hk.
  assert (Hreg : registry_valid (foldl apply ∅ ops)).
  { apply run_valid. intros k' b' H. rewrite lookup_empty in H. discriminate. }
  pose proof (Hreg k b Hk) as Hb. destruct Hb as [Hv [H0 Hcap]].
  split; [exact Hv|]. split; [exact H0|]. split; [exact Hcap|].
  intros now. apply (refillBucket_valid b now). split; [exact Hv|split; assumption].
Qed.

Lemma every_operation_keeps_capacity_witness :
  let config := {| capacity := 10; refillRate := 2; initialTokens := Some 4 |} in
  let ops := [ OpCheck 0 0 "user-123" 3 (Some config);
               OpAddTokens "user-123" 20;
               OpResetBucket 500 "user-123";
               OpGetAllStats 9000;
               OpCheck 9000 9000 "user-456" 1 (Some config);
               OpCleanup 4000000;
               OpRemoveBucket "user-456" ] in
  exists b, foldl apply ∅ ops !! "user-123" = None /\
            foldl apply ∅ (take 5 ops) !! "user-123" = Some b /\
            0 <= tokens b /\ tokens b <= 10.
Proof.
  intros config ops. eexists. split; [reflexivity|]. split; [reflexivity|].
  destruct (every_operation_keeps_capacity (take 5 ops) "user-123" _ eq_refl)
    as (_ & H0 & Hcap & _).
  split; [exact H0|exact Hcap].
Defined.

(** X10. No operation changes the configuration or the creation time of a
    bucket that exists, not even a [check] that is given another
    configuration; and an operation that names another key leaves the
    bucket as it is. *)
Theorem operations_keep_config_and_other_keys (buckets : Buckets) op k b :
  buckets !! k = Some b ->
  (forall b', apply buckets op !! k = Some b' ->
     config b' = config b /\ createdAt b' = createdAt b) /\
  (forall k', target op = Some k' -> k' <> k -> apply buckets op !! k = Some b).
Proof.
  intros Hk. split.
  - intros b'.
    destruct op as [now nc key n cfg|key n|now key|now|now key|key|now]; simpl.
    + destruct (decide (key = k)) as [->|Hne].
      * apply check_lookup_same, Hk.
      * rewrite check_lookup_other by exact Hne. rewrite Hk. intros [= <-].
        split; reflexivity.
    + unfold addTokens. destruct (leb n 0).
      { simpl. rewrite Hk. intros [= <-]. split; reflexivity. }
      destruct (buckets !! key) as [b0|] eqn:Hb.
      2:{ simpl. rewrite Hk. intros [= <-]. split; reflexivity. }
      simpl. destruct (decide (key = k)) as [->|Hne].
      * rewrite lookup_insert_eq. intros [= <-]. simpl.
        rewrite Hk in Hb. injection Hb as <-. split; reflexivity.
      * rewrite lookup_insert_ne by exact Hne. rewrite Hk. intros [= <-].
        split; reflexivity.
    + unfold getStats. destruct (buckets !! key) as [b0|] eqn:Hb.
      2:{ simpl. rewrite Hk. intros [= <-]. split; reflexivity. }
      simpl. destruct (decide (key = k)) as [->|Hne].
      * rewrite lookup_insert_eq. intros [= <-].
        rewrite Hk in Hb. injection Hb as <-.
        rewrite refillBucket_config, refillBucket_createdAt. split; reflexivity.
      * rewrite lookup_insert_ne by exact Hne. rewrite Hk. intros [= <-].
        split; reflexivity.
    + unfold getAllStats; simpl. rewrite lookup_fmap, Hk. simpl. intros [= <-].
      rewrite refillBucket_config, refillBucket_createdAt. split; reflexivity.
    + unfold resetBucket. destruct (buckets !! key) as [b0|] eqn:Hb.
      2:{ simpl. rewrite Hk. intros [= <-]. split; reflexivity. }
      simpl. destruct (decide (key = k)) as [->|Hne].
      * rewrite lookup_insert_eq. intros [= <-]. simpl.
        rewrite Hk in Hb. injection Hb as <-. split; reflexivity.
      * rewrite lookup_insert_ne by exact Hne. rewrite Hk. intros [= <-].
        split; reflexivity.
    + unfold removeBucket. destruct (buckets !! key) as [b0|] eqn:Hb.
      2:{ simpl. rewrite Hk. intros [= <-]. split; reflexivity. }
      simpl. intros H. apply lookup_delete_Some in H as [_ H].
      rewrite Hk in H. injection H as <-. split; reflexivity.
    + rewrite cleanupStaleBuckets_lookup, Hk.
      destruct (gtb _ DEFAULT_MAX_AGE); [discriminate|]. intros [= <-].
      split; reflexivity.
  - intros k' Ht Hne.
    destruct op as [now nc key n cfg|key n|now key|now|now key|key|now];
      simpl in Ht; try discriminate; injection Ht as ->; simpl.
    + rewrite check_lookup_other by exact Hne. exact Hk.
    + unfold addTokens. destruct (leb n 0); [exact Hk|].
      destruct (buckets !! k'); [|exact Hk]. simpl.
      rewrite lookup_insert_ne by exact Hne. exact Hk.
    + unfold getStats. destruct (buckets !! k'); [|exact Hk]. simpl.
      rewrite lookup_insert_ne by exact Hne. exact Hk.
    + unfold resetBucket. destruct (buckets !! k'); [|exact Hk]. simpl.
      rewrite lookup_insert_ne by exact Hne. exact Hk.
    + unfold removeBucket. destruct (buckets !! k'); [|exact Hk]. simpl.
      rewrite lookup_delete_ne by exact Hne. exact Hk.
Qed.

Lemma operations_keep_config_and_other_keys_witness :
  let other := {| capacity := 50; refillRate := 10; initialTokens := None |} in
  let buckets := snd (check 0 0 "user-123" 3 (Some Examples.config5) ∅) in
  exists b b',
    buckets !! "user-123" = Some b /\
    apply buckets (OpCheck 5000 5000 "user-123" 1 (Some other)) !! "user-123" = Some b' /\
    config b' = Examples.config5 /\
    apply buckets (OpResetBucket 9000 "user-456") !! "user-123" = Some b.
Proof.
  intros other buckets. eexists _, _. split; [reflexivity|].
  destruct (operations_keep_config_and_other_keys buckets
              (OpCheck 5000 5000 "user-123" 1 (Some other)) "user-123" _ eq_refl)
    as [Hsame _].
  destruct (operations_keep_config_and_other_keys buckets
              (OpResetBucket 9000 "user-456") "user-123" _ eq_refl)
    as [_ Hother].
  split; [reflexivity|]. split.
  - apply (Hsame _ eq_refl).
  - apply (Hother "user-456" eq_refl). discriminate.
Defined.

(** X11. When [check] throws. It throws exactly when the key is empty or
    blank, or the amount is not positive, or a configuration is given that
    [validateConfig] rejects, or the bucket does not exist and no
    configuration is given; whenever it throws the registry is what it
    was. A configuration is accepted exactly when capacity and rate are
    positive and the initial tokens, if given, are between 0 and the
    capacity. *)
Theorem check_throws_exactly_when now nowCreate k n cfg (buckets : Buckets) :
  ((exists e, fst (check now nowCreate k n cfg buckets) = Throws e) <->
   JsStr.trim_is_empty k = true \/ n <= 0 \/
   (exists c, cfg = Some c /\ validateConfig c <> None) \/
   (buckets !! k = None /\ cfg = None)) /\
  (forall e, fst (check now nowCreate k n cfg buckets) = Throws e ->
     snd (check now nowCreate k n cfg buckets) = buckets) /\
  (forall c, validateConfig c = None <->
     0 < capacity c /\ 0 < refillRate c /\
     (forall i, initialTokens c = Some i -> 0 <= i /\ i <= capacity c)).
Proof.
  split; [|split; [|apply validateConfig_None]].
  - unfold check, validateInput.
    destruct (JsStr.trim_is_empty k) eqn:Hkey.
    { simpl. split; [intros _; left; reflexivity|intros _; eexists; reflexivity]. }
    destruct (leb n 0) eqn:Hn.
    { simpl. jsnum_hyps.
      split; [intros _; right; left; exact Hn|intros _; eexists; reflexivity]. }
    jsnum_hyps.
    destruct cfg as [c|].
    + destruct (validateConfig c) as [e|] eqn:Hv.
      { simpl. split; [|intros _; eexists; reflexivity].
        intros _. right. right. left. exists c. split; [reflexivity|congruence]. }
      destruct (buckets !! k) as [b|] eqn:Hk.
      * destruct (decide_and_commit now n b) as [a b']. simpl.
        split; [intros [e He]; discriminate|].
        intros [H|[H|[(c' & [= <-] & H)|[H _]]]]; try discriminate; try lra; congruence.
      * rewrite (createBucket_returns nowCreate k c buckets Hv).
        match goal with |- context [decide_and_commit now n ?b0] =>
          destruct (decide_and_commit now n b0) as [a b'] end.
        simpl. split; [intros [e He]; discriminate|].
        intros [H|[H|[(c' & [= <-] & H)|[_ H]]]]; try discriminate; try lra; congruence.
    + destruct (buckets !! k) as [b|] eqn:Hk.
      * destruct (decide_and_commit now n b) as [a b']. simpl.
        split; [intros [e He]; discriminate|].
        intros [H|[H|[(c' & H & _)|[H _]]]]; try discriminate; try lra.
      * simpl. split; [|intros _; eexists; reflexivity].
        intros _. right. right. right. split; reflexivity.
  - intros e. unfold check.
    destruct (validateInput k n cfg) eqn:Hv; [reflexivity|].
    destruct (buckets !! k) as [b|] eqn:Hk.
    + destruct (decide_and_commit now n b) as [a b']. discriminate.
    + destruct cfg as [c|]; [|reflexivity].
      rewrite (createBucket_returns nowCreate k c buckets (validateInput_config _ _ _ Hv)).
      match goal with |- context [decide_and_commit now n ?b0] =>
        destruct (decide_and_commit now n b0) as [a b'] end.
      discriminate.
Qed.

(** X12. The counters add up. After any sequence of [check] calls on an
    existing bucket, [consumed] has grown by the tokens of the allowed
    requests and [blocked] by the number of denied requests; requests that
    throw count for nothing. *)
Theorem statistics_add_up key requests : forall (buckets : Buckets) b,
  buckets !! key = Some b ->
  exists b', after_all key requests buckets !! key = Some b' /\
    consumed b' == consumed b + tokens_granted requests (check_all key requests buckets) /\
    blocked b' == blocked b
      + inject_Z (Z.of_nat (count_denied (check_all key requests buckets))).
Proof.
  induction requests as [|[now n] rest IH]; intros buckets b Hk.
  - exists b. split; [exact Hk|]. unfold tokens_granted, count_denied; simpl.
    change (inject_Z (Z.of_nat 0)) with 0. split; lra.
  - destruct (check_counters now now key n None buckets b Hk) as (b1 & Hk1 & Hc1 & Hb1).
    destruct (IH _ b1 Hk1) as (b' & Hk' & Hc' & Hb').
    exists b'. split; [exact Hk'|].
    unfold tokens_granted, count_denied in *. cbn [check_all zip zip_with foldr fst snd].
    cbn [List.filter].
    destruct (is_allowed (fst (check now now key n None buckets))) eqn:Ea;
    destruct (is_denied (fst (check now now key n None buckets))) eqn:Ed;
      cbn [length]; rewrite ?inject_nat_succ; split; lra.
Qed.

(** The scenario of the test 'should track consumed and blocked requests':
    capacity 3, five requests for one token. *)
Lemma statistics_add_up_witness :
  let config := {| capacity := 3; refillRate := 1; initialTokens := None |} in
  let buckets := snd (check 0 0 "test-bucket" 1 (Some config) ∅) in
  let requests := [(0, 1); (0, 1); (0, 1); (0, 1)] in
  exists b', after_all "test-bucket" requests buckets !! "test-bucket" = Some b' /\
             consumed b' == 3 /\ blocked b' == 2.
Proof.
  intros config buckets requests.
  destruct (statistics_add_up "test-bucket" requests buckets _ eq_refl)
    as (b' & Hk & Hc & Hb).
  exists b'. split; [exact Hk|]. split.
  - rewrite Hc. vm_compute. reflexivity.
  - rewrite Hb. vm_compute. reflexivity.
Defined.



End RegistryLaws.

(** * Further properties of the URL shortener *)

Module ShortenerFacts.
Import JsStr JsStrFacts URLShortener ShortCodeFacts CollisionFacts StoreFacts.
Local Open Scope string_scope.

Section WithURLParser.
Variable parseURL : string -> option URLParts.

Local Abbreviation wf := (wf parseURL).
Local Abbreviation shorten := (shorten parseURL).
Local Abbreviation validateUrl := (validateUrl parseURL).
Local Abbreviation reachable := (reachable parseURL).
Local Abbreviation serve := (serve parseURL).
Local Abbreviation serve_all := (serve_all parseURL).
Local Abbreviation fresh_ids := (fresh_ids parseURL).

Lemma clicked_0 r : clicked 0 r = r.
Proof. destruct r. unfold clicked. simpl. f_equal. lia. Qed.

Lemma clicked_clicked n m r : clicked m (clicked n r) = clicked (n + m) r.
Proof. unfold clicked. simpl. f_equal. lia. Qed.

(** [getStats] in a well-formed store: the entry of the code. *)
Lemma getStats_Some s c r :
  wf s ->
  getStats c s = Some r <->
  exists i, codeToIdMap s !! c = Some i /\ urlMap s !! i = Some r.
Proof.
  intros Hwf. unfold getStats. rewrite (wf_truthy_id parseURL s c Hwf).
  destruct (codeToIdMap s !! c) as [i|]; split.
  - intros H. exists i. split; [reflexivity|exact H].
  - intros (i' & [= <-] & H). exact H.
  - discriminate.
  - intros (i' & H & _). discriminate.
Qed.

Lemma getStats_fields s c r :
  wf s -> getStats c s = Some r ->
  shortCode r = c /\ codeToIdMap s !! c = Some (id r) /\
  urlMap s !! id r = Some r /\
  originalUrlToCodeMap s !! originalUrl r = Some c /\
  validateShortCode c = None.
Proof.
  intros Hwf H. apply (getStats_Some s c r Hwf) in H as (i & Hc & Hr).
  destruct Hwf as (W1 & W2 & W3).
  destruct (W2 c i Hc) as (Hv & _ & r' & Hr' & Hrc).
  assert (r' = r) as -> by congruence.
  destruct (W3 i r Hr) as (Hid & _ & Hu & _).
  subst i. rewrite Hrc in Hu. repeat split; assumption.
Qed.

(** [expand] on a stored code: the URL of the entry, and one more click. *)
Lemma expand_stored s c r :
  wf s -> getStats c s = Some r ->
  expand c s
  = ({| er_success := true; er_originalUrl := Some (originalUrl r); er_message := None |},
     {| urlMap := <[id r := clicked 1 r]> (urlMap s);
        codeToIdMap := codeToIdMap s;
        originalUrlToCodeMap := originalUrlToCodeMap s;
        BASE_DOMAIN := BASE_DOMAIN s |}).
Proof.
  intros Hwf H.
  destruct (getStats_fields s c r Hwf H) as (Hrc & Hc & Hr & _ & Hv).
  unfold expand. rewrite Hv, (wf_truthy_id parseURL s c Hwf), Hc, Hr. reflexivity.
Qed.

(** What [expand] does to the two indices that [getStats] reads. *)
Lemma expand_maps c s :
  wf s ->
  codeToIdMap (snd (expand c s)) = codeToIdMap s /\
  originalUrlToCodeMap (snd (expand c s)) = originalUrlToCodeMap s /\
  (urlMap (snd (expand c s)) = urlMap s \/
   exists r, getStats c s = Some r /\
             urlMap (snd (expand c s)) = <[id r := clicked 1 r]> (urlMap s)).
Proof.
  intros Hwf. destruct (getStats c s) as [r|] eqn:E.
  - rewrite (expand_stored s c r Hwf E). simpl.
    split; [reflexivity|]. split; [reflexivity|]. right. exists r. split; reflexivity.
  - unfold getStats in E. unfold expand.
    destruct (validateShortCode c); [simpl; auto|].
    destruct (truthy (codeToIdMap s !! c)) as [i|]; [|simpl; auto].
    rewrite E. simpl. auto.
Qed.

Lemma serve_wf q s :
  wf s ->
  match q with
  | ReqShorten o _ _ => oracle_ok o /\ urlMap s !! generateId o = None
  | _ => True
  end ->
  wf (serve q s).
Proof.
  intros Hwf H. destruct q as [o u options|c|c]; simpl.
  - destruct H. apply shorten_wf; assumption.
  - apply expand_wf, Hwf.
  - apply deleteUrl_wf, Hwf.
Qed.

(** One call other than [deleteUrl(c)] keeps the entry of [c], with one
    more click when the call is [expand(c)]. *)
Lemma serve_keeps_entry q s c r :
  wf s -> getStats c s = Some r ->
  match q with
  | ReqShorten o _ _ => oracle_ok o /\ urlMap s !! generateId o = None
  | _ => True
  end ->
  q <> ReqDeleteUrl c ->
  getStats c (serve q s) = Some (clicked (N.of_nat (clicks c [q])) r).
Proof.
  intros Hwf H Hq Hnd.
  pose proof (serve_wf q s Hwf Hq) as Hwf'.
  destruct (getStats_fields s c r Hwf H) as (Hrc & Hc & Hr & Hu & Hv).
  apply (getStats_Some _ c _ Hwf').
  destruct q as [o u options|c'|c']; simpl in *.
  - (* shorten *)
    destruct Hq as [Ho Hfresh]. rewrite clicked_0. exists (id r).
    unfold URLShortener.shorten.
    destruct (validateUrl u); [simpl; auto|].
    destruct (truthy (originalUrlToCodeMap s !! u)); [simpl; auto|].
    destruct (chooseShortCode o s u options) as [[c' b]|e] eqn:Hch; [|simpl; auto].
    apply (chooseShortCode_spec o s u options c' b Ho) in Hch as [_ Hfree].
    apply has_code_false in Hfree. simpl.
    rewrite !lookup_insert_ne by congruence. auto.
  - (* expand *)
    exists (id r). unfold clicks. cbn [List.filter].
    destruct (String.eqb c' c) eqn:Hcc.
    + apply String.eqb_eq in Hcc. subst c'.
      rewrite (expand_stored s c r Hwf H). simpl.
      split; [exact Hc|apply lookup_insert_eq].
    + apply String.eqb_neq in Hcc. simpl. rewrite clicked_0.
      destruct (expand_maps c' s Hwf) as (E1 & _ & [E3|(r' & Hr' & E3)]);
        rewrite E1, E3; (split; [exact Hc|]); [exact Hr|].
      destruct (getStats_fields s c' r' Hwf Hr') as (Hrc' & Hc' & Hi' & _).
      rewrite lookup_insert_ne; [exact Hr|].
      intros E. apply Hcc. rewrite E in Hi'. congruence.
  - (* deleteUrl *)
    rewrite clicked_0. exists (id r). unfold deleteUrl.
    rewrite (wf_truthy_id parseURL s c' Hwf).
    destruct (codeToIdMap s !! c') as [i|] eqn:Hc'; [|simpl; auto].
    destruct (urlMap s !! i) as [r'|] eqn:Hi; [|simpl; auto].
    assert (c' <> c) as Hne by congruence.
    assert (i <> id r) as Hni.
    { intros ->. apply Hne.
      destruct Hwf as (_ & W2 & _).
      destruct (W2 c' (id r) Hc') as (_ & _ & r2 & Hr2 & Hrc2). congruence. }
    simpl. rewrite !lookup_delete_ne by assumption. auto.
Qed.

Lemma clicks_cons c q qs : clicks c (q :: qs) = (clicks c [q] + clicks c qs)%nat.
Proof. unfold clicks. simpl. destruct q; try reflexivity. destruct (String.eqb _ _); reflexivity. Qed.

Lemma serve_all_keeps_entry qs : forall s c r,
  wf s -> getStats c s = Some r ->
  fresh_ids qs s ->
  ~ In (ReqDeleteUrl c) qs ->
  wf (serve_all qs s) /\
  getStats c (serve_all qs s) = Some (clicked (N.of_nat (clicks c qs)) r).
Proof.
  induction qs as [|q qs IH]; intros s c r Hwf H Hfresh Hnd.
  - simpl. rewrite clicked_0. auto.
  - destruct Hfresh as [Hq Hrest].
    assert (q <> ReqDeleteUrl c) as Hne by (intros ->; apply Hnd; left; reflexivity).
    pose proof (serve_keeps_entry q s c r Hwf H Hq Hne) as H1.
    pose proof (serve_wf q s Hwf Hq) as Hwf1.
    destruct (IH (serve q s) c _ Hwf1 H1 Hrest) as [Hwf2 H2].
    { intros Hin. apply Hnd. right. exact Hin. }
    split; [exact Hwf2|].
    change (serve_all (q :: qs) s) with (serve_all qs (serve q s)).
    rewrite H2, clicked_clicked, (clicks_cons c q qs), Nat2N.inj_add. reflexivity.
Qed.

End WithURLParser.

End ShortenerFacts.

Module ShortenerLaws.
Import JsStr JsStrFacts URLShortener ShortCodeFacts CollisionFacts StoreFacts ShortenerFacts.
Local Open Scope string_scope.

Section WithURLParser.
Variable parseURL : string -> option URLParts.

Local Abbreviation wf := (wf parseURL).
Local Abbreviation shorten := (shorten parseURL).
Local Abbreviation validateUrl := (validateUrl parseURL).
Local Abbreviation reachable := (reachable parseURL).
Local Abbreviation serve_all := (serve_all parseURL).
Local Abbreviation fresh_ids := (fresh_ids parseURL).

(** X17. Round trip. When [shorten u] returns on a store that a client can
    build (the suffixes read from the clock and from [Math.random] being
    base-36 digits), the result reports success, the URL [u] and the short
    URL [BASE_DOMAIN/code]; the code passes the validation of [expand];
    [getStats code] is an entry of [u] under that code; and [expand code]
    succeeds with [u]. *)
Theorem shorten_expand_round_trip :
  forall o u options s r s1,
    reachable s -> oracle_ok o ->
    shorten o u options s = (Returns r, s1) ->
    sr_success r = true /\ sr_originalUrl r = u /\
    sr_shortUrl r = BASE_DOMAIN s ++ "/" ++ sr_shortCode r /\
    validateShortCode (sr_shortCode r) = None /\
    (exists e, getStats (sr_shortCode r) s1 = Some e /\
               originalUrl e = u /\ shortCode e = sr_shortCode r) /\
    fst (expand (sr_shortCode r) s1)
    = {| er_success := true; er_originalUrl := Some u; er_message := None |}.
Proof.
  intros o u options s r s1 Hreach Ho.
  pose proof (reachable_wf parseURL s Hreach) as Hwf.
  unfold URLShortener.shorten.
  destruct (validateUrl u) eqn:Hvu; [discriminate|].
  rewrite (wf_truthy_code parseURL s u Hwf).
  destruct (originalUrlToCodeMap s !! u) as [c|] eqn:Hu.
  - intros [= <- <-]. simpl.
    pose proof Hwf as (W1 & W2 & W3).
    destruct (W1 u c Hu) as (i & e & Hc & Hi & Heu & Hec).
    assert (Hst : getStats c s = Some e).
    { apply (getStats_Some parseURL s c e Hwf). exists i. split; assumption. }
    repeat split; try reflexivity.
    + apply (W2 c i Hc).
    + exists e. repeat split; assumption.
    + rewrite (expand_stored parseURL s c e Hwf Hst). simpl. rewrite Heu. reflexivity.
  - destruct (chooseShortCode o s u options) as [[c b]|e] eqn:Hch; [|discriminate].
    intros [= <- <-]. simpl.
    apply (chooseShortCode_spec o s u options c b Ho) in Hch as [Hvalid _].
    pose proof (generateId_nonempty o) as Hne.
    assert (Htr : truthy (Some (generateId o)) = Some (generateId o)).
    { apply truthy_Some. split; [reflexivity|exact Hne]. }
    repeat split; try reflexivity.
    + exact Hvalid.
    + eexists. unfold getStats, store_entry. simpl.
      rewrite lookup_insert_eq, Htr, lookup_insert_eq.
      repeat split; reflexivity.
    + unfold expand, store_entry. simpl.
      rewrite Hvalid, lookup_insert_eq, Htr, lookup_insert_eq. reflexivity.
Qed.

(** X18. A link is stable, and its clicks are counted. Take an entry [r]
    under the code [c] in a store that a client can build, and any sequence
    of [shorten], [expand] and [deleteUrl] calls that does not delete [c]
    (every [generateId] giving an identifier that is not stored). After the
    sequence, [getStats c] is [r] with its click count raised by the number
    of [expand c] calls of the sequence, [expand c] still succeeds with the
    URL of [r], and [shorten] of that URL still answers with [c] and
    writes nothing. *)
Theorem links_are_stable_and_clicks_counted :
  forall qs s c r,
    reachable s -> getStats c s = Some r ->
    fresh_ids qs s ->
    ~ In (ReqDeleteUrl c) qs ->
    getStats c (serve_all qs s) = Some (clicked (N.of_nat (clicks c qs)) r) /\
    fst (expand c (serve_all qs s))
    = {| er_success := true; er_originalUrl := Some (originalUrl r); er_message := None |} /\
    forall o options,
      exists r2,
        shorten o (originalUrl r) options (serve_all qs s) = (Returns r2, serve_all qs s) /\
        sr_shortCode r2 = c.
Proof.
  intros qs s c r Hreach Hst Hfresh Hnd.
  pose proof (reachable_wf parseURL s Hreach) as Hwf.
  destruct (serve_all_keeps_entry parseURL qs s c r Hwf Hst Hfresh Hnd) as [Hwf' Hst'].
  split; [exact Hst'|]. split.
  - rewrite (expand_stored parseURL _ c _ Hwf' Hst'). reflexivity.
  - intros o options.
    destruct (getStats_fields parseURL _ c _ Hwf' Hst') as (_ & _ & Hi & Hu & _).
    simpl in Hu, Hi.
    pose proof Hwf' as (W1 & W2 & W3).
    destruct (W3 _ _ Hi) as (_ & _ & _ & Hvu). simpl in Hvu.
    eexists. unfold URLShortener.shorten.
    rewrite Hvu, (wf_truthy_code parseURL _ _ Hwf'), Hu. split; reflexivity.
Qed.

Lemma elem_of_getAllUrls s r :
  r ∈ getAllUrls s <-> exists i, urlMap s !! i = Some r.
Proof.
  unfold getAllUrls. rewrite list_elem_of_fmap. split.
  - intros ([i r'] & -> & H). exists i. apply elem_of_map_to_list in H. exact H.
  - intros (i & H). exists (i, r). split; [reflexivity|].
    apply elem_of_map_to_list. exact H.
Qed.

Lemma getAllUrls_NoDup {A} (f : ShortenedUrl -> A) s :
  (forall i r i' r', urlMap s !! i = Some r -> urlMap s !! i' = Some r' ->
                     f r = f r' -> i = i') ->
  NoDup (f <$> getAllUrls s).
Proof.
  intros Hinj. unfold getAllUrls. rewrite <- list_fmap_compose.
  apply NoDup_fmap_2_strong; [|apply NoDup_map_to_list].
  intros [i r] [i' r'] H H' E. simpl in E.
  apply elem_of_map_to_list in H, H'.
  assert (i = i') as <- by (eapply Hinj; eassumption).
  congruence.
Qed.

(** X19. The three indices describe one set of entries. In a store that
    a client can build, no two entries of [getAllUrls] share a short code,
    an original URL or an identifier; [getStats c] is the entry whose
    short code is [c], if there is one; and the URL index maps [u] to [c]
    exactly when the entry of [u] has the code [c]. *)
Theorem codes_and_urls_are_unique :
  forall s,
    reachable s ->
    NoDup (shortCode <$> getAllUrls s) /\
    NoDup (originalUrl <$> getAllUrls s) /\
    NoDup (id <$> getAllUrls s) /\
    (forall c r, getStats c s = Some r <-> r ∈ getAllUrls s /\ shortCode r = c) /\
    (forall u c, originalUrlToCodeMap s !! u = Some c <->
                 exists r, r ∈ getAllUrls s /\ originalUrl r = u /\ shortCode r = c).
Proof.
  intros s Hreach.
  pose proof (reachable_wf parseURL s Hreach) as Hwf.
  pose proof Hwf as (W1 & W2 & W3).
  split; [|split; [|split; [|split]]].
  - apply getAllUrls_NoDup. intros i r i' r' H H' E.
    destruct (W3 i r H) as (_ & Hc & _). destruct (W3 i' r' H') as (_ & Hc' & _).
    congruence.
  - apply getAllUrls_NoDup. intros i r i' r' H H' E.
    destruct (W3 i r H) as (_ & Hc & Hu & _).
    destruct (W3 i' r' H') as (_ & Hc' & Hu' & _).
    congruence.
  - apply getAllUrls_NoDup. intros i r i' r' H H' E.
    destruct (W3 i r H) as (<- & _). destruct (W3 i' r' H') as (<- & _). exact E.
  - intros c r. rewrite (getStats_Some parseURL s c r Hwf), elem_of_getAllUrls. split.
    + intros (i & Hc & Hr). split; [exists i; exact Hr|].
      destruct (W2 c i Hc) as (_ & _ & r' & Hr' & Hrc). congruence.
    + intros ((i & Hr) & <-). exists i. split; [|exact Hr]. apply (W3 i r Hr).
  - intros u c. split.
    + intros H. destruct (W1 u c H) as (i & r & _ & Hr & Hu & Hc).
      exists r. split; [apply elem_of_getAllUrls; exists i; exact Hr|]. split; assumption.
    + intros (r & Hin & <- & <-). apply elem_of_getAllUrls in Hin as (i & Hr).
      apply (W3 i r Hr).
Qed.

End WithURLParser.

Lemma shorten_expand_round_trip_witness :
  let o := Examples.oracle "1700000000000" "0.4fzyo82mvyr" in
  exists r s1,
    shorten Examples.parseURL o "https://example.com/about"
      (Examples.with_alias "About Page!") Examples.fresh_store = (Returns r, s1) /\
    sr_shortCode r = "aboutpage" /\
    sr_shortUrl r = "https://short.test/aboutpage" /\
    fst (expand "aboutpage" s1)
    = {| er_success := true; er_originalUrl := Some "https://example.com/about";
         er_message := None |}.
Proof.
  intros o.
  destruct (shorten Examples.parseURL o "https://example.com/about"
              (Examples.with_alias "About Page!") Examples.fresh_store) as [res s1] eqn:E.
  assert (exists r, res = Returns r /\ sr_shortCode r = "aboutpage") as (r & -> & Hcode).
  { revert E. vm_compute. intros [= <- _]. eexists. split; reflexivity. }
  destruct (shorten_expand_round_trip Examples.parseURL o _ _ _ r s1
              ShortenerClaims.fresh_store_reachable
              (ShortenerClaims.example_oracle_ok "1700000000000" "0.4fzyo82mvyr" eq_refl) E)
    as (_ & _ & Hurl & _ & _ & Hexp).
  exists r, s1. rewrite Hcode in Hurl, Hexp.
  repeat split; [exact Hcode|exact Hurl|exact Hexp].
Defined.

Lemma links_are_stable_and_clicks_counted_witness :
  let o := Examples.oracle "1700000000000" "0.4fzyo82mvyr" in
  let o2 := Examples.oracle "1700000000005" "0.9k1x03b7zq" in
  let s := snd (shorten Examples.parseURL o "https://example.com"
                  Examples.no_options Examples.fresh_store) in
  let qs := [ ReqExpand "gpN5q0";
              ReqShorten o2 "https://example.com/about" (Examples.with_alias "about");
              ReqExpand "about";
              ReqExpand "gpN5q0";
              ReqDeleteUrl "about";
              ReqExpand "nothing" ] in
  getStats "gpN5q0" (serve_all Examples.parseURL qs s)
  = Some {| id := "1700000000000-4fzyo82"; originalUrl := "https://example.com";
            shortCode := "gpN5q0"; createdAt := 0; clickCount := 2 |}.
Proof.
  intros o o2 s qs.
  refine (proj1 (links_are_stable_and_clicks_counted Examples.parseURL qs s "gpN5q0"
                   {| id := "1700000000000-4fzyo82"; originalUrl := "https://example.com";
                      shortCode := "gpN5q0"; createdAt := 0; clickCount := 0 |}
                   ShortenerClaims.example_store_reachable _ _ _)).
  - vm_compute. reflexivity.
  - cbn [URLShortener.fresh_ids]. split; [exact I|]. split; [|repeat split].
    split; [apply ShortenerClaims.example_oracle_ok; reflexivity|].
    vm_compute. reflexivity.
  - simpl. intros [H|[H|[H|[H|[H|[H|[]]]]]]]; discriminate.
Defined.

Lemma codes_and_urls_are_unique_witness :
  let o := Examples.oracle "1700000000000" "0.4fzyo82mvyr" in
  let s := snd (shorten Examples.parseURL o "https://example.com"
                  Examples.no_options Examples.fresh_store) in
  NoDup (shortCode <$> getAllUrls s) /\
  (exists r, getStats "gpN5q0" s = Some r /\ r ∈ getAllUrls s).
Proof.
  intros o s.
  destruct (codes_and_urls_are_unique Examples.parseURL s
              ShortenerClaims.example_store_reachable) as (H1 & _ & _ & H4 & _).
  split; [exact H1|].
  eexists. split; [vm_compute; reflexivity|].
  apply (H4 "gpN5q0"). vm_compute. reflexivity.
Defined.

End ShortenerLaws.

(** ** The encoding of short codes and the normal form of aliases *)

Module EncodingFacts.
Import JsStr JsStrFacts URLShortener ShortCodeFacts.
Local Open Scope string_scope.
Local Open Scope Z_scope.

Lemma base62_index_digit d : 0 <= d < 62 -> base62_index (base62_digit d) = d.
Proof.
  intros Hd. rewrite <- (Z2Nat.id d) by lia.
  assert (Z.to_nat d < 62)%nat as Hi by lia.
  revert Hi. generalize (Z.to_nat d). clear d Hd. intros i Hi.
  do 62 (destruct i as [|i]; [vm_compute; reflexivity|]). lia.
Qed.

Lemma base62_value_from_app a : forall acc b,
  base62_value_from acc (a ++ b) = base62_value_from (base62_value_from acc a) b.
Proof. induction a as [|c a IH]; intros acc b; simpl; [reflexivity|apply IH]. Qed.

Lemma string_app_assoc (a b c : string) : (a ++ b) ++ c = a ++ (b ++ c).
Proof.
  induction a as [|x a IH]; [reflexivity|].
  change (String x ((a ++ b) ++ c) = String x (a ++ (b ++ c))). f_equal. exact IH.
Qed.

Lemma string_app_nil (a : string) : a ++ "" = a.
Proof.
  induction a as [|x a IH]; [reflexivity|].
  change (String x (a ++ "") = String x a). f_equal. exact IH.
Qed.

(** The loop of [encodeBase62] puts the digits of [n], most significant
    first, in front of [result]. *)
Lemma encodeBase62_loop_digits fuel : forall n result,
  0 <= n < 2 ^ Z.of_nat fuel ->
  exists ds,
    encodeBase62_loop fuel n result = ds ++ result /\
    forall acc, base62_value_from acc ds = acc * 62 ^ Z.of_nat (String.length ds) + n.
Proof.
  induction fuel as [|fuel IH]; intros n result Hn.
  - exists "". split; [reflexivity|]. intros acc. simpl in *. lia.
  - cbn [encodeBase62_loop]. destruct (n >? 0) eqn:Hpos.
    + apply Z.gtb_lt in Hpos.
      destruct (IH (n / 62) (String (base62_digit (n mod 62)) result)) as (ds & Hds & Hval).
      { split; [apply Z.div_pos; lia|].
        apply Z.div_lt_upper_bound; [lia|].
        rewrite Nat2Z.inj_succ, Z.pow_succ_r in Hn by lia. lia. }
      exists (ds ++ String (base62_digit (n mod 62)) "").
      split; [rewrite Hds, string_app_assoc; reflexivity|].
      intros acc. rewrite base62_value_from_app, Hval. cbn [base62_value_from].
      rewrite base62_index_digit by (apply Z.mod_pos_bound; lia).
      rewrite length_append. cbn [String.length].
      replace (Z.of_nat (String.length ds + 1)) with (Z.succ (Z.of_nat (String.length ds))) by lia.
      rewrite Z.pow_succ_r by lia.
      pose proof (Z.div_mod n 62). lia.
    + exists "". split; [reflexivity|]. intros acc. simpl.
      assert (n = 0) as -> by (rewrite Z.gtb_ltb in Hpos; apply Z.ltb_ge in Hpos; lia). lia.
Qed.

Lemma base62_value_encodeBase62 n : 0 <= n -> base62_value (encodeBase62 n) = n.
Proof.
  intros Hn. unfold encodeBase62, base62_value.
  destruct (n =? 0) eqn:E.
  - apply Z.eqb_eq in E. subst n. vm_compute. reflexivity.
  - apply Z.eqb_neq in E.
    destruct (encodeBase62_loop_digits (S (Z.to_nat (Z.log2 n))) n "") as (ds & Hds & Hval).
    { split; [lia|]. rewrite Nat2Z.inj_succ, Z2Nat.id by apply Z.log2_nonneg.
      apply Z.log2_spec. lia. }
    rewrite Hds, string_app_nil, Hval. lia.
Qed.

(** A number below [62 ^ k] has at most [k] digits. *)
Lemma encodeBase62_loop_length fuel : forall n result k,
  0 <= n < 62 ^ Z.of_nat k ->
  (String.length (encodeBase62_loop fuel n result) <= k + String.length result)%nat.
Proof.
  induction fuel as [|fuel IH]; intros n result k Hn; cbn [encodeBase62_loop]; [lia|].
  destruct (n >? 0) eqn:Hpos; [|lia].
  apply Z.gtb_lt in Hpos.
  destruct k as [|k]; [simpl in Hn; lia|].
  specialize (IH (n / 62) (String (base62_digit (n mod 62)) result) k).
  cbn [String.length] in IH.
  assert (0 <= n / 62 < 62 ^ Z.of_nat k) as Hk.
  { split; [apply Z.div_pos; lia|].
    apply Z.div_lt_upper_bound; [lia|].
    rewrite Nat2Z.inj_succ, Z.pow_succ_r in Hn by lia. lia. }
  specialize (IH Hk). lia.
Qed.

Lemma encodeBase62_length n k :
  0 <= n < 62 ^ Z.of_nat k -> (1 <= k)%nat ->
  (String.length (encodeBase62 n) <= k)%nat.
Proof.
  intros Hn Hk. unfold encodeBase62. destruct (n =? 0); [simpl; lia|].
  pose proof (encodeBase62_loop_length (S (Z.to_nat (Z.log2 n))) n "" k Hn) as H.
  cbn [String.length] in H. rewrite Nat.add_0_r in H. exact H.
Qed.

Lemma toInt32_range z : - 2 ^ 31 <= toInt32 z < 2 ^ 31.
Proof.
  unfold toInt32. pose proof (Z.mod_pos_bound (z + 2 ^ 31) (2 ^ 32)). lia.
Qed.

Lemma generateHash_loop_range input : forall h,
  - 2 ^ 31 <= h < 2 ^ 31 -> - 2 ^ 31 <= generateHash_loop input h < 2 ^ 31.
Proof.
  induction input as [|c input IH]; intros h Hh; cbn [generateHash_loop]; [exact Hh|].
  apply IH, toInt32_range.
Qed.

Lemma generateHash_range input : 0 <= generateHash input <= 2 ^ 31.
Proof.
  unfold generateHash.
  pose proof (generateHash_loop_range input 0). lia.
Qed.

Lemma take_all n (s : string) : (String.length s <= n)%nat -> take n s = s.
Proof.
  unfold take. revert n. induction s as [|c s IH]; intros n Hn.
  - destruct n; reflexivity.
  - destruct n as [|n]; [simpl in Hn; lia|]. simpl. rewrite IH; [reflexivity|].
    simpl in Hn. lia.
Qed.

Lemma encoded_hash_length input :
  (String.length (encodeBase62 (generateHash input)) <= 6)%nat.
Proof.
  apply encodeBase62_length; [|lia].
  pose proof (generateHash_range input) as H.
  change (62 ^ Z.of_nat 6) with 56800235584. change (2 ^ 31) with 2147483648 in H. lia.
Qed.

(** On the characters of a normalized alias [toLowerCase] and the filter of
    [normalizeCustomAlias] change nothing. *)
Lemma lower_char_alias c : alias_char c = true -> lower_char c = c.
Proof.
  unfold alias_char, lower_char, is_lower, is_upper, is_digit, is_dash_or_underscore, in_range.
  intros H.
  destruct ((_ || _)%bool) eqn:E at 1; [|reflexivity].
  exfalso.
  repeat match goal with
         | H : (_ || _)%bool = true |- _ => apply orb_true_iff in H as [H|H]
         | H : (_ && _)%bool = true |- _ => apply andb_true_iff in H as [? ?]
         | H : negb _ = true |- _ => apply negb_true_iff in H
         | H : (_ <=? _)%nat = true |- _ => apply Nat.leb_le in H
         | H : (_ =? _)%nat = true |- _ => apply Nat.eqb_eq in H
         | H : (_ =? _)%nat = false |- _ => apply Nat.eqb_neq in H
         end; lia.
Qed.

Lemma normal_form_fixed (s : string) :
  all_chars alias_char s = true ->
  filter_chars alias_char (toLowerCase s) = s.
Proof.
  unfold toLowerCase. induction s as [|c s IH]; simpl; [reflexivity|].
  intros H. apply andb_true_iff in H as [Hc Hs].
  rewrite (lower_char_alias c Hc), Hc, (IH Hs). reflexivity.
Qed.

End EncodingFacts.

Module EncodingLaws.
Import JsNum JsStr JsStrFacts URLShortener ShortCodeFacts EncodingFacts.
Local Open Scope string_scope.
Local Open Scope Z_scope.

(** X20. [encodeBase62] writes a non-negative integer (up to
    [Number.MAX_SAFE_INTEGER], where the arithmetic of the loop is exact) in
    base 62 with the digits of [BASE62_CHARS], most significant first:
    reading the digits back gives the number, so two different numbers
    never get the same string. *)
Theorem encodeBase62_is_injective :
  forall n m,
    0 <= n <= MAX_SAFE_INTEGER -> 0 <= m <= MAX_SAFE_INTEGER ->
    base62_value (encodeBase62 n) = n /\
    (encodeBase62 n = encodeBase62 m -> n = m).
Proof.
  intros n m [Hn _] [Hm _]. split; [apply base62_value_encodeBase62, Hn|].
  intros E. rewrite <- (base62_value_encodeBase62 n Hn), <- (base62_value_encodeBase62 m Hm), E.
  reflexivity.
Qed.

Lemma encodeBase62_is_injective_witness :
  base62_value (encodeBase62 2147483648) = 2147483648 /\
  (encodeBase62 2147483648 = encodeBase62 62 -> 2147483648 = 62).
Proof.
  apply (encodeBase62_is_injective 2147483648 62); unfold MAX_SAFE_INTEGER; lia.
Defined.

(** X21. A hash-based code carries the whole hash. [generateHash] is
    between 0 and 2^31 (the absolute value of a signed 32-bit integer), its
    base-62 form has at most 6 digits, so [substring(0, 6)] drops nothing,
    in [generateUniqueShortCode] and in the second strategy of
    [resolveCollision]: the code of a URL is the base-62 form of its hash,
    filled up with ['0'] at the end to 6 characters. *)
Theorem hash_code_is_never_truncated :
  forall input,
    0 <= generateHash input <= 2 ^ 31 /\
    (1 <= String.length (encodeBase62 (generateHash input)) <= 6)%nat /\
    take DEFAULT_SHORT_CODE_LENGTH (encodeBase62 (generateHash input))
    = encodeBase62 (generateHash input) /\
    generateUniqueShortCode input
    = padEnd DEFAULT_SHORT_CODE_LENGTH "0" (encodeBase62 (generateHash input)).
Proof.
  intros input.
  pose proof (encoded_hash_length input) as Hlen.
  pose proof (take_all 6 _ Hlen) as Htake.
  split; [apply generateHash_range|]. split; [|split; [exact Htake|]].
  - split; [|exact Hlen].
    pose proof (encodeBase62_nonempty (generateHash input) (generateHash_nonneg input)) as Hne.
    destruct (encodeBase62 (generateHash input)); [congruence|simpl; lia].
  - unfold generateUniqueShortCode. change DEFAULT_SHORT_CODE_LENGTH with 6%nat.
    rewrite Htake.
    destruct (String.length (encodeBase62 (generateHash input)) <? 6)%nat eqn:E; [reflexivity|].
    apply Nat.ltb_ge in E. unfold padEnd.
    replace (6 - String.length (encodeBase62 (generateHash input)))%nat with 0%nat by lia.
    simpl. rewrite string_app_nil. reflexivity.
Qed.

Section WithURLParser.
Variable parseURL : string -> option URLParts.

(** X22. The normal form of a custom alias is a fixed point of
    [normalizeCustomAlias], and to [shorten] an alias and its normal form
    are the same request up to the details of the error: with either of
    them as [customAlias] it returns the same result, or throws an error
    with the same code, and leaves the same store. An error is embedded as
    its code; the [details] of an ALIAS_COLLISION error name the alias as
    it was given, and are not part of the statement. *)
Theorem alias_and_normal_form_are_interchangeable :
  forall alias c,
    normalizeCustomAlias alias = Returns c ->
    normalizeCustomAlias c = Returns c /\
    forall o u expire s,
      shorten parseURL o u {| customAlias := Some alias; expireAfterDays := expire |} s
      = shorten parseURL o u {| customAlias := Some c; expireAfterDays := expire |} s.
Proof.
  intros alias c H.
  destruct (normalizeCustomAlias_valid alias c H) as (_ & Hchars & Hlen).
  assert (Hfix : normalizeCustomAlias c = Returns c).
  { unfold normalizeCustomAlias. rewrite (normal_form_fixed c Hchars).
    rewrite take_all by lia.
    destruct (String.length c <? 2)%nat eqn:E; [|reflexivity].
    apply Nat.ltb_lt in E. lia. }
  split; [exact Hfix|].
  intros o u expire s. unfold shorten, chooseShortCode. cbn [customAlias].
  assert (Ha : truthy (Some alias) = Some alias).
  { apply truthy_Some. split; [reflexivity|]. intros ->.
    vm_compute in H. discriminate. }
  assert (Hc : truthy (Some c) = Some c).
  { apply truthy_Some. split; [reflexivity|]. intros ->. simpl in Hlen. lia. }
  rewrite Ha, Hc. unfold aliasShortCode. rewrite H, Hfix. reflexivity.
Qed.

End WithURLParser.

Lemma alias_and_normal_form_are_interchangeable_witness :
  normalizeCustomAlias "aboutpage" = Returns "aboutpage" /\
  forall o u expire s,
    shorten Examples.parseURL o u
      {| customAlias := Some "About Page!"; expireAfterDays := expire |} s
    = shorten Examples.parseURL o u
        {| customAlias := Some "aboutpage"; expireAfterDays := expire |} s.
Proof.
  apply (alias_and_normal_form_are_interchangeable Examples.parseURL "About Page!").
  vm_compute. reflexivity.
Defined.

End EncodingLaws.

(** * The usage examples of run-009 *)

Module UserLimiterFacts.
Import JsNum JsNumFacts TokenBucket Observation ObservationFacts UserRateLimiter.
Local Open Scope Q_scope.

(** [checkRateLimit] for a user with a bucket, and for a new user. *)
Lemma checkRateLimit_known nowC now0 u n self b :
  userBuckets self !! u = Some b ->
  checkRateLimit nowC now0 u n self
  = (decision (fst (TokenBucket.tryConsume now0 n b)),
     set_userBuckets (<[u := snd (TokenBucket.tryConsume now0 n b)]> (userBuckets self)) self).
Proof. intros H. unfold checkRateLimit. rewrite H. reflexivity. Qed.

Lemma checkRateLimit_defaults nowC now0 u n self :
  defaultCapacity (snd (checkRateLimit nowC now0 u n self)) = defaultCapacity self /\
  defaultRefillRate (snd (checkRateLimit nowC now0 u n self)) = defaultRefillRate self.
Proof.
  unfold checkRateLimit. destruct (userBuckets self !! u); [split; reflexivity|].
  destruct (TokenBucket.new _ _ _); split; reflexivity.
Qed.

(** A call writes the bucket of its user only. *)
Lemma checkRateLimit_frame nowC now0 u n self u' :
  u <> u' ->
  userBuckets (snd (checkRateLimit nowC now0 u n self)) !! u' = userBuckets self !! u'.
Proof.
  intros Hne. unfold checkRateLimit. destruct (userBuckets self !! u).
  - simpl. apply lookup_insert_ne, Hne.
  - destruct (TokenBucket.new _ _ _); [|reflexivity].
    simpl. rewrite !lookup_insert_ne by exact Hne. reflexivity.
Qed.

(** The answer and the bucket of the user afterwards depend on the bucket
    of the user before and on the defaults, on nothing else. *)
Lemma checkRateLimit_local nowC now0 u n self self' :
  userBuckets self !! u = userBuckets self' !! u ->
  defaultCapacity self = defaultCapacity self' ->
  defaultRefillRate self = defaultRefillRate self' ->
  fst (checkRateLimit nowC now0 u n self) = fst (checkRateLimit nowC now0 u n self') /\
  userBuckets (snd (checkRateLimit nowC now0 u n self)) !! u
  = userBuckets (snd (checkRateLimit nowC now0 u n self')) !! u.
Proof.
  intros Hb Hc Hr. unfold checkRateLimit, default_config. rewrite <- Hb, <- Hc, <- Hr.
  destruct (userBuckets self !! u) eqn:E.
  - simpl. rewrite !lookup_insert_eq. split; reflexivity.
  - destruct (TokenBucket.new _ _ _); [|split; [reflexivity|]; simpl; congruence].
    simpl. rewrite !lookup_insert_eq. split; reflexivity.
Qed.

Lemma answers_for_cons_same u r rest :
  answers_for u ((u, r) :: rest) = r :: answers_for u rest.
Proof. unfold answers_for. simpl. rewrite String.eqb_refl. reflexivity. Qed.

Lemma answers_for_cons_other u u' r rest :
  u' <> u -> answers_for u ((u', r) :: rest) = answers_for u rest.
Proof.
  intros H. unfold answers_for. simpl.
  apply String.eqb_neq in H. rewrite H. reflexivity.
Qed.

Lemma answers_alone u requests : forall self self',
  userBuckets self !! u = userBuckets self' !! u ->
  defaultCapacity self = defaultCapacity self' ->
  defaultRefillRate self = defaultRefillRate self' ->
  answers_for u (check_all requests self)
  = answers_for u (check_all (requests_of u requests) self').
Proof.
  induction requests as [|q rest IH]; intros self self' Hb Hc Hr; [reflexivity|].
  cbn [check_all requests_of List.filter].
  destruct (checkRateLimit_defaults (nowCreate q) (now q) (userId q) (cost q) self) as [Hc1 Hr1].
  destruct (String.eqb (userId q) u) eqn:E.
  - apply String.eqb_eq in E. cbn [check_all]. rewrite E, !answers_for_cons_same.
    destruct (checkRateLimit_defaults (nowCreate q) (now q) u (cost q) self') as [Hc2 Hr2].
    rewrite E in Hc1, Hr1.
    destruct (checkRateLimit_local (nowCreate q) (now q) u (cost q) self self' Hb Hc Hr)
      as [Hans Hnext].
    rewrite Hans. f_equal. apply IH; congruence.
  - apply String.eqb_neq in E. rewrite answers_for_cons_other by exact E.
    apply IH; [|congruence|congruence].
    rewrite checkRateLimit_frame by exact E. exact Hb.
Qed.

Lemma answers_of_bucket u requests : forall self b,
  userBuckets self !! u = Some b ->
  answers_for u (check_all requests self)
  = decision <$> TokenBucket.consume_all
                   ((fun q => (now q, cost q)) <$> requests_of u requests) b.
Proof.
  induction requests as [|q rest IH]; intros self b Hb; [reflexivity|].
  cbn [check_all requests_of List.filter].
  destruct (String.eqb (userId q) u) eqn:E.
  - apply String.eqb_eq in E. rewrite E, answers_for_cons_same.
    cbn [fmap list_fmap TokenBucket.consume_all].
    rewrite (checkRateLimit_known _ _ _ _ _ _ Hb). cbn [fst snd]. f_equal.
    apply IH. simpl. apply lookup_insert_eq.
  - apply String.eqb_neq in E. rewrite answers_for_cons_other by exact E.
    apply IH. rewrite checkRateLimit_frame by exact E. exact Hb.
Qed.

(** *** The cleanup *)

Lemma cleanupInactiveUsers_lookup now0 maxAgeMs self u :
  userBuckets (cleanupInactiveUsers now0 maxAgeMs self) !! u
  = match userBuckets self !! u with
    | Some b => if gtb (now0 - lastRefillTime b) maxAgeMs then None else Some b
    | None => None
    end.
Proof.
  unfold cleanupInactiveUsers. cbn [userBuckets set_userBuckets].
  rewrite RegistryFacts.lookup_foldl_delete.
  destruct (userBuckets self !! u) as [b|] eqn:Hk.
  - destruct (gtb (now0 - lastRefillTime b) maxAgeMs) eqn:Hs.
    + rewrite bool_decide_eq_true_2; [reflexivity|].
      apply list_elem_of_fmap. exists (u, b). split; [reflexivity|].
      apply list_elem_of_In, filter_In. split.
      * apply list_elem_of_In, elem_of_map_to_list, Hk.
      * exact Hs.
    + rewrite bool_decide_eq_false_2; [reflexivity|].
      intros H. apply list_elem_of_fmap in H as ([k' b'] & Hk' & Hin).
      simpl in Hk'. subst k'.
      apply list_elem_of_In, filter_In in Hin as [Hin Hst].
      apply list_elem_of_In, elem_of_map_to_list in Hin. simpl in Hst.
      unfold getState in Hst. congruence.
  - destruct (bool_decide _); reflexivity.
Qed.

Lemma new_default nowC self :
  0 < defaultCapacity self -> 0 < defaultRefillRate self ->
  TokenBucket.new nowC nowC (default_config self)
  = Returns (fresh_bucket (defaultCapacity self) (defaultRefillRate self) nowC).
Proof.
  intros Hc Hr. unfold TokenBucket.new, validateConfig, default_config. simpl.
  rewrite (proj2 (leb_gt _ _) Hc), (proj2 (leb_gt _ _) Hr). reflexivity.
Qed.

(** A full bucket stays full under a refill. *)
Lemma refill_fresh cap rate t now0 :
  0 < rate -> t <= now0 ->
  same_state (refill now0 (fresh_bucket cap rate t)) (fresh_bucket cap rate now0).
Proof.
  intros Hr Ht. unfold refill, fresh_bucket. simpl.
  destruct (leb (now0 - t) 0) eqn:E.
  - apply leb_le in E. repeat split; simpl; lra.
  - apply leb_gt in E. repeat split; simpl; try lra.
    apply Q.min_l. assert (0 <= (now0 - t) / 1000 * rate); [|lra].
    apply Qmult_le_0_compat; [|lra]. apply Qle_shift_div_l; lra.
Qed.

(** A bucket that has been idle for longer than a full refill takes is
    full at its next refill. *)
Lemma refill_idle b t maxAgeMs now0 :
  0 < capacity b -> 0 < refillRate b -> 0 <= tokens b ->
  capacity b <= (maxAgeMs / 1000) * refillRate b ->
  maxAgeMs < t - lastRefillTime b -> t <= now0 ->
  same_state (refill now0 b) (fresh_bucket (capacity b) (refillRate b) now0).
Proof.
  intros Hc Hr Ht Hfull Hidle Hnow. unfold refill, fresh_bucket.
  assert (0 <= maxAgeMs) as Hm.
  { destruct (Qlt_le_dec maxAgeMs 0) as [Hm|Hm]; [|exact Hm]. exfalso.
    assert (0 <= - maxAgeMs / 1000 * refillRate b) as H.
    { apply Qmult_le_0_compat; [|lra]. apply Qle_shift_div_l; lra. }
    assert (maxAgeMs / 1000 * refillRate b == - (- maxAgeMs / 1000 * refillRate b)) as E
      by field.
    lra. }
  destruct (leb (now0 - lastRefillTime b) 0) eqn:E; [apply leb_le in E; lra|].
  repeat split; simpl; try lra.
  apply Q.min_l.
  assert (maxAgeMs / 1000 * refillRate b <= (now0 - lastRefillTime b) / 1000 * refillRate b);
    [|lra].
  apply Qmult_le_compat_r; [|lra].
  apply Qmult_le_compat_r; [lra|]. apply Qlt_le_weak, Qinv_lt_0_compat. lra.
Qed.

End UserLimiterFacts.

Module UserLimiterSteps.
Import JsNum JsNumFacts TokenBucket Observation ObservationFacts UserRateLimiter UserLimiterFacts.
Local Open Scope Q_scope.

Lemma same_from_later t t' a b : same_from t a b -> t <= t' -> same_from t' a b.
Proof.
  intros [Hc H] Ht. split; [exact Hc|]. intros now0 Hn. apply H. lra.
Qed.

Lemma decision_same o o' : same_outcome o o' -> decision o = decision o'.
Proof.
  destruct o as [r|e], o' as [r'|e']; simpl; try contradiction.
  - intros (Ha & _). rewrite Ha. reflexivity.
  - intros ->. reflexivity.
Qed.

(** A new bucket and one that has been idle for a full refill are alike. *)
Lemma fresh_same_from cap rate t b :
  0 < rate -> capacity b = cap ->
  (forall now0, t <= now0 ->
     same_state (refill now0 b) (fresh_bucket cap rate now0)) ->
  same_from t (fresh_bucket cap rate t) b.
Proof.
  intros Hr Hc H. split; [simpl; rewrite Hc; reflexivity|].
  intros now0 Hn.
  eapply same_state_trans; [apply refill_fresh; assumption|].
  apply same_state_sym, H, Hn.
Qed.

(** One call on two limiters that are alike. *)
Lemma checkRateLimit_alike t nowC now0 u n x y :
  0 < defaultCapacity y -> 0 < defaultRefillRate y ->
  alike_from t x y -> t <= nowC -> nowC <= now0 ->
  fst (checkRateLimit nowC now0 u n x) = fst (checkRateLimit nowC now0 u n y) /\
  alike_from now0 (snd (checkRateLimit nowC now0 u n x)) (snd (checkRateLimit nowC now0 u n y)).
Proof.
  intros Hcap Hrate (Hdc & Hdr & Hall) Ht Hn.
  destruct (checkRateLimit_defaults nowC now0 u n x) as [Hxc Hxr].
  destruct (checkRateLimit_defaults nowC now0 u n y) as [Hyc Hyr].
  assert (Hother : forall u', u <> u' ->
            match userBuckets (snd (checkRateLimit nowC now0 u n x)) !! u',
                  userBuckets (snd (checkRateLimit nowC now0 u n y)) !! u' with
            | Some a, Some b => same_from now0 a b
            | None, Some b =>
                capacity b = defaultCapacity (snd (checkRateLimit nowC now0 u n y)) /\
                forall now1, now0 <= now1 ->
                  same_state (refill now1 b)
                    (fresh_bucket (defaultCapacity (snd (checkRateLimit nowC now0 u n y)))
                                  (defaultRefillRate (snd (checkRateLimit nowC now0 u n y))) now1)
            | None, None => True
            | Some _, None => False
            end).
  { intros u' Hne. rewrite !checkRateLimit_frame by exact Hne. rewrite Hyc, Hyr.
    specialize (Hall u').
    destruct (userBuckets x !! u') as [a|], (userBuckets y !! u') as [b|]; try exact Hall.
    - apply (same_from_later t); [exact Hall|lra].
    - destruct Hall as [Hc H]. split; [exact Hc|]. intros now1 H1. apply H. lra. }
  assert (Hsame : forall a b, same_from nowC a b ->
            userBuckets x !! u = Some a \/
            (userBuckets x !! u = None /\
             TokenBucket.new nowC nowC (default_config x) = Returns a) ->
            userBuckets y !! u = Some b \/
            (userBuckets y !! u = None /\
             TokenBucket.new nowC nowC (default_config y) = Returns b) ->
            fst (checkRateLimit nowC now0 u n x) = fst (checkRateLimit nowC now0 u n y) /\
            alike_from now0 (snd (checkRateLimit nowC now0 u n x))
                            (snd (checkRateLimit nowC now0 u n y))).
  { intros a b Hab Hx Hy.
    destruct (tryConsume_same_from nowC now0 n a b Hab Hn) as [Hout Hnext].
    assert (Ex : checkRateLimit nowC now0 u n x
                 = (decision (fst (TokenBucket.tryConsume now0 n a)),
                    set_userBuckets
                      (<[u := snd (TokenBucket.tryConsume now0 n a)]>
                         (match userBuckets x !! u with
                          | Some _ => userBuckets x
                          | None => <[u := a]> (userBuckets x)
                          end)) x)).
    { unfold checkRateLimit. destruct Hx as [Hx|[Hx Hnew]]; rewrite Hx; [reflexivity|].
      rewrite Hnew. reflexivity. }
    assert (Ey : checkRateLimit nowC now0 u n y
                 = (decision (fst (TokenBucket.tryConsume now0 n b)),
                    set_userBuckets
                      (<[u := snd (TokenBucket.tryConsume now0 n b)]>
                         (match userBuckets y !! u with
                          | Some _ => userBuckets y
                          | None => <[u := b]> (userBuckets y)
                          end)) y)).
    { unfold checkRateLimit. destruct Hy as [Hy|[Hy Hnew]]; rewrite Hy; [reflexivity|].
      rewrite Hnew. reflexivity. }
    split.
    - rewrite Ex, Ey. simpl. apply decision_same, Hout.
    - split; [congruence|]. split; [congruence|].
      intros u'. destruct (decide (u = u')) as [<-|Hne]; [|apply Hother, Hne].
      rewrite Ex, Ey. simpl. rewrite !lookup_insert_eq. exact Hnext. }
  pose proof (Hall u) as Hu.
  destruct (userBuckets x !! u) as [a|] eqn:Ex, (userBuckets y !! u) as [b|] eqn:Ey.
  - apply (Hsame a b); [apply (same_from_later t); [exact Hu|exact Ht]|left; reflexivity..].
  - contradiction.
  - destruct Hu as [Hc H].
    apply (Hsame (fresh_bucket (defaultCapacity y) (defaultRefillRate y) nowC) b).
    + apply fresh_same_from; [exact Hrate|exact Hc|].
      intros now1 H1. apply H. lra.
    + right. split; [reflexivity|]. rewrite <- Hdc, <- Hdr. apply new_default; congruence.
    + left. reflexivity.
  - apply (Hsame (fresh_bucket (defaultCapacity y) (defaultRefillRate y) nowC)
                 (fresh_bucket (defaultCapacity y) (defaultRefillRate y) nowC)).
    + apply same_from_of_same_state, same_state_refl.
    + right. split; [reflexivity|]. rewrite <- Hdc, <- Hdr. apply new_default; congruence.
    + right. split; [reflexivity|]. apply new_default; assumption.
Qed.

Lemma check_all_alike requests : forall t x y,
  0 < defaultCapacity y -> 0 < defaultRefillRate y ->
  alike_from t x y -> clock_from t requests ->
  check_all requests x = check_all requests y.
Proof.
  induction requests as [|q rest IH]; intros t x y Hcap Hrate Hxy Hclock; [reflexivity|].
  destruct Hclock as (Ht & Hn & Hrest). cbn [check_all].
  destruct (checkRateLimit_alike t (nowCreate q) (now q) (userId q) (cost q) x y
              Hcap Hrate Hxy Ht Hn) as [Hans Hnext].
  destruct (checkRateLimit_defaults (nowCreate q) (now q) (userId q) (cost q) y) as [Hyc Hyr].
  rewrite Hans. f_equal.
  apply (IH (now q)); [rewrite Hyc; exact Hcap|rewrite Hyr; exact Hrate|exact Hnext|exact Hrest].
Qed.

(** The limiter after a cleanup that only drops buckets that have been
    idle for a full refill, against the limiter before it. *)
Lemma cleanup_alike t maxAgeMs self :
  0 < defaultCapacity self -> 0 < defaultRefillRate self ->
  built_from_defaults self ->
  defaultCapacity self <= (maxAgeMs / 1000) * defaultRefillRate self ->
  alike_from t (cleanupInactiveUsers t maxAgeMs self) self.
Proof.
  intros Hcap Hrate Hbuilt Hfull. split; [reflexivity|]. split; [reflexivity|].
  intros u. rewrite cleanupInactiveUsers_lookup.
  destruct (userBuckets self !! u) as [b|] eqn:Hb; [|exact I].
  destruct (Hbuilt u b Hb) as (Hc & Hr & _ & _ & Htok & _).
  destruct (gtb (t - lastRefillTime b) maxAgeMs) eqn:Hs.
  - apply gtb_gt in Hs. split; [exact Hc|]. intros now0 Hn.
    rewrite <- Hc, <- Hr. apply (refill_idle b t maxAgeMs now0); try assumption.
    + rewrite Hc. exact Hcap.
    + rewrite Hr. exact Hrate.
    + rewrite Hc, Hr. exact Hfull.
  - apply same_from_of_same_state, same_state_refl.
Qed.

(** Every limiter that a client can build stores buckets of the default
    capacity and rate, well formed. *)
Lemma tryConsume_refillRate now0 n b : refillRate (snd (tryConsume now0 n b)) = refillRate b.
Proof.
  unfold tryConsume. destruct (leb n 0); [reflexivity|].
  destruct (gtb n (capacity b)); [reflexivity|].
  unfold consumeStep. destruct (geb _ _); simpl; apply refill_refillRate.
Qed.

Lemma checkRateLimit_built nowC now0 u n self :
  built_from_defaults self ->
  built_from_defaults (snd (checkRateLimit nowC now0 u n self)).
Proof.
  intros Hbuilt u' b'.
  destruct (checkRateLimit_defaults nowC now0 u n self) as [-> ->].
  destruct (decide (u = u')) as [<-|Hne].
  - unfold checkRateLimit.
    destruct (userBuckets self !! u) as [b|] eqn:Hb.
    + simpl. rewrite lookup_insert_eq. intros [= <-].
      destruct (Hbuilt u b Hb) as (Hc & Hr & Hwf).
      rewrite tryConsume_capacity, tryConsume_refillRate.
      split; [exact Hc|]. split; [exact Hr|].
      apply TokenBucketFacts.tryConsume_well_formed, Hwf.
    + destruct (TokenBucket.new nowC nowC (default_config self)) as [b|e] eqn:Hnew.
      * simpl. rewrite lookup_insert_eq. intros [= <-].
        rewrite tryConsume_capacity, tryConsume_refillRate.
        pose proof (TokenBucketFacts.new_well_formed _ _ _ _ Hnew) as Hwf.
        unfold TokenBucket.new in Hnew.
        destruct (validateConfig nowC (default_config self)); [discriminate|].
        injection Hnew as <-. simpl.
        split; [reflexivity|]. split; [reflexivity|].
        apply TokenBucketFacts.tryConsume_well_formed, Hwf.
      * simpl. rewrite Hb. discriminate.
  - rewrite checkRateLimit_frame by exact Hne. apply Hbuilt.
Qed.

Lemma cleanupInactiveUsers_built now0 maxAgeMs self :
  built_from_defaults self ->
  built_from_defaults (cleanupInactiveUsers now0 maxAgeMs self).
Proof.
  intros Hbuilt u b. rewrite cleanupInactiveUsers_lookup.
  destruct (userBuckets self !! u) as [b'|] eqn:Hb; [|discriminate].
  destruct (gtb _ _); [discriminate|]. intros [= <-]. apply (Hbuilt u b' Hb).
Qed.

Lemma run_calls_built calls : forall self,
  built_from_defaults self ->
  built_from_defaults (run_calls calls self) /\
  defaultCapacity (run_calls calls self) = defaultCapacity self /\
  defaultRefillRate (run_calls calls self) = defaultRefillRate self.
Proof.
  induction calls as [|c calls IH]; intros self Hbuilt; [auto|].
  change (run_calls (c :: calls) self) with (run_calls calls (run_call self c)).
  destruct c as [q|now0 maxAgeMs]; cbn [run_call].
  - destruct (checkRateLimit_defaults (nowCreate q) (now q) (userId q) (cost q) self)
      as [Hc Hr].
    destruct (IH _ (checkRateLimit_built (nowCreate q) (now q) (userId q) (cost q) self Hbuilt))
      as (H1 & H2 & H3).
    split; [exact H1|]. split; congruence.
  - destruct (IH _ (cleanupInactiveUsers_built now0 maxAgeMs self Hbuilt)) as (H1 & H2 & H3).
    split; [exact H1|]. split; [exact H2|exact H3].
Qed.

Lemma new_built cap rate : built_from_defaults (UserRateLimiter.new cap rate).
Proof. intros u b H. simpl in H. rewrite lookup_empty in H. discriminate. Qed.

End UserLimiterSteps.

Module UserLimiterLaws.
Import JsNum JsNumFacts TokenBucket Observation ObservationFacts UserRateLimiter.
Import UserLimiterFacts UserLimiterSteps.
Local Open Scope Q_scope.

(** X23. The users of a [UserRateLimiter] do not interfere. In any
    sequence of awaited [checkRateLimit] calls, the answers that a user
    gets are the ones the user would get if no other user made a call; and
    for a user who has a bucket, they are the decisions of
    [TokenBucket.tryConsume] on that bucket for the requests of the user. *)
Theorem users_do_not_interfere :
  forall requests self u,
    answers_for u (check_all requests self)
    = answers_for u (check_all (requests_of u requests) self) /\
    (forall b, userBuckets self !! u = Some b ->
       answers_for u (check_all requests self)
       = decision <$> TokenBucket.consume_all
                        ((fun q => (now q, cost q)) <$> requests_of u requests) b).
Proof.
  intros requests self u. split.
  - apply answers_alone; reflexivity.
  - intros b Hb. apply answers_of_bucket, Hb.
Qed.

Lemma users_do_not_interfere_witness :
  let self := UserRateLimiter.new 2 1 in
  let q u t := {| userId := u; cost := 1; nowCreate := t; now := t |} in
  let requests := [q "ann" 0; q "bob" 0; q "ann" 1; q "bob" 2; q "bob" 3; q "ann" 4; q "ann" 5] in
  answers_for "ann" (check_all requests self)
  = [Returns true; Returns true; Returns false; Returns false] /\
  answers_for "ann" (check_all (requests_of "ann" requests) self)
  = [Returns true; Returns true; Returns false; Returns false].
Proof.
  intros self q requests.
  rewrite <- (proj1 (users_do_not_interfere requests self "ann")).
  split; vm_compute; reflexivity.
Defined.

(** X24. A cleanup that waits for a full refill is invisible. Take a
    limiter with positive defaults, after any calls of [checkRateLimit] and
    [cleanupInactiveUsers]. When [maxAgeMs] is at least the time in which
    an empty bucket refills to the default capacity,
    [cleanupInactiveUsers(maxAgeMs)] changes no later answer: every
    sequence of awaited [checkRateLimit] calls, with a clock that does not
    go back, gets the same answers after the cleanup as without it. *)
Theorem cleanup_after_full_refill_is_invisible :
  forall cap rate history t maxAgeMs requests,
    0 < cap -> 0 < rate ->
    cap <= (maxAgeMs / 1000) * rate ->
    clock_from t requests ->
    check_all requests
      (cleanupInactiveUsers t maxAgeMs (run_calls history (UserRateLimiter.new cap rate)))
    = check_all requests (run_calls history (UserRateLimiter.new cap rate)).
Proof.
  intros cap rate history t maxAgeMs requests Hcap Hrate Hfull Hclock.
  destruct (run_calls_built history _ (new_built cap rate)) as (Hbuilt & Hc & Hr).
  simpl in Hc, Hr.
  apply (check_all_alike requests t); try assumption; try (rewrite ?Hc, ?Hr; assumption).
  apply cleanup_alike; rewrite ?Hc, ?Hr; assumption.
Qed.

Lemma cleanup_after_full_refill_is_invisible_witness :
  let q u t := {| userId := u; cost := 1; nowCreate := t; now := t |} in
  let history := [CallCheckRateLimit (q "ann" 0); CallCheckRateLimit (q "ann" 0);
                  CallCheckRateLimit (q "bob" 1500)] in
  let requests := [q "ann" 2500; q "ann" 2500; q "ann" 2500; q "bob" 2600; q "cy" 2700] in
  let self := run_calls history (UserRateLimiter.new 2 1) in
  userBuckets (cleanupInactiveUsers 2500 2000 self) !! "ann" = None /\
  check_all requests (cleanupInactiveUsers 2500 2000 self) = check_all requests self.
Proof.
  intros q history requests self. split; [vm_compute; reflexivity|].
  apply (cleanup_after_full_refill_is_invisible 2 1 history 2500 2000 requests).
  - reflexivity.
  - reflexivity.
  - unfold Qle. simpl. lia.
  - simpl. unfold Qle. simpl. repeat split; lia.
Defined.

End UserLimiterLaws.

Module ExampleLimiterFacts.
Import JsNum JsNumFacts TokenBucket.
Local Open Scope Q_scope.

(** [tryConsume] on a bucket that the constructor has just made from a
    capacity and a rate: a request within the capacity is allowed, whatever
    the clock reads. *)
Lemma tryConsume_fresh cap rate t now0 n :
  0 < rate -> 0 < n -> n <= cap ->
  exists r b,
    tryConsume now0 n (UserRateLimiter.fresh_bucket cap rate t) = (Returns r, b) /\
    allowed r = true /\ remainingTokens r == cap - n.
Proof.
  intros Hr Hn Hcap. unfold tryConsume, UserRateLimiter.fresh_bucket. cbn [capacity].
  rewrite (proj2 (leb_gt _ _) Hn), (proj2 (gtb_le _ _) Hcap).
  unfold consumeStep, refill. cbn [lastRefillTime tokens capacity refillRate].
  destruct (leb (now0 - t) 0) eqn:E; cbn [tokens capacity refillRate lastRefillTime].
  - rewrite (proj2 (geb_ge _ _) Hcap). eexists _, _. split; [reflexivity|].
    split; [reflexivity|]. simpl. reflexivity.
  - apply leb_gt in E.
    assert (Hmin : Qmin cap (cap + (now0 - t) / 1000 * rate) == cap).
    { apply Q.min_l. pose proof (refill_amount_pos (now0 - t) rate E Hr). lra. }
    assert (Hge : geb (Qmin cap (cap + (now0 - t) / 1000 * rate)) n = true).
    { apply geb_ge. rewrite Hmin. exact Hcap. }
    rewrite Hge. eexists _, _. split; [reflexivity|].
    split; [reflexivity|]. simpl. rewrite Hmin. reflexivity.
Qed.

(** What the constructor returns when it is given a capacity and a rate. *)
Lemma new_of_capacity_and_rate t cap rate b :
  TokenBucket.new t t {| cfg_capacity := cap; cfg_refillRate := rate;
                         cfg_initialTokens := None; cfg_lastRefillTime := None |}
  = Returns b ->
  0 < cap /\ 0 < rate /\ b = UserRateLimiter.fresh_bucket cap rate t.
Proof.
  unfold TokenBucket.new, validateConfig. cbn.
  destruct (leb cap 0) eqn:Hc; [discriminate|].
  destruct (leb rate 0) eqn:Hr; [discriminate|].
  intros [= <-]. apply leb_gt in Hc, Hr. repeat split; assumption.
Qed.

Lemma tryConsume_returns now0 n b r b' :
  tryConsume now0 n b = (Returns r, b') -> 0 < n /\ n <= capacity b.
Proof.
  unfold tryConsume. destruct (leb n 0) eqn:Hn; [discriminate|].
  destruct (gtb n (capacity b)) eqn:Hc; [discriminate|].
  intros _. apply leb_gt in Hn. apply gtb_le in Hc. split; assumption.
Qed.

End ExampleLimiterFacts.

Module TieredLimiterLaws.
Import JsNum JsNumFacts TieredRateLimiter ExampleLimiterFacts.
Local Open Scope Q_scope.

(** X25. [TieredRateLimiter.checkRateLimit] never denies. It makes a new,
    full bucket for every call, so whatever calls came before and whatever
    the clock reads it never returns [allowed: false]: for a user whose
    tier has a capacity of at least 1 and a positive rate it returns
    [allowed: true] with [capacity - 1] tokens remaining, every time. *)
Theorem tiered_limiter_never_denies :
  forall self userId nowCreate now,
    (forall r, checkRateLimit nowCreate now userId self = Returns r -> allowed r = true) /\
    (forall t,
        tiers self !! tier_name_of userId self = Some t ->
        1 <= capacity t -> 0 < refillRate t ->
        exists r,
          checkRateLimit nowCreate now userId self = Returns r /\
          allowed r = true /\ tier r = tier_name_of userId self /\
          remaining r == capacity t - 1).
Proof.
  intros self userId nowCreate now0.
  assert (Hvalid : forall t,
             tiers self !! tier_name_of userId self = Some t ->
             1 <= capacity t -> 0 < refillRate t ->
             exists r,
               checkRateLimit nowCreate now0 userId self = Returns r /\
               allowed r = true /\ tier r = tier_name_of userId self /\
               remaining r == capacity t - 1).
  { intros t Ht Hcap Hrate. unfold checkRateLimit. rewrite Ht.
    assert (0 < capacity t) as Hpos by lra.
    unfold TokenBucket.new, TokenBucket.validateConfig. cbn.
    rewrite (proj2 (leb_gt _ _) Hpos), (proj2 (leb_gt _ _) Hrate).
    destruct (tryConsume_fresh (capacity t) (refillRate t) nowCreate now0 1 Hrate)
      as (r & b & Hrun & Hall & Hrem); [reflexivity|exact Hcap|].
    unfold UserRateLimiter.fresh_bucket in Hrun. rewrite Hrun. cbn [fst].
    eexists. split; [reflexivity|]. cbn. repeat split; assumption. }
  split; [|exact Hvalid].
  intros r Hr. unfold checkRateLimit in Hr.
  destruct (tiers self !! tier_name_of userId self) as [t|] eqn:Ht; [|discriminate].
  destruct (TokenBucket.new _ _ _) as [b|e] eqn:Hnew; [|discriminate].
  apply new_of_capacity_and_rate in Hnew as (Hcap & Hrate & ->).
  destruct (TokenBucket.tryConsume now0 1 _) as [[res|e] b'] eqn:Hrun; [|discriminate].
  destruct (tryConsume_returns _ _ _ _ _ Hrun) as [_ Hone]. cbn in Hone.
  destruct (tryConsume_fresh (capacity t) (refillRate t) nowCreate now0 1 Hrate)
    as (r0 & b0 & Hrun0 & Hall & _); [reflexivity|exact Hone|].
  rewrite Hrun0 in Hrun. injection Hrun as <- <-.
  cbn [fst] in Hr. injection Hr as <-. exact Hall.
Qed.

Lemma tiered_limiter_never_denies_witness :
  let free := {| name := "free"; capacity := 2; refillRate := 1 / 60 |} in
  let self := TieredRateLimiter.new [free] in
  exists r,
    checkRateLimit 0 0 "ann" self = Returns r /\
    allowed r = true /\ tier r = "free"%string /\ remaining r == 2 - 1.
Proof.
  intros free self.
  apply (proj2 (tiered_limiter_never_denies self "ann" 0 0) free).
  - vm_compute. reflexivity.
  - unfold Qle. simpl. lia.
  - reflexivity.
Defined.

End TieredLimiterLaws.

Module BatchLimiterLaws.
Import JsNum JsNumFacts BatchRateLimiter ExampleLimiterFacts.
Local Open Scope Q_scope.

Lemma process_items_spec {T E} (processor : T -> option E) (items : list T) :
  match process_items processor items with
  | (Returns _, called) => called = items /\ Forall (fun x => processor x = None) items
  | (Throws e, called) =>
      exists before item rest e',
        items = before ++ item :: rest /\ called = before ++ [item] /\
        Forall (fun x => processor x = None) before /\
        processor item = Some e' /\ e = ProcessorError e'
  end.
Proof.
  induction items as [|x items IH]; cbn [process_items]; [split; [reflexivity|constructor]|].
  destruct (processor x) as [e|] eqn:Hx.
  - exists [], x, items, e. split; [reflexivity|]. split; [reflexivity|].
    split; [constructor|]. split; [exact Hx|reflexivity].
  - destruct (process_items processor items) as [[[]|e] called].
    + destruct IH as [-> Hall]. split; [reflexivity|]. constructor; assumption.
    + destruct IH as (before & item & rest & e' & -> & -> & Hall & Hitem & ->).
      exists (x :: before), item, rest, e'. repeat split; try reflexivity; try assumption.
      constructor; assumption.
Qed.

(** X26. [processBatch] handles a batch as a whole. When it returns, the
    processor has been called on every item, in order, after
    [tryConsume(items.length)] was allowed on the bucket. When it rejects
    because the batch is too large, the bucket refuses the amount or the
    rate limit is hit, the processor has not been called at all. An empty
    batch is always rejected. When the processor fails on an item, the
    items before it have been processed, the ones after it have not, and
    the tokens of the whole batch stay consumed. *)
Theorem batch_is_processed_as_a_whole :
  forall (T E : Type) now (items : list T) (processor : T -> option E) self r self' called,
    processBatch now items processor self = (r, self', called) ->
    (r = Returns tt ->
       called = items /\ Forall (fun x => processor x = None) items /\
       size_of items <= maxBatchSize self /\
       exists res,
         TokenBucket.tryConsume now (size_of items) (bucket self) = (Returns res, bucket self') /\
         TokenBucket.allowed res = true) /\
    (forall e, r = Throws e ->
       match e with
       | ProcessorError e' =>
           exists before item rest res,
             items = before ++ item :: rest /\ called = before ++ [item] /\
             processor item = Some e' /\
             TokenBucket.tryConsume now (size_of items) (bucket self)
             = (Returns res, bucket self') /\
             TokenBucket.allowed res = true
       | _ => called = []
       end) /\
    (items = [] -> exists e, r = Throws e /\ called = []).
Proof.
  intros T E now0 items processor self r self' called. unfold processBatch.
  destruct (gtb (size_of items) (maxBatchSize self)) eqn:Hsize.
  { intros [= <- <- <-]. split; [discriminate|]. split.
    - intros e [= <-]. reflexivity.
    - intros _. eexists. split; reflexivity. }
  apply gtb_le in Hsize.
  destruct (TokenBucket.tryConsume now0 (size_of items) (bucket self)) as [[res|e] b'] eqn:Hrun;
    cbn [fst snd].
  2:{ intros [= <- <- <-]. split; [discriminate|]. split.
      - intros e0 [= <-]. reflexivity.
      - intros _. eexists. split; reflexivity. }
  destruct (TokenBucket.allowed res) eqn:Hall; cbn [negb].
  2:{ intros [= <- <- <-]. split; [discriminate|]. split.
      - intros e0 [= <-]. reflexivity.
      - intros _. eexists. split; reflexivity. }
  pose proof (process_items_spec processor items) as Hspec.
  destruct (process_items processor items) as [r0 called0].
  intros [= <- <- <-]. cbn [bucket].
  apply tryConsume_returns in Hrun as Hpos.
  split; [|split].
  - intros ->. destruct Hspec as [-> Hok].
    repeat split; try assumption. exists res. split; [reflexivity|exact Hall].
  - intros e ->. destruct Hspec as (before & item & rest & e' & -> & -> & Hok & Hitem & ->).
    exists before, item, rest, res. repeat split; try assumption.
  - intros ->. exfalso. destruct Hpos as [Hpos _].
    unfold size_of, Qlt in Hpos. simpl in Hpos. lia.
Qed.

Lemma batch_is_processed_as_a_whole_witness :
  let self := {| bucket := UserRateLimiter.fresh_bucket 5 1 0; maxBatchSize := 10 |} in
  let processor := fun x : nat => if (x =? 2)%nat then Some "failed"%string else None in
  exists before item rest res self',
    [1; 2; 3]%nat = before ++ item :: rest /\
    processBatch 0 [1; 2; 3]%nat processor self
    = (Throws (ProcessorError "failed"%string), self', before ++ [item]) /\
    TokenBucket.tryConsume 0 3 (bucket self) = (Returns res, bucket self') /\
    TokenBucket.tokens (bucket self') == 2.
Proof.
  intros self processor.
  destruct (processBatch 0 [1; 2; 3]%nat processor self) as [[r self'] called] eqn:Hrun.
  assert (r = Throws (ProcessorError "failed"%string)) as Hr.
  { revert Hrun. vm_compute. intros [= <- _ _]. reflexivity. }
  assert (TokenBucket.tokens (bucket self') == 2) as Htok.
  { revert Hrun. vm_compute. intros [= _ <- _]. reflexivity. }
  destruct (batch_is_processed_as_a_whole nat string 0 [1; 2; 3]%nat processor self
              r self' called Hrun) as (_ & Hthrow & _).
  destruct (Hthrow _ Hr) as (before & item & rest & res & Hitems & Hcalled & _ & Hcons & _).
  exists before, item, rest, res, self'. rewrite <- Hcalled, <- Hr.
  repeat split; assumption.
Defined.

End BatchLimiterLaws.

(** * The whole interface of [TokenBucket] *)

Module TokenBucketInterface.
Import JsNum JsNumFacts TokenBucket TokenBucketFacts.
Local Open Scope Q_scope.

Lemma updateConfig_well_formed now config b :
  well_formed b -> well_formed (snd (updateConfig now config b)).
Proof.
  intros Hb. unfold updateConfig.
  destruct (validateConfig now (updateConfig_candidate config b)) eqn:Hv; [exact Hb|].
  apply validateConfig_ok in Hv as (Hc & Hr & Hi).
  destruct (Hi _ eq_refl) as [H0 Hcap]. cbn in Hc, Hr, Hcap.
  unfold updateConfig_commit. cbn [snd].
  destruct (new_capacity config) as [c|], (new_refillRate config) as [r|];
    cbn in *; repeat split; cbn; try assumption;
    try (apply Q.min_glb; lra); try apply Q.le_min_r.
Qed.

Lemma reset_well_formed now x b :
  well_formed b ->
  match x with Some i => 0 <= i /\ i <= capacity b | None => True end ->
  well_formed (reset now x b).
Proof.
  intros (Hc & Hr & H0 & Hcap) Hx. unfold reset.
  destruct x as [i|]; cbn; repeat split; cbn; try assumption; try lra; apply Hx.
Qed.

Lemma invoke_well_formed b m :
  well_formed b ->
  match m with
  | MethodReset _ (Some x) => 0 <= x /\ x <= capacity b
  | _ => True
  end ->
  well_formed (invoke b m).
Proof.
  intros Hb Hm. destruct m as [now0 n|n|now0 x|now0 config]; cbn [invoke].
  - apply tryConsume_well_formed, Hb.
  - apply addTokens_well_formed, Hb.
  - apply reset_well_formed; [exact Hb|]. destruct x; [exact Hm|exact I].
  - apply updateConfig_well_formed, Hb.
Qed.

(** X27. The invariant over the whole interface of [TokenBucket]. From a
    well-formed bucket, every sequence of [tryConsume], [addTokens],
    [reset] and (awaited) [updateConfig] calls, with whatever finite
    numbers as arguments and clock readings, keeps the capacity and the
    rate positive and [0 <= tokens <= capacity] after every call, provided
    each [reset(x)] is given an amount between 0 and the capacity. [reset]
    is the one method that does not check its argument: [reset(x)] leaves a
    well-formed bucket exactly when [0 <= x <= capacity]. NaN and the
    infinities are not among the numbers of this embedding: the guards of
    the code let NaN through, and nothing is said of such arguments. *)
Theorem every_method_keeps_the_bucket_well_formed :
  forall ms b,
    well_formed b ->
    (resets_within_capacity b ms ->
     forall k, well_formed (foldl invoke b (List.firstn k ms))) /\
    (forall now x, well_formed (reset now (Some x) b) <-> 0 <= x /\ x <= capacity b).
Proof.
  intros ms b Hb. split.
  - revert b Hb. induction ms as [|m ms IH]; intros b Hb Hms k.
    + destruct k; exact Hb.
    + destruct k as [|k]; [exact Hb|]. destruct Hms as [Hm Hrest].
      cbn [List.firstn foldl]. apply IH; [|exact Hrest].
      apply invoke_well_formed; assumption.
  - intros now0 x. split.
    + intros (_ & _ & H0 & Hcap). cbn in H0, Hcap. split; assumption.
    + intros Hx. apply (reset_well_formed now0 (Some x) b Hb Hx).
Qed.

Lemma every_method_keeps_the_bucket_well_formed_witness :
  let b := {| tokens := 3; lastRefillTime := 0; capacity := 5; refillRate := 1 |} in
  let ms := [ MethodTryConsume 1000 2;
              MethodUpdateConfig 1000 {| new_capacity := Some 10; new_refillRate := None |};
              MethodReset 2000 (Some 7);
              MethodAddTokens 20;
              MethodReset 3000 None;
              MethodTryConsume 3000 10 ] in
  well_formed (foldl invoke b ms) /\
  ~ well_formed (reset 0 (Some 6) b).
Proof.
  intros b ms.
  assert (Hb : well_formed b).
  { unfold well_formed, within_capacity, b. cbn. unfold Qlt, Qle. cbn. lia. }
  destruct (every_method_keeps_the_bucket_well_formed ms b Hb) as [Hall Hreset].
  split.
  - apply (Hall ltac:(vm_compute; intuition discriminate) 6%nat).
  - intros H. apply (Hreset 0 6) in H as [_ H]. revert H. unfold b, Qle. cbn. lia.
Defined.

End TokenBucketInterface.

(** * The outcomes of [shorten], and [deleteUrl] after it *)

Module ShortenOutcomes.
Import JsStr JsStrFacts URLShortener ShortCodeFacts CollisionFacts StoreFacts.
Local Open Scope string_scope.

Section WithURLParser.
Variable parseURL : string -> option URLParts.

Local Abbreviation shorten := (shorten parseURL).
Local Abbreviation validateUrl := (validateUrl parseURL).
Local Abbreviation isValidUrl := (isValidUrl parseURL).

Lemma validateUrl_throws u e :
  validateUrl u = Some e <->
  (e = INVALID_URL_TYPE /\ u = "") \/
  (e = INVALID_URL_FORMAT /\ u <> "" /\ isValidUrl u = false) \/
  (e = URL_TOO_LONG /\ u <> "" /\ isValidUrl u = true /\ (2048 < String.length u)%nat).
Proof.
  unfold URLShortener.validateUrl.
  destruct (String.eqb u "") eqn:Hu.
  { apply String.eqb_eq in Hu. split.
    - intros [= <-]. left. split; [reflexivity|exact Hu].
    - intros [[-> _]|[(_ & H & _)|(_ & H & _)]]; [reflexivity|contradiction..]. }
  apply String.eqb_neq in Hu.
  destruct (URLShortener.isValidUrl parseURL u) eqn:Hv; cbn [negb].
  - destruct (2048 <? String.length u)%nat eqn:Hl.
    + apply Nat.ltb_lt in Hl. split.
      * intros [= <-]. right. right. repeat split; assumption.
      * intros [[_ H]|[(_ & _ & H)|(-> & _)]]; [contradiction|discriminate|reflexivity].
    + apply Nat.ltb_ge in Hl. split; [discriminate|].
      intros [[_ H]|[(_ & _ & H)|(_ & _ & _ & H)]]; [contradiction|discriminate|lia].
  - split.
    + intros [= <-]. right. left. repeat split; assumption.
    + intros [[_ H]|[(-> & _)|(_ & _ & H & _)]]; [contradiction|reflexivity|discriminate].
Qed.

Lemma resolveCollision_throws o s code u e :
  fst (resolveCollision o s code u) = Throws e <->
  e = COLLISION_RESOLUTION_FAILED /\
  forall k c, (1 <= k <= MAX_COLLISION_RETRIES)%nat ->
              In c (candidates o code u k) -> has_code s c = true.
Proof.
  unfold resolveCollision. split.
  - destruct (resolveCollision_loop o s code u 0 MAX_COLLISION_RETRIES) as [res n] eqn:H.
    apply resolveCollision_loop_spec in H as [(-> & _ & Hall)|(c & -> & _)]; simpl.
    + intros [= <-]. split; [reflexivity|]. intros k c Hk. apply Hall. lia.
    + discriminate.
  - intros [-> Hall]. rewrite resolveCollision_loop_exhausted; [reflexivity|].
    intros k c Hk. apply Hall. lia.
Qed.

Lemma chooseShortCode_throws o s u options e :
  chooseShortCode o s u options = Throws e <->
  (e = INVALID_ALIAS_LENGTH /\
   exists alias, truthy (customAlias options) = Some alias /\
     (String.length (take MAX_CUSTOM_ALIAS_LENGTH
                       (filter_chars alias_char (toLowerCase alias))) < 2)%nat) \/
  (e = ALIAS_COLLISION /\
   exists alias c, truthy (customAlias options) = Some alias /\
     normalizeCustomAlias alias = Returns c /\ has_code s c = true) \/
  (e = COLLISION_RESOLUTION_FAILED /\
   truthy (customAlias options) = None /\
   has_code s (generateUniqueShortCode u) = true /\
   forall k c, (1 <= k <= MAX_COLLISION_RETRIES)%nat ->
               In c (candidates o (generateUniqueShortCode u) u k) -> has_code s c = true).
Proof.
  unfold chooseShortCode.
  destruct (truthy (customAlias options)) as [alias|] eqn:Halias.
  - unfold aliasShortCode, normalizeCustomAlias.
    destruct (String.length _ <? 2)%nat eqn:Hlen.
    + apply Nat.ltb_lt in Hlen. split.
      * intros [= <-]. left. split; [reflexivity|]. exists alias. split; [reflexivity|exact Hlen].
      * intros [[-> _]|[(_ & a & c & [= <-] & H & _)|(_ & H & _)]];
          [reflexivity| |discriminate].
        revert H. unfold normalizeCustomAlias.
        rewrite (proj2 (Nat.ltb_lt _ _) Hlen). discriminate.
    + apply Nat.ltb_ge in Hlen.
      destruct (has_code s _) eqn:Hc; split.
      * intros [= <-]. right. left. split; [reflexivity|].
        exists alias. eexists. split; [reflexivity|].
        unfold normalizeCustomAlias. rewrite (proj2 (Nat.ltb_ge _ _) Hlen).
        split; [reflexivity|exact Hc].
      * intros [(_ & a & [= <-] & H)|[[-> _]|(_ & H & _)]]; [lia|reflexivity|discriminate].
      * discriminate.
      * intros [(_ & a & [= <-] & H)|[(_ & a & c & [= <-] & H & Hc')|(_ & H & _)]];
          [lia| |discriminate].
        revert H. unfold normalizeCustomAlias.
        rewrite (proj2 (Nat.ltb_ge _ _) Hlen). intros [= <-]. congruence.
  - unfold hashShortCode.
    destruct (has_code s (generateUniqueShortCode u)) eqn:Hc.
    + destruct (fst (resolveCollision o s (generateUniqueShortCode u) u)) as [c|e'] eqn:Hres.
      * split; [discriminate|].
        intros [(_ & a & H & _)|[(_ & a & c' & H & _)|(-> & _ & _ & Hall)]];
          [discriminate..|].
        assert (fst (resolveCollision o s (generateUniqueShortCode u) u)
                = Throws COLLISION_RESOLUTION_FAILED) as H
          by (apply resolveCollision_throws; split; [reflexivity|exact Hall]).
        congruence.
      * apply resolveCollision_throws in Hres as [-> Hall]. split.
        -- intros [= <-]. right. right. repeat split; assumption.
        -- intros [(_ & a & H & _)|[(_ & a & c' & H & _)|(-> & _)]];
             [discriminate..|reflexivity].
    + split; [discriminate|].
      intros [(_ & a & H & _)|[(_ & a & c' & H & _)|(_ & _ & H & _)]]; discriminate.
Qed.

(** X28. The errors of [shorten]. It throws exactly in these cases, with
    these codes: the URL is empty ([INVALID_URL_TYPE]), is not accepted by
    [isValidUrl] ([INVALID_URL_FORMAT]) or has more than 2048 characters
    ([URL_TOO_LONG]); or the URL is valid and not yet shortened, and the
    custom alias has fewer than 2 characters left after normalization
    ([INVALID_ALIAS_LENGTH]), or its normal form is assigned
    ([ALIAS_COLLISION]), or no alias is given and the hash-based code and
    all 15 candidates of [resolveCollision] are assigned
    ([COLLISION_RESOLUTION_FAILED]). When it throws, the store is unchanged;
    when it returns, [success] is [true]. *)
Theorem shorten_throws_exactly_when :
  forall o u options s,
    (forall e,
        fst (shorten o u options s) = Throws e <->
        (e = INVALID_URL_TYPE /\ u = "") \/
        (e = INVALID_URL_FORMAT /\ u <> "" /\ isValidUrl u = false) \/
        (e = URL_TOO_LONG /\ u <> "" /\ isValidUrl u = true /\ (2048 < String.length u)%nat) \/
        (validateUrl u = None /\ truthy (originalUrlToCodeMap s !! u) = None /\
         ((e = INVALID_ALIAS_LENGTH /\
           exists alias, truthy (customAlias options) = Some alias /\
             (String.length (take MAX_CUSTOM_ALIAS_LENGTH
                               (filter_chars alias_char (toLowerCase alias))) < 2)%nat) \/
          (e = ALIAS_COLLISION /\
           exists alias c, truthy (customAlias options) = Some alias /\
             normalizeCustomAlias alias = Returns c /\ has_code s c = true) \/
          (e = COLLISION_RESOLUTION_FAILED /\
           truthy (customAlias options) = None /\
           has_code s (generateUniqueShortCode u) = true /\
           forall k c, (1 <= k <= MAX_COLLISION_RETRIES)%nat ->
                       In c (candidates o (generateUniqueShortCode u) u k) ->
                       has_code s c = true)))) /\
    (forall e, fst (shorten o u options s) = Throws e -> snd (shorten o u options s) = s) /\
    (forall r, fst (shorten o u options s) = Returns r -> sr_success r = true).
Proof.
  intros o u options s. split; [|split].
  - intros e. unfold URLShortener.shorten.
    destruct (validateUrl u) as [e0|] eqn:Hv.
    + cbn [fst]. split.
      * intros [= <-]. apply validateUrl_throws in Hv.
        destruct Hv as [H|[H|H]]; [left|right; left|right; right; left]; exact H.
      * intros [H|[H|[H|(H & _)]]]; [| | |discriminate];
          f_equal; assert (validateUrl u = Some e) as Hv'
            by (apply validateUrl_throws; tauto); congruence.
    + assert (Hno : forall e', validateUrl u <> Some e') by (intros e'; rewrite Hv; discriminate).
      destruct (truthy (originalUrlToCodeMap s !! u)) as [c|] eqn:Hc.
      * cbn [fst]. split; [discriminate|].
        intros [H|[H|[H|(_ & H & _)]]]; [| | |discriminate];
          exfalso; apply (Hno e), validateUrl_throws; tauto.
      * destruct (chooseShortCode o s u options) as [[c b]|e0] eqn:Hch; cbn [fst].
        -- split; [discriminate|].
           intros [H|[H|[H|(_ & _ & H)]]];
             [exfalso; apply (Hno e), validateUrl_throws; tauto..|].
           apply chooseShortCode_throws in H. congruence.
        -- split.
           ++ intros [= <-]. right. right. right.
              split; [reflexivity|]. split; [reflexivity|].
              apply chooseShortCode_throws, Hch.
           ++ intros [H|[H|[H|(_ & _ & H)]]];
                [exfalso; apply (Hno e), validateUrl_throws; tauto..|].
              apply chooseShortCode_throws in H. congruence.
  - intros e. unfold URLShortener.shorten.
    destruct (validateUrl u); [reflexivity|].
    destruct (truthy (originalUrlToCodeMap s !! u)); [reflexivity|].
    destruct (chooseShortCode o s u options) as [[c b]|e0]; [discriminate|reflexivity].
  - intros r. unfold URLShortener.shorten.
    destruct (validateUrl u); [discriminate|].
    destruct (truthy (originalUrlToCodeMap s !! u)); [intros [= <-]; reflexivity|].
    destruct (chooseShortCode o s u options) as [[c b]|e0]; [|discriminate].
    intros [= <-]. reflexivity.
Qed.

(** X29. [deleteUrl] undoes a [shorten] that stored an entry. When
    [shorten u] returns for a URL that was not shortened, with an
    identifier from [generateId] that is not stored, [deleteUrl] of the
    returned code returns [true] and leaves the store exactly as it was
    before the [shorten]: all three maps are the same. *)
Theorem deleteUrl_undoes_shorten :
  forall o u options s r s1,
    urlMap s !! generateId o = None ->
    originalUrlToCodeMap s !! u = None ->
    shorten o u options s = (Returns r, s1) ->
    deleteUrl (sr_shortCode r) s1 = (true, s).
Proof.
  intros o u options s r s1 Hid Hu. unfold URLShortener.shorten.
  destruct (validateUrl u); [discriminate|]. rewrite Hu. cbn [truthy].
  destruct (chooseShortCode o s u options) as [[c b]|e] eqn:Hch; [|discriminate].
  intros [= <- <-]. cbn [sr_shortCode].
  apply chooseShortCode_free in Hch as [Hne Hfree]. apply has_code_false in Hfree.
  assert (Htr : truthy (Some (generateId o)) = Some (generateId o)).
  { apply truthy_Some. split; [reflexivity|apply generateId_nonempty]. }
  unfold deleteUrl, store_entry. cbn.
  rewrite lookup_insert_eq, Htr, lookup_insert_eq. cbn.
  rewrite !delete_insert_id by assumption.
  destruct s. reflexivity.
Qed.

End WithURLParser.

Lemma deleteUrl_undoes_shorten_witness :
  let o := Examples.oracle "1700000000000" "0.4fzyo82mvyr" in
  exists r s1,
    shorten Examples.parseURL o "https://example.com" Examples.no_options
      Examples.fresh_store = (Returns r, s1) /\
    sr_shortCode r = "gpN5q0" /\
    deleteUrl "gpN5q0" s1 = (true, Examples.fresh_store).
Proof.
  intros o.
  destruct (shorten Examples.parseURL o "https://example.com" Examples.no_options
              Examples.fresh_store) as [res s1] eqn:E.
  assert (exists r, res = Returns r /\ sr_shortCode r = "gpN5q0") as (r & -> & Hcode).
  { revert E. vm_compute. intros [= <- _]. eexists. split; reflexivity. }
  exists r, s1. split; [reflexivity|]. split; [exact Hcode|].
  rewrite <- Hcode.
  apply (deleteUrl_undoes_shorten Examples.parseURL o "https://example.com"
           Examples.no_options Examples.fresh_store r s1); [reflexivity|reflexivity|exact E].
Defined.

End ShortenOutcomes.
